(** * ver-por-que: segment hierarchy, proportional layout and drill-down navigation

    A shallow embedding of the parquet byte-range explorer:
    - [ParquetSegment]            (src/js/domain/parquet-segment.js)
    - [SegmentHierarchyBuilder]   (the hierarchy builder and its lookup functions)
    - [SegmentLayoutCalculator]   (src/js/business/segment-layout-calculator.js)
    - [SvgByteVisualizer]         (the navigation part of the SVG visualizer)
    and, for the further properties, the copies of a segment ([clone], [toJSON],
    [fromJSON]) and the geometry of the levels ([computeLevelLayout],
    [calculateCanvasHeight], [calculateConnectionGeometry], [hitTest],
    [validateConfig]).

    Conventions of the embedding.
    - A JSON field is [option]: [None] is an absent field ([undefined]).
    - Byte offsets and lengths in the payload are integers; a JavaScript number
      computed from them is a [jsint]: an integer or [NaN] (arithmetic on
      [undefined]).
    - Pixel geometry is fractional: a [jsnum] is an exact rational, an infinity or
      [NaN]; division by zero is as in the program, rounding is not modelled.
      What is stated of the program over [jsnum] is either made of comparisons
      and of the order and the structure of the results, or is about numbers
      that doubles hold and compute without rounding; the sum of the widths in
      exact arithmetic is marked as such.
    - The handlers of the visualizer catch no exception: a call that throws
      leaves the state as written so far. The page ([updateSelectionDisplay])
      and the info panel are parameters that can throw.
    - [throw] is the [Throw] constructor of [result]; every ParquetSegment
      construction can throw, so every builder lives in that monad.
    - A JavaScript object used as a string-keyed map is an association list of
      its own properties in enumeration order ([obj]); reading it at a key it
      does not own finds the properties of [Object.prototype] ([obj_read]). *)

From Stdlib Require Import ZArith QArith Lia Lqa Ascii Sorted.
From stdpp Require Import gmap strings list pretty.

Local Open Scope string_scope.
Local Open Scope list_scope.
Local Open Scope Z_scope.

(** ** JavaScript values *)

Module JS.

(** Integer-valued numbers, as the hierarchy builder computes them. *)
Inductive jsint : Type :=
| Int (z : Z)
| NaNi.

Definition add (a b : jsint) : jsint :=
  match a, b with
  | Int x, Int y => Int (x + y)
  | _, _ => NaNi
  end.

Definition sub (a b : jsint) : jsint :=
  match a, b with
  | Int x, Int y => Int (x - y)
  | _, _ => NaNi
  end.

(** [a < b]: false as soon as one side is NaN. *)
Definition lt (a b : jsint) : bool :=
  match a, b with
  | Int x, Int y => x <? y
  | _, _ => false
  end.

Definition min2 (a b : jsint) : jsint :=
  match a, b with
  | Int x, Int y => Int (Z.min x y)
  | _, _ => NaNi
  end.

Definition max2 (a b : jsint) : jsint :=
  match a, b with
  | Int x, Int y => Int (Z.max x y)
  | _, _ => NaNi
  end.

(** [Math.min(...[x, ...xs])] and [Math.max(...[x, ...xs])] on a non-empty
    array; every call site guards against the empty array. *)
Definition Math_min (x : jsint) (xs : list jsint) : jsint := foldl min2 x xs.
Definition Math_max (x : jsint) (xs : list jsint) : jsint := foldl max2 x xs.

(** ToNumber of a possibly absent numeric field. *)
Definition toNumber (x : option Z) : jsint :=
  match x with
  | Some z => Int z
  | None => NaNi
  end.

(** [x || d] on a possibly absent numeric field: [undefined] and [0] are falsy. *)
Definition or_else (x : option Z) (d : Z) : Z :=
  match x with
  | Some z => if z =? 0 then d else z
  | None => d
  end.

(** Truthiness of a possibly absent numeric field. *)
Definition truthy (x : option Z) : bool :=
  match x with
  | Some z => negb (z =? 0)
  | None => false
  end.

(** String conversion of a number, as a template literal or a property key
    performs it. *)
Definition toString (a : jsint) : string :=
  match a with
  | Int z => pretty z
  | NaNi => "NaN"
  end.

(** *** Strings *)

Definition startsWith (s p : string) : bool := String.prefix p s.

Definition includes (s sub : string) : bool :=
  match String.index 0 sub s with
  | Some _ => true
  | None => false
  end.

(** [s.split(sep)] for a one-character separator. *)
Fixpoint split_aux (sep : ascii) (acc : string) (s : string) : list string :=
  match s with
  | EmptyString => [String.rev acc]
  | String c rest =>
      if Ascii.eqb c sep then String.rev acc :: split_aux sep EmptyString rest
      else split_aux sep (String c acc) rest
  end.

Definition split (sep : ascii) (s : string) : list string := split_aux sep EmptyString s.

Definition is_digit (c : ascii) : bool :=
  let n := nat_of_ascii c in (48 <=? n)%nat && (n <=? 57)%nat.

Definition is_upper (c : ascii) : bool :=
  let n := nat_of_ascii c in (65 <=? n)%nat && (n <=? 90)%nat.

Definition is_lower (c : ascii) : bool :=
  let n := nat_of_ascii c in (97 <=? n)%nat && (n <=? 122)%nat.

(** The ASCII white space [parseInt] skips. *)
Definition is_space (c : ascii) : bool :=
  let n := nat_of_ascii c in
  (n =? 32)%nat || ((9 <=? n)%nat && (n <=? 13)%nat).

Definition digit_value (radix : Z) (c : ascii) : option Z :=
  let n := Z.of_nat (nat_of_ascii c) in
  let v :=
    if is_digit c then Some (n - 48)
    else if is_lower c then Some (n - 97 + 10)
    else if is_upper c then Some (n - 65 + 10)
    else None in
  match v with
  | Some d => if d <? radix then Some d else None
  | None => None
  end.

(** The longest prefix of digits of [s] in [radix]: its value, and whether it
    had a digit at all. *)
Fixpoint parse_digits (radix : Z) (acc : Z) (seen : bool) (s : string) : option Z :=
  match s with
  | EmptyString => if seen then Some acc else None
  | String c rest =>
      match digit_value radix c with
      | Some d => parse_digits radix (acc * radix + d) true rest
      | None => if seen then Some acc else None
      end
  end.

Fixpoint skip_spaces (s : string) : string :=
  match s with
  | String c rest => if is_space c then skip_spaces rest else s
  | EmptyString => s
  end.

Definition parse_unsigned (s : string) : option Z :=
  match s with
  | String "0" (String "x" rest) => parse_digits 16 0 false rest
  | String "0" (String "X" rest) => parse_digits 16 0 false rest
  | _ => parse_digits 10 0 false s
  end.

(** [parseInt(s)] with no radix argument; [parseInt(undefined)] is NaN. *)
Definition parseInt (s : option string) : jsint :=
  match s with
  | None => NaNi
  | Some s =>
      let s := skip_spaces s in
      let '(neg, body) :=
        match s with
        | String "-" rest => (true, rest)
        | String "+" rest => (false, rest)
        | _ => (false, s)
        end in
      match parse_unsigned body with
      | Some v => Int (if neg : bool then - v else v)
      | None => NaNi
      end
  end.

Definition upper_char (c : ascii) : ascii :=
  if is_lower c then ascii_of_nat (nat_of_ascii c - 32) else c.

Fixpoint toUpperCase (s : string) : string :=
  match s with
  | EmptyString => EmptyString
  | String c rest => String (upper_char c) (toUpperCase rest)
  end.

(** [s.replace(/[^a-zA-Z0-9]/g, '_')] *)
Fixpoint replace_non_alnum (s : string) : string :=
  match s with
  | EmptyString => EmptyString
  | String c rest =>
      String (if is_lower c || is_upper c || is_digit c then c else "_"%char)
             (replace_non_alnum rest)
  end.

(** *** Objects used as maps *)

(** Own enumerable string-keyed properties, in enumeration order. *)
Definition obj (V : Type) : Type := list (string * V).

Fixpoint obj_get {V} (o : obj V) (k : string) : option V :=
  match o with
  | [] => None
  | (k', v) :: rest => if String.eqb k' k then Some v else obj_get rest k
  end.

(** [o[k] = v]: an existing property keeps its place, a new one goes last. *)
Fixpoint obj_set {V} (o : obj V) (k : string) (v : V) : obj V :=
  match o with
  | [] => [(k, v)]
  | (k', v') :: rest =>
      if String.eqb k' k then (k', v) :: rest else (k', v') :: obj_set rest k v
  end.

Definition obj_values {V} (o : obj V) : list V := map snd o.

(** The properties every plain object inherits from [Object.prototype], each
    with the [length] it has when it is a function ([__proto__] is an
    accessor that gives the prototype object, which has no [length]). All of
    them are truthy. *)
Definition Object_prototype : obj (option nat) :=
  [ ("constructor", Some 1%nat); ("__defineGetter__", Some 2%nat);
    ("__defineSetter__", Some 2%nat); ("hasOwnProperty", Some 1%nat);
    ("__lookupGetter__", Some 1%nat); ("__lookupSetter__", Some 1%nat);
    ("isPrototypeOf", Some 1%nat); ("propertyIsEnumerable", Some 1%nat);
    ("toString", Some 0%nat); ("valueOf", Some 0%nat); ("__proto__", None);
    ("toLocaleString", Some 0%nat) ].

(** What reading a property of a plain object gives: an own property, a
    property inherited from [Object.prototype], or [undefined]. *)
Inductive Read (V : Type) : Type :=
| Own (v : V)
| Inherits (prop : string)
| Undefined.
Arguments Own {V} v.
Arguments Inherits {V} prop.
Arguments Undefined {V}.

(** [o[k]] *)
Definition obj_read {V} (o : obj V) (k : string) : Read V :=
  match obj_get o k with
  | Some v => Own v
  | None =>
      match obj_get Object_prototype k with
      | Some _ => Inherits k
      | None => Undefined
      end
  end.

(** *** Exceptions *)

Inductive Error : Type :=
| MissingRequired (prop : string)
| NegativeStart
| EndBeforeStart
| NegativeIndex (prop : string)
| TypeError.

Inductive result (A : Type) : Type :=
| Ok (a : A)
| Throw (e : Error).
Arguments Ok {A} a.
Arguments Throw {A} e.

#[export] Instance result_ret : MRet result := fun A a => Ok a.
#[export] Instance result_bind : MBind result := fun A B f m =>
  match m with
  | Ok a => f a
  | Throw e => Throw e
  end.

#[export] Instance result_fmap : FMap result := fun A B f m =>
  match m with
  | Ok a => Ok (f a)
  | Throw e => Throw e
  end.

Definition returns {A} (m : result A) : bool :=
  match m with
  | Ok _ => true
  | Throw _ => false
  end.

(** [xs.forEach((x, i) => ...)] collecting what each round pushes; the first
    throw ends the loop. [i0] is the index of the head. *)
Fixpoint forEachi {A B} (f : nat -> A -> result (list B)) (i0 : nat) (xs : list A)
  : result (list B) :=
  match xs with
  | [] => Ok []
  | x :: rest =>
      ys ← f i0 x;
      zs ← forEachi f (S i0) rest;
      mret (ys ++ zs)
  end.

End JS.
Export JS.

(** ** The JSON payload (section 6 of the specification)

    Only the fields the hierarchy builder reads. *)

Module Payload.

Record Page : Type := {
  page_start_offset : option Z;
  header_size : option Z;
  compressed_page_size : option Z
}.

(** A physical column-chunk record of [fileData.column_chunks]. *)
Record ColumnChunk : Type := {
  path_in_schema : option string;
  start_offset : option Z;
  total_byte_size : option Z;
  dictionary_page : option Page;
  data_pages : option (list Page);
  index_pages : option (list Page)
}.

(** A logical column-chunk record of a row group's [column_chunks] map. *)
Record ColumnMeta : Type := {
  total_compressed_size : option Z;
  total_uncompressed_size : option Z;
  column_index_offset : option Z;
  column_index_length : option Z
}.

Record RowGroup : Type := {
  rg_byte_length : option Z;
  rg_column_chunks : option (obj ColumnMeta)
}.

#[warnings="-register-all"]
Inductive SchemaElement : Type := mkSchemaElement {
  element_type : option string;
  se_start_offset : option Z;
  se_byte_length : option Z;
  children : option (list (string * SchemaElement))
}.

Record KeyValue : Type := {
  key : option string;
  value : option string;
  kv_byte_length : option Z;
  kv_start_offset : option Z
}.

(** [fileData.metadata.metadata] *)
Record FileMetadata : Type := {
  schema_root : option SchemaElement;
  row_groups : option (list RowGroup);
  key_value_metadata : option (list KeyValue)
}.

(** [fileData.metadata] *)
Record Metadata : Type := {
  md_total_byte_size : option Z;
  md_start_offset : option Z;
  md_metadata : option FileMetadata
}.

Record FileData : Type := {
  filesize : option Z;
  column_chunks : option (list ColumnChunk);
  metadata : option Metadata
}.

End Payload.
Export Payload.

(** ** ParquetSegment *)

Module ParquetSegment.

(** The shapes of [metadata] the builder attaches to a segment. *)
Inductive SegmentMetadata : Type :=
| MetaSchemaElement (e : SchemaElement)
| MetaRowGroup (rg : RowGroup)
| MetaPage (p : Page)
| MetaColumnMeta (cm : ColumnMeta)
| MetaRowGroupsBlock (rgs : list RowGroup)
| MetaIndicesBlock (indices_count : nat) (total_size : Z)
| MetaKeyValueBlock (entries : list KeyValue)
| MetaIndexElement (column_path : string) (row_group_index : nat) (index_type : string)
| MetaKeyValueEntry (entry : KeyValue) (entry_index : nat).

(** The constructor's argument. *)
Record Config : Type := {
  c_id : option string;
  c_name : option string;
  c_start : option jsint;
  c_end : option jsint;
  c_metadata : option SegmentMetadata;
  c_rowGroupIndex : option nat;
  c_chunkIndex : option nat;
  c_pageIndex : option nat;
  c_columnPath : option string;
  c_physicalMetadata : option ColumnChunk;
  c_logicalMetadata : option ColumnMeta
}.

(** The constructed object ([description] is presentation only and left out). *)
Record t : Type := {
  id : string;
  name : string;
  start : jsint;
  end_ : jsint;
  metadata : option SegmentMetadata;
  rowGroupIndex : option nat;
  chunkIndex : option nat;
  pageIndex : option nat;
  columnPath : option string;
  physicalMetadata : option ColumnChunk;
  logicalMetadata : option ColumnMeta
}.

(** [get size()] *)
Definition size (this : t) : jsint := max2 (Int 0) (sub (end_ this) (start this)).

(** [_validateRequired(config, ['id', 'name', 'start', 'end'])], returning the
    four properties it found. *)
Definition _validateRequired (config : Config) : result (string * string * jsint * jsint) :=
  match c_id config with
  | None => Throw (MissingRequired "id")
  | Some i =>
  match c_name config with
  | None => Throw (MissingRequired "name")
  | Some n =>
  match c_start config with
  | None => Throw (MissingRequired "start")
  | Some s =>
  match c_end config with
  | None => Throw (MissingRequired "end")
  | Some e => Ok (i, n, s, e)
  end end end end.

Definition negative_index (i : option nat) : bool :=
  match i with
  | Some n => Z.of_nat n <? 0
  | None => false
  end.

(** [_validate()] *)
Definition _validate (this : t) : result unit :=
  if lt (start this) (Int 0) then Throw NegativeStart
  else if lt (end_ this) (start this) then Throw EndBeforeStart
  else if negative_index (rowGroupIndex this) then Throw (NegativeIndex "rowGroupIndex")
  else if negative_index (chunkIndex this) then Throw (NegativeIndex "chunkIndex")
  else if negative_index (pageIndex this) then Throw (NegativeIndex "pageIndex")
  else Ok ().

(** [new ParquetSegment(config)] *)
Definition new (config : Config) : result t :=
  '(i, n, s, e) ← _validateRequired config;
  let this := {|
    id := i; name := n; start := s; end_ := e;
    metadata := c_metadata config;
    rowGroupIndex := c_rowGroupIndex config;
    chunkIndex := c_chunkIndex config;
    pageIndex := c_pageIndex config;
    columnPath := c_columnPath config;
    physicalMetadata := c_physicalMetadata config;
    logicalMetadata := c_logicalMetadata config |} in
  _ ← _validate this;
  mret this.

(** A config with only the four required properties. *)
Definition plain (i n : string) (s e : jsint) : Config := {|
  c_id := Some i; c_name := Some n; c_start := Some s; c_end := Some e;
  c_metadata := None; c_rowGroupIndex := None; c_chunkIndex := None;
  c_pageIndex := None; c_columnPath := None;
  c_physicalMetadata := None; c_logicalMetadata := None |}.

(** [this.metadata && this.metadata.children && this.metadata.element_type === 'group'] *)
Definition is_schema_group (this : t) : bool :=
  match metadata this with
  | Some (MetaSchemaElement e) =>
      match children e, element_type e with
      | Some _, Some ty => String.eqb ty "group"
      | _, _ => false
      end
  | _ => false
  end.

(** [get childLevelName()] *)
Definition childLevelName (this : t) : option string :=
  if String.eqb (id this) "metadata" then Some "metadatastructure"
  else if String.eqb (id this) "rowgroups" then Some "rowgroups"
  else if String.eqb (id this) "schema_root" then Some "schemaelements"
  else if String.eqb (id this) "row_groups_metadata" then Some "rowgroupelements"
  else if String.eqb (id this) "column_indices" then Some "indexelements"
  else if String.eqb (id this) "key_value_metadata" then Some "keyvaluemetadata"
  else if bool_decide (rowGroupIndex this ≠ None) && bool_decide (chunkIndex this = None)
          && negb (includes (id this) "meta") then Some "columnchunks"
  else if negb (String.eqb (id this) "") && startsWith (id this) "rowgroup_meta_"
       then Some "columnchunkmetadata"
  else if bool_decide (chunkIndex this ≠ None) && bool_decide (pageIndex this = None)
       then Some "pages"
  else if is_schema_group this then Some "schemaelements"
  else None.

End ParquetSegment.

Abbreviation Segment := ParquetSegment.t.

(** ** ParquetConstants.FILE_STRUCTURE *)

Module ParquetConstants.
Definition MAGIC_SIZE : Z := 4.
Definition FOOTER_SIZE : Z := 8.
End ParquetConstants.

(** ** SegmentHierarchyBuilder *)

Module SegmentHierarchyBuilder.
Import ParquetConstants.

(** The cache [buildAll] returns: arrays for the levels with one parent,
    objects keyed by parent id for the others. *)
Record HierarchyCache : Type := {
  overview : list Segment;
  rowgroups : list Segment;
  columnchunks : obj (list Segment);
  pages : obj (list Segment);
  metadatastructure : list Segment;
  schemaelements : obj (list Segment);
  rowgroupelements : obj (list Segment);
  indexelements : obj (list Segment);
  keyvaluemetadata : obj (list Segment);
  columnchunkmetadata : obj (list Segment)
}.

(** [fileData.metadata?.metadata] *)
Definition inner_metadata (fileData : FileData) : option FileMetadata :=
  md ← metadata fileData; md_metadata md.

(** [fileData.metadata?.metadata?.row_groups] *)
Definition inner_row_groups (fileData : FileData) : option (list RowGroup) :=
  m ← inner_metadata fileData; row_groups m.

(** [arr.slice(startIndex, endIndex)] for indices that are not negative. *)
Definition slice {A} (l : list A) (startIndex endIndex : nat) : list A :=
  take (endIndex - startIndex) (drop startIndex l).

(** [Math.ceil(a / b)] on array lengths, [b] at least one. *)
Definition ceil_div (a b : nat) : nat := ((a + b - 1) / b)%nat.

(** [arr.sort((a, b) => a.start - b.start)]: the sort is stable, and a NaN
    difference compares as equal. *)
Fixpoint insert_by_start (x : Segment) (l : list Segment) : list Segment :=
  match l with
  | [] => [x]
  | y :: l' =>
      if lt (ParquetSegment.start y) (ParquetSegment.start x)
      then y :: insert_by_start x l'
      else x :: y :: l'
  end.

Fixpoint sort_by_start (l : list Segment) : list Segment :=
  match l with
  | [] => []
  | x :: l' => insert_by_start x (sort_by_start l')
  end.

(** [_getChunksForRowGroup(fileData, rowGroupIndex)] *)
Definition _getChunksForRowGroup (fileData : FileData) (rowGroupIndex : nat)
  : list ColumnChunk :=
  let numRowGroups :=
    match inner_row_groups fileData with
    | Some rgs => if (length rgs =? 0)%nat then 1%nat else length rgs
    | None => 1%nat
    end in
  let chunks := default [] (column_chunks fileData) in
  let chunksPerRowGroup := ceil_div (length chunks) numRowGroups in
  let startIndex := (rowGroupIndex * chunksPerRowGroup)%nat in
  let endIndex := Nat.min (startIndex + chunksPerRowGroup) (length chunks) in
  slice chunks startIndex endIndex.

(** [_getChunkData(fileData, rowGroupIndex, chunkIndex)] *)
Definition _getChunkData (fileData : FileData) (rowGroupIndex chunkIndex : nat)
  : option ColumnChunk :=
  _getChunksForRowGroup fileData rowGroupIndex !! chunkIndex.

(** [_findColumnMetadata(fileData, rowGroupIndex, columnPath)]; an absent
    [columnPath] reads the property named "undefined". *)
Definition _findColumnMetadata (fileData : FileData) (rowGroupIndex : nat)
    (columnPath : option string) : option ColumnMeta :=
  rgs ← inner_row_groups fileData;
  rowGroup ← rgs !! rowGroupIndex;
  ccs ← rg_column_chunks rowGroup;
  obj_get ccs (default "undefined" columnPath).

(** [_calculateSchemaLength(schemaElement)] *)
Fixpoint _calculateSchemaLength (schemaElement : SchemaElement) : Z :=
  match schemaElement with
  | mkSchemaElement _ _ byte_length cs =>
      or_else byte_length 0 +
      match cs with
      | Some cs =>
          (fix over_children (l : list (string * SchemaElement)) : Z :=
             match l with
             | [] => 0
             | (_, child) :: rest => _calculateSchemaLength child + over_children rest
             end) cs
      | None => 0
      end
  end.

(** One entry of [_extractColumnIndicesInfo]. *)
Record IndexInfo : Type := {
  path : string;
  row_group : nat;
  type : string;
  offset : Z;
  size : Z
}.

(** The entries one column of one row group contributes. [Math.floor(len * 0.3)]
    is taken exactly, as the floor of [3 * len / 10]. *)
Definition column_indices_info (rgIndex : nat) (columnPath : string)
    (columnMeta : ColumnMeta) : list IndexInfo :=
  if truthy (column_index_offset columnMeta) && truthy (column_index_length columnMeta) then
    let off := or_else (column_index_offset columnMeta) 0 in
    let len := or_else (column_index_length columnMeta) 0 in
    [ {| path := columnPath; row_group := rgIndex; type := "column_index";
         offset := off; size := len |};
      {| path := columnPath; row_group := rgIndex; type := "offset_index";
         offset := off + len; size := Z.max 50 (3 * len / 10) |} ]
  else [].

(** [_extractColumnIndicesInfo(fileData)] *)
Definition _extractColumnIndicesInfo (fileData : FileData) : list IndexInfo :=
  match inner_row_groups fileData with
  | None => []
  | Some rgs =>
      concat (imap (fun rgIndex rowGroup =>
        match rg_column_chunks rowGroup with
        | Some ccs =>
            concat (map (fun '(columnPath, columnMeta) =>
                           column_indices_info rgIndex columnPath columnMeta) ccs)
        | None => []
        end) rgs)
  end.

Section Builder.

(** [JSON.stringify(x).length] of the inner metadata object: the embedding does
    not carry the payload's text, so the length is a parameter. *)
Variable JSON_stringify_length : FileMetadata -> Z.

(** The metadata size [buildOverviewSegments] works with. *)
Definition metadataSize (fileData : FileData) : Z :=
  or_else (md ← metadata fileData; md_total_byte_size md)
          (match inner_metadata fileData with
           | Some m => JSON_stringify_length m
           | None => 1024
           end).

(** The row-group range of the overview: [(rowGroupsStart, rowGroupsEnd)]. *)
Definition rowGroupsRange (fileData : FileData) : jsint * jsint :=
  match column_chunks fileData with
  | Some (c :: cs) =>
      let allOffsets := map (fun chunk => toNumber (start_offset chunk)) (c :: cs) in
      let allEnds := map (fun chunk => add (toNumber (start_offset chunk))
                                           (toNumber (total_byte_size chunk))) (c :: cs) in
      (Math_min (hd NaNi allOffsets) (tl allOffsets),
       Math_max (hd NaNi allEnds) (tl allEnds))
  | _ =>
      (Int MAGIC_SIZE,
       sub (sub (toNumber (filesize fileData)) (Int (metadataSize fileData)))
           (Int FOOTER_SIZE))
  end.

(** [buildOverviewSegments(fileData)] *)
Definition buildOverviewSegments (fileData : FileData) : result (list Segment) :=
  let '(rowGroupsStart, rowGroupsEnd) := rowGroupsRange fileData in
  let fsize := toNumber (filesize fileData) in
  s1 ← ParquetSegment.new (ParquetSegment.plain "header_magic" "MAGIC" (Int 0) (Int MAGIC_SIZE));
  s2 ← ParquetSegment.new (ParquetSegment.plain "rowgroups" "ROWGROUPS" rowGroupsStart rowGroupsEnd);
  s3 ← ParquetSegment.new (ParquetSegment.plain "metadata" "METADATA" rowGroupsEnd
                             (sub fsize (Int FOOTER_SIZE)));
  s4 ← ParquetSegment.new (ParquetSegment.plain "footer" "FOOTER" (sub fsize (Int FOOTER_SIZE))
                             (sub fsize (Int MAGIC_SIZE)));
  s5 ← ParquetSegment.new (ParquetSegment.plain "footer_magic" "MAGIC"
                             (sub fsize (Int MAGIC_SIZE)) fsize);
  mret [s1; s2; s3; s4; s5].

(** [buildRowGroupSegments(fileData)] *)
Definition buildRowGroupSegments (fileData : FileData) : result (list Segment) :=
  match inner_row_groups fileData with
  | None => Ok []
  | Some rgs =>
      forEachi (fun index rowGroup =>
        match _getChunksForRowGroup fileData index with
        | [] => Ok []
        | c :: cs =>
            let chunkOffsets := map (fun chunk => toNumber (start_offset chunk)) (c :: cs) in
            let chunkEnds := map (fun chunk => add (toNumber (start_offset chunk))
                                                   (toNumber (total_byte_size chunk))) (c :: cs) in
            seg ← ParquetSegment.new {|
              ParquetSegment.c_id := Some ("rowgroup_" +:+ pretty index);
              ParquetSegment.c_name := Some ("RG" +:+ pretty index);
              ParquetSegment.c_start := Some (Math_min (hd NaNi chunkOffsets) (tl chunkOffsets));
              ParquetSegment.c_end := Some (Math_max (hd NaNi chunkEnds) (tl chunkEnds));
              ParquetSegment.c_metadata := Some (ParquetSegment.MetaRowGroup rowGroup);
              ParquetSegment.c_rowGroupIndex := Some index;
              ParquetSegment.c_chunkIndex := None;
              ParquetSegment.c_pageIndex := None;
              ParquetSegment.c_columnPath := None;
              ParquetSegment.c_physicalMetadata := None;
              ParquetSegment.c_logicalMetadata := None |};
            mret [seg]
        end) 0 rgs
  end.

(** The segment [buildColumnChunkSegments] pushes for one chunk. *)
Definition columnChunkConfig (fileData : FileData) (rowGroupIndex chunkIndex : nat)
    (chunk : ColumnChunk) : ParquetSegment.Config :=
  let columnPath := path_in_schema chunk in
  let chunkSize := or_else (total_byte_size chunk) 0 in
  let chunkStart := or_else (start_offset chunk) 0 in
  {| ParquetSegment.c_id :=
       Some ("chunk_" +:+ pretty rowGroupIndex +:+ "_" +:+ pretty chunkIndex);
     ParquetSegment.c_name := columnPath;
     ParquetSegment.c_start := Some (Int chunkStart);
     ParquetSegment.c_end := Some (Int (chunkStart + chunkSize));
     ParquetSegment.c_metadata := None;
     ParquetSegment.c_rowGroupIndex := Some rowGroupIndex;
     ParquetSegment.c_chunkIndex := Some chunkIndex;
     ParquetSegment.c_pageIndex := None;
     ParquetSegment.c_columnPath := columnPath;
     ParquetSegment.c_physicalMetadata := Some chunk;
     ParquetSegment.c_logicalMetadata :=
       _findColumnMetadata fileData rowGroupIndex columnPath |}.

(** [buildColumnChunkSegments(fileData, rowGroupIndex)] *)
Definition buildColumnChunkSegments (fileData : FileData) (rowGroupIndex : nat)
  : result (list Segment) :=
  segments ← forEachi (fun chunkIndex chunk =>
      seg ← ParquetSegment.new (columnChunkConfig fileData rowGroupIndex chunkIndex chunk);
      mret [seg]) 0 (_getChunksForRowGroup fileData rowGroupIndex);
  mret (sort_by_start segments).

(** The segment [buildPageSegments] pushes for one page. *)
Definition pageConfig (i n : string) (rowGroupIndex chunkIndex pageIndex : nat)
    (page : Page) : ParquetSegment.Config :=
  let totalPageSize := or_else (header_size page) 0 + or_else (compressed_page_size page) 0 in
  {| ParquetSegment.c_id := Some i;
     ParquetSegment.c_name := Some n;
     ParquetSegment.c_start := Int <$> page_start_offset page;
     ParquetSegment.c_end := Some (add (toNumber (page_start_offset page)) (Int totalPageSize));
     ParquetSegment.c_metadata := Some (ParquetSegment.MetaPage page);
     ParquetSegment.c_rowGroupIndex := Some rowGroupIndex;
     ParquetSegment.c_chunkIndex := Some chunkIndex;
     ParquetSegment.c_pageIndex := Some pageIndex;
     ParquetSegment.c_columnPath := None;
     ParquetSegment.c_physicalMetadata := None;
     ParquetSegment.c_logicalMetadata := None |}.

(** [buildPageSegments(fileData, rowGroupIndex, chunkIndex)] *)
Definition buildPageSegments (fileData : FileData) (rowGroupIndex chunkIndex : nat)
  : result (list Segment) :=
  match _getChunkData fileData rowGroupIndex chunkIndex with
  | None => Ok []
  | Some chunk =>
      let rc := pretty rowGroupIndex +:+ "_" +:+ pretty chunkIndex in
      dict ← match dictionary_page chunk with
             | Some dictPage =>
                 seg ← ParquetSegment.new
                         (pageConfig ("page_dict_" +:+ rc) "DICT" rowGroupIndex chunkIndex 0 dictPage);
                 mret [seg]
             | None => Ok []
             end;
      data ← match data_pages chunk with
             | Some pgs =>
                 forEachi (fun pageIndex page =>
                   seg ← ParquetSegment.new
                           (pageConfig ("page_data_" +:+ rc +:+ "_" +:+ pretty pageIndex)
                                       ("DATA" +:+ pretty pageIndex)
                                       rowGroupIndex chunkIndex pageIndex page);
                   mret [seg]) 0 pgs
             | None => Ok []
             end;
      index ← match index_pages chunk with
              | Some pgs =>
                  forEachi (fun pageIndex page =>
                    seg ← ParquetSegment.new
                            (pageConfig ("page_index_" +:+ rc +:+ "_" +:+ pretty pageIndex)
                                        ("IDX" +:+ pretty pageIndex)
                                        rowGroupIndex chunkIndex pageIndex page);
                    mret [seg]) 0 pgs
              | None => Ok []
              end;
      mret (dict ++ data ++ index)
  end.

(** A config with the four required properties and a [metadata]. *)
Definition withMetadata (i n : string) (s e : Z) (m : ParquetSegment.SegmentMetadata)
  : ParquetSegment.Config :=
  {| ParquetSegment.c_id := Some i;
     ParquetSegment.c_name := Some n;
     ParquetSegment.c_start := Some (Int s);
     ParquetSegment.c_end := Some (Int e);
     ParquetSegment.c_metadata := Some m;
     ParquetSegment.c_rowGroupIndex := None;
     ParquetSegment.c_chunkIndex := None;
     ParquetSegment.c_pageIndex := None;
     ParquetSegment.c_columnPath := None;
     ParquetSegment.c_physicalMetadata := None;
     ParquetSegment.c_logicalMetadata := None |}.

Definition sumZ (l : list Z) : Z := foldl Z.add 0 l.

(** [buildMetadataStructureSegments(fileData)]; each block returns the segments
    it pushes and the [currentOffset] it leaves. *)
Definition buildMetadataStructureSegments (fileData : FileData) : result (list Segment) :=
  match inner_metadata fileData with
  | None => Ok []
  | Some m =>
      let currentOffset := or_else (md ← metadata fileData; md_start_offset md) 0 in
      '(schema, currentOffset) ←
        match schema_root m with
        | Some root =>
            let schemaStart := or_else (se_start_offset root) currentOffset in
            let schemaLength := _calculateSchemaLength root in
            seg ← ParquetSegment.new
                    (withMetadata "schema_root" "SCHEMA" schemaStart (schemaStart + schemaLength)
                                  (ParquetSegment.MetaSchemaElement root));
            mret ([seg], schemaStart + schemaLength)
        | None => mret ([], currentOffset)
        end;
      '(rowGroupsMeta, currentOffset) ←
        match row_groups m with
        | Some (rg :: rgs) =>
            let totalRowGroupMetadataSize :=
              sumZ (map (fun rg => or_else (rg_byte_length rg) 200) (rg :: rgs)) in
            seg ← ParquetSegment.new
                    (withMetadata "row_groups_metadata" "ROW GROUP METADATA" currentOffset
                                  (currentOffset + totalRowGroupMetadataSize)
                                  (ParquetSegment.MetaRowGroupsBlock (rg :: rgs)));
            mret ([seg], currentOffset + totalRowGroupMetadataSize)
        | _ => mret ([], currentOffset)
        end;
      let columnIndicesInfo := _extractColumnIndicesInfo fileData in
      '(indices, currentOffset) ←
        match columnIndicesInfo with
        | _ :: _ =>
            let totalIndicesSize := sumZ (map size columnIndicesInfo) in
            seg ← ParquetSegment.new
                    (withMetadata "column_indices" "INDICES" currentOffset
                                  (currentOffset + totalIndicesSize)
                                  (ParquetSegment.MetaIndicesBlock (length columnIndicesInfo)
                                                                   totalIndicesSize));
            mret ([seg], currentOffset + totalIndicesSize)
        | [] => mret ([], currentOffset)
        end;
      keyValues ←
        match key_value_metadata m with
        | Some (kv :: kvs) =>
            let totalKvSize := sumZ (map (fun entry => or_else (kv_byte_length entry) 0) (kv :: kvs)) in
            seg ← ParquetSegment.new
                    (withMetadata "key_value_metadata" "KEY-VALUE METADATA" currentOffset
                                  (currentOffset + totalKvSize)
                                  (ParquetSegment.MetaKeyValueBlock (kv :: kvs)));
            mret [seg]
        | _ => mret []
        end;
      mret (sort_by_start (schema ++ rowGroupsMeta ++ indices ++ keyValues))
  end.

(** The loop of [buildRowGroupMetadataSegments], with the index and the
    [currentOffset] of its next round. *)
Fixpoint rowGroupMetadataLoop (index : nat) (currentOffset : Z) (rgs : list RowGroup)
  : result (list Segment) :=
  match rgs with
  | [] => Ok []
  | rowGroup :: rest =>
      let rgSize := or_else (rg_byte_length rowGroup) 200 in
      seg ← ParquetSegment.new {|
        ParquetSegment.c_id := Some ("rowgroup_meta_" +:+ pretty index);
        ParquetSegment.c_name := Some ("ROW GROUP " +:+ pretty index);
        ParquetSegment.c_start := Some (Int currentOffset);
        ParquetSegment.c_end := Some (Int (currentOffset + rgSize));
        ParquetSegment.c_metadata := Some (ParquetSegment.MetaRowGroup rowGroup);
        ParquetSegment.c_rowGroupIndex := Some index;
        ParquetSegment.c_chunkIndex := None;
        ParquetSegment.c_pageIndex := None;
        ParquetSegment.c_columnPath := None;
        ParquetSegment.c_physicalMetadata := None;
        ParquetSegment.c_logicalMetadata := None |};
      segs ← rowGroupMetadataLoop (S index) (currentOffset + rgSize) rest;
      mret (seg :: segs)
  end.

(** [buildRowGroupMetadataSegments(fileData)] *)
Definition buildRowGroupMetadataSegments (fileData : FileData) : result (obj (list Segment)) :=
  match inner_row_groups fileData with
  | None => Ok []
  | Some rgs =>
      let currentOffset := or_else (md ← metadata fileData; md_start_offset md) 0 + 600 in
      segments ← rowGroupMetadataLoop 0 currentOffset rgs;
      mret (obj_set [] "row_groups_metadata" segments)
  end.

(** [buildColumnIndexSegments(fileData)] *)
Definition buildColumnIndexSegments (fileData : FileData) : result (obj (list Segment)) :=
  match _extractColumnIndicesInfo fileData with
  | [] => Ok []
  | indicesInfo =>
      segments ← forEachi (fun _ info =>
        let segmentName :=
          path info +:+ " (RG" +:+ pretty (row_group info) +:+ ") " +:+ toUpperCase (type info) in
        seg ← ParquetSegment.new
                (withMetadata (type info +:+ "_" +:+ pretty (row_group info) +:+ "_" +:+ path info)
                              segmentName (offset info) (offset info + size info)
                              (ParquetSegment.MetaIndexElement (path info) (row_group info)
                                                               (type info)));
        mret [seg]) 0 indicesInfo;
      mret (obj_set [] "column_indices" (sort_by_start segments))
  end.

(** [buildKeyValueMetadataSegments(fileData)]; [entry.key.replace] on an entry
    without a [key] is a TypeError. *)
Definition buildKeyValueMetadataSegments (fileData : FileData) : result (obj (list Segment)) :=
  match m ← inner_metadata fileData; key_value_metadata m with
  | None => Ok []
  | Some kvs =>
      segments ← forEachi (fun index entry =>
        match key entry with
        | None => Throw TypeError
        | Some k =>
            let segmentName := k in
            let segmentId := "kv_" +:+ pretty index +:+ "_" +:+ replace_non_alnum k in
            let entryStart := or_else (kv_start_offset entry) 0 in
            seg ← ParquetSegment.new
                    (withMetadata segmentId segmentName entryStart
                                  (entryStart + or_else (kv_byte_length entry) 0)
                                  (ParquetSegment.MetaKeyValueEntry entry index));
            mret [seg]
        end) 0 kvs;
      mret (obj_set [] "key_value_metadata" (sort_by_start segments))
  end.

(** The inner loop of [buildColumnChunkMetadataSegments] over the entries of one
    row group's [column_chunks], with the index and the [currentOffset] of its
    next round. *)
Fixpoint columnChunkMetadataLoop (rgIndex chunkIndex : nat) (currentOffset : Z)
    (entries : obj ColumnMeta) : result (list Segment) :=
  match entries with
  | [] => Ok []
  | (columnPath, columnMeta) :: rest =>
      let chunkSize :=
        or_else (total_compressed_size columnMeta)
                (or_else (total_uncompressed_size columnMeta) 100) in
      seg ← ParquetSegment.new {|
        ParquetSegment.c_id :=
          Some ("column_meta_" +:+ pretty rgIndex +:+ "_" +:+ pretty chunkIndex);
        ParquetSegment.c_name := Some columnPath;
        ParquetSegment.c_start := Some (Int currentOffset);
        ParquetSegment.c_end := Some (Int (currentOffset + chunkSize));
        ParquetSegment.c_metadata := Some (ParquetSegment.MetaColumnMeta columnMeta);
        ParquetSegment.c_rowGroupIndex := Some rgIndex;
        ParquetSegment.c_chunkIndex := Some chunkIndex;
        ParquetSegment.c_pageIndex := None;
        ParquetSegment.c_columnPath := Some columnPath;
        ParquetSegment.c_physicalMetadata := None;
        ParquetSegment.c_logicalMetadata := None |};
      segs ← columnChunkMetadataLoop rgIndex (S chunkIndex) (currentOffset + chunkSize) rest;
      mret (seg :: segs)
  end.

(** The outer loop of [buildColumnChunkMetadataSegments]: one property
    [rowgroup_meta_<rgIndex>] per row group. *)
Fixpoint columnChunkMetadataRowGroups (rgIndex : nat) (rgs : list RowGroup)
    (cache : obj (list Segment)) : result (obj (list Segment)) :=
  match rgs with
  | [] => Ok cache
  | rowGroup :: rest =>
      let parentId := "rowgroup_meta_" +:+ pretty rgIndex in
      segments ← match rg_column_chunks rowGroup with
                 | Some ccs => columnChunkMetadataLoop rgIndex 0 0 ccs
                 | None => Ok []
                 end;
      columnChunkMetadataRowGroups (S rgIndex) rest (obj_set cache parentId segments)
  end.

(** [buildColumnChunkMetadataSegments(fileData)] *)
Definition buildColumnChunkMetadataSegments (fileData : FileData)
  : result (obj (list Segment)) :=
  match inner_row_groups fileData with
  | None => Ok []
  | Some rgs => columnChunkMetadataRowGroups 0 rgs []
  end.

(** [child.element_type === 'group'] *)
Definition is_group (child : SchemaElement) : bool :=
  match element_type child with
  | Some ty => String.eqb ty "group"
  | None => false
  end.

(** [buildSchemaElementSegments(schemaGroup, parentId)] *)
Definition buildSchemaElementSegments (schemaGroup : SchemaElement) (parentId : string)
  : result (list Segment) :=
  match children schemaGroup with
  | None => Ok []
  | Some cs =>
      segments ← forEachi (fun _ '(name, child) =>
        let childStart := or_else (se_start_offset child) 0 in
        let childLength :=
          if is_group child then _calculateSchemaLength child
          else or_else (se_byte_length child) 50 in
        seg ← ParquetSegment.new
                (withMetadata (parentId +:+ "_" +:+ name) name childStart
                              (childStart + childLength)
                              (ParquetSegment.MetaSchemaElement child));
        mret [seg]) 0 cs;
      mret (sort_by_start segments)
  end.

(** [_buildAllNestedSchemaElements(schemaElement, parentId, cache)]: the cache
    it mutates is passed through. *)
Fixpoint _buildAllNestedSchemaElements (schemaElement : SchemaElement) (parentId : string)
    (cache : obj (list Segment)) {struct schemaElement} : result (obj (list Segment)) :=
  match schemaElement with
  | mkSchemaElement _ _ _ (Some cs) =>
      (fix over_children (l : list (string * SchemaElement)) (cache : obj (list Segment))
         : result (obj (list Segment)) :=
         match l with
         | [] => Ok cache
         | (name, child) :: rest =>
             let childId := parentId +:+ "_" +:+ name in
             cache ←
               (if is_group child && bool_decide (children child ≠ None) then
                  segments ← buildSchemaElementSegments child childId;
                  _buildAllNestedSchemaElements child childId (obj_set cache childId segments)
                else Ok cache);
             over_children rest cache
         end) cs cache
  | mkSchemaElement _ _ _ None => Ok cache
  end.

(** [buildAllSchemaElementSegments(fileData)] *)
Definition buildAllSchemaElementSegments (fileData : FileData) : result (obj (list Segment)) :=
  match m ← inner_metadata fileData; schema_root m with
  | None => Ok []
  | Some root =>
      segments ← buildSchemaElementSegments root "schema_root";
      _buildAllNestedSchemaElements root "schema_root" (obj_set [] "schema_root" segments)
  end.

(** The loop of [buildAll] over [metadata.row_groups]:
    [cache.columnchunks[index] = buildColumnChunkSegments(fileData, index)]. *)
Fixpoint columnChunksLoop (fileData : FileData) (index : nat) (rgs : list RowGroup)
    (cache : obj (list Segment)) : result (obj (list Segment)) :=
  match rgs with
  | [] => Ok cache
  | _ :: rest =>
      segments ← buildColumnChunkSegments fileData index;
      columnChunksLoop fileData (S index) rest (obj_set cache (pretty index) segments)
  end.

(** The index a number stands for when it is used as one. *)
Definition as_index (n : jsint) : option nat :=
  match n with
  | Int z => if 0 <=? z then Some (Z.to_nat z) else None
  | NaNi => None
  end.

(** The inner loop of [buildAll] over the chunks of one row group:
    [cache.pages[key] = buildPageSegments(fileData, parseInt(rowGroupIndex), chunkIndex)].
    A [rowGroupIndex] that is no index finds no chunk, hence no page. *)
Fixpoint pagesOfRowGroup (fileData : FileData) (rowGroupIndex : string) (chunkIndex : nat)
    (chunks : list Segment) (cache : obj (list Segment)) : result (obj (list Segment)) :=
  match chunks with
  | [] => Ok cache
  | _ :: rest =>
      let key := rowGroupIndex +:+ "_" +:+ pretty chunkIndex in
      segments ← match as_index (parseInt (Some rowGroupIndex)) with
                 | Some rg => buildPageSegments fileData rg chunkIndex
                 | None => Ok []
                 end;
      pagesOfRowGroup fileData rowGroupIndex (S chunkIndex) rest (obj_set cache key segments)
  end.

(** The outer loop of [buildAll] over [Object.entries(cache.columnchunks)]. *)
Fixpoint pagesLoop (fileData : FileData) (entries : obj (list Segment))
    (cache : obj (list Segment)) : result (obj (list Segment)) :=
  match entries with
  | [] => Ok cache
  | (rowGroupIndex, chunks) :: rest =>
      cache ← pagesOfRowGroup fileData rowGroupIndex 0 chunks cache;
      pagesLoop fileData rest cache
  end.

(** [buildAll(fileData)] *)
Definition buildAll (fileData : FileData) : result HierarchyCache :=
  ov ← buildOverviewSegments fileData;
  rg ← buildRowGroupSegments fileData;
  ms ← buildMetadataStructureSegments fileData;
  se ← buildAllSchemaElementSegments fileData;
  re ← buildRowGroupMetadataSegments fileData;
  ie ← buildColumnIndexSegments fileData;
  kv ← buildKeyValueMetadataSegments fileData;
  cm ← buildColumnChunkMetadataSegments fileData;
  cc ← match inner_row_groups fileData with
       | Some rgs => columnChunksLoop fileData 0 rgs []
       | None => Ok []
       end;
  pg ← pagesLoop fileData cc [];
  mret {| overview := ov; rowgroups := rg; columnchunks := cc; pages := pg;
          metadatastructure := ms; schemaelements := se; rowgroupelements := re;
          indexelements := ie; keyvaluemetadata := kv; columnchunkmetadata := cm |}.

End Builder.

(** What [getSegmentsForLevel] returns: an array of segments or, when a level's
    map is read at the name of a property of [Object.prototype], the value
    inherited under that name (a function, or the prototype object). *)
Inductive LevelValue : Type :=
| Array (segments : list Segment)
| Inherited (prop : string).

(** The array a value is; none when it is not an array. *)
Definition array_of (value : LevelValue) : list Segment :=
  match value with
  | Array segments => segments
  | Inherited _ => []
  end.

(** [bucket[key] || []]: arrays, functions and objects are truthy. *)
Definition bucket_or_empty (bucket : obj (list Segment)) (key : string) : LevelValue :=
  match obj_read bucket key with
  | Own segments => Array segments
  | Inherits prop => Inherited prop
  | Undefined => Array []
  end.

(** [if (parentId && bucket[parentId]) return bucket[parentId]; return []] *)
Definition child_bucket (bucket : obj (list Segment)) (parentId : option string)
  : LevelValue :=
  match parentId with
  | Some p => if String.eqb p "" then Array [] else bucket_or_empty bucket p
  | None => Array []
  end.

(** [getSegmentsForLevel(hierarchyCache, level, parentId = null)] *)
Definition getSegmentsForLevel (hierarchyCache : HierarchyCache) (level : string)
    (parentId : option string) : LevelValue :=
  if String.eqb level "overview" then Array (overview hierarchyCache)
  else if String.eqb level "metadatastructure" then Array (metadatastructure hierarchyCache)
  else if String.eqb level "schemaelements" then
    child_bucket (schemaelements hierarchyCache) parentId
  else if String.eqb level "rowgroupelements" then
    child_bucket (rowgroupelements hierarchyCache) parentId
  else if String.eqb level "indexelements" then
    child_bucket (indexelements hierarchyCache) parentId
  else if String.eqb level "keyvaluemetadata" then
    child_bucket (keyvaluemetadata hierarchyCache) parentId
  else if String.eqb level "rowgroups" then Array (rowgroups hierarchyCache)
  else if String.eqb level "columnchunks" then
    match parentId with
    | Some p =>
        if negb (String.eqb p "") && startsWith p "rowgroup_" && negb (includes p "meta") then
          let rowGroupIndex := parseInt (split "_" p !! 1%nat) in
          bucket_or_empty (columnchunks hierarchyCache) (toString rowGroupIndex)
        else Array []
    | None => Array []
    end
  else if String.eqb level "columnchunkmetadata" then
    match parentId with
    | Some p =>
        if negb (String.eqb p "") && startsWith p "rowgroup_meta_" then
          bucket_or_empty (columnchunkmetadata hierarchyCache) p
        else Array []
    | None => Array []
    end
  else if String.eqb level "pages" then
    match parentId with
    | Some p =>
        if negb (String.eqb p "") && includes p "chunk_" then
          let parts := split "_" p in
          let rowGroupIndex := parseInt (parts !! 1%nat) in
          let chunkIndex := parseInt (parts !! 2%nat) in
          let key := toString rowGroupIndex +:+ "_" +:+ toString chunkIndex in
          bucket_or_empty (pages hierarchyCache) key
        else Array []
    | None => Array []
    end
  else Array [].

(** [arr.find(seg => seg.id === segmentId)] *)
Definition find_id (segmentId : string) (arr : list Segment) : option Segment :=
  List.find (fun seg => String.eqb (ParquetSegment.id seg) segmentId) arr.

(** [for (const elements of Object.values(bucket)) { ... find ... }] *)
Fixpoint find_in_buckets (segmentId : string) (buckets : list (list Segment))
  : option Segment :=
  match buckets with
  | [] => None
  | elements :: rest =>
      match find_id segmentId elements with
      | Some found => Some found
      | None => find_in_buckets segmentId rest
      end
  end.

(** [findSegment(hierarchyCache, segmentId)]: [None] is [null]. *)
Definition findSegment (hierarchyCache : HierarchyCache) (segmentId : string)
  : option Segment :=
  match find_id segmentId (overview hierarchyCache) with
  | Some found => Some found
  | None =>
  match find_id segmentId (metadatastructure hierarchyCache) with
  | Some found => Some found
  | None =>
  match find_in_buckets segmentId (obj_values (schemaelements hierarchyCache)) with
  | Some found => Some found
  | None =>
  match find_in_buckets segmentId (obj_values (rowgroupelements hierarchyCache)) with
  | Some found => Some found
  | None =>
  match find_in_buckets segmentId (obj_values (indexelements hierarchyCache)) with
  | Some found => Some found
  | None =>
  match find_in_buckets segmentId (obj_values (keyvaluemetadata hierarchyCache)) with
  | Some found => Some found
  | None =>
  match find_id segmentId (rowgroups hierarchyCache) with
  | Some found => Some found
  | None =>
  match find_in_buckets segmentId (obj_values (columnchunks hierarchyCache)) with
  | Some found => Some found
  | None => find_in_buckets segmentId (obj_values (pages hierarchyCache))
  end end end end end end end end.

End SegmentHierarchyBuilder.


(** ** Fractional numbers: pixel geometry *)

Module Num.

(** An exact rational, an infinity, or NaN. The sign of zero is not kept: a
    division of a non-zero number by zero takes the sign of the numerator. *)
Inductive jsnum : Type :=
| Fin (q : Q)
| PInf
| NInf
| NaN.

Definition ofInt (a : jsint) : jsnum :=
  match a with
  | Int z => Fin (inject_Z z)
  | NaNi => NaN
  end.

Definition fneg (a : jsnum) : jsnum :=
  match a with
  | Fin q => Fin (- q)
  | PInf => NInf
  | NInf => PInf
  | NaN => NaN
  end.

Definition fadd (a b : jsnum) : jsnum :=
  match a, b with
  | NaN, _ | _, NaN => NaN
  | Fin x, Fin y => Fin (x + y)
  | PInf, NInf | NInf, PInf => NaN
  | PInf, _ | _, PInf => PInf
  | NInf, _ | _, NInf => NInf
  end.

Definition fsub (a b : jsnum) : jsnum := fadd a (fneg b).

(** The infinity of the given sign; no sign is NaN. *)
Definition signed_inf (c : comparison) : jsnum :=
  match c with
  | Gt => PInf
  | Lt => NInf
  | Eq => NaN
  end.

Definition sign (a : jsnum) : comparison :=
  match a with
  | Fin q => (q ?= 0)%Q
  | PInf => Gt
  | NInf => Lt
  | NaN => Eq
  end.

Definition sign_mul (c d : comparison) : comparison :=
  match c, d with
  | Eq, _ | _, Eq => Eq
  | Gt, Gt | Lt, Lt => Gt
  | _, _ => Lt
  end.

Definition fmul (a b : jsnum) : jsnum :=
  match a, b with
  | NaN, _ | _, NaN => NaN
  | Fin x, Fin y => Fin (x * y)
  | _, _ => signed_inf (sign_mul (sign a) (sign b))
  end.

Definition fdiv (a b : jsnum) : jsnum :=
  match a, b with
  | NaN, _ | _, NaN => NaN
  | Fin x, Fin y => if Qeq_bool y 0 then signed_inf (sign a) else Fin (x / y)
  | Fin _, _ => Fin 0
  | _, Fin y => if Qle_bool 0 y then a else fneg a
  | _, _ => NaN
  end.

(** [a < b] *)
Definition flt (a b : jsnum) : bool :=
  match a, b with
  | NaN, _ | _, NaN => false
  | Fin x, Fin y => negb (Qle_bool y x)
  | NInf, NInf | PInf, _ => false
  | NInf, _ | _, PInf => true
  | _, NInf => false
  end.

(** [a > b] *)
Definition fgt (a b : jsnum) : bool := flt b a.

(** [a === b] *)
Definition fseq (a b : jsnum) : bool :=
  match a, b with
  | Fin x, Fin y => Qeq_bool x y
  | PInf, PInf | NInf, NInf => true
  | _, _ => false
  end.

Definition fmin2 (a b : jsnum) : jsnum :=
  match a, b with
  | NaN, _ | _, NaN => NaN
  | _, _ => if flt b a then b else a
  end.

Definition fmax2 (a b : jsnum) : jsnum :=
  match a, b with
  | NaN, _ | _, NaN => NaN
  | _, _ => if flt a b then b else a
  end.

(** [Math.min(...arr)] and [Math.max(...arr)] *)
Definition Math_min (arr : list jsnum) : jsnum := foldl fmin2 PInf arr.
Definition Math_max (arr : list jsnum) : jsnum := foldl fmax2 NInf arr.

(** [a || d]: zero and NaN are falsy. *)
Definition f_or (a d : jsnum) : jsnum :=
  match a with
  | NaN => d
  | Fin q => if Qeq_bool q 0 then d else a
  | _ => a
  end.

(** [arr.reduce((sum, x) => sum + f(x), 0)] *)
Definition reduce_sum {A} (f : A -> jsnum) (arr : list A) : jsnum :=
  foldl (fun sum x => fadd sum (f x)) (Fin 0) arr.

(** Equality of numbers, finite ones as rationals. *)
Definition feq (a b : jsnum) : Prop :=
  match a, b with
  | Fin x, Fin y => (x == y)%Q
  | PInf, PInf | NInf, NInf | NaN, NaN => True
  | _, _ => False
  end.

End Num.
Export Num.

(** ** VisualizationConfig.LAYOUT

    A property that is not set reads as NaN in the arithmetic below. *)

Module VisualizationConfig.

Record Layout : Type := {
  LEVEL_HEIGHT : jsnum;
  LEVEL_SPACING : jsnum;
  TOP_MARGIN : jsnum;
  SEGMENT_MARGIN : jsnum;
  MIN_SEGMENT_WIDTH : jsnum;
  MAX_MIN_SEGMENT_WIDTH : jsnum;
  LOG_SCALE_FACTOR : jsnum;
  STARTING_BASELINE : jsnum
}.

Definition LAYOUT : Layout := {|
  LEVEL_HEIGHT := Fin 40;
  LEVEL_SPACING := Fin 32;
  TOP_MARGIN := Fin 20;
  SEGMENT_MARGIN := Fin 2;
  MIN_SEGMENT_WIDTH := Fin 3;
  MAX_MIN_SEGMENT_WIDTH := Fin 25;
  LOG_SCALE_FACTOR := Fin 2;
  STARTING_BASELINE := Fin 5
|}.

End VisualizationConfig.

(** ** SegmentLayoutCalculator *)

Module SegmentLayoutCalculator.
Import VisualizationConfig.

(** The working record of [calculateSegmentWidths]. *)
Record SegmentData : Type := {
  d_segment : Segment;
  naturalWidthPercent : jsnum;
  naturalWidthPixels : jsnum;
  finalWidthPercent : jsnum;
  finalWidthPixels : jsnum;
  d_isExpanded : bool;
  d_minWidth : jsnum
}.

(** A layout object of the result. *)
Record SegmentLayout : Type := {
  segment : Segment;
  x : jsnum;
  y : jsnum;
  width : jsnum;
  height : jsnum;
  widthPercent : jsnum;
  isExpanded : bool;
  naturalWidth : jsnum;
  minWidth : jsnum
}.

(** [s.size] as a number of the layout. *)
Definition size_of (s : Segment) : jsnum := ofInt (ParquetSegment.size s).

(** [arr.length] as a number. *)
Definition length_of {A} (arr : list A) : jsnum := Fin (inject_Z (Z.of_nat (length arr))).

Section Calculator.

(** [Math.log10] and [Math.pow] are the host's; they are not rational functions
    and stay parameters. *)
Variable Math_log10 : jsnum -> jsnum.
Variable Math_pow : jsnum -> jsnum -> jsnum.

(** [calculateLogarithmicMinWidths(segments, totalSize, containerWidth, config)] *)
Definition calculateLogarithmicMinWidths (segments : list Segment) (totalSize : jsnum)
    (containerWidth : jsnum) (config : Layout) : list jsnum :=
  let startingBaseline := f_or (STARTING_BASELINE config) (Fin 5) in
  let adjustedBaseline := fmin2 startingBaseline (fdiv containerWidth (length_of segments)) in
  if flt adjustedBaseline (MIN_SEGMENT_WIDTH config) then
    map (fun _ => fdiv containerWidth (length_of segments)) segments
  else
    let sizes := map (fun s => fmax2 (Fin 1) (size_of s)) segments in
    let minSize := Math_min sizes in
    let maxSize := Math_max sizes in
    if fseq minSize maxSize then
      map (fun _ => adjustedBaseline) segments
    else
      let logMinSize := Math_log10 minSize in
      let logMaxSize := Math_log10 maxSize in
      let logRange := fsub logMaxSize logMinSize in
      let logarithmicWidths := map (fun size =>
        let logSize := Math_log10 size in
        let logPosition := fdiv (fsub logSize logMinSize) logRange in
        let scaledPosition := Math_pow logPosition (fdiv (Fin 1) (LOG_SCALE_FACTOR config)) in
        fadd adjustedBaseline
             (fmul (fsub (MAX_MIN_SEGMENT_WIDTH config) adjustedBaseline) scaledPosition)) sizes in
      let totalLogarithmicWidth := reduce_sum (fun width => width) logarithmicWidths in
      if fgt totalLogarithmicWidth containerWidth then
        let scalingFactor := fdiv containerWidth totalLogarithmicWidth in
        map (fun width => fmul width scalingFactor) logarithmicWidths
      else logarithmicWidths.

(** The round of the first [forEach] of [calculateSegmentWidths] on one record. *)
Definition expand (containerWidth : jsnum) (data : SegmentData) : SegmentData :=
  let segmentMinWidthPercent := fmul (fdiv (d_minWidth data) containerWidth) (Fin 100) in
  if flt (naturalWidthPixels data) (d_minWidth data) then
    {| d_segment := d_segment data;
       naturalWidthPercent := naturalWidthPercent data;
       naturalWidthPixels := naturalWidthPixels data;
       finalWidthPercent := segmentMinWidthPercent;
       finalWidthPixels := d_minWidth data;
       d_isExpanded := true;
       d_minWidth := d_minWidth data |}
  else
    {| d_segment := d_segment data;
       naturalWidthPercent := naturalWidthPercent data;
       naturalWidthPixels := naturalWidthPixels data;
       finalWidthPercent := naturalWidthPercent data;
       finalWidthPixels := naturalWidthPixels data;
       d_isExpanded := d_isExpanded data;
       d_minWidth := d_minWidth data |}.

(** The round of the second [forEach] on one record. *)
Definition rescale (containerWidth scaleFactor : jsnum) (data : SegmentData) : SegmentData :=
  if negb (d_isExpanded data) then
    let finalPercent := fmul (naturalWidthPercent data) scaleFactor in
    {| d_segment := d_segment data;
       naturalWidthPercent := naturalWidthPercent data;
       naturalWidthPixels := naturalWidthPixels data;
       finalWidthPercent := finalPercent;
       finalWidthPixels := fmul (fdiv finalPercent (Fin 100)) containerWidth;
       d_isExpanded := d_isExpanded data;
       d_minWidth := d_minWidth data |}
  else data.

(** The loop of [calculateSegmentPositions], with the [currentLeft] of its next
    round. *)
Fixpoint positionsFrom (currentLeft : jsnum) (segmentData : list SegmentData)
    (config : Layout) : list SegmentLayout :=
  match segmentData with
  | [] => []
  | data :: rest =>
      {| segment := d_segment data;
         x := currentLeft;
         y := SEGMENT_MARGIN config;
         width := finalWidthPixels data;
         height := fsub (LEVEL_HEIGHT config) (fmul (Fin 2) (SEGMENT_MARGIN config));
         widthPercent := finalWidthPercent data;
         isExpanded := d_isExpanded data;
         naturalWidth := naturalWidthPixels data;
         minWidth := d_minWidth data |}
      :: positionsFrom (fadd currentLeft (finalWidthPixels data)) rest config
  end.

(** [calculateSegmentPositions(segmentData, config)] *)
Definition calculateSegmentPositions (segmentData : list SegmentData) (config : Layout)
  : list SegmentLayout :=
  positionsFrom (Fin 0) segmentData config.

(** The records after the first [forEach] of [calculateSegmentWidths]. *)
Definition expandedData (segments : list Segment) (containerWidth : jsnum) (config : Layout)
  : list SegmentData :=
  let minStart := Math_min (map (fun s => ofInt (ParquetSegment.start s)) segments) in
  let maxEnd := Math_max (map (fun s => ofInt (ParquetSegment.end_ s)) segments) in
  let totalSize := fsub maxEnd minStart in
  let minWidths := calculateLogarithmicMinWidths segments totalSize containerWidth config in
  let segmentData := imap (fun index segment =>
    {| d_segment := segment;
       naturalWidthPercent := fmul (fdiv (size_of segment) totalSize) (Fin 100);
       naturalWidthPixels := fmul (fdiv (size_of segment) totalSize) containerWidth;
       finalWidthPercent := Fin 0;
       finalWidthPixels := Fin 0;
       d_isExpanded := false;
       d_minWidth := default NaN (minWidths !! index) |}) segments in
  map (expand containerWidth) segmentData.

(** The records after the redistribution of [calculateSegmentWidths]. *)
Definition redistribute (containerWidth : jsnum) (segmentData : list SegmentData)
  : list SegmentData :=
  let expandedSegments := filter (fun d => d_isExpanded d = true) segmentData in
  let extraSpaceUsed :=
    reduce_sum (fun data => fsub (finalWidthPercent data) (naturalWidthPercent data))
               expandedSegments in
  if fgt extraSpaceUsed (Fin 0) then
    let availableSpace := fsub (Fin 100) (reduce_sum finalWidthPercent expandedSegments) in
    let naturalSpaceForNonExpanded :=
      reduce_sum naturalWidthPercent
                 (filter (fun d => d_isExpanded d = false) segmentData) in
    if fgt naturalSpaceForNonExpanded (Fin 0) then
      let scaleFactor := fdiv availableSpace naturalSpaceForNonExpanded in
      map (rescale containerWidth scaleFactor) segmentData
    else segmentData
  else segmentData.

(** [calculateSegmentWidths(segments, containerWidth, config)] *)
Definition calculateSegmentWidths (segments : list Segment) (containerWidth : jsnum)
    (config : Layout) : list SegmentLayout :=
  match segments with
  | [] => []
  | _ :: _ =>
      calculateSegmentPositions
        (redistribute containerWidth (expandedData segments containerWidth config)) config
  end.

End Calculator.

(** The sum of the [width]s of a layout. *)
Definition total_width (layouts : list SegmentLayout) : jsnum :=
  reduce_sum width layouts.

End SegmentLayoutCalculator.

(** ** SvgByteVisualizer: the navigation state

    Only the state the click and key handlers read and write: the stack of
    levels, the selection map and the selection path. Layouts, SVG nodes, the
    tooltip and the timers of the animations are presentation and left out; a
    handler runs to its end, or to the exception that leaves it, before the
    next event. An exception that leaves a handler is not caught by the
    visualizer: what the handler wrote before it stays written. *)

Module SvgByteVisualizer.
Import SegmentHierarchyBuilder.

Record Level : Type := {
  name : string;
  parentSegmentId : option string;
  segments : list Segment
}.

Record State : Type := {
  levels : list Level;
  selectedSegments : gmap nat string;
  selectionPath : list Segment
}.

(** What the handlers see of [this.infoPanelManager], the component that
    renders the details of the selection: whether its two calls return.
    [showOverview] is always called on the visualizer's own [this.data]. *)
Record InfoPanelManager : Type := {
  showSegment : Segment -> result unit;
  showOverview : result unit
}.

Section Visualizer.

(** [this.analyzer.cache], built once by [new FileStructureAnalyzer(data)]. *)
Variable cache : HierarchyCache.

(** [updateSelectionDisplay()], which marks the rectangles of the selected
    segments in the page: what the handlers see of it is whether it returns
    ([querySelector] throws on a selector it cannot parse, and the selector is
    made of the segment ids of [this.selectedSegments]). *)
Variable updateSelectionDisplay : gmap nat string -> result unit.

(** [this.infoPanelManager]; [None] is the constructor's default [null]. *)
Variable infoPanelManager : option InfoPanelManager.

(** [addLevel(levelName, parentSegmentId, segments)] on an array. *)
Definition addLevel (this : State) (levelName : string) (parent : option string)
    (segs : list Segment) : State :=
  let level := {| name := levelName; parentSegmentId := parent; segments := segs |} in
  {| levels := levels this ++ [level];
     selectedSegments := selectedSegments this;
     selectionPath := selectionPath this |}.

(** The state once [initWithData(data)] has drawn the overview;
    [getSegmentsForLevel('overview')] is [hierarchyCache.overview || []]. *)
Definition initWithData : State :=
  addLevel {| levels := []; selectedSegments := ∅; selectionPath := [] |}
           "overview" None (array_of (getSegmentsForLevel cache "overview" None)).

(** [removeLevelsFrom(index)] *)
Definition removeLevelsFrom (this : State) (index : nat) : State :=
  if (length (levels this) <=? index)%nat then this
  else
    match drop index (levels this) with
    | [] => this
    | _ :: _ =>
        {| levels := take index (levels this);
           selectedSegments := selectedSegments this;
           selectionPath := selectionPath this |}
    end.

(** [switchChildLevels(childIndex, newLevelName, newParentSegmentId, newSegments)]
    on an array. *)
Definition switchChildLevels (this : State) (childIndex : nat) (newLevelName : string)
    (newParentSegmentId : string) (newSegments : list Segment) : State :=
  let newLevel := {| name := newLevelName; parentSegmentId := Some newParentSegmentId;
                     segments := newSegments |} in
  {| levels := take childIndex (levels this) ++ [newLevel];
     selectedSegments := selectedSegments this;
     selectionPath := selectionPath this |}.

(** [switchMultipleLevels(childIndex, newLevelName, newParentSegmentId, newSegments)]
    on an array. *)
Definition switchMultipleLevels (this : State) (childIndex : nat) (newLevelName : string)
    (newParentSegmentId : string) (newSegments : list Segment) : State :=
  let newLevel := {| name := newLevelName; parentSegmentId := Some newParentSegmentId;
                     segments := newSegments |} in
  {| levels := take childIndex (levels this) ++ [newLevel];
     selectedSegments := selectedSegments this;
     selectionPath := selectionPath this |}.

(** [this.levels = this.levels.slice(0, childIndex)]: as far as
    [switchChildLevels] and [switchMultipleLevels] get on a value that is not an
    array, before [computeLevelLayout] throws on it. *)
Definition cutLevels (this : State) (childIndex : nat) : State :=
  {| levels := take childIndex (levels this);
     selectedSegments := selectedSegments this;
     selectionPath := selectionPath this |}.

(** [isSegmentSelected(segmentId, levelIndex)] *)
Definition isSegmentSelected (this : State) (segmentId : string) (levelIndex : nat) : bool :=
  bool_decide (selectedSegments this !! levelIndex = Some segmentId).

(** [childSegments && childSegments.length > 0]: the [length] of an inherited
    function is the number of its parameters. *)
Definition has_length (value : LevelValue) : bool :=
  match value with
  | Array segs => (0 <? length segs)%nat
  | Inherited prop =>
      match obj_get Object_prototype prop with
      | Some (Some n) => (0 <? n)%nat
      | _ => false
      end
  end.

(** What [segmentHasChildren] and [handleSegmentClick] ask the analyzer for:
    the value of the segment's child level, the empty array without a child
    level name. *)
Definition childSegments (segment : Segment) : LevelValue :=
  match ParquetSegment.childLevelName segment with
  | Some childLevelName =>
      getSegmentsForLevel cache childLevelName (Some (ParquetSegment.id segment))
  | None => Array []
  end.

(** [segmentHasChildren(segment)] *)
Definition segmentHasChildren (segment : Segment) : bool :=
  match ParquetSegment.childLevelName segment with
  | None => false
  | Some childLevelName =>
      has_length (getSegmentsForLevel cache childLevelName
                                      (Some (ParquetSegment.id segment)))
  end.

(** [for (let i = levelIndex; i < this.levels.length; i++) this.selectedSegments.delete(i)] *)
Definition clearSelectionsFrom (levelIndex : nat) (count : nat) (m : gmap nat string)
  : gmap nat string :=
  foldl (fun m i => delete i m) m (seq levelIndex (count - levelIndex)).

(** The first part of [handleSegmentClick(segment, levelIndex)]: the selection
    map and the selection path are brought up to date. *)
Definition updateSelection (this : State) (segment : Segment) (levelIndex : nat) : State :=
  let isCurrentlySelected := isSegmentSelected this (ParquetSegment.id segment) levelIndex in
  let cleared := clearSelectionsFrom levelIndex (length (levels this)) (selectedSegments this) in
  let trimmed := take levelIndex (selectionPath this) in
  if negb isCurrentlySelected then
    {| levels := levels this;
       selectedSegments := <[levelIndex := ParquetSegment.id segment]> cleared;
       selectionPath := trimmed ++ [segment] |}
  else
    {| levels := levels this; selectedSegments := cleared; selectionPath := trimmed |}.

(** The call of the info panel:
    [if (this.infoPanelManager) { if (this.selectionPath.length > 0)
    showSegment(lastSelected) else showOverview(this.data) }]. *)
Definition updateInfoPanel (this : State) : result unit :=
  match infoPanelManager with
  | None => Ok ()
  | Some panel =>
      match last (selectionPath this) with
      | Some lastSelected => showSegment panel lastSelected
      | None => showOverview panel
      end
  end.

(** The second part of [handleSegmentClick]: the selection is shown, in the
    page by [updateSelectionDisplay()] and then in the info panel. *)
Definition showSelection (this : State) : result unit :=
  _ ← updateSelectionDisplay (selectedSegments this);
  updateInfoPanel this.

(** Its third part, the child levels. A child value that is not an array but
    has a positive [length] is handed on like an array, and
    [computeLevelLayout] throws on it ([segments.map] is not a function): in
    [switchChildLevels] and [switchMultipleLevels] after the levels below were
    cut off, in [addLevel] before the new level is pushed. *)
Definition updateLevels (this : State) (isCurrentlySelected : bool) (segment : Segment)
    (levelIndex : nat) : State :=
  let hasChildLevels := (levelIndex + 1 <? length (levels this))%nat in
  let willAddNewChild := negb isCurrentlySelected && segmentHasChildren segment in
  if willAddNewChild then
    match ParquetSegment.childLevelName segment with
    | None => this
    | Some childLevelName =>
        let childSegments :=
          getSegmentsForLevel cache childLevelName (Some (ParquetSegment.id segment)) in
        if has_length childSegments then
          let newChildLevelIndex := (levelIndex + 1)%nat in
          match childSegments with
          | Array children =>
              if hasChildLevels then
                let numLevelsToRemove := (length (levels this) - (levelIndex + 1))%nat in
                if (numLevelsToRemove =? 1)%nat then
                  switchChildLevels this newChildLevelIndex childLevelName
                                    (ParquetSegment.id segment) children
                else
                  switchMultipleLevels this newChildLevelIndex childLevelName
                                       (ParquetSegment.id segment) children
              else
                addLevel this childLevelName (Some (ParquetSegment.id segment)) children
          | Inherited _ =>
              if hasChildLevels then cutLevels this newChildLevelIndex else this
          end
        else this
    end
  else if hasChildLevels then removeLevelsFrom this (levelIndex + 1)
  else this.

(** [handleSegmentClick(segment, levelIndex)]: the state the handler leaves,
    whether it returns or an exception of [updateSelectionDisplay()] or of the
    info panel leaves it after the selection is written and before the levels
    are touched. *)
Definition handleSegmentClick (this : State) (segment : Segment) (levelIndex : nat) : State :=
  let isCurrentlySelected := isSegmentSelected this (ParquetSegment.id segment) levelIndex in
  let this := updateSelection this segment levelIndex in
  match showSelection this with
  | Throw _ => this
  | Ok _ => updateLevels this isCurrentlySelected segment levelIndex
  end.

(** Whether [handleSegmentClick(segment, levelIndex)] returns: the selection
    display and the info panel must return, and the child level the click
    opens must be an array. *)
Definition clickReturns (this : State) (segment : Segment) (levelIndex : nat) : bool :=
  returns (showSelection (updateSelection this segment levelIndex)) &&
  (isSegmentSelected this (ParquetSegment.id segment) levelIndex ||
   negb (segmentHasChildren segment) ||
   match childSegments segment with
   | Array _ => true
   | Inherited _ => false
   end).

(** [handleKeyDown(event)], by [event.key]: the state the handler leaves. In
    the Escape case [updateSelectionDisplay()] and the info panel
    ([showOverview]) are called after the state is written. *)
Definition handleKeyDown (this : State) (key : string) : State :=
  if String.eqb key "Escape" then
    removeLevelsFrom {| levels := levels this; selectedSegments := ∅; selectionPath := [] |} 1
  else if String.eqb key "Backspace" then
    if (1 <? length (levels this))%nat
    then removeLevelsFrom this (length (levels this) - 1)
    else this
  else this.

(** What the user does. A click reaches the handler of a segment drawn in a
    displayed level. *)
Inductive Event : Type :=
| Click (segment : Segment) (levelIndex : nat)
| KeyDown (key : string).

Definition handle (this : State) (e : Event) : State :=
  match e with
  | Click segment levelIndex => handleSegmentClick this segment levelIndex
  | KeyDown key => handleKeyDown this key
  end.

(** The handler of the event gets as far as its last write of the state: a
    click handler has to return for that, a key handler writes the state before
    it calls anything that can throw. *)
Definition handlerReturns (this : State) (e : Event) : bool :=
  match e with
  | Click segment levelIndex => clickReturns this segment levelIndex
  | KeyDown _ => true
  end.

(** The click is on a segment of a displayed level. *)
Definition on_screen (this : State) (e : Event) : Prop :=
  match e with
  | Click segment levelIndex =>
      exists level, levels this !! levelIndex = Some level /\ segment ∈ segments level
  | KeyDown _ => True
  end.

(** Running a sequence of events, each one on screen when it happens. *)
Inductive runs : State -> list Event -> State -> Prop :=
| runs_nil (s : State) : runs s [] s
| runs_cons (s : State) (e : Event) (es : list Event) (s' : State) :
    on_screen s e -> runs (handle s e) es s' -> runs s (e :: es) s'.

Definition run (this : State) (es : list Event) : State := foldl handle this es.

(** No click handler of the sequence is left by an exception. *)
Fixpoint uninterrupted (this : State) (es : list Event) : bool :=
  match es with
  | [] => true
  | e :: rest => handlerReturns this e && uninterrupted (handle this e) rest
  end.

End Visualizer.

End SvgByteVisualizer.

(** ** Vocabulary of the statements *)

(** The byte range of a segment. *)
Definition range (s : Segment) : jsint * jsint :=
  (ParquetSegment.start s, ParquetSegment.end_ s).

(** The segments cover [[lo, hi)] one after the other: each starts where the one
    before it ended, with no gap and no overlap. *)
Fixpoint tiles (lo hi : Z) (segs : list Segment) : Prop :=
  match segs with
  | [] => lo = hi
  | s :: rest =>
      ParquetSegment.start s = Int lo /\
      exists mid, ParquetSegment.end_ s = Int mid /\ lo <= mid /\ tiles mid hi rest
  end.

(** [m] is the least (greatest) element of [l]. *)
Definition is_minimum (m : Z) (l : list Z) : Prop := m ∈ l /\ forall y, y ∈ l -> m <= y.
Definition is_maximum (m : Z) (l : list Z) : Prop := m ∈ l /\ forall y, y ∈ l -> y <= m.

(** A column-chunk record with the fields of the input contract: a path, and an
    offset and a size that are not negative. *)
Definition well_formed_chunk (chunk : ColumnChunk) : bool :=
  match path_in_schema chunk, start_offset chunk, total_byte_size chunk with
  | Some _, Some o, Some z => (0 <=? o) && (0 <=? z)
  | _, _, _ => false
  end.

(** The row group has a chunk assigned. *)
Definition has_chunks (fileData : FileData) (rowGroupIndex : nat) : bool :=
  (0 <? length (SegmentHierarchyBuilder._getChunksForRowGroup fileData rowGroupIndex))%nat.

(** The offsets and sizes of well-formed chunks. *)
Definition offsets_of (chunks : list ColumnChunk) : list (Z * Z) :=
  map (fun chunk => (default 0 (start_offset chunk), default 0 (total_byte_size chunk))) chunks.

(** The span of a level, [maxEnd - minStart], as [calculateSegmentWidths]
    computes it. *)
Definition span_of (segs : list Segment) : jsnum :=
  fsub (Num.Math_max (map (fun s => ofInt (ParquetSegment.end_ s)) segs))
       (Num.Math_min (map (fun s => ofInt (ParquetSegment.start s)) segs)).

(** The rational a finite number stands for (zero for the others). *)
Definition toQ (a : jsnum) : Q :=
  match a with
  | Fin q => q
  | _ => 0%Q
  end.

(** The sum of a list of rationals. *)
Fixpoint Qsum (l : list Q) : Q :=
  match l with
  | [] => 0%Q
  | q :: rest => (q + Qsum rest)%Q
  end.

(** *** Navigation *)

(** The level of the overview, and the child level of a segment. *)
Definition rootLevel (cache : SegmentHierarchyBuilder.HierarchyCache) : SvgByteVisualizer.Level :=
  {| SvgByteVisualizer.name := "overview";
     SvgByteVisualizer.parentSegmentId := None;
     SvgByteVisualizer.segments :=
       SegmentHierarchyBuilder.array_of
         (SegmentHierarchyBuilder.getSegmentsForLevel cache "overview" None) |}.

Definition levelFor (cache : SegmentHierarchyBuilder.HierarchyCache) (seg : Segment)
  : SvgByteVisualizer.Level :=
  {| SvgByteVisualizer.name := default "" (ParquetSegment.childLevelName seg);
     SvgByteVisualizer.parentSegmentId := Some (ParquetSegment.id seg);
     SvgByteVisualizer.segments :=
       SegmentHierarchyBuilder.array_of (SvgByteVisualizer.childSegments cache seg) |}.

(** The segments of the selection path that have children. *)
Definition ancestors_with_children (cache : SegmentHierarchyBuilder.HierarchyCache)
    (path : list Segment) : list Segment :=
  List.filter (SvgByteVisualizer.segmentHasChildren cache) path.

(** The navigation stack invariant: the levels are the overview followed by
    the child level of each segment of the selection path that has children, in
    the order of the path; the selection map holds, for each position of the
    path and for no other index, the id of the segment there; and only the last
    segment of the path may be without children. *)
Definition consistent (cache : SegmentHierarchyBuilder.HierarchyCache)
    (st : SvgByteVisualizer.State) : Prop :=
  SvgByteVisualizer.levels st =
    rootLevel cache ::
    map (levelFor cache) (ancestors_with_children cache (SvgByteVisualizer.selectionPath st)) /\
  (forall i : nat,
     SvgByteVisualizer.selectedSegments st !! i =
     ParquetSegment.id <$> SvgByteVisualizer.selectionPath st !! i) /\
  (forall (i : nat) (s : Segment),
     SvgByteVisualizer.selectionPath st !! i = Some s ->
     (S i < length (SvgByteVisualizer.selectionPath st))%nat ->
     SvgByteVisualizer.segmentHasChildren cache s = true).

(** No event of the sequence is a press of the Backspace key. *)
Definition no_backspace (es : list SvgByteVisualizer.Event) : Prop :=
  Forall (fun e => e <> SvgByteVisualizer.KeyDown "Backspace") es.

(** ** Payloads of the scenarios *)

Module Scenarios.
Import SegmentHierarchyBuilder.

(** The length of the JSON text of an inner metadata object is not read by any
    scenario that leaves [metadata.total_byte_size] set; this stand-in is the
    length of the text of an empty object. *)
Definition json_length : FileMetadata -> Z := fun _ => 2.

Definition no_metadata : Metadata :=
  {| md_total_byte_size := None; md_start_offset := None; md_metadata := None |}.

(** Scenario 1 of the specification: [filesize = 1000], no [column_chunks],
    [metadata.total_byte_size = 100]. *)
Definition scenario1 : FileData :=
  {| filesize := Some 1000; column_chunks := None;
     metadata := Some {| md_total_byte_size := Some 100; md_start_offset := None;
                         md_metadata := None |} |}.

(** A 600-byte file whose payload has no [metadata] at all. *)
Definition small_file : FileData :=
  {| filesize := Some 600; column_chunks := None; metadata := None |}.

(** A 1000-byte file with an empty [column_chunks] array and an empty
    [metadata] object. *)
Definition bare_file : FileData :=
  {| filesize := Some 1000; column_chunks := Some []; metadata := Some no_metadata |}.

(** A 1000-byte file with one row group and one column chunk [a] at
    [[4, 104)], stored as a single data page; its footer metadata is 100 bytes
    long and lists the chunk under the row group. *)
Definition one_chunk_file : FileData :=
  {| filesize := Some 1000;
     column_chunks := Some [
       {| path_in_schema := Some "a"; start_offset := Some 4; total_byte_size := Some 100;
          dictionary_page := None;
          data_pages := Some [ {| page_start_offset := Some 4; header_size := Some 10;
                                  compressed_page_size := Some 90 |} ];
          index_pages := None |} ];
     metadata := Some {|
       md_total_byte_size := Some 100;
       md_start_offset := Some 892;
       md_metadata := Some {|
         schema_root := None;
         row_groups := Some [
           {| rg_byte_length := Some 60;
              rg_column_chunks := Some [
                ("a", {| total_compressed_size := Some 100;
                         total_uncompressed_size := Some 150;
                         column_index_offset := None;
                         column_index_length := None |}) ] |} ];
         key_value_metadata := None |} |} |}.

Definition plain_chunk (p : string) (o z : Z) : ColumnChunk :=
  {| path_in_schema := Some p; start_offset := Some o; total_byte_size := Some z;
     dictionary_page := None; data_pages := None; index_pages := None |}.

Definition plain_row_group : RowGroup :=
  {| rg_byte_length := None; rg_column_chunks := None |}.

(** Scenario 2 of the specification: three column chunks
    [(100,50), (200,80), (150,30)] and one row group. *)
Definition scenario2_chunks : list ColumnChunk :=
  [ plain_chunk "a" 100 50; plain_chunk "b" 200 80; plain_chunk "c" 150 30 ].

Definition with_row_groups (chunks : list ColumnChunk) (rgs : list RowGroup) : FileData :=
  {| filesize := Some 1000;
     column_chunks := Some chunks;
     metadata := Some {| md_total_byte_size := Some 100; md_start_offset := None;
                         md_metadata := Some {| schema_root := None;
                                                row_groups := Some rgs;
                                                key_value_metadata := None |} |} |}.

Definition scenario2 : FileData := with_row_groups scenario2_chunks [plain_row_group].

(** A chunk record without [path_in_schema], and a file of one row group with
    that chunk alone. *)
Definition nameless_chunk : ColumnChunk :=
  {| path_in_schema := None; start_offset := Some 4; total_byte_size := Some 100;
     dictionary_page := None; data_pages := None; index_pages := None |}.

Definition nameless_file : FileData := with_row_groups [nameless_chunk] [plain_row_group].

(** The same three chunks under two row groups: blocks of two chunks. *)
Definition two_row_groups : FileData :=
  with_row_groups scenario2_chunks [plain_row_group; plain_row_group].

(** A segment with nothing but an id and a range. *)
Definition bare_segment (i : string) (s e : Z) : Segment :=
  {| ParquetSegment.id := i; ParquetSegment.name := i;
     ParquetSegment.start := Int s; ParquetSegment.end_ := Int e;
     ParquetSegment.metadata := None; ParquetSegment.rowGroupIndex := None;
     ParquetSegment.chunkIndex := None; ParquetSegment.pageIndex := None;
     ParquetSegment.columnPath := None; ParquetSegment.physicalMetadata := None;
     ParquetSegment.logicalMetadata := None |}.

(** [Math.log10] where it is rational: on the powers of ten up to a million.
    The scenarios take no other logarithm. *)
Definition log10_of_powers (a : jsnum) : jsnum :=
  match a with
  | Fin q =>
      if Qeq_bool q 1 then Fin 0
      else if Qeq_bool q 10 then Fin 1
      else if Qeq_bool q 100 then Fin 2
      else if Qeq_bool q 1000 then Fin 3
      else if Qeq_bool q 10000 then Fin 4
      else if Qeq_bool q 100000 then Fin 5
      else if Qeq_bool q 1000000 then Fin 6
      else NaN
  | _ => NaN
  end.

(** [Math.pow] where it is rational whatever the exponent: on the bases 0 (for
    a positive exponent) and 1. *)
Definition pow_of_units (a b : jsnum) : jsnum :=
  match a, b with
  | Fin q, Fin e =>
      if Qeq_bool q 1 then Fin 1
      else if Qeq_bool q 0 && negb (Qle_bool e 0) then Fin 0
      else NaN
  | _, _ => NaN
  end.

(** Scenario 3 of the specification: sizes [1, 1, 1, 1, 1000] over a span of
    1004 bytes, in a container 500 pixels wide. *)
Definition scenario3 : list Segment :=
  [ bare_segment "a" 0 1; bare_segment "b" 1 2; bare_segment "c" 2 3;
    bare_segment "d" 3 4; bare_segment "e" 4 1004 ].

(** Two segments of ten bytes with a gap of ten bytes between them. *)
Definition gapped : list Segment :=
  [ bare_segment "a" 0 10; bare_segment "b" 20 30 ].

(** Two segments over the same ten bytes. *)
Definition overlapping : list Segment :=
  [ bare_segment "a" 0 10; bare_segment "b" 0 10 ].

(** A lone segment of no bytes, as the key-value level of a file has it when its
    only entry records no [byte_length]. *)
Definition empty_entry : list Segment := [ bare_segment "kv_0_k" 10 10 ].

(** A file whose footer lists one key-value entry [k] at offset 10 and records
    no length for it. *)
Definition one_entry_file : FileData :=
  {| filesize := Some 1000; column_chunks := None;
     metadata := Some {|
       md_total_byte_size := Some 100;
       md_start_offset := Some 892;
       md_metadata := Some {|
         schema_root := None;
         row_groups := None;
         key_value_metadata := Some [
           {| key := Some "k"; value := Some "v"; kv_byte_length := None;
              kv_start_offset := Some 10 |} ] |} |} |}.

Definition empty_cache : SegmentHierarchyBuilder.HierarchyCache :=
  {| overview := []; rowgroups := []; columnchunks := []; pages := [];
     metadatastructure := []; schemaelements := []; rowgroupelements := [];
     indexelements := []; keyvaluemetadata := []; columnchunkmetadata := [] |}.

Definition one_chunk_cache : SegmentHierarchyBuilder.HierarchyCache :=
  match buildAll json_length one_chunk_file with
  | Ok cache => cache
  | Throw _ => empty_cache
  end.

(** The overview segment [rowgroups] and the row-group segment [rowgroup_0] of
    the one-chunk file. *)
Definition rowgroups_segment : Segment :=
  {| ParquetSegment.id := "rowgroups"; ParquetSegment.name := "ROWGROUPS";
     ParquetSegment.start := Int 4; ParquetSegment.end_ := Int 104;
     ParquetSegment.metadata := None; ParquetSegment.rowGroupIndex := None;
     ParquetSegment.chunkIndex := None; ParquetSegment.pageIndex := None;
     ParquetSegment.columnPath := None; ParquetSegment.physicalMetadata := None;
     ParquetSegment.logicalMetadata := None |}.

Definition rowgroup_0_segment : Segment :=
  default rowgroups_segment (rowgroups one_chunk_cache !! 0%nat).

(** Drilling down to the column chunks of row group 0 ... *)
Definition drill_down : list SvgByteVisualizer.Event :=
  [ SvgByteVisualizer.Click rowgroups_segment 0; SvgByteVisualizer.Click rowgroup_0_segment 1 ].

(** ... and going back twice with the Backspace key. *)
Definition drill_down_and_back : list SvgByteVisualizer.Event :=
  drill_down ++ [ SvgByteVisualizer.KeyDown "Backspace"; SvgByteVisualizer.KeyDown "Backspace" ].

(** A page in which [updateSelectionDisplay()] always returns. *)
Definition plain_display : gmap nat string -> result unit := fun _ => Ok ().

(** A sample info panel. The handlers take the panel as a parameter and rely
    on nothing but its two methods, which can throw. This one is left by a
    TypeError on a schema element of type [column] and returns on every other
    segment; the panel the page wires in throws in that way on the schema
    elements that carry a [logical_type], where it calls a
    [getLogicalTypeInfo] that the type resolver does not have. *)
Definition column_panel : SvgByteVisualizer.InfoPanelManager :=
  {| SvgByteVisualizer.showSegment := fun seg =>
       match ParquetSegment.metadata seg with
       | Some (ParquetSegment.MetaSchemaElement e) =>
           match element_type e with
           | Some ty => if String.eqb ty "column" then Throw TypeError else Ok ()
           | None => Ok ()
           end
       | _ => Ok ()
       end;
     SvgByteVisualizer.showOverview := Ok () |}.

End Scenarios.

(** ** ParquetSegment: copies *)

Module ParquetSegmentCopy.
Import ParquetSegment.

(** [toJSON()], as the constructor reads it back: the object also carries
    [size], which the constructor does not read, and [description], which is
    left out here as it is in the segment. *)
Definition toJSON (this : t) : Config :=
  {| c_id := Some (id this);
     c_name := Some (name this);
     c_start := Some (start this);
     c_end := Some (end_ this);
     c_metadata := metadata this;
     c_rowGroupIndex := rowGroupIndex this;
     c_chunkIndex := chunkIndex this;
     c_pageIndex := pageIndex this;
     c_columnPath := columnPath this;
     c_physicalMetadata := physicalMetadata this;
     c_logicalMetadata := logicalMetadata this |}.

(** [ParquetSegment.fromJSON(obj)] *)
Definition fromJSON (obj : Config) : result t := new obj.

(** The [updates] of [clone]: for each property, [None] when the object does
    not have it, and the value it has (which can be [undefined]) otherwise. *)
Record Updates : Type := {
  u_id : option (option string);
  u_name : option (option string);
  u_start : option (option jsint);
  u_end : option (option jsint);
  u_metadata : option (option SegmentMetadata);
  u_rowGroupIndex : option (option nat);
  u_chunkIndex : option (option nat);
  u_pageIndex : option (option nat);
  u_columnPath : option (option string);
  u_physicalMetadata : option (option ColumnChunk);
  u_logicalMetadata : option (option ColumnMeta)
}.

(** [{}] *)
Definition no_updates : Updates :=
  {| u_id := None; u_name := None; u_start := None; u_end := None; u_metadata := None;
     u_rowGroupIndex := None; u_chunkIndex := None; u_pageIndex := None;
     u_columnPath := None; u_physicalMetadata := None; u_logicalMetadata := None |}.

(** [clone(updates = {})]: the segment's properties, overridden by those
    [updates] has. *)
Definition clone (this : t) (updates : Updates) : result t :=
  new {| c_id := default (Some (id this)) (u_id updates);
         c_name := default (Some (name this)) (u_name updates);
         c_start := default (Some (start this)) (u_start updates);
         c_end := default (Some (end_ this)) (u_end updates);
         c_metadata := default (metadata this) (u_metadata updates);
         c_rowGroupIndex := default (rowGroupIndex this) (u_rowGroupIndex updates);
         c_chunkIndex := default (chunkIndex this) (u_chunkIndex updates);
         c_pageIndex := default (pageIndex this) (u_pageIndex updates);
         c_columnPath := default (columnPath this) (u_columnPath updates);
         c_physicalMetadata := default (physicalMetadata this) (u_physicalMetadata updates);
         c_logicalMetadata := default (logicalMetadata this) (u_logicalMetadata updates) |}.

End ParquetSegmentCopy.

(** ** SegmentLayoutCalculator: the geometry of levels *)

Module LevelGeometry.
Import VisualizationConfig SegmentLayoutCalculator.

(** [a <= b] and [a >= b]: false when either side is NaN. *)
Definition fle (a b : jsnum) : bool :=
  match a, b with
  | NaN, _ | _, NaN => false
  | _, _ => negb (flt b a)
  end.

Definition fge (a b : jsnum) : bool := fle b a.

(** The statistics [computeLevelLayout] adds for a level with segments. *)
Record LevelStats : Type := {
  totalSize : jsnum;
  minStart : jsnum;
  maxEnd : jsnum;
  segmentCount : nat
}.

(** The layout object of a level. [level_segments] is absent only in objects
    [computeLevelLayout] did not make. *)
Record LevelLayout : Type := {
  level_x : jsnum;
  level_y : jsnum;
  level_width : jsnum;
  level_height : jsnum;
  level_segments : option (list SegmentLayout);
  level_stats : option LevelStats;
  levelName : string;
  level_parentSegmentId : option string
}.

Section Geometry.

Variable Math_log10 : jsnum -> jsnum.
Variable Math_pow : jsnum -> jsnum -> jsnum.

(** [computeLevelLayout(levelName, parentSegmentId, segments, levelIndex,
    containerWidth, config)] *)
Definition computeLevelLayout (levelName : string) (parentSegmentId : option string)
    (segments : list Segment) (levelIndex : nat) (containerWidth : jsnum) (config : Layout)
  : LevelLayout :=
  let y := fmul (Fin (inject_Z (Z.of_nat levelIndex)))
                (fadd (LEVEL_HEIGHT config) (LEVEL_SPACING config)) in
  match segments with
  | [] =>
      {| level_x := Fin 0; level_y := y; level_width := containerWidth;
         level_height := LEVEL_HEIGHT config; level_segments := Some [];
         level_stats := None; levelName := levelName;
         level_parentSegmentId := parentSegmentId |}
  | _ :: _ =>
      let segmentLayouts :=
        calculateSegmentWidths Math_log10 Math_pow segments containerWidth config in
      let minStart := Math_min (map (fun s => ofInt (ParquetSegment.start s)) segments) in
      let maxEnd := Math_max (map (fun s => ofInt (ParquetSegment.end_ s)) segments) in
      let totalSize := fsub maxEnd minStart in
      {| level_x := Fin 0; level_y := y; level_width := containerWidth;
         level_height := LEVEL_HEIGHT config; level_segments := Some segmentLayouts;
         level_stats := Some {| totalSize := totalSize; minStart := minStart;
                                maxEnd := maxEnd; segmentCount := length segments |};
         levelName := levelName; level_parentSegmentId := parentSegmentId |}
  end.

End Geometry.

(** [calculateCanvasHeight(levelCount, config)] *)
Definition calculateCanvasHeight (levelCount : nat) (config : Layout) : jsnum :=
  match levelCount with
  | O => fadd (LEVEL_HEIGHT config) (fmul (TOP_MARGIN config) (Fin 2))
  | S _ =>
      fadd (fmul (Fin (inject_Z (Z.of_nat levelCount)))
                 (fadd (LEVEL_HEIGHT config) (LEVEL_SPACING config)))
           (fmul (TOP_MARGIN config) (Fin 2))
  end.

(** The trapezoid between a parent segment and its child level. *)
Record ConnectionGeometry : Type := {
  parentLeft : jsnum;
  parentRight : jsnum;
  parentY : jsnum;
  childLeft : jsnum;
  childRight : jsnum;
  childY : jsnum;
  connection_height : jsnum
}.

(** [calculateConnectionGeometry(parentSegmentLayout, parentLevelLayout,
    childLevelLayout, containerWidth)]: [None] is [null]. *)
Definition calculateConnectionGeometry (parentSegmentLayout : SegmentLayout)
    (parentLevelLayout childLevelLayout : LevelLayout) (containerWidth : jsnum)
  : option ConnectionGeometry :=
  let parentY := fadd (level_y parentLevelLayout) (level_height parentLevelLayout) in
  let childY := level_y childLevelLayout in
  let connectionHeight := fsub childY parentY in
  if fle connectionHeight (Fin 0) then None
  else Some {| parentLeft := x parentSegmentLayout;
               parentRight := fadd (x parentSegmentLayout) (width parentSegmentLayout);
               parentY := parentY;
               childLeft := Fin 0;
               childRight := containerWidth;
               childY := childY;
               connection_height := connectionHeight |}.

(** What [hitTest] returns for a hit. *)
Record Hit : Type := {
  hit_segment : Segment;
  hit_level : LevelLayout;
  hit_levelIndex : nat;
  hit_segmentLayout : SegmentLayout;
  localX : jsnum;
  localY : jsnum
}.

(** The test of [hitTest] on one segment of one level. *)
Definition hits (px py tolerance : jsnum) (level : LevelLayout) (segmentLayout : SegmentLayout)
  : bool :=
  let segmentX := x segmentLayout in
  let segmentY := fadd (level_y level) (y segmentLayout) in
  let segmentWidth := width segmentLayout in
  let segmentHeight := height segmentLayout in
  fge px (fsub segmentX tolerance) &&
  fle px (fadd (fadd segmentX segmentWidth) tolerance) &&
  fge py (fsub segmentY tolerance) &&
  fle py (fadd (fadd segmentY segmentHeight) tolerance).

(** The loop of [hitTest] over the levels from [levelIndex] on. *)
Fixpoint hitTest_from (px py tolerance : jsnum) (levelIndex : nat)
    (levelLayouts : list LevelLayout) : option Hit :=
  match levelLayouts with
  | [] => None
  | level :: rest =>
      match level_segments level with
      | None => hitTest_from px py tolerance (S levelIndex) rest
      | Some segments =>
          match List.find (hits px py tolerance level) segments with
          | Some segmentLayout =>
              Some {| hit_segment := segment segmentLayout;
                      hit_level := level;
                      hit_levelIndex := levelIndex;
                      hit_segmentLayout := segmentLayout;
                      localX := fsub px (x segmentLayout);
                      localY := fsub py (fadd (level_y level) (y segmentLayout)) |}
          | None => hitTest_from px py tolerance (S levelIndex) rest
          end
      end
  end.

(** [hitTest(x, y, levelLayouts, config)]; [HIT_TEST_TOLERANCE] is the one
    property of [config] it reads, NaN when the property is absent. *)
Definition hitTest (px py : jsnum) (levelLayouts : list LevelLayout)
    (HIT_TEST_TOLERANCE : jsnum) : option Hit :=
  let tolerance := f_or HIT_TEST_TOLERANCE (Fin 0) in
  hitTest_from px py tolerance 0 levelLayouts.

(** [validated[prop] !== undefined && validated[prop] <= 0] replaces the
    property by the default; an absent property is NaN and is kept. *)
Definition positive_or (value default : jsnum) : jsnum :=
  if fle value (Fin 0) then default else value.

(** [validateConfig(config)] *)
Definition validateConfig (config : Layout) : Layout :=
  let validated :=
    {| LEVEL_HEIGHT := positive_or (LEVEL_HEIGHT config) (LEVEL_HEIGHT LAYOUT);
       LEVEL_SPACING := positive_or (LEVEL_SPACING config) (LEVEL_SPACING LAYOUT);
       TOP_MARGIN := positive_or (TOP_MARGIN config) (TOP_MARGIN LAYOUT);
       SEGMENT_MARGIN := positive_or (SEGMENT_MARGIN config) (SEGMENT_MARGIN LAYOUT);
       MIN_SEGMENT_WIDTH :=
         positive_or (MIN_SEGMENT_WIDTH config) (MIN_SEGMENT_WIDTH LAYOUT);
       MAX_MIN_SEGMENT_WIDTH :=
         positive_or (MAX_MIN_SEGMENT_WIDTH config) (MAX_MIN_SEGMENT_WIDTH LAYOUT);
       LOG_SCALE_FACTOR := LOG_SCALE_FACTOR config;
       STARTING_BASELINE :=
         positive_or (STARTING_BASELINE config) (STARTING_BASELINE LAYOUT) |} in
  let MAX_MIN :=
    if fgt (MIN_SEGMENT_WIDTH validated) (MAX_MIN_SEGMENT_WIDTH validated)
    then fmul (MIN_SEGMENT_WIDTH validated) (Fin 2)
    else MAX_MIN_SEGMENT_WIDTH validated in
  let LOG :=
    if fle (LOG_SCALE_FACTOR validated) (Fin 0) || fgt (LOG_SCALE_FACTOR validated) (Fin 10)
    then Fin 2
    else LOG_SCALE_FACTOR validated in
  {| LEVEL_HEIGHT := LEVEL_HEIGHT validated;
     LEVEL_SPACING := LEVEL_SPACING validated;
     TOP_MARGIN := TOP_MARGIN validated;
     SEGMENT_MARGIN := SEGMENT_MARGIN validated;
     MIN_SEGMENT_WIDTH := MIN_SEGMENT_WIDTH validated;
     MAX_MIN_SEGMENT_WIDTH := MAX_MIN;
     LOG_SCALE_FACTOR := LOG;
     STARTING_BASELINE := STARTING_BASELINE validated |}.

End LevelGeometry.

(** ** Sample payloads *)

Module Samples.
Import SegmentHierarchyBuilder VisualizationConfig SegmentLayoutCalculator SvgByteVisualizer.

(** What a builder returned, [d] had it thrown. *)
Definition returned {A} (d : A) (r : result A) : A :=
  match r with
  | Ok a => a
  | Throw _ => d
  end.

(** The footer metadata of a file with a schema of one column, one row group
    whose column [a] has a column index of 40 bytes at offset 2000, and one
    key-value entry. *)
Definition indexed_metadata : FileMetadata :=
  {| schema_root := Some
       (mkSchemaElement (Some "group") (Some 3000) (Some 20)
          (Some [("a", mkSchemaElement (Some "INT32") (Some 3020) (Some 30) None)]));
     row_groups := Some [
       {| rg_byte_length := Some 60;
          rg_column_chunks := Some [
            ("a", {| total_compressed_size := Some 100;
                     total_uncompressed_size := Some 150;
                     column_index_offset := Some 2000;
                     column_index_length := Some 40 |});
            ("b", {| total_compressed_size := None;
                     total_uncompressed_size := Some 70;
                     column_index_offset := None;
                     column_index_length := None |}) ] |} ];
     key_value_metadata := Some [
       {| key := Some "k"; value := Some "v"; kv_byte_length := Some 12;
          kv_start_offset := Some 3200 |} ] |}.

(** The chunk of column [b], which records no [total_byte_size]. *)
Definition incomplete_chunk : ColumnChunk :=
  {| path_in_schema := Some "b"; start_offset := Some 104; total_byte_size := None;
     dictionary_page := None; data_pages := None; index_pages := None |}.

(** A 5000-byte file with that metadata at offset 3000 and the chunks of the
    columns [a] and [b]. *)
Definition indexed_file : FileData :=
  {| filesize := Some 5000;
     column_chunks := Some [ Scenarios.plain_chunk "a" 4 100; incomplete_chunk ];
     metadata := Some {| md_total_byte_size := Some 1000; md_start_offset := Some 3000;
                         md_metadata := Some indexed_metadata |} |}.

Definition indexed_row_groups : list RowGroup := default [] (row_groups indexed_metadata).

Definition indexed_row_group : RowGroup :=
  default Scenarios.plain_row_group (indexed_row_groups !! 0%nat).

(** The segment [chunk_0_0] and its page in the cache of the one-chunk file. *)
Definition chunk_0_0_segment : Segment :=
  default Scenarios.rowgroups_segment
    (array_of (getSegmentsForLevel Scenarios.one_chunk_cache "columnchunks"
                                   (Some "rowgroup_0")) !! 0%nat).

Definition pages_of_chunk_0_0 : list Segment :=
  returned [] (buildPageSegments Scenarios.one_chunk_file 0 0).

Definition page_segment_0 : Segment :=
  default Scenarios.rowgroups_segment (pages_of_chunk_0_0 !! 0%nat).

(** The overview segment [metadata] of the one-chunk file. *)
Definition metadata_segment : Segment :=
  default Scenarios.rowgroups_segment (overview Scenarios.one_chunk_cache !! 2%nat).

(** The state after the drill-down and two presses of Backspace. *)
Definition back_at_overview : State :=
  run Scenarios.one_chunk_cache Scenarios.plain_display (Some Scenarios.column_panel)
      (initWithData Scenarios.one_chunk_cache) Scenarios.drill_down_and_back.

(** A 1000-byte file of one row group whose two column chunks of ten bytes,
    [a] at [[4, 14)] and [b] at [[34, 44)], lie twenty bytes apart. *)
Definition gapped_file : FileData :=
  {| filesize := Some 1000;
     column_chunks := Some [ Scenarios.plain_chunk "a" 4 10; Scenarios.plain_chunk "b" 34 10 ];
     metadata := Some {|
       md_total_byte_size := Some 100;
       md_start_offset := Some 892;
       md_metadata := Some {| schema_root := None;
                              row_groups := Some [ Scenarios.plain_row_group ];
                              key_value_metadata := None |} |} |}.

(** The level a click on its row group opens. *)
Definition gapped_chunks : list Segment :=
  array_of (getSegmentsForLevel
              (returned Scenarios.empty_cache (buildAll Scenarios.json_length gapped_file))
              "columnchunks" (Some "rowgroup_0")).

(** A 5000-byte file whose schema has a group [g] with the column [x], and
    beside the group the column [a]. *)
Definition nested_file : FileData :=
  {| filesize := Some 5000;
     column_chunks := None;
     metadata := Some {|
       md_total_byte_size := Some 1000;
       md_start_offset := Some 3000;
       md_metadata := Some {|
         schema_root := Some
           (mkSchemaElement (Some "group") (Some 3000) (Some 20)
              (Some [ ("g", mkSchemaElement (Some "group") (Some 3020) (Some 10)
                              (Some [ ("x", mkSchemaElement (Some "column") (Some 3030)
                                              (Some 30) None) ]));
                      ("a", mkSchemaElement (Some "column") (Some 3060) (Some 30) None) ]));
         row_groups := None;
         key_value_metadata := None |} |} |}.

Definition nested_cache : HierarchyCache :=
  returned Scenarios.empty_cache (buildAll Scenarios.json_length nested_file).

(** Its segments [metadata], [schema_root], [schema_root_g] and
    [schema_root_a]. *)
Definition nested_metadata_segment : Segment :=
  default Scenarios.rowgroups_segment (overview nested_cache !! 2%nat).

Definition schema_root_segment : Segment :=
  default Scenarios.rowgroups_segment (metadatastructure nested_cache !! 0%nat).

Definition group_g_segment : Segment :=
  default Scenarios.rowgroups_segment
    (array_of (getSegmentsForLevel nested_cache "schemaelements" (Some "schema_root"))
       !! 0%nat).

Definition column_a_segment : Segment :=
  default Scenarios.rowgroups_segment
    (array_of (getSegmentsForLevel nested_cache "schemaelements" (Some "schema_root"))
       !! 1%nat).

(** Down to the group [g], and then a click on the column [a] beside it. *)
Definition open_group : list Event :=
  [ Click nested_metadata_segment 0; Click schema_root_segment 1; Click group_g_segment 2 ].

Definition open_group_click_column : list Event := open_group ++ [ Click column_a_segment 2 ].

(** The footer segment of a 1000-byte file. *)
Definition footer_segment : Segment :=
  {| ParquetSegment.id := "footer"; ParquetSegment.name := "FOOTER";
     ParquetSegment.start := Int 992; ParquetSegment.end_ := Int 996;
     ParquetSegment.metadata := None; ParquetSegment.rowGroupIndex := None;
     ParquetSegment.chunkIndex := None; ParquetSegment.pageIndex := None;
     ParquetSegment.columnPath := None; ParquetSegment.physicalMetadata := None;
     ParquetSegment.logicalMetadata := None |}.

(** A segment layout of 100 pixels at the left edge. *)
Definition left_layout : SegmentLayout :=
  {| segment := footer_segment; x := Fin 0; y := Fin 2; width := Fin 100; height := Fin 36;
     widthPercent := Fin 20; isExpanded := false; naturalWidth := Fin 100;
     minWidth := Fin 5 |}.

End Samples.

(** * Properties *)

Import SegmentHierarchyBuilder.

(** ** The exception monad and the segment constructor *)

Section Constructor.

Lemma bind_Ok {A B} (m : result A) (f : A -> result B) (b : B) :
  (m ≫= f) = Ok b <-> exists a, m = Ok a /\ f a = Ok b.
Proof.
  destruct m as [a|e]; simpl; split.
  - intros H. exists a. split; [reflexivity | exact H].
  - intros (a' & Ha & H). injection Ha as ->. exact H.
  - discriminate.
  - intros (a' & Ha & _). discriminate.
Qed.

Lemma negative_index_nat (i : option nat) : ParquetSegment.negative_index i = false.
Proof. destruct i as [n|]; simpl; [apply Z.ltb_ge; lia | reflexivity]. Qed.

(** What [new ParquetSegment(config)] checks: the record it returns carries the
    config's properties, its start is not negative and its end not before its
    start. *)
Lemma new_Ok (config : ParquetSegment.Config) (seg : Segment) :
  ParquetSegment.new config = Ok seg <->
  ParquetSegment.c_id config = Some (ParquetSegment.id seg) /\
  ParquetSegment.c_name config = Some (ParquetSegment.name seg) /\
  ParquetSegment.c_start config = Some (ParquetSegment.start seg) /\
  ParquetSegment.c_end config = Some (ParquetSegment.end_ seg) /\
  ParquetSegment.metadata seg = ParquetSegment.c_metadata config /\
  ParquetSegment.rowGroupIndex seg = ParquetSegment.c_rowGroupIndex config /\
  ParquetSegment.chunkIndex seg = ParquetSegment.c_chunkIndex config /\
  ParquetSegment.pageIndex seg = ParquetSegment.c_pageIndex config /\
  ParquetSegment.columnPath seg = ParquetSegment.c_columnPath config /\
  ParquetSegment.physicalMetadata seg = ParquetSegment.c_physicalMetadata config /\
  ParquetSegment.logicalMetadata seg = ParquetSegment.c_logicalMetadata config /\
  lt (ParquetSegment.start seg) (Int 0) = false /\
  lt (ParquetSegment.end_ seg) (ParquetSegment.start seg) = false.
Proof.
  unfold ParquetSegment.new, ParquetSegment._validateRequired, ParquetSegment._validate.
  destruct config as [ci cn cs ce cm cr cc cp cpath cphys clog]; simpl.
  destruct ci as [i|], cn as [n|], cs as [s|], ce as [e|]; simpl;
    try (split; [discriminate | intros H; decompose [and] H; discriminate]).
  rewrite !negative_index_nat.
  destruct (lt s (Int 0)) eqn:Hs; simpl.
  { split; [discriminate|]. intros H. decompose [and] H. congruence. }
  destruct (lt e s) eqn:He; simpl.
  { split; [discriminate|]. intros H. decompose [and] H. congruence. }
  split.
  - intros [= <-]. simpl. repeat split; assumption.
  - destruct seg; simpl. intros H. decompose [and] H. unfold mret, result_ret. congruence.
Qed.

(** The constructor on integer bounds: it returns exactly when
    [0 <= start <= end]. *)
Lemma new_plain_Ok (i n : string) (s e : Z) :
  0 <= s -> s <= e ->
  ParquetSegment.new (ParquetSegment.plain i n (Int s) (Int e)) =
  Ok {| ParquetSegment.id := i; ParquetSegment.name := n;
        ParquetSegment.start := Int s; ParquetSegment.end_ := Int e;
        ParquetSegment.metadata := None; ParquetSegment.rowGroupIndex := None;
        ParquetSegment.chunkIndex := None; ParquetSegment.pageIndex := None;
        ParquetSegment.columnPath := None; ParquetSegment.physicalMetadata := None;
        ParquetSegment.logicalMetadata := None |}.
Proof.
  intros Hs He. apply new_Ok. simpl. repeat split; try reflexivity; apply Z.ltb_ge; lia.
Qed.

Lemma new_plain_inv (i n : string) (s e : Z) (seg : Segment) :
  ParquetSegment.new (ParquetSegment.plain i n (Int s) (Int e)) = Ok seg ->
  0 <= s /\ s <= e /\ ParquetSegment.id seg = i /\
  ParquetSegment.start seg = Int s /\ ParquetSegment.end_ seg = Int e.
Proof.
  intros H. apply new_Ok in H. simpl in H.
  destruct H as (Hi & _ & Hs & He & _ & _ & _ & _ & _ & _ & _ & H0 & H1).
  injection Hi as Hi. injection Hs as Hs. injection He as He.
  rewrite <- Hs in H0, H1. rewrite <- He in H1. simpl in H0, H1.
  apply Z.ltb_ge in H0, H1. auto.
Qed.

(** The constructor returns on integer bounds with [0 <= start <= end]. *)
Lemma new_succeeds (config : ParquetSegment.Config) (i n : string) (s e : Z) :
  ParquetSegment.c_id config = Some i ->
  ParquetSegment.c_name config = Some n ->
  ParquetSegment.c_start config = Some (Int s) ->
  ParquetSegment.c_end config = Some (Int e) ->
  0 <= s -> s <= e ->
  exists seg,
    ParquetSegment.new config = Ok seg /\
    ParquetSegment.id seg = i /\
    range seg = (Int s, Int e) /\
    ParquetSegment.rowGroupIndex seg = ParquetSegment.c_rowGroupIndex config /\
    ParquetSegment.chunkIndex seg = ParquetSegment.c_chunkIndex config /\
    ParquetSegment.pageIndex seg = ParquetSegment.c_pageIndex config /\
    ParquetSegment.metadata seg = ParquetSegment.c_metadata config /\
    ParquetSegment.physicalMetadata seg = ParquetSegment.c_physicalMetadata config.
Proof.
  intros Hi Hn Hs He H0 Hle.
  exists {| ParquetSegment.id := i; ParquetSegment.name := n;
            ParquetSegment.start := Int s; ParquetSegment.end_ := Int e;
            ParquetSegment.metadata := ParquetSegment.c_metadata config;
            ParquetSegment.rowGroupIndex := ParquetSegment.c_rowGroupIndex config;
            ParquetSegment.chunkIndex := ParquetSegment.c_chunkIndex config;
            ParquetSegment.pageIndex := ParquetSegment.c_pageIndex config;
            ParquetSegment.columnPath := ParquetSegment.c_columnPath config;
            ParquetSegment.physicalMetadata := ParquetSegment.c_physicalMetadata config;
            ParquetSegment.logicalMetadata := ParquetSegment.c_logicalMetadata config |}.
  split; [|repeat split].
  apply new_Ok. simpl. repeat split; try assumption; apply Z.ltb_ge; lia.
Qed.

End Constructor.

(** ** Overview segments *)

Section Overview.

Variable json : FileMetadata -> Z.

Lemma Math_min_Int (x : Z) (xs : list Z) :
  JS.Math_min (Int x) (map Int xs) = Int (foldl Z.min x xs).
Proof.
  unfold JS.Math_min. revert x. induction xs as [|y ys IH]; intros x; simpl; [reflexivity|].
  apply IH.
Qed.

Lemma Math_max_Int (x : Z) (xs : list Z) :
  JS.Math_max (Int x) (map Int xs) = Int (foldl Z.max x xs).
Proof.
  unfold JS.Math_max. revert x. induction xs as [|y ys IH]; intros x; simpl; [reflexivity|].
  apply IH.
Qed.

Lemma foldl_min_is_minimum (x : Z) (xs : list Z) : is_minimum (foldl Z.min x xs) (x :: xs).
Proof.
  revert x. induction xs as [|y ys IH]; intros x; simpl.
  - split; [apply list_elem_of_here|]. intros z Hz. apply list_elem_of_singleton in Hz. lia.
  - destruct (IH (Z.min x y)) as [Hin Hle]. split.
    + apply elem_of_cons in Hin as [Hin|Hin].
      * rewrite Hin. destruct (Z.min_spec x y) as [[_ ->]|[_ ->]].
        -- apply list_elem_of_here.
        -- apply list_elem_of_further, list_elem_of_here.
      * do 2 apply list_elem_of_further. exact Hin.
    + intros z Hz.
      assert (Hm : foldl Z.min (Z.min x y) ys <= Z.min x y).
      { apply Hle, list_elem_of_here. }
      apply elem_of_cons in Hz as [->|Hz]; [lia|].
      apply elem_of_cons in Hz as [->|Hz]; [lia|].
      apply Hle, list_elem_of_further, Hz.
Qed.

Lemma foldl_max_is_maximum (x : Z) (xs : list Z) : is_maximum (foldl Z.max x xs) (x :: xs).
Proof.
  revert x. induction xs as [|y ys IH]; intros x; simpl.
  - split; [apply list_elem_of_here|]. intros z Hz. apply list_elem_of_singleton in Hz. lia.
  - destruct (IH (Z.max x y)) as [Hin Hle]. split.
    + apply elem_of_cons in Hin as [Hin|Hin].
      * rewrite Hin. destruct (Z.max_spec x y) as [[_ ->]|[_ ->]].
        -- apply list_elem_of_further, list_elem_of_here.
        -- apply list_elem_of_here.
      * do 2 apply list_elem_of_further. exact Hin.
    + intros z Hz.
      assert (Hm : Z.max x y <= foldl Z.max (Z.max x y) ys).
      { apply Hle, list_elem_of_here. }
      apply elem_of_cons in Hz as [->|Hz]; [lia|].
      apply elem_of_cons in Hz as [->|Hz]; [lia|].
      apply Hle, list_elem_of_further, Hz.
Qed.

(** The five ranges of the overview around a row-group range. *)
Definition overview_ranges (rowGroups : jsint * jsint) (fsize : jsint)
  : list (jsint * jsint) :=
  [ (Int 0, Int 4);
    rowGroups;
    (rowGroups.2, sub fsize (Int 8));
    (sub fsize (Int 8), sub fsize (Int 4));
    (sub fsize (Int 4), fsize) ].

Lemma buildOverviewSegments_Ok (fd : FileData) (segs : list Segment) :
  buildOverviewSegments json fd = Ok segs ->
  map ParquetSegment.id segs =
    ["header_magic"; "rowgroups"; "metadata"; "footer"; "footer_magic"] /\
  map range segs = overview_ranges (rowGroupsRange json fd) (toNumber (filesize fd)).
Proof.
  unfold buildOverviewSegments, overview_ranges.
  destruct (rowGroupsRange json fd) as [rs re]. intros H.
  repeat (apply bind_Ok in H; destruct H as (? & ? & H)).
  injection H as <-.
  repeat match goal with
         | H : ParquetSegment.new _ = Ok _ |- _ =>
             apply new_Ok in H; simpl in H; destruct H as (? & _ & ? & ? & _)
         end.
  unfold ParquetConstants.MAGIC_SIZE, ParquetConstants.FOOTER_SIZE in *.
  unfold range. simpl. split; congruence.
Qed.

Lemma fallback_range (fd : FileData) (fs : Z) :
  filesize fd = Some fs ->
  column_chunks fd = None \/ column_chunks fd = Some [] ->
  rowGroupsRange json fd = (Int 4, Int (fs - metadataSize json fd - 8)).
Proof.
  intros Hfs Hcc. unfold rowGroupsRange. rewrite Hfs.
  destruct Hcc as [-> | ->]; reflexivity.
Qed.

Lemma returns_Ok {A} (m : result A) : returns m = true <-> exists a, m = Ok a.
Proof.
  destruct m as [a|e]; simpl; split; eauto; try discriminate.
  intros (a & Ha). discriminate.
Qed.

Lemma fallback_returns (fd : FileData) (fs : Z) :
  filesize fd = Some fs ->
  column_chunks fd = None \/ column_chunks fd = Some [] ->
  returns (buildOverviewSegments json fd) = true <->
  0 <= metadataSize json fd /\ metadataSize json fd + 12 <= fs.
Proof.
  intros Hfs Hcc. unfold buildOverviewSegments.
  rewrite (fallback_range fd fs Hfs Hcc), Hfs. simpl.
  unfold ParquetConstants.MAGIC_SIZE, ParquetConstants.FOOTER_SIZE.
  set (ms := metadataSize json fd). split.
  - intros H. apply returns_Ok in H as (segs & H).
    repeat (apply bind_Ok in H; destruct H as (? & ? & H)).
    repeat match goal with
           | H : ParquetSegment.new _ = Ok _ |- _ =>
               apply new_plain_inv in H; destruct H as (? & ? & _)
           end.
    lia.
  - intros [H0 H12].
    rewrite !new_plain_Ok by lia. reflexivity.
Qed.

(** Chunks whose offsets and sizes are all present, as pairs of integers. *)
Definition offsets_and_sizes (chunks : list ColumnChunk) (offs : list (Z * Z)) : Prop :=
  map (fun chunk => (start_offset chunk, total_byte_size chunk)) chunks =
  map (fun '(o, s) => (Some o, Some s)) offs.

Lemma defined_offsets (chunks : list ColumnChunk) (offs : list (Z * Z)) :
  offsets_and_sizes chunks offs ->
  map (fun chunk => toNumber (start_offset chunk)) chunks = map Int (map fst offs) /\
  map (fun chunk => add (toNumber (start_offset chunk)) (toNumber (total_byte_size chunk)))
      chunks = map Int (map (fun '(o, s) => o + s) offs).
Proof.
  unfold offsets_and_sizes. revert offs.
  induction chunks as [|c cs IH]; intros [|[o z] offs] H; simpl in *; try discriminate.
  - split; reflexivity.
  - injection H as Ho Hz Hrest. destruct (IH offs Hrest) as [-> ->].
    rewrite Ho, Hz. split; reflexivity.
Qed.

Lemma chunk_range (chunks : list ColumnChunk) (offs : list (Z * Z)) :
  chunks <> [] ->
  offsets_and_sizes chunks offs ->
  let allOffsets := map (fun chunk => toNumber (start_offset chunk)) chunks in
  let allEnds := map (fun chunk => add (toNumber (start_offset chunk))
                                       (toNumber (total_byte_size chunk))) chunks in
  exists lo hi,
    JS.Math_min (hd NaNi allOffsets) (tl allOffsets) = Int lo /\
    JS.Math_max (hd NaNi allEnds) (tl allEnds) = Int hi /\
    is_minimum lo (map fst offs) /\
    is_maximum hi (map (fun '(o, s) => o + s) offs).
Proof.
  intros Hne H. destruct (defined_offsets chunks offs H) as [Ho He].
  simpl. rewrite Ho, He.
  destruct offs as [|[o z] offs].
  { destruct chunks; [congruence | discriminate]. }
  simpl. rewrite Math_min_Int, Math_max_Int.
  eexists _, _. split; [reflexivity|]. split; [reflexivity|]. split.
  - apply foldl_min_is_minimum.
  - apply (foldl_max_is_maximum (o + z)).
Qed.

(** C8 (amended). [buildOverviewSegments] builds the five segments leading
    magic, row-group region, metadata region, footer and trailing magic, and
    returns them unless the ParquetSegment constructor rejects one of the
    ranges. Whenever it returns, the row-group region is followed by a metadata
    region that ends at [filesize - 8], a footer [[filesize - 8, filesize - 4)]
    and the trailing magic [[filesize - 4, filesize)]. Without column-chunk data
    it returns exactly when [0 <= metadata_size] and
    [metadata_size + 12 <= filesize]; the row-group region is then
    [[4, filesize - metadata_size - 8)] and the five segments tile [[0, filesize)].
    With column-chunk data the row-group region is
    [[min start_offset, max (start_offset + total_byte_size))]. *)
Theorem overview_five_segments_unless_rejected (fd : FileData) :
  (forall segs, buildOverviewSegments json fd = Ok segs ->
     map ParquetSegment.id segs =
       ["header_magic"; "rowgroups"; "metadata"; "footer"; "footer_magic"] /\
     map range segs = overview_ranges (rowGroupsRange json fd) (toNumber (filesize fd))) /\
  (forall fs, filesize fd = Some fs ->
     column_chunks fd = None \/ column_chunks fd = Some [] ->
     let ms := metadataSize json fd in
     (returns (buildOverviewSegments json fd) = true <-> 0 <= ms /\ ms + 12 <= fs) /\
     (forall segs, buildOverviewSegments json fd = Ok segs ->
        map range segs =
          [ (Int 0, Int 4); (Int 4, Int (fs - ms - 8)); (Int (fs - ms - 8), Int (fs - 8));
            (Int (fs - 8), Int (fs - 4)); (Int (fs - 4), Int fs) ] /\
        tiles 0 fs segs)) /\
  (forall c cs offs, column_chunks fd = Some (c :: cs) ->
     offsets_and_sizes (c :: cs) offs ->
     exists lo hi, rowGroupsRange json fd = (Int lo, Int hi) /\
       is_minimum lo (map fst offs) /\
       is_maximum hi (map (fun '(o, s) => o + s) offs)).
Proof.
  split; [|split].
  - apply buildOverviewSegments_Ok.
  - intros fs Hfs Hcc ms. split; [apply fallback_returns; assumption|].
    intros segs H.
    assert (Hret : returns (buildOverviewSegments json fd) = true) by (rewrite H; reflexivity).
    apply (fallback_returns fd fs Hfs Hcc) in Hret. fold ms in Hret.
    destruct (buildOverviewSegments_Ok fd segs H) as [_ Hr].
    rewrite (fallback_range fd fs Hfs Hcc), Hfs in Hr. fold ms in Hr.
    unfold overview_ranges in Hr. simpl in Hr. split; [exact Hr|].
    destruct segs as [|s1 [|s2 [|s3 [|s4 [|s5 [|]]]]]]; try discriminate.
    unfold range in Hr. simpl in Hr. simplify_eq. simpl.
    repeat match goal with
           | H : ParquetSegment.start _ = _ |- _ => rewrite H; clear H
           | H : ParquetSegment.end_ _ = _ |- _ => rewrite H; clear H
           end.
    repeat (split; [reflexivity|]; eexists; split; [reflexivity|]; split; [lia|]).
    reflexivity.
  - intros c cs offs Hcc Hoffs. unfold rowGroupsRange. rewrite Hcc.
    destruct (chunk_range (c :: cs) offs) as (lo & hi & Hlo & Hhi & Hmin & Hmax);
      [discriminate | assumption |].
    exists lo, hi. simpl in Hlo, Hhi. simpl. rewrite Hlo, Hhi. auto.
Qed.

End Overview.

(** Scenario 1: the overview of a 1000-byte file with 100 bytes of metadata and
    no column chunks is magic [[0,4)], row groups [[4,892)], metadata
    [[892,992)], footer [[992,996)], magic [[996,1000)]. *)
Lemma overview_scenario1 :
  exists segs,
    buildOverviewSegments Scenarios.json_length Scenarios.scenario1 = Ok segs /\
    map range segs =
      [ (Int 0, Int 4); (Int 4, Int 892); (Int 892, Int 992); (Int 992, Int 996);
        (Int 996, Int 1000) ] /\
    tiles 0 1000 segs.
Proof.
  destruct (overview_five_segments_unless_rejected Scenarios.json_length Scenarios.scenario1)
    as (_ & H & _).
  destruct (H 1000 eq_refl (or_introl eq_refl)) as [Hret Hranges].
  destruct (buildOverviewSegments Scenarios.json_length Scenarios.scenario1) as [segs|e] eqn:E.
  - exists segs. split; [reflexivity|]. exact (Hranges segs eq_refl).
  - assert (Hthrow : returns (Throw (A := list Segment) e) = true).
    { apply Hret. split; vm_compute; discriminate. }
    discriminate Hthrow.
Defined.

(** On a 600-byte file without metadata the estimate of 1024 bytes for the
    metadata puts the end of the row-group region before its start, and the
    constructor throws: no five segments are returned. *)
Lemma overview_throws_on_small_file :
  buildOverviewSegments Scenarios.json_length Scenarios.small_file = Throw EndBeforeStart.
Proof. reflexivity. Qed.

(** ** Absent structure *)

Section AbsentStructure.

Lemma forEachi_nothing {A B} (f : nat -> A -> result (list B)) (xs : list A) (i0 : nat) :
  (forall i x, f i x = Ok []) -> forEachi f i0 xs = Ok [].
Proof.
  intros Hf. revert i0. induction xs as [|x xs IH]; intros i0; simpl; [reflexivity|].
  rewrite Hf, IH. reflexivity.
Qed.

Lemma slice_nil {A} (startIndex endIndex : nat) : slice (@nil A) startIndex endIndex = [].
Proof. unfold slice. rewrite drop_nil, take_nil. reflexivity. Qed.

Lemma no_chunks_no_block (fd : FileData) (rowGroupIndex : nat) :
  column_chunks fd = None \/ column_chunks fd = Some [] ->
  _getChunksForRowGroup fd rowGroupIndex = [].
Proof.
  intros [H|H]; unfold _getChunksForRowGroup; rewrite H; simpl; apply slice_nil.
Qed.

Lemma no_row_groups_no_indices (fd : FileData) :
  inner_row_groups fd = None -> _extractColumnIndicesInfo fd = [].
Proof. intros H. unfold _extractColumnIndicesInfo. rewrite H. reflexivity. Qed.

Lemma no_metadata_no_row_groups (fd : FileData) :
  inner_metadata fd = None -> inner_row_groups fd = None.
Proof. intros H. unfold inner_row_groups. rewrite H. reflexivity. Qed.

(** C4 (amended). When a structure is absent from the payload, the builder of
    every level that depends on it returns an empty array or an empty map and
    does not throw: without [metadata.metadata] or without [row_groups] the
    row-group, row-group-metadata, column-index and column-chunk-metadata
    levels are empty (and the metadata structure and the schema and key-value
    levels too when the whole inner metadata is absent); without [schema_root]
    the schema level is empty; without [key_value_metadata] the key-value level
    is empty; without column indices the index level is empty; without column
    chunks the row-group level and every column-chunk and page level are empty.
    [buildOverviewSegments] is the exception: it never returns an empty array. *)
Theorem absent_structure_gives_empty_level (json : FileMetadata -> Z) (fd : FileData) :
  (inner_metadata fd = None ->
     buildMetadataStructureSegments fd = Ok [] /\
     buildAllSchemaElementSegments fd = Ok [] /\
     buildKeyValueMetadataSegments fd = Ok []) /\
  (inner_row_groups fd = None ->
     buildRowGroupSegments fd = Ok [] /\
     buildRowGroupMetadataSegments fd = Ok [] /\
     buildColumnIndexSegments fd = Ok [] /\
     buildColumnChunkMetadataSegments fd = Ok []) /\
  ((m ← inner_metadata fd; schema_root m) = None ->
     buildAllSchemaElementSegments fd = Ok []) /\
  ((m ← inner_metadata fd; key_value_metadata m) = None ->
     buildKeyValueMetadataSegments fd = Ok []) /\
  (_extractColumnIndicesInfo fd = [] -> buildColumnIndexSegments fd = Ok []) /\
  (column_chunks fd = None \/ column_chunks fd = Some [] ->
     buildRowGroupSegments fd = Ok [] /\
     forall rowGroupIndex,
       buildColumnChunkSegments fd rowGroupIndex = Ok [] /\
       forall chunkIndex, buildPageSegments fd rowGroupIndex chunkIndex = Ok []) /\
  buildOverviewSegments json fd <> Ok [].
Proof.
  repeat split.
  - unfold buildMetadataStructureSegments. rewrite H. reflexivity.
  - unfold buildAllSchemaElementSegments. rewrite H. reflexivity.
  - unfold buildKeyValueMetadataSegments. rewrite H. reflexivity.
  - unfold buildRowGroupSegments. rewrite H. reflexivity.
  - unfold buildRowGroupMetadataSegments. rewrite H. reflexivity.
  - unfold buildColumnIndexSegments. rewrite (no_row_groups_no_indices fd H). reflexivity.
  - unfold buildColumnChunkMetadataSegments. rewrite H. reflexivity.
  - intros H. unfold buildAllSchemaElementSegments. rewrite H. reflexivity.
  - intros H. unfold buildKeyValueMetadataSegments. rewrite H. reflexivity.
  - intros H. unfold buildColumnIndexSegments. rewrite H. reflexivity.
  - unfold buildRowGroupSegments. destruct (inner_row_groups fd) as [rgs|]; [|reflexivity].
    apply forEachi_nothing. intros i rg. rewrite (no_chunks_no_block fd i H). reflexivity.
  - unfold buildColumnChunkSegments. rewrite (no_chunks_no_block fd rowGroupIndex H).
    reflexivity.
  - unfold buildPageSegments, _getChunkData.
    rewrite (no_chunks_no_block fd rowGroupIndex H). reflexivity.
  - intros H. apply buildOverviewSegments_Ok in H as [H _]. discriminate.
Qed.

End AbsentStructure.

(** A file with an empty [column_chunks] array and an empty [metadata] object:
    every level but the overview is empty. *)
Lemma bare_file_levels_are_empty :
  buildRowGroupSegments Scenarios.bare_file = Ok [] /\
  buildMetadataStructureSegments Scenarios.bare_file = Ok [] /\
  buildColumnChunkSegments Scenarios.bare_file 0 = Ok [].
Proof.
  destruct (absent_structure_gives_empty_level Scenarios.json_length Scenarios.bare_file)
    as (Hm & Hrg & _ & _ & _ & Hcc & _).
  split; [exact (proj1 (Hrg eq_refl))|].
  split; [exact (proj1 (Hm eq_refl))|].
  exact (proj1 (proj2 (Hcc (or_intror eq_refl)) 0%nat)).
Defined.

(** The same file makes [buildOverviewSegments] throw: with no
    [metadata.total_byte_size] and no [metadata.metadata] the metadata is taken
    to be 1024 bytes, more than the 1000 bytes of the file. *)
Lemma overview_throws_on_absent_metadata :
  buildOverviewSegments Scenarios.json_length Scenarios.bare_file = Throw EndBeforeStart.
Proof. reflexivity. Qed.

(** ** Decimal numerals *)

Section Numerals.

#[local] Arguments String.append !_ _ / : simpl nomatch.

(** A string of decimal digits. *)
Fixpoint digits_only (s : string) : bool :=
  match s with
  | EmptyString => true
  | String c rest => is_digit c && digits_only rest
  end.

Lemma pretty_N_char_digit (x : N) : is_digit (pretty_N_char x) = true.
Proof. destruct x as [|p]; [reflexivity|]. do 4 (destruct p as [p|p|]; try reflexivity). Qed.

Lemma pretty_N_char_value (x : N) :
  (x < 10)%N -> digit_value 10 (pretty_N_char x) = Some (Z.of_N x).
Proof.
  intros H.
  assert (x = 0 \/ x = 1 \/ x = 2 \/ x = 3 \/ x = 4 \/ x = 5 \/ x = 6 \/ x = 7 \/
          x = 8 \/ x = 9)%N as Hx by lia.
  repeat (destruct Hx as [->|Hx]; [reflexivity|]). subst x. reflexivity.
Qed.

Lemma pretty_N_go_digits (x : N) (s : string) :
  digits_only s = true -> digits_only (pretty_N_go x s) = true.
Proof.
  revert s. induction (N.lt_wf_0 x) as [x _ IH]; intros s Hs.
  destruct (decide (x = 0)%N) as [->|Hx]; [exact Hs|].
  rewrite pretty_N_go_step by lia. apply IH.
  - apply N.div_lt; lia.
  - simpl. rewrite pretty_N_char_digit. exact Hs.
Qed.

Lemma pretty_nat_digits (n : nat) : digits_only (pretty n) = true.
Proof.
  unfold pretty, pretty_nat, pretty, pretty_N.
  destruct (decide _); [reflexivity|]. apply pretty_N_go_digits. reflexivity.
Qed.

(** Reading the numeral of [x] in front of [s] reads [x] after what was read
    before. *)
Lemma parse_digits_pretty_go (x : N) :
  (0 < x)%N ->
  exists p, forall acc seen s,
    parse_digits 10 acc seen (pretty_N_go x s) = parse_digits 10 (acc * p + Z.of_N x) true s.
Proof.
  induction (N.lt_wf_0 x) as [x _ IH]; intros Hx.
  assert (Hmod : (x `mod` 10 < 10)%N) by (apply N.mod_lt; lia).
  pose proof (N.div_mod x 10 ltac:(lia)) as Hdm.
  destruct (decide (x `div` 10 = 0)%N) as [Hd|Hd].
  - exists 10. intros acc seen s. rewrite pretty_N_go_step by exact Hx.
    rewrite Hd, pretty_N_go_0. simpl.
    rewrite (pretty_N_char_value _ Hmod).
    rewrite Hd in Hdm. replace (Z.of_N x) with (Z.of_N (x `mod` 10)) by lia. reflexivity.
  - destruct (IH (x `div` 10)%N) as (p & Hp); [apply N.div_lt; lia | lia |].
    exists (p * 10). intros acc seen s. rewrite pretty_N_go_step by exact Hx.
    rewrite Hp. simpl. rewrite (pretty_N_char_value _ Hmod).
    f_equal. rewrite Hdm at 3. rewrite N2Z.inj_add, N2Z.inj_mul. lia.
Qed.

Lemma pretty_N_go_app (x : N) (s1 s2 : string) :
  pretty_N_go x (s1 +:+ s2) = pretty_N_go x s1 +:+ s2.
Proof.
  revert s1. induction (N.lt_wf_0 x) as [x _ IH]; intros s1.
  destruct (decide (x = 0)%N) as [->|Hx]; [reflexivity|].
  rewrite (pretty_N_go_step x s1), (pretty_N_go_step x (s1 +:+ s2)) by lia.
  apply (IH (x `div` 10)%N ltac:(apply N.div_lt; lia) (String _ s1)).
Qed.

Lemma parse_digits_pretty (n : nat) (s : string) :
  parse_digits 10 0 false (pretty n +:+ s) = parse_digits 10 (Z.of_nat n) true s.
Proof.
  unfold pretty, pretty_nat, pretty, pretty_N.
  destruct (decide (N.of_nat n = 0)%N) as [H0|H0].
  - replace n with 0%nat by lia. reflexivity.
  - rewrite <- pretty_N_go_app. simpl.
    destruct (parse_digits_pretty_go (N.of_nat n)) as (p & Hp); [lia|].
    rewrite Hp. f_equal. lia.
Qed.

Lemma digits_head (s : string) :
  digits_only s = true ->
  match s with
  | String c _ => is_digit c = true
  | EmptyString => True
  end.
Proof. destruct s as [|c s]; simpl; [auto|]. intros H. apply andb_true_iff in H. tauto. Qed.

(** [parseInt] of a string of digits reads it in base ten. *)
Lemma parseInt_digits (s : string) :
  digits_only s = true ->
  parseInt (Some s) =
    match parse_digits 10 0 false s with Some v => Int v | None => NaNi end.
Proof.
  intros H. unfold parseInt.
  destruct s as [|c s]; [reflexivity|].
  simpl in H. apply andb_true_iff in H as [Hc Hs].
  assert (Hskip : skip_spaces (String c s) = String c s).
  { simpl. destruct (is_space c) eqn:E; [|reflexivity].
    exfalso. revert Hc E. unfold is_digit, is_space.
    generalize (nat_of_ascii c). intros n. 
    rewrite !andb_true_iff, orb_true_iff, andb_true_iff, !Nat.leb_le, Nat.eqb_eq. lia. }
  rewrite Hskip.
  assert (Hsign : c <> "-"%char /\ c <> "+"%char).
  { split; intros ->; discriminate. }
  assert (Hx : forall rest, s = String "x" rest -> False).
  { intros rest ->. simpl in Hs. discriminate. }
  assert (HX : forall rest, s = String "X" rest -> False).
  { intros rest ->. simpl in Hs. discriminate. }
  assert (Hbody : parse_unsigned (String c s) = parse_digits 10 0 false (String c s)).
  { unfold parse_unsigned.
    destruct (Ascii.eqb_spec c "0") as [->|Hc0].
    - destruct s as [|d s']; [reflexivity|].
      destruct (Ascii.eqb_spec d "x") as [->|Hdx]; [destruct (Hx s' eq_refl)|].
      destruct (Ascii.eqb_spec d "X") as [->|HdX]; [destruct (HX s' eq_refl)|].
      destruct d as [[] [] [] [] [] [] [] []]; try reflexivity; congruence.
    - destruct c as [[] [] [] [] [] [] [] []]; try reflexivity; congruence. }
  destruct Hsign as [Hm Hp].
  destruct c as [[] [] [] [] [] [] [] []]; try discriminate Hc; try congruence;
    rewrite Hbody; reflexivity.
Qed.

Lemma append_empty (s : string) : s +:+ "" = s.
Proof. induction s as [|c s IH]; simpl; [reflexivity | rewrite IH; reflexivity]. Qed.

(** Decoding the numeral of an index gives the index back. *)
Lemma parseInt_pretty (n : nat) : parseInt (Some (pretty n)) = Int (Z.of_nat n).
Proof.
  rewrite parseInt_digits by apply pretty_nat_digits.
  rewrite <- (append_empty (pretty n)), parse_digits_pretty. reflexivity.
Qed.

Lemma toString_pretty (n : nat) : toString (Int (Z.of_nat n)) = pretty n.
Proof.
  unfold toString, pretty at 1, pretty_Z, pretty at 2, pretty_nat.
  destruct n as [|n]; [reflexivity|]. simpl. reflexivity.
Qed.

Lemma digit_not_underscore (c : ascii) : is_digit c = true -> (c =? "_")%char = false.
Proof. intros H. destruct (Ascii.eqb_spec c "_") as [->|]; [discriminate | reflexivity]. Qed.

Lemma rev_app_rev_app (d acc s : string) :
  String.rev_app (String.rev_app d acc) s = String.rev_app acc (d +:+ s).
Proof.
  revert acc. induction d as [|c d IH]; intros acc; simpl; [reflexivity|].
  rewrite IH. reflexivity.
Qed.

(** Splitting at underscores leaves a numeral whole. *)
Lemma split_aux_digits_end (d acc : string) :
  digits_only d = true -> split_aux "_" acc d = [String.rev_app acc d].
Proof.
  revert acc. induction d as [|c d IH]; intros acc H; simpl.
  - reflexivity.
  - simpl in H. apply andb_true_iff in H as [Hc Hd].
    rewrite (digit_not_underscore c Hc), (IH _ Hd). reflexivity.
Qed.

Lemma split_aux_digits_sep (d acc rest : string) :
  digits_only d = true ->
  split_aux "_" acc (d +:+ String "_" rest) = String.rev_app acc d :: split_aux "_" "" rest.
Proof.
  revert acc. induction d as [|c d IH]; intros acc H; simpl.
  - reflexivity.
  - simpl in H. apply andb_true_iff in H as [Hc Hd].
    rewrite (digit_not_underscore c Hc), (IH _ Hd). reflexivity.
Qed.

(** A numeral holds no letter. *)
Lemma index_meta_digits (d : string) :
  digits_only d = true -> String.index 0 "meta" d = None.
Proof.
  induction d as [|c d IH]; intros H; [reflexivity|].
  simpl in H. apply andb_true_iff in H as [Hc Hd].
  cbn [String.index]. rewrite (IH Hd).
  replace (String.prefix "meta" (String c d)) with false; [reflexivity|].
  cbn [String.prefix]. destruct (ascii_dec "m" c) as [<-|_]; [discriminate | reflexivity].
Qed.

(** The two numerals of a key [<r>_<c>] are read back from it. *)
Lemma numerals_apart (d1 d2 r1 r2 : string) :
  digits_only d1 = true -> digits_only d2 = true ->
  d1 +:+ String "_" r1 = d2 +:+ String "_" r2 -> d1 = d2 /\ r1 = r2.
Proof.
  revert d2. induction d1 as [|c d1 IH]; intros [|c' d2] H1 H2 E; simpl in *.
  - injection E as ->. auto.
  - injection E as <- _. discriminate.
  - injection E as -> _. discriminate.
  - apply andb_true_iff in H1 as [_ H1], H2 as [_ H2].
    injection E as -> E. destruct (IH d2 H1 H2 E) as [-> ->]. auto.
Qed.

End Numerals.

(** ** Lookups in the cache *)

Section Lookups.

Variable cache : HierarchyCache.





Lemma startsWith_nonempty (p q : string) :
  q <> "" -> startsWith p q = true -> String.eqb p "" = false.
Proof.
  intros Hq H. destruct p; [|reflexivity].
  destruct q; [congruence | discriminate].
Qed.

Lemma includes_chunk_nonempty (p : string) :
  includes p "chunk_" = true -> String.eqb p "" = false.
Proof. destruct p; [discriminate | reflexivity]. Qed.


Lemma child_bucket_falsy (bucket : obj (list Segment)) :
  child_bucket bucket None = Array [] /\ child_bucket bucket (Some "") = Array [].
Proof. split; reflexivity. Qed.


Lemma child_bucket_own (bucket : obj (list Segment)) (p : string) (segs : list Segment) :
  p <> "" -> obj_get bucket p = Some segs -> child_bucket bucket (Some p) = Array segs.
Proof.
  intros Hp H. unfold child_bucket, bucket_or_empty, obj_read. rewrite H.
  destruct (String.eqb_spec p ""); [contradiction | reflexivity].
Qed.


(** *** Keys that name no inherited property *)

(** No inherited property starts with a digit, a minus sign, [N] or [r]. *)
Lemma head_not_inherited (c : ascii) (rest : string) :
  is_digit c = true \/ c = "-"%char \/ c = "N"%char \/ c = "r"%char ->
  obj_get Object_prototype (String c rest) = None.
Proof.
  intros [H|[->|[->| ->]]]; try reflexivity.
  destruct c as [[] [] [] [] [] [] [] []]; try discriminate H; reflexivity.
Qed.

Lemma pretty_N_go_head (x : N) (s : string) :
  (0 < x)%N -> exists c rest, pretty_N_go x s = String c rest /\ is_digit c = true.
Proof.
  revert s. induction (N.lt_wf_0 x) as [x _ IH]; intros s Hx.
  rewrite pretty_N_go_step by exact Hx.
  destruct (decide (x `div` 10 = 0)%N) as [->|Hd].
  - rewrite pretty_N_go_0. eexists _, _. split; [reflexivity | apply pretty_N_char_digit].
  - apply IH; [apply N.div_lt; lia | apply N.neq_0_lt_0, Hd].
Qed.

Lemma pretty_N_head (x : N) :
  exists c rest, pretty x = String c rest /\ is_digit c = true.
Proof.
  unfold pretty, pretty_N. destruct (decide (x = 0)%N) as [->|Hx].
  - eexists _, _. split; reflexivity.
  - apply pretty_N_go_head. lia.
Qed.

(** The string of a number starts with a digit, a minus sign or the [N] of
    [NaN]. *)
Lemma toString_head (a : jsint) :
  exists c rest, toString a = String c rest /\
                 (is_digit c = true \/ c = "-"%char \/ c = "N"%char \/ c = "r"%char).
Proof.
  destruct a as [[|q|q]|]; simpl.
  - eexists _, _. split; [reflexivity | left; reflexivity].
  - destruct (pretty_N_head (N.pos q)) as (c & rest & E & Hc).
    exists c, rest. split; [exact E | left; exact Hc].
  - eexists _, _. split; [reflexivity | right; left; reflexivity].
  - eexists _, _. split; [reflexivity | right; right; left; reflexivity].
Qed.

Lemma toString_not_inherited (a : jsint) (rest : string) :
  obj_get Object_prototype (toString a +:+ rest) = None.
Proof.
  destruct (toString_head a) as (c & r & -> & Hc). apply (head_not_inherited c), Hc.
Qed.

Lemma startsWith_not_inherited (p : string) :
  startsWith p "rowgroup_meta_" = true -> obj_get Object_prototype p = None.
Proof.
  unfold startsWith. destruct p as [|c rest]; [discriminate|]. cbn [String.prefix].
  destruct (ascii_dec "r" c) as [<-|_]; [|discriminate].
  intros _. apply head_not_inherited. auto.
Qed.

(** Under such a key a map is read among its own properties only. *)
Lemma bucket_or_empty_own (bucket : obj (list Segment)) (key : string) :
  obj_get Object_prototype key = None ->
  bucket_or_empty bucket key = Array (default [] (obj_get bucket key)).
Proof.
  intros H. unfold bucket_or_empty, obj_read. rewrite H.
  destruct (obj_get bucket key); reflexivity.
Qed.

Lemma columnchunks_bucket (p : string) :
  startsWith p "rowgroup_" = true -> includes p "meta" = false ->
  getSegmentsForLevel cache "columnchunks" (Some p) =
  Array (default [] (obj_get (columnchunks cache)
                             (toString (parseInt (split "_" p !! 1%nat))))).
Proof.
  intros H1 H2. unfold getSegmentsForLevel; simpl.
  rewrite (startsWith_nonempty p "rowgroup_"), H1, H2 by (discriminate || assumption).
  simpl. apply bucket_or_empty_own.
  rewrite <- (append_empty (toString _)). apply toString_not_inherited.
Qed.

Lemma columnchunkmetadata_bucket (p : string) :
  startsWith p "rowgroup_meta_" = true ->
  getSegmentsForLevel cache "columnchunkmetadata" (Some p) =
  Array (default [] (obj_get (columnchunkmetadata cache) p)).
Proof.
  intros H. unfold getSegmentsForLevel; simpl.
  rewrite (startsWith_nonempty p "rowgroup_meta_"), H by (discriminate || assumption).
  simpl. apply bucket_or_empty_own, startsWith_not_inherited, H.
Qed.

Lemma pages_bucket (p : string) :
  includes p "chunk_" = true ->
  getSegmentsForLevel cache "pages" (Some p) =
  Array (default [] (obj_get (pages cache)
                             (toString (parseInt (split "_" p !! 1%nat)) +:+ "_" +:+
                              toString (parseInt (split "_" p !! 2%nat))))).
Proof.
  intros H. unfold getSegmentsForLevel; simpl.
  rewrite (includes_chunk_nonempty p H), H. simpl.
  apply bucket_or_empty_own, toString_not_inherited.
Qed.




(** *** findSegment *)

Lemma find_over_app {A} (f : A -> bool) (l1 l2 : list A) :
  List.find f (l1 ++ l2) =
  match List.find f l1 with
  | Some a => Some a
  | None => List.find f l2
  end.
Proof.
  induction l1 as [|a l1 IH]; simpl; [reflexivity|].
  destruct (f a); [reflexivity | exact IH].
Qed.

Lemma find_in_buckets_concat (segmentId : string) (buckets : list (list Segment)) :
  find_in_buckets segmentId buckets = find_id segmentId (concat buckets).
Proof.
  induction buckets as [|b bs IH]; simpl; [reflexivity|].
  unfold find_id in *. rewrite find_over_app. destruct (List.find _ b); [reflexivity | exact IH].
Qed.

(** The segments [findSegment] scans, in its order. *)
Definition scanned : list Segment :=
  overview cache ++ metadatastructure cache ++
  concat (obj_values (schemaelements cache)) ++
  concat (obj_values (rowgroupelements cache)) ++
  concat (obj_values (indexelements cache)) ++
  concat (obj_values (keyvaluemetadata cache)) ++
  rowgroups cache ++
  concat (obj_values (columnchunks cache)) ++
  concat (obj_values (pages cache)).

Lemma findSegment_scans (segmentId : string) :
  findSegment cache segmentId = find_id segmentId scanned.
Proof.
  unfold findSegment, scanned. rewrite !find_in_buckets_concat.
  unfold find_id. rewrite !find_over_app.
  repeat match goal with
         | |- context [match List.find ?f ?l with _ => _ end] => destruct (List.find f l)
         end; reflexivity.
Qed.

(** Every id of a scanned level is found: [findSegment] returns the first
    scanned segment with that id. *)
Lemma findSegment_finds_scanned (seg : Segment) :
  seg ∈ scanned ->
  exists found, findSegment cache (ParquetSegment.id seg) = Some found /\
                ParquetSegment.id found = ParquetSegment.id seg.
Proof.
  intros Hin. rewrite findSegment_scans. unfold find_id.
  destruct (List.find _ scanned) as [found|] eqn:E.
  - exists found. split; [reflexivity|]. apply find_some in E as [_ E].
    apply String.eqb_eq in E. exact E.
  - exfalso. apply list_elem_of_In in Hin.
    pose proof (find_none _ _ E seg Hin) as Hn. simpl in Hn.
    rewrite String.eqb_refl in Hn. discriminate.
Qed.

End Lookups.

(** C3. On the one-chunk file [buildAll] stores the segment [column_meta_0_0],
    built by [buildColumnChunkMetadataSegments], under [rowgroup_meta_0] in
    [columnchunkmetadata]; [getSegmentsForLevel] returns it, and [findSegment]
    answers null for its id: its scan does not visit [columnchunkmetadata]. *)
Theorem findSegment_misses_column_chunk_metadata :
  exists cache seg,
    buildAll Scenarios.json_length Scenarios.one_chunk_file = Ok cache /\
    obj_get (columnchunkmetadata cache) "rowgroup_meta_0" = Some [seg] /\
    getSegmentsForLevel cache "columnchunkmetadata" (Some "rowgroup_meta_0") = Array [seg] /\
    ParquetSegment.id seg = "column_meta_0_0" /\
    findSegment cache "column_meta_0_0" = None.
Proof.
  eexists _, _. split; [reflexivity|].
  split; [reflexivity|]. split; [reflexivity|]. split; reflexivity.
Qed.


(** ** Column chunks of a row group *)

Section Partition.

Lemma ceil_div_covers (n r : nat) : (0 < r)%nat -> (n <= r * ceil_div n r)%nat.
Proof.
  intros Hr. unfold ceil_div.
  pose proof (Nat.div_mod_eq (n + r - 1) r) as Hdm.
  pose proof (Nat.mod_upper_bound (n + r - 1) r ltac:(lia)) as Hm.
  lia.
Qed.

(** [per] is the ceiling of [n / r]: the least number of elements per block
    with which [r] blocks hold [n] elements. *)
Definition is_ceiling (n r per : nat) : Prop :=
  (n <= per * r)%nat /\ forall k, (n <= k * r)%nat -> (per <= k)%nat.

Lemma ceil_div_is_ceiling (n r : nat) : (0 < r)%nat -> is_ceiling n r (ceil_div n r).
Proof.
  intros Hr. split.
  - pose proof (ceil_div_covers n r Hr). lia.
  - intros k Hk. unfold ceil_div.
    assert (H : ((n + r - 1) / r < S k)%nat); [|lia].
    apply Nat.Div0.div_lt_upper_bound. lia.
Qed.

(** Blocks of [per] elements, one per index below [r], make up the list again
    when [r] blocks are enough. *)
Lemma blocks_concat {A} (per : nat) (r : nat) (l : list A) :
  (length l <= r * per)%nat ->
  concat (map (fun i => take per (drop (i * per) l)) (seq 0 r)) = l.
Proof.
  revert l. induction r as [|r IH]; intros l Hlen.
  - destruct l; [reflexivity | simpl in Hlen; lia].
  - simpl. rewrite drop_0. rewrite <- seq_shift, map_map.
    rewrite (map_ext _ (fun i => take per (drop (i * per) (drop per l)))).
    + rewrite IH; [apply take_drop|]. rewrite length_drop. lia.
    + intros i. rewrite drop_drop. repeat f_equal; lia.
Qed.

Lemma slice_block {A} (l : list A) (startIndex per : nat) :
  slice l startIndex (Nat.min (startIndex + per) (length l)) = take per (drop startIndex l).
Proof.
  unfold slice.
  destruct (Nat.le_gt_cases (startIndex + per) (length l)) as [H|H].
  - rewrite Nat.min_l by lia. f_equal. lia.
  - rewrite Nat.min_r by lia.
    rewrite !take_ge by (rewrite length_drop; lia). reflexivity.
Qed.

Lemma insert_by_start_perm (x : Segment) (l : list Segment) :
  insert_by_start x l ≡ₚ x :: l.
Proof.
  induction l as [|y l IH]; simpl; [reflexivity|].
  destruct (lt _ _); [|reflexivity].
  rewrite IH. apply Permutation_swap.
Qed.

Lemma sort_by_start_perm (l : list Segment) : sort_by_start l ≡ₚ l.
Proof.
  induction l as [|x l IH]; simpl; [reflexivity|].
  rewrite insert_by_start_perm, IH. reflexivity.
Qed.

(** A loop whose every round pushes one element. *)
Lemma forEachi_each {A B} (P : A -> B -> Prop) (f : nat -> A -> result (list B))
    (xs : list A) (i0 : nat) :
  (forall i x, x ∈ xs -> exists y, f i x = Ok [y] /\ P x y) ->
  exists ys, forEachi f i0 xs = Ok ys /\ Forall2 P xs ys.
Proof.
  revert i0. induction xs as [|x xs IH]; intros i0 Hf; simpl.
  - exists []. split; [reflexivity | constructor].
  - destruct (Hf i0 x) as (y & Hy & HP); [apply list_elem_of_here|].
    destruct (IH (S i0)) as (ys & Hys & HF).
    { intros i x' Hx'. apply Hf. apply list_elem_of_further, Hx'. }
    exists (y :: ys). rewrite Hy, Hys. simpl. split; [reflexivity|].
    constructor; assumption.
Qed.

(** A loop whose rounds push one element at the indices [keep] selects, and
    nothing at the others. *)
Lemma forEachi_filtered {A B} (keep : nat -> bool) (Q : nat -> B -> Prop)
    (f : nat -> A -> result (list B)) (xs : list A) (i0 : nat) :
  (forall i x, keep i = false -> f i x = Ok []) ->
  (forall i x, keep i = true -> exists y, f i x = Ok [y] /\ Q i y) ->
  exists ys, forEachi f i0 xs = Ok ys /\
             Forall2 Q (List.filter keep (seq i0 (length xs))) ys.
Proof.
  intros Hskip Hkeep. revert i0. induction xs as [|x xs IH]; intros i0; simpl.
  - exists []. split; [reflexivity | constructor].
  - destruct (IH (S i0)) as (ys & Hys & HF). rewrite Hys.
    destruct (keep i0) eqn:Hk.
    + destruct (Hkeep i0 x Hk) as (y & Hy & HQ). rewrite Hy. simpl.
      exists (y :: ys). split; [reflexivity|]. constructor; assumption.
    + rewrite (Hskip i0 x Hk). simpl. exists ys. split; [reflexivity | assumption].
Qed.

Lemma well_formed_offsets (block : list ColumnChunk) :
  forallb well_formed_chunk block = true ->
  offsets_and_sizes block (offsets_of block) /\
  Forall (fun '(o, z) => 0 <= o /\ 0 <= z) (offsets_of block).
Proof.
  unfold offsets_and_sizes, offsets_of.
  induction block as [|c block IH]; simpl; intros H.
  - split; [reflexivity | constructor].
  - apply andb_true_iff in H as [Hc H]. destruct (IH H) as [IH1 IH2].
    unfold well_formed_chunk in Hc.
    destruct (path_in_schema c), (start_offset c) as [o|], (total_byte_size c) as [z|];
      try discriminate.
    apply andb_true_iff in Hc as [Ho Hz]. apply Z.leb_le in Ho, Hz. simpl.
    split; [rewrite IH1; reflexivity|]. constructor; [split; assumption | assumption].
Qed.

Lemma offsets_bounds (offs : list (Z * Z)) (lo hi : Z) :
  Forall (fun '(o, z) => 0 <= o /\ 0 <= z) offs ->
  is_minimum lo (map fst offs) ->
  is_maximum hi (map (fun '(o, z) => o + z) offs) ->
  0 <= lo /\ lo <= hi.
Proof.
  intros Hpos [Hin _] [_ Hge].
  apply list_elem_of_In, in_map_iff in Hin as ([o z] & Hfst & Hin). simpl in Hfst. subst o.
  assert (Hend : lo + z ∈ map (fun '(o, z) => o + z) offs).
  { apply list_elem_of_In, in_map_iff. exists (lo, z). split; [reflexivity | exact Hin]. }
  apply Hge in Hend.
  rewrite List.Forall_forall in Hpos. specialize (Hpos _ Hin). simpl in Hpos. lia.
Qed.

(** The segment of a well-formed chunk is built. *)
Lemma chunk_segment_built (fd : FileData) (rowGroupIndex chunkIndex : nat)
    (chunk : ColumnChunk) :
  well_formed_chunk chunk = true ->
  exists seg,
    ParquetSegment.new (columnChunkConfig fd rowGroupIndex chunkIndex chunk) = Ok seg /\
    ParquetSegment.physicalMetadata seg = Some chunk.
Proof.
  unfold well_formed_chunk. intros H.
  destruct (path_in_schema chunk) as [p|] eqn:Hp, (start_offset chunk) as [o|] eqn:Ho,
    (total_byte_size chunk) as [z|] eqn:Hz; try discriminate.
  apply andb_true_iff in H as [Hle1 Hle2]. apply Z.leb_le in Hle1, Hle2.
  assert (Ho' : 0 <= or_else (Some o) 0) by (simpl; destruct (o =? 0); lia).
  assert (Hz' : 0 <= or_else (Some z) 0) by (simpl; destruct (z =? 0); lia).
  edestruct (new_succeeds (columnChunkConfig fd rowGroupIndex chunkIndex chunk))
    as (seg & Hseg & _ & _ & _ & _ & _ & _ & Hphys).
  - reflexivity.
  - simpl. exact Hp.
  - reflexivity.
  - reflexivity.
  - simpl. rewrite Ho. exact Ho'.
  - simpl. rewrite Ho, Hz. lia.
  - exists seg. split; [exact Hseg | exact Hphys].
Qed.

Variable fd : FileData.
Variable rgs : list RowGroup.
Variable chunks : list ColumnChunk.
Hypothesis Hrgs : inner_row_groups fd = Some rgs.
Hypothesis Hnonempty : rgs <> [].
Hypothesis Hchunks : column_chunks fd = Some chunks.

(** The size of a block: [ceil(N / R)]. *)
Definition block_size : nat := ceil_div (length chunks) (length rgs).

Lemma getChunks_block (rowGroupIndex : nat) :
  _getChunksForRowGroup fd rowGroupIndex =
  take block_size (drop (rowGroupIndex * block_size) chunks).
Proof.
  unfold _getChunksForRowGroup, block_size. rewrite Hrgs, Hchunks. simpl.
  destruct rgs as [|rg rest]; [congruence|]. simpl length. simpl Nat.eqb. cbv iota.
  apply slice_block.
Qed.

Lemma blocks_make_chunks :
  concat (map (_getChunksForRowGroup fd) (seq 0 (length rgs))) = chunks.
Proof.
  rewrite (map_ext _ (fun i => take block_size (drop (i * block_size) chunks)))
    by exact getChunks_block.
  apply blocks_concat. apply ceil_div_covers.
  destruct rgs; [congruence | simpl; lia].
Qed.

Lemma block_subset (rowGroupIndex : nat) (chunk : ColumnChunk) :
  chunk ∈ _getChunksForRowGroup fd rowGroupIndex -> chunk ∈ chunks.
Proof.
  rewrite getChunks_block. intros H.
  apply elem_of_take in H as (i & H & _). apply lookup_drop in H || rewrite lookup_drop in H.
  apply list_elem_of_lookup. eauto.
Qed.

Hypothesis Hwf : forallb well_formed_chunk chunks = true.

Lemma block_well_formed (rowGroupIndex : nat) :
  forallb well_formed_chunk (_getChunksForRowGroup fd rowGroupIndex) = true.
Proof.
  apply forallb_forall. intros c Hc. apply list_elem_of_In in Hc.
  apply block_subset in Hc. apply list_elem_of_In in Hc.
  exact (proj1 (forallb_forall _ _) Hwf c Hc).
Qed.

(** The bucket of a row group holds the segments of its block. *)
Lemma column_chunk_bucket (rowGroupIndex : nat) :
  exists bucket,
    buildColumnChunkSegments fd rowGroupIndex = Ok bucket /\
    map ParquetSegment.physicalMetadata bucket ≡ₚ
      map Some (_getChunksForRowGroup fd rowGroupIndex).
Proof.
  unfold buildColumnChunkSegments.
  edestruct (forEachi_each
               (fun chunk seg => ParquetSegment.physicalMetadata seg = Some chunk)
               (fun chunkIndex chunk =>
                  seg ← ParquetSegment.new (columnChunkConfig fd rowGroupIndex chunkIndex chunk);
                  mret [seg])
               (_getChunksForRowGroup fd rowGroupIndex) 0%nat) as (segs & Hsegs & HF).
  { intros i c Hc.
    destruct (chunk_segment_built fd rowGroupIndex i c) as (seg & Hseg & Hphys).
    - apply list_elem_of_In in Hc.
      exact (proj1 (forallb_forall _ _) (block_well_formed rowGroupIndex) c Hc).
    - exists seg. rewrite Hseg. split; [reflexivity | exact Hphys]. }
  exists (sort_by_start segs). rewrite Hsegs. split; [reflexivity|].
  rewrite sort_by_start_perm.
  clear Hsegs. induction HF as [|c seg cs segs' Hc _ IH]; simpl; [reflexivity|].
  rewrite Hc, IH. reflexivity.
Qed.

Lemma column_chunk_buckets (indices : list nat) :
  exists buckets,
    Forall2 (fun i bucket =>
               buildColumnChunkSegments fd i = Ok bucket /\
               map ParquetSegment.physicalMetadata bucket ≡ₚ
                 map Some (_getChunksForRowGroup fd i)) indices buckets /\
    length (concat buckets) = length (concat (map (_getChunksForRowGroup fd) indices)).
Proof.
  induction indices as [|i indices (buckets & HF & Hlen)].
  - exists []. split; [constructor | reflexivity].
  - destruct (column_chunk_bucket i) as (bucket & Hb & Hperm).
    exists (bucket :: buckets). split; [constructor; auto|].
    simpl. rewrite !length_app, Hlen. f_equal.
    apply Permutation_length in Hperm. rewrite !length_map in Hperm. exact Hperm.
Qed.

(** The segment of a row group with chunks spans from the least offset of its
    block to the greatest end. *)
Definition spans_block (i : nat) (seg : Segment) : Prop :=
  ParquetSegment.rowGroupIndex seg = Some i /\
  exists lo hi,
    range seg = (Int lo, Int hi) /\
    is_minimum lo (map fst (offsets_of (_getChunksForRowGroup fd i))) /\
    is_maximum hi (map (fun '(o, z) => o + z) (offsets_of (_getChunksForRowGroup fd i))).

Lemma row_group_segments :
  exists segs,
    buildRowGroupSegments fd = Ok segs /\
    Forall2 spans_block (List.filter (has_chunks fd) (seq 0 (length rgs))) segs.
Proof.
  unfold buildRowGroupSegments. rewrite Hrgs.
  apply forEachi_filtered.
  - intros i rg Hk. unfold has_chunks in Hk.
    destruct (_getChunksForRowGroup fd i); [reflexivity | discriminate].
  - intros i rg Hk. unfold has_chunks in Hk. unfold spans_block.
    pose proof (block_well_formed i) as Hb.
    destruct (_getChunksForRowGroup fd i) as [|c cs] eqn:Hblock; [discriminate|].
    destruct (well_formed_offsets _ Hb) as [Hoffs Hpos].
    destruct (chunk_range (c :: cs) _ ltac:(discriminate) Hoffs)
      as (lo & hi & Hlo & Hhi & Hmin & Hmax).
    rewrite Hlo, Hhi.
    destruct (offsets_bounds _ lo hi Hpos Hmin Hmax) as [Hlo0 Hlohi].
    match goal with
    | |- exists y, (ParquetSegment.new ?cfg ≫= _) = _ /\ _ =>
        destruct (new_succeeds cfg _ _ lo hi eq_refl eq_refl eq_refl eq_refl Hlo0 Hlohi)
          as (seg & Hseg & _ & Hrange & Hidx & _)
    end.
    exists seg. rewrite Hseg. split; [reflexivity|].
    split; [exact Hidx|]. exists lo, hi. auto.
Qed.

(** C7 (amended). With [R >= 1] row groups and [N] column chunks that each
    carry a [path_in_schema], a [start_offset] that is not negative and a
    [total_byte_size] that is not negative, the chunks of row group [i] are the
    block of at most [per] chunks that starts at position [i * per] of the file
    order, where [per] is the ceiling of [N / R], the least number with
    [N <= per * R]; the blocks of the [R] row groups, one after the other, are
    the chunk list itself, so every chunk is in exactly one block.
    [buildColumnChunkSegments] returns, for each row group, one segment per
    chunk of its block, hence [N] segments over all row groups.
    [buildRowGroupSegments] returns one segment per row group that has chunks,
    spanning from the least [start_offset] to the greatest
    [start_offset + total_byte_size] of its block. Without the three fields
    nothing of this is promised: a chunk without [path_in_schema] makes
    [buildColumnChunkSegments] throw, and one without [total_byte_size] gives
    its row group NaN for an end. *)
Theorem row_groups_partition_column_chunks :
  let block := _getChunksForRowGroup fd in
  is_ceiling (length chunks) (length rgs) block_size /\
  (forall i, block i = take block_size (drop (i * block_size) chunks)) /\
  concat (map block (seq 0 (length rgs))) = chunks /\
  (exists buckets,
     Forall2 (fun i bucket =>
                buildColumnChunkSegments fd i = Ok bucket /\
                map ParquetSegment.physicalMetadata bucket ≡ₚ map Some (block i))
             (seq 0 (length rgs)) buckets /\
     length (concat buckets) = length chunks) /\
  (exists segs,
     buildRowGroupSegments fd = Ok segs /\
     Forall2 spans_block (List.filter (has_chunks fd) (seq 0 (length rgs))) segs).
Proof.
  intros block. split.
  { apply ceil_div_is_ceiling. destruct rgs; [congruence | simpl; lia]. }
  split; [exact getChunks_block|]. split; [exact blocks_make_chunks|]. split.
  - destruct (column_chunk_buckets (seq 0 (length rgs))) as (buckets & HF & Hlen).
    exists buckets. split; [exact HF|]. rewrite Hlen, blocks_make_chunks. reflexivity.
  - exact row_group_segments.
Qed.

End Partition.

(** Scenario 2 with two row groups: three chunks [(100,50), (200,80),
    (150,30)] are a block of two chunks and a block of one, two buckets of
    three segments in all, and two row-group segments. *)
Lemma scenario2_partition :
  let block := _getChunksForRowGroup Scenarios.two_row_groups in
  is_ceiling 3 2 2 /\
  (forall i, block i = take 2 (drop (i * 2) Scenarios.scenario2_chunks)) /\
  concat (map block (seq 0 2)) = Scenarios.scenario2_chunks /\
  (exists buckets,
     Forall2 (fun i bucket =>
                buildColumnChunkSegments Scenarios.two_row_groups i = Ok bucket /\
                map ParquetSegment.physicalMetadata bucket ≡ₚ map Some (block i))
             (seq 0 2) buckets /\
     length (concat buckets) = 3%nat) /\
  (exists segs,
     buildRowGroupSegments Scenarios.two_row_groups = Ok segs /\
     Forall2 (spans_block Scenarios.two_row_groups) [0%nat; 1%nat] segs).
Proof.
  exact (row_groups_partition_column_chunks Scenarios.two_row_groups
           [Scenarios.plain_row_group; Scenarios.plain_row_group] Scenarios.scenario2_chunks
           eq_refl ltac:(discriminate) eq_refl eq_refl).
Defined.

(** A chunk without [path_in_schema] under one row group: the one chunk is the
    block of row group 0, but [buildColumnChunkSegments] throws on it, and so
    does [buildAll]; no segment is built for the chunk. And in the indexed
    file, whose chunk [b] has no [total_byte_size], the row group starts at 4
    and has NaN for an end. *)
Lemma chunk_without_path_is_not_built :
  _getChunksForRowGroup Scenarios.nameless_file 0 = [Scenarios.nameless_chunk] /\
  buildColumnChunkSegments Scenarios.nameless_file 0 = Throw (MissingRequired "name") /\
  buildAll Scenarios.json_length Scenarios.nameless_file = Throw (MissingRequired "name") /\
  (map range <$> buildRowGroupSegments Samples.indexed_file) = Ok [(Int 4, NaNi)].
Proof. repeat split. Qed.

(** The values of scenario 2: the row group spans [[100, 280)], and its bucket
    lists the chunks by start offset. With two row groups the blocks have two
    chunks and one chunk. *)
Example scenario2_values :
  (map (fun seg => (ParquetSegment.id seg, range seg)) <$>
     buildRowGroupSegments Scenarios.scenario2) =
    Ok [("rowgroup_0", (Int 100, Int 280))] /\
  (map (fun seg => (ParquetSegment.id seg, range seg)) <$>
     buildColumnChunkSegments Scenarios.scenario2 0) =
    Ok [ ("chunk_0_0", (Int 100, Int 150)); ("chunk_0_2", (Int 150, Int 180));
           ("chunk_0_1", (Int 200, Int 280)) ] /\
  map (fun i => length (_getChunksForRowGroup Scenarios.two_row_groups i)) [0; 1; 2]%nat =
    [2; 1; 0]%nat.
Proof. repeat split. Qed.

(** ** Layout *)

Import VisualizationConfig SegmentLayoutCalculator.

Section LayoutStructure.

Variable Math_log10 : jsnum -> jsnum.
Variable Math_pow : jsnum -> jsnum -> jsnum.
Variable containerWidth : jsnum.
Variable config : Layout.








Variable segments : list Segment.

(** The floors [calculateSegmentWidths] works with. *)
Definition floors_of : list jsnum :=
  calculateLogarithmicMinWidths Math_log10 Math_pow segments (span_of segments)
                                containerWidth config.

Lemma floors_length : length floors_of = length segments.
Proof.
  unfold floors_of, calculateLogarithmicMinWidths.
  repeat match goal with
         | |- context [if ?b then _ else _] => destruct b
         end; rewrite ?length_map; reflexivity.
Qed.


(** The record of a segment before the first pass. *)
Definition initial_data (index : nat) (seg : Segment) : SegmentData :=
  {| d_segment := seg;
     naturalWidthPercent := fmul (fdiv (size_of seg) (span_of segments)) (Fin 100);
     naturalWidthPixels := fmul (fdiv (size_of seg) (span_of segments)) containerWidth;
     finalWidthPercent := Fin 0;
     finalWidthPixels := Fin 0;
     d_isExpanded := false;
     d_minWidth := default NaN (floors_of !! index) |}.



End LayoutStructure.

(** ** A level with one segment *)

Section SingleSegment.

Variable Math_log10 : jsnum -> jsnum.
Variable Math_pow : jsnum -> jsnum -> jsnum.

Lemma Qeq_bool_diag_zero (q : Q) : Qeq_bool (q + - q) 0 = true.
Proof. apply Qeq_bool_iff. ring. Qed.

Lemma single_span (seg : Segment) (a b : Z) :
  ParquetSegment.start seg = Int a -> ParquetSegment.end_ seg = Int b ->
  span_of [seg] = Fin (inject_Z b + - inject_Z a).
Proof. intros Hs He. unfold span_of. simpl. rewrite Hs, He. reflexivity. Qed.

(** The floor of a lone segment is never above the container width. *)
Lemma lone_floor_not_above (config : Layout) (seg : Segment) (totalSize : jsnum)
    (w s : Q) :
  size_of seg = Fin s ->
  exists m,
    calculateLogarithmicMinWidths Math_log10 Math_pow [seg] totalSize (Fin w) config = [m] /\
    forall q, (q == w)%Q -> flt (Fin q) m = false.
Proof.
  intros Hsize. unfold calculateLogarithmicMinWidths.
  assert (Hshare : fdiv (Fin w) (length_of [seg]) = Fin (w / 1)) by reflexivity.
  assert (Hfull : forall q, (q == w)%Q -> flt (Fin q) (Fin (w / 1)) = false).
  { intros q Hq. simpl. apply negb_false_iff, Qle_bool_iff. rewrite Hq.
    apply Qle_lteq. right. field. }
  rewrite Hshare.
  set (baseline := fmin2 (f_or (STARTING_BASELINE config) (Fin 5)) (Fin (w / 1))).
  assert (Hbase : forall q, (q == w)%Q -> flt (Fin q) baseline = false).
  { intros q Hq. unfold baseline.
    destruct (f_or (STARTING_BASELINE config) (Fin 5)) as [b| | |]; simpl;
      try reflexivity; try exact (Hfull q Hq).
    destruct (Qle_bool b (w / 1)) eqn:E; simpl; [|exact (Hfull q Hq)].
    apply negb_false_iff, Qle_bool_iff. apply Qle_bool_iff in E.
    rewrite Hq. apply (Qle_trans _ _ _ E). apply Qle_lteq. right. field. }
  destruct (flt baseline (MIN_SEGMENT_WIDTH config)).
  - exists (Fin (w / 1)). split; [reflexivity | exact Hfull].
  - assert (Hsame : forall x, fseq (Math_min [Fin x]) (Math_max [Fin x]) = true).
    { intros x. apply Qeq_bool_iff. reflexivity. }
    cbv zeta. simpl map. rewrite Hsize. exists baseline. split; [|exact Hbase].
    simpl fmax2. destruct (negb (Qle_bool s 1)); rewrite Hsame; reflexivity.
Qed.

(** A lone segment of one byte or more gets the container width, whatever the
    configuration. *)
Lemma lone_nonempty_segment_gets_container_width (config : Layout) (seg : Segment)
    (a b : Z) (w : Q) :
  ParquetSegment.start seg = Int a ->
  ParquetSegment.end_ seg = Int b ->
  (a < b)%Z ->
  exists q,
    map width (calculateSegmentWidths Math_log10 Math_pow [seg] (Fin w) config) = [Fin q] /\
    (q == w)%Q.
Proof.
  intros Hs He Hlt.
  set (s := inject_Z (Z.max 0 (b - a))).
  set (t := (inject_Z b + - inject_Z a)%Q).
  assert (Hsize : size_of seg = Fin s).
  { unfold size_of, ParquetSegment.size. rewrite Hs, He. reflexivity. }
  assert (Hst : (s == t)%Q).
  { unfold s, t. rewrite <- inject_Z_opp, <- inject_Z_plus.
    replace (Z.max 0 (b - a)) with (b + - a)%Z by lia. reflexivity. }
  assert (Ht : ~ (t == 0)%Q).
  { unfold t. rewrite <- inject_Z_opp, <- inject_Z_plus. change 0%Q with (inject_Z 0).
    rewrite inject_Z_injective. lia. }
  assert (Hshare : fdiv (size_of seg) (Fin t) = Fin (s / t)).
  { rewrite Hsize. simpl. destruct (Qeq_bool t 0) eqn:E; [|reflexivity].
    apply Qeq_bool_iff in E. contradiction. }
  assert (Hq : (s / t * w == w)%Q).
  { rewrite Hst. field. exact Ht. }
  destruct (lone_floor_not_above config seg (Fin t) w s Hsize) as (m & Hm & Hfloor).
  exists (s / t * w)%Q. split; [|exact Hq].
  unfold calculateSegmentWidths, calculateSegmentPositions, expandedData.
  fold (span_of [seg]). rewrite (single_span seg a b Hs He). fold t.
  rewrite Hm. pose proof (Hfloor _ Hq) as Hno.
  simpl imap. rewrite Hshare. simpl map. unfold expand.
  cbn [naturalWidthPixels d_minWidth fmul]. rewrite Hno.
  unfold redistribute. simpl. reflexivity.
Qed.

(** C5. A lone segment of no bytes (its end is its start) gets the width NaN,
    whatever the container width and the configuration: its share of the span
    is [0 / 0]. *)
Theorem single_empty_segment_gets_NaN (containerWidth : jsnum) (config : Layout)
    (seg : Segment) (a : Z) :
  ParquetSegment.start seg = Int a ->
  ParquetSegment.end_ seg = Int a ->
  map width (calculateSegmentWidths Math_log10 Math_pow [seg] containerWidth config) = [NaN].
Proof.
  intros Hs He.
  unfold calculateSegmentWidths, calculateSegmentPositions, expandedData.
  fold (span_of [seg]). rewrite (single_span seg a a Hs He).
  set (floors := calculateLogarithmicMinWidths _ _ _ _ _ _).
  assert (Hnat : fdiv (size_of seg) (Fin (inject_Z a + - inject_Z a)) = NaN).
  { unfold size_of, ParquetSegment.size. rewrite Hs, He. simpl.
    rewrite Qeq_bool_diag_zero, Z.sub_diag. reflexivity. }
  simpl. rewrite Hnat. simpl. unfold expand. simpl.
  unfold redistribute. simpl. reflexivity.
Qed.

End SingleSegment.

(** The key-value level of a file whose only entry records no length: one
    segment [[10, 10)], laid out in 500 pixels with the default configuration. *)
Lemma empty_entry_width :
  range (Scenarios.bare_segment "kv_0_k" 10 10) = (Int 10, Int 10) /\
  map width (calculateSegmentWidths Scenarios.log10_of_powers Scenarios.pow_of_units
               Scenarios.empty_entry (Fin 500) LAYOUT) = [NaN].
Proof.
  split; [reflexivity|].
  exact (single_empty_segment_gets_NaN Scenarios.log10_of_powers Scenarios.pow_of_units
           (Fin 500) LAYOUT (Scenarios.bare_segment "kv_0_k" 10 10) 10 eq_refl eq_refl).
Defined.

(** The same level as the builder makes it: the key-value level of the file
    with one entry of unrecorded length is one segment [[10, 10)], and its
    width in 500 pixels is NaN. *)
Example lone_entry_level :
  match buildAll Scenarios.json_length Scenarios.one_entry_file with
  | Ok cache =>
      let level :=
        array_of (getSegmentsForLevel cache "keyvaluemetadata" (Some "key_value_metadata")) in
      map ParquetSegment.id level = ["kv_0_k"] /\
      map range level = [(Int 10, Int 10)] /\
      map width (calculateSegmentWidths Scenarios.log10_of_powers Scenarios.pow_of_units
                   level (Fin 500) LAYOUT) = [NaN]
  | Throw _ => False
  end.
Proof. vm_compute. repeat split. Qed.

(** ** The sum of the widths *)

Section Sums.

Local Open Scope Q_scope.

Lemma Qsum_ext {A} (f g : A -> Q) (l : list A) :
  (forall x, x ∈ l -> f x == g x) -> Qsum (map f l) == Qsum (map g l).
Proof.
  induction l as [|x l IH]; intros H; simpl; [reflexivity|].
  rewrite (H x) by apply list_elem_of_here.
  rewrite IH; [reflexivity|]. intros y Hy. apply H, list_elem_of_further, Hy.
Qed.

Lemma Qsum_linear {A} (c e : Q) (f g : A -> Q) (l : list A) :
  Qsum (map (fun x => c * f x + e * g x) l) == c * Qsum (map f l) + e * Qsum (map g l).
Proof. induction l as [|x l IH]; simpl; [ring | rewrite IH; ring]. Qed.

Lemma Qsum_nonneg {A} (f : A -> Q) (l : list A) :
  (forall x, x ∈ l -> 0 <= f x) -> 0 <= Qsum (map f l).
Proof.
  induction l as [|x l IH]; intros H; simpl; [lra|].
  pose proof (H x ltac:(apply list_elem_of_here)).
  assert (0 <= Qsum (map f l)) by (apply IH; intros y Hy; apply H, list_elem_of_further, Hy).
  lra.
Qed.

Lemma Qsum_le {A} (f g : A -> Q) (l : list A) :
  (forall x, x ∈ l -> f x <= g x) -> Qsum (map f l) <= Qsum (map g l).
Proof.
  induction l as [|x l IH]; intros H; simpl; [lra|].
  pose proof (H x ltac:(apply list_elem_of_here)).
  assert (Qsum (map f l) <= Qsum (map g l))
    by (apply IH; intros y Hy; apply H, list_elem_of_further, Hy).
  lra.
Qed.

Lemma Qsum_const {A} (c : Q) (l : list A) :
  Qsum (map (fun _ => c) l) == inject_Z (Z.of_nat (length l)) * c.
Proof.
  induction l as [|x l IH]; simpl Qsum; [simpl; ring|].
  rewrite IH. simpl length. rewrite Nat2Z.inj_succ. unfold Z.succ. rewrite inject_Z_plus. ring.
Qed.

(** A sum of numbers is finite exactly when the numbers are, and is then the
    sum of the rationals. *)
Lemma foldl_fadd_Fin {A} (f : A -> jsnum) (l : list A) (a : Q) :
  Forall (fun x => f x = Fin (toQ (f x))) l ->
  exists q, foldl (fun sum x => fadd sum (f x)) (Fin a) l = Fin q /\
            q == a + Qsum (map (fun x => toQ (f x)) l).
Proof.
  intros H. revert a. induction H as [|x l Hx _ IH]; intros a; simpl.
  - exists a. split; [reflexivity | ring].
  - rewrite Hx. simpl. destruct (IH (a + toQ (f x))) as (q & Hq & Heq).
    exists q. split; [exact Hq|]. rewrite Heq. ring.
Qed.

Lemma reduce_sum_Fin {A} (f : A -> jsnum) (l : list A) :
  Forall (fun x => f x = Fin (toQ (f x))) l ->
  exists q, reduce_sum f l = Fin q /\ q == Qsum (map (fun x => toQ (f x)) l).
Proof.
  intros H. destruct (foldl_fadd_Fin f l 0 H) as (q & Hq & Heq).
  exists q. split; [exact Hq|]. rewrite Heq. ring.
Qed.

Lemma fadd_not_Fin_l (a b : jsnum) (q : Q) : fadd a b = Fin q -> a = Fin (toQ a).
Proof. destruct a, b; simpl; intros H; try discriminate; reflexivity. Qed.

Lemma fadd_not_Fin_r (a b : jsnum) (q : Q) : fadd a b = Fin q -> b = Fin (toQ b).
Proof. destruct a, b; simpl; intros H; try discriminate; reflexivity. Qed.

Lemma foldl_fadd_Fin_inv {A} (f : A -> jsnum) (l : list A) (acc : jsnum) (q : Q) :
  foldl (fun sum x => fadd sum (f x)) acc l = Fin q ->
  acc = Fin (toQ acc) /\ Forall (fun x => f x = Fin (toQ (f x))) l.
Proof.
  revert acc. induction l as [|x l IH]; intros acc H; simpl in H.
  - split; [rewrite H; reflexivity | constructor].
  - destruct (IH _ H) as [Hacc Hl]. split.
    + exact (fadd_not_Fin_l _ _ _ Hacc).
    + constructor; [exact (fadd_not_Fin_r _ _ _ Hacc) | exact Hl].
Qed.

Lemma reduce_sum_Fin_inv {A} (f : A -> jsnum) (l : list A) (q : Q) :
  reduce_sum f l = Fin q -> Forall (fun x => f x = Fin (toQ (f x))) l.
Proof. intros H. exact (proj2 (foldl_fadd_Fin_inv f l (Fin 0) q H)). Qed.

(** The sum over the elements a filter keeps, as a sum over all elements. *)
Lemma reduce_sum_filter {A} (P : A -> Prop) `{forall x, Decision (P x)}
    (f : A -> jsnum) (l : list A) :
  Forall (fun x => f x = Fin (toQ (f x))) l ->
  exists q, reduce_sum f (filter P l) = Fin q /\
            q == Qsum (map (fun x => if decide (P x) then toQ (f x) else 0) l).
Proof.
  intros Hl.
  assert (Hfl : Forall (fun x => f x = Fin (toQ (f x))) (filter P l)).
  { apply Forall_forall. intros x Hx. apply list_elem_of_filter in Hx as [_ Hx].
    rewrite Forall_forall in Hl. apply Hl, Hx. }
  destruct (reduce_sum_Fin f (filter P l) Hfl) as (q & Hq & Heq).
  exists q. split; [exact Hq|]. rewrite Heq. clear.
  induction l as [|x l IH]; [reflexivity|].
  rewrite filter_cons. simpl. destruct (decide (P x)); simpl; rewrite IH; ring.
Qed.

End Sums.

Section FloorsSum.

Local Open Scope Q_scope.

Variable Math_log10 : jsnum -> jsnum.
Variable Math_pow : jsnum -> jsnum -> jsnum.

Lemma map_Fin_inj (l1 l2 : list Q) : map Fin l1 = map Fin l2 -> l1 = l2.
Proof.
  revert l2. induction l1 as [|a l1 IH]; intros [|b l2] H; simpl in H; try discriminate.
  - reflexivity.
  - injection H as -> H. f_equal. apply IH, H.
Qed.

Lemma map_const_Fin {A} (a : jsnum) (l : list A) (ms : list Q) :
  map (fun _ => a) l = map Fin ms -> l <> [] ->
  exists q, a = Fin q /\ ms = map (fun _ => q) l.
Proof.
  intros H Hne. destruct l as [|x l]; [congruence|].
  destruct ms as [|q ms]; [discriminate|]. simpl in H. injection H as -> H.
  exists q. split; [reflexivity|]. simpl. f_equal.
  apply map_Fin_inj. rewrite <- H. clear. induction l; simpl; [reflexivity | f_equal; assumption].
Qed.

Lemma fmul_Fin_inv (x : jsnum) (f q : Q) : fmul x (Fin f) = Fin q -> x = Fin (toQ x).
Proof.
  destruct x as [y| | |]; simpl; [reflexivity| | |discriminate];
    destruct (f ?= 0); discriminate.
Qed.

Lemma scaled_all_finite (f : Q) (L : list jsnum) (ms : list Q) :
  map (fun x => fmul x (Fin f)) L = map Fin ms ->
  Forall (fun x => x = Fin (toQ x)) L /\ ms = map (fun x => toQ x * f) L.
Proof.
  revert ms. induction L as [|x L IH]; intros [|m ms] H; simpl in H; try discriminate.
  - split; [constructor | reflexivity].
  - injection H as Hx H. destruct (IH ms H) as [HL Hms].
    pose proof (fmul_Fin_inv x f m Hx) as Hfin. split; [constructor; assumption|].
    simpl. rewrite Hfin in Hx. simpl in Hx. injection Hx as <-. f_equal. exact Hms.
Qed.

Lemma fmin2_Fin_le (a : jsnum) (c q : Q) : fmin2 a (Fin c) = Fin q -> q <= c.
Proof.
  destruct a as [s| | |]; simpl; try discriminate.
  - destruct (Qle_bool s c) eqn:E; simpl; intros [= <-].
    + apply Qle_bool_iff, E.
    + lra.
  - intros [= <-]. lra.
Qed.

Lemma length_of_nonzero {A} (l : list A) :
  l <> [] -> Qeq_bool (inject_Z (Z.of_nat (length l))) 0 = false.
Proof.
  intros H. destruct l as [|x l]; [congruence|].
  destruct (Qeq_bool _ 0) eqn:E; [|reflexivity].
  apply Qeq_bool_iff in E. unfold Qeq in E. simpl in E. lia.
Qed.

Lemma Qsum_map_id (l : list Q) : Qsum (map (fun x => x) l) = Qsum l.
Proof. rewrite map_id. reflexivity. Qed.

(** The floors never add up to more than the container width, when they are
    finite: they are uniform shares, or baselines no larger than a uniform
    share, or logarithmic widths scaled down when their sum exceeds the
    width. *)
Lemma floors_sum_le (segments : list Segment) (totalSize : jsnum) (w : Q) (config : Layout)
    (ms : list Q) :
  0 < w ->
  calculateLogarithmicMinWidths Math_log10 Math_pow segments totalSize (Fin w) config =
    map Fin ms ->
  Qsum ms <= w.
Proof.
  intros Hw. destruct (decide (segments = [])) as [->|Hne].
  { unfold calculateLogarithmicMinWidths. simpl.
    repeat match goal with |- context [if ?b then _ else _] => destruct b end;
      destruct ms; try discriminate; intros _; simpl; lra. }
  unfold calculateLogarithmicMinWidths, length_of.
  set (n := inject_Z (Z.of_nat (length segments))).
  assert (Hn : Qeq_bool n 0 = false) by (apply length_of_nonzero, Hne).
  assert (Hn0 : ~ n == 0) by (apply Qeq_bool_neq, Hn).
  assert (Hshare : fdiv (Fin w) (Fin n) = Fin (w / n)) by (simpl; rewrite Hn; reflexivity).
  rewrite Hshare.
  destruct (flt _ _).
  { intros H. apply map_const_Fin in H as (q & [= <-] & ->); [|exact Hne].
    rewrite Qsum_const. fold n. apply Qle_lteq. right. field. exact Hn0. }
  destruct (fseq _ _).
  { intros H. apply map_const_Fin in H as (q & Hq & ->); [|exact Hne].
    apply fmin2_Fin_le in Hq. rewrite Qsum_const. fold n.
    assert (Hnpos : 0 < n).
    { unfold n. destruct segments; [congruence|]. unfold Qlt. simpl. lia. }
    apply Qle_trans with (n * (w / n)).
    - apply Qmult_le_l; assumption.
    - apply Qle_lteq. right. field. exact Hn0. }
  set (L := map _ (map _ segments)).
  destruct (fgt (reduce_sum (fun width => width) L) (Fin w)) eqn:Hgt.
  - intros H.
    destruct (reduce_sum (fun width => width) L) as [q| | |] eqn:Htotal;
      simpl in Hgt; try discriminate.
    + assert (Hq : w < q).
      { destruct (Qle_bool q w) eqn:E; [discriminate|].
        apply Qnot_le_lt. intros Hle. apply Qle_bool_iff in Hle. congruence. }
      assert (Hq0 : Qeq_bool q 0 = false).
      { destruct (Qeq_bool q 0) eqn:E; [|reflexivity]. apply Qeq_bool_iff in E. lra. }
      simpl in H. rewrite Hq0 in H.
      apply scaled_all_finite in H as [HL ->].
      destruct (reduce_sum_Fin (fun width => width) L HL) as (q' & Hq' & Heq).
      rewrite Htotal in Hq'. injection Hq' as <-.
      rewrite (Qsum_ext (fun x => toQ x * (w / q)) (fun x => (w / q) * toQ x + 0 * 0))
        by (intros; ring).
      rewrite Qsum_linear. rewrite <- Heq. apply Qle_lteq. right. field.
      apply Qeq_bool_neq, Hq0.
    + simpl in H. apply scaled_all_finite in H as [HL _].
      destruct (reduce_sum_Fin (fun width => width) L HL) as (q' & Hq' & _).
      rewrite Htotal in Hq'. discriminate.
  - intros H. rewrite H in Hgt.
    destruct (reduce_sum_Fin (fun width => width) (map Fin ms)) as (q & Hq & Heq).
    { clear. induction ms; constructor; [reflexivity | assumption]. }
    rewrite Hq in Hgt. simpl in Hgt.
    assert (Hqw : q <= w).
    { destruct (Qle_bool q w) eqn:E; [apply Qle_bool_iff, E | discriminate]. }
    rewrite map_map in Heq. simpl in Heq. rewrite Qsum_map_id in Heq. lra.
Qed.

End FloorsSum.

Section LayoutSum.

Local Open Scope Q_scope.

Variable Math_log10 : jsnum -> jsnum.
Variable Math_pow : jsnum -> jsnum -> jsnum.
Variable config : Layout.

(** The container width, and the span of the level. *)
Variables w t : Q.
Hypothesis Hw : 0 < w.
Hypothesis Ht : 0 < t.

(** One percent of the container width. *)
Definition percent_px : Q := w / 100.

(** The rationals behind the fields of a record. *)
Definition nP (d : SegmentData) : Q := toQ (naturalWidthPercent d).
Definition nX (d : SegmentData) : Q := toQ (naturalWidthPixels d).
Definition mW (d : SegmentData) : Q := toQ (d_minWidth d).
Definition fP (d : SegmentData) : Q := toQ (finalWidthPercent d).
Definition fX (d : SegmentData) : Q := toQ (finalWidthPixels d).

(** A record before the first pass: finite natural widths that agree, a finite
    floor, nothing negative. *)
Definition init_ok (d : SegmentData) : Prop :=
  naturalWidthPercent d = Fin (nP d) /\ naturalWidthPixels d = Fin (nX d) /\
  d_minWidth d = Fin (mW d) /\ d_isExpanded d = false /\
  0 <= nP d /\ 0 <= mW d /\ nX d == percent_px * nP d.

(** A record after the first pass. *)
Definition good (d : SegmentData) : Prop :=
  naturalWidthPercent d = Fin (nP d) /\ finalWidthPercent d = Fin (fP d) /\
  finalWidthPixels d = Fin (fX d) /\
  0 <= nP d /\ 0 <= mW d /\
  if d_isExpanded d
  then fP d * percent_px == mW d /\ fX d == mW d /\ nP d < fP d
  else fP d == nP d /\ fX d == percent_px * nP d.

Lemma w_nonzero : Qeq_bool w 0 = false.
Proof. destruct (Qeq_bool w 0) eqn:E; [|reflexivity]. apply Qeq_bool_iff in E. lra. Qed.

Lemma t_nonzero : Qeq_bool t 0 = false.
Proof. destruct (Qeq_bool t 0) eqn:E; [|reflexivity]. apply Qeq_bool_iff in E. lra. Qed.

Lemma expand_good (d : SegmentData) :
  init_ok d ->
  good (expand (Fin w) d) /\ nP (expand (Fin w) d) = nP d /\ mW (expand (Fin w) d) = mW d.
Proof.
  intros (Hp & Hx & Hm & He & Hp0 & Hm0 & Hxp).
  unfold expand. rewrite Hx, Hm. simpl. rewrite w_nonzero.
  destruct (Qle_bool (mW d) (nX d)) eqn:Hle; simpl.
  - unfold good, nP, mW, fP, fX. simpl. rewrite He. fold (nP d) (mW d) (nX d).
    repeat split; try assumption; try reflexivity.
  - assert (Hlt : nX d < mW d).
    { apply Qnot_le_lt. intros H. apply Qle_bool_iff in H. congruence. }
    unfold good, nP, mW, fP, fX. simpl. fold (nP d) (mW d) (nX d).
    repeat split; try assumption; try reflexivity.
    + unfold percent_px. field. lra.
    + unfold percent_px in Hxp.
      assert (Hdiff : mW d / w * 100 - nP d == (mW d - nX d) * (100 / w)).
      { rewrite Hxp. field. lra. }
      assert (Hpos : 0 < (mW d - nX d) * (100 / w)).
      { apply Qmult_lt_0_compat; [lra|]. apply Qlt_shift_div_l; lra. }
      lra.
Qed.

(** The pointwise terms of the sums of the redistribution. *)
Definition eT (d : SegmentData) : Q := if d_isExpanded d then fP d - nP d else 0.
Definition uT (d : SegmentData) : Q := if d_isExpanded d then fP d else 0.
Definition nT (d : SegmentData) : Q := if d_isExpanded d then 0 else nP d.

Lemma good_terms (d : SegmentData) :
  good d ->
  uT d + nT d == nP d + eT d /\ 0 <= eT d /\ 0 <= nT d /\
  percent_px * uT d <= mW d /\ fX d == percent_px * uT d + percent_px * nT d.
Proof.
  unfold good, eT, uT, nT. intros (_ & _ & _ & Hp0 & Hm0 & H).
  destruct (d_isExpanded d).
  - destruct H as (H1 & H2 & H3). repeat split; lra.
  - destruct H as (H1 & H2). repeat split; lra.
Qed.

Lemma reduce_sum_map {A B} (f : B -> jsnum) (g : A -> B) (l : list A) :
  reduce_sum f (map g l) = reduce_sum (fun x => f (g x)) l.
Proof.
  unfold reduce_sum. generalize (Fin 0).
  induction l as [|x l IH]; intros acc; simpl; [reflexivity | apply IH].
Qed.

Lemma good_Forall_terms (D : list SegmentData) :
  Forall good D ->
  Qsum (map uT D) + Qsum (map nT D) == Qsum (map nP D) + Qsum (map eT D) /\
  0 <= Qsum (map eT D) /\ 0 <= Qsum (map nT D) /\
  percent_px * Qsum (map uT D) <= Qsum (map mW D) /\
  Qsum (map fX D) == percent_px * (Qsum (map uT D) + Qsum (map nT D)).
Proof.
  intros HD. rewrite Forall_forall in HD.
  assert (Hterms : forall d, d ∈ D -> _) by (intros d Hd; exact (good_terms d (HD d Hd))).
  repeat split.
  - transitivity (Qsum (map (fun d => 1 * uT d + 1 * nT d) D)); [rewrite Qsum_linear; ring|].
    transitivity (Qsum (map (fun d => 1 * nP d + 1 * eT d) D)); [|rewrite Qsum_linear; ring].
    apply Qsum_ext. intros d Hd. destruct (Hterms d Hd) as (H & _). lra.
  - apply Qsum_nonneg. intros d Hd. apply (Hterms d Hd).
  - apply Qsum_nonneg. intros d Hd. apply (Hterms d Hd).
  - apply Qle_trans with (Qsum (map (fun d => percent_px * uT d + 0 * 0) D)).
    + rewrite Qsum_linear. lra.
    + apply Qsum_le. intros d Hd. destruct (Hterms d Hd) as (_ & _ & _ & H & _). lra.
  - transitivity (Qsum (map (fun d => percent_px * uT d + percent_px * nT d) D)).
    + apply Qsum_ext. intros d Hd. apply (Hterms d Hd).
    + rewrite Qsum_linear. ring.
Qed.

(** The widths after the redistribution add up to the container width, when
    the natural widths add up to all of it and the floors to no more. *)
Lemma redistribute_sum (D : list SegmentData) :
  Forall good D ->
  Qsum (map nP D) == 100 ->
  Qsum (map mW D) <= w ->
  exists q, reduce_sum finalWidthPixels (redistribute (Fin w) D) = Fin q /\ q == w.
Proof.
  intros HD HP HM.
  destruct (good_Forall_terms D HD) as (F1 & F2 & F3 & F4 & F5).
  rewrite HP in F1.
  assert (Hk : percent_px * 100 == w) by (unfold percent_px; field).
  assert (Hk0 : 0 < percent_px) by (unfold percent_px; apply Qlt_shift_div_l; lra).
  pose proof HD as HD'. rewrite Forall_forall in HD'.
  (* the three sums of the redistribution *)
  destruct (reduce_sum_filter (fun d => d_isExpanded d = true)
              (fun data => fsub (finalWidthPercent data) (naturalWidthPercent data)) D)
    as (e & He & Hee).
  { apply Forall_forall. intros d Hd. destruct (HD' d Hd) as (-> & -> & _). reflexivity. }
  assert (HeE : e == Qsum (map eT D)).
  { rewrite Hee. apply Qsum_ext. intros d Hd. destruct (HD' d Hd) as (Hn & Hf & _).
    unfold eT. rewrite Hn, Hf.
    destruct (decide _) as [E|E]; destruct (d_isExpanded d); try congruence; simpl; ring. }
  destruct (reduce_sum_filter (fun d => d_isExpanded d = true) finalWidthPercent D)
    as (su & Hsu & Hsue).
  { apply Forall_forall. intros d Hd. destruct (HD' d Hd) as (_ & -> & _). reflexivity. }
  assert (HsuU : su == Qsum (map uT D)).
  { rewrite Hsue. apply Qsum_ext. intros d Hd. unfold uT, fP.
    destruct (decide _) as [E|E]; destruct (d_isExpanded d); try congruence; reflexivity. }
  destruct (reduce_sum_filter (fun d => d_isExpanded d = false) naturalWidthPercent D)
    as (n & Hn & Hne).
  { apply Forall_forall. intros d Hd. destruct (HD' d Hd) as (-> & _). reflexivity. }
  assert (HnN : n == Qsum (map nT D)).
  { rewrite Hne. apply Qsum_ext. intros d Hd. unfold nT, nP.
    destruct (decide _) as [E|E]; destruct (d_isExpanded d); try congruence; reflexivity. }
  (* the widths when nothing is rescaled *)
  assert (Hplain : exists q, reduce_sum finalWidthPixels D = Fin q /\
                             q == percent_px * (100 + Qsum (map eT D))).
  { destruct (reduce_sum_Fin finalWidthPixels D) as (q & Hq & Hqe).
    - apply Forall_forall. intros d Hd. destruct (HD' d Hd) as (_ & _ & -> & _). reflexivity.
    - exists q. split; [exact Hq|]. rewrite Hqe. fold fX.
      change (Qsum (map (fun x => toQ (finalWidthPixels x)) D)) with (Qsum (map fX D)).
      rewrite F5, F1. reflexivity. }
  unfold redistribute. rewrite He, Hsu, Hn. unfold fgt. simpl.
  destruct (Qle_bool e 0) eqn:Ee; simpl.
  { apply Qle_bool_iff in Ee. destruct Hplain as (q & Hq & Hqe).
    exists q. split; [exact Hq|]. rewrite Hqe.
    assert (Qsum (map eT D) == 0) by lra. rewrite H. rewrite <- Hk. ring. }
  assert (Epos : 0 < e).
  { apply Qnot_le_lt. intros H. apply Qle_bool_iff in H. congruence. }
  destruct (Qle_bool n 0) eqn:En; simpl.
  { exfalso. apply Qle_bool_iff in En.
    assert (Hsu100 : 100 < Qsum (map uT D)) by lra.
    assert (percent_px * 100 < percent_px * Qsum (map uT D))
      by (apply Qmult_lt_l; assumption).
    lra. }
  assert (Npos : 0 < n).
  { apply Qnot_le_lt. intros H. apply Qle_bool_iff in H. congruence. }
  assert (Hn0 : Qeq_bool n 0 = false).
  { destruct (Qeq_bool n 0) eqn:E; [|reflexivity]. apply Qeq_bool_iff in E. lra. }
  rewrite Hn0. rewrite reduce_sum_map.
  set (sc := (100 + - su) / n).
  destruct (reduce_sum_Fin (fun d => finalWidthPixels (rescale (Fin w) (Fin sc) d)) D)
    as (q & Hq & Hqe).
  { apply Forall_forall. intros d Hd. destruct (HD' d Hd) as (Hnp & _ & Hfx & _).
    unfold rescale. destruct (d_isExpanded d); simpl.
    - rewrite Hfx. reflexivity.
    - rewrite Hnp. reflexivity. }
  exists q. split; [exact Hq|]. rewrite Hqe.
  transitivity (Qsum (map (fun d => percent_px * uT d + (percent_px * sc) * nT d) D)).
  { apply Qsum_ext. intros d Hd. pose proof (HD' d Hd) as Hg.
    destruct Hg as (Hnp & _ & Hfx & _ & _ & Hcase).
    unfold rescale, uT, nT. destruct (d_isExpanded d); simpl.
    - destruct Hcase as (H1 & H2 & _). fold (fX d). rewrite H2, <- H1. ring.
    - rewrite Hnp. simpl. unfold percent_px. field. }
  rewrite Qsum_linear. rewrite <- HnN, <- HsuU. unfold sc. rewrite <- Hk. field. lra.
Qed.

Lemma positions_sum (ds : list SegmentData) (currentLeft : jsnum) :
  reduce_sum width (positionsFrom currentLeft ds config) = reduce_sum finalWidthPixels ds.
Proof.
  unfold reduce_sum. generalize (Fin 0). revert currentLeft.
  induction ds as [|d ds IH]; intros currentLeft acc; simpl; [reflexivity | apply IH].
Qed.

Lemma size_of_nonneg (seg : Segment) : 0 <= toQ (size_of seg).
Proof.
  unfold size_of, ParquetSegment.size.
  destruct (ParquetSegment.end_ seg), (ParquetSegment.start seg); simpl; try lra.
  unfold Qle. simpl. lia.
Qed.

Lemma finite_span_nonempty (segs : list Segment) (q : Q) :
  span_of segs = Fin q -> segs <> [].
Proof. intros H ->. discriminate H. Qed.

Lemma calculateSegmentWidths_nonempty (segs : list Segment) (containerWidth : jsnum) :
  segs <> [] ->
  calculateSegmentWidths Math_log10 Math_pow segs containerWidth config =
  calculateSegmentPositions
    (redistribute containerWidth
       (expandedData Math_log10 Math_pow segs containerWidth config)) config.
Proof. intros H. destruct segs; [congruence | reflexivity]. Qed.

Variable segments : list Segment.
Variable ms : list Q.

(** The span is [t], a positive number; the sizes add up to it; the floors are
    the finite numbers [ms], none negative. *)
Hypothesis Hspan : span_of segments = Fin t.
Hypothesis Hsizes : feq (reduce_sum size_of segments) (Fin t).
Hypothesis Hfloors : floors_of Math_log10 Math_pow (Fin w) config segments = map Fin ms.
Hypothesis Hms : Forall (fun m => 0 <= m) ms.

Lemma sizes_finite :
  Forall (fun seg => size_of seg = Fin (toQ (size_of seg))) segments /\
  Qsum (map (fun seg => toQ (size_of seg)) segments) == t.
Proof.
  destruct (reduce_sum size_of segments) as [q| | |] eqn:E; simpl in Hsizes; try contradiction.
  pose proof (reduce_sum_Fin_inv _ _ _ E) as Hfin. split; [exact Hfin|].
  destruct (reduce_sum_Fin size_of segments Hfin) as (q' & Hq' & Heq).
  rewrite E in Hq'. injection Hq' as <-. rewrite <- Heq. exact Hsizes.
Qed.

(** The records before the first pass. *)
Definition initial_records : list SegmentData :=
  imap (initial_data Math_log10 Math_pow (Fin w) config segments) segments.

Lemma expandedData_initial :
  expandedData Math_log10 Math_pow segments (Fin w) config =
  map (expand (Fin w)) initial_records.
Proof. reflexivity. Qed.

Lemma floor_lookup (i : nat) (seg : Segment) :
  segments !! i = Some seg ->
  exists m, ms !! i = Some m /\
    floors_of Math_log10 Math_pow (Fin w) config segments !! i = Some (Fin m).
Proof.
  intros H. apply lookup_lt_Some in H.
  rewrite <- (floors_length Math_log10 Math_pow (Fin w) config segments) in H.
  rewrite Hfloors, length_map in H. apply lookup_lt_is_Some in H as [m Hm].
  exists m. split; [exact Hm|]. rewrite Hfloors, list_lookup_fmap, Hm. reflexivity.
Qed.

Lemma initial_natural_percent :
  map nP initial_records = map (fun seg => toQ (size_of seg) / t * 100) segments.
Proof.
  destruct sizes_finite as [Hfin _]. rewrite Forall_lookup in Hfin.
  apply list_eq. intros i. unfold initial_records.
  rewrite !list_lookup_fmap, list_lookup_imap.
  destruct (segments !! i) as [seg|] eqn:E; simpl; [|reflexivity]. f_equal.
  unfold nP, initial_data. simpl. rewrite Hspan, (Hfin i seg E). simpl.
  rewrite t_nonzero. reflexivity.
Qed.

Lemma initial_floors : map mW initial_records = ms.
Proof.
  apply list_eq. intros i. unfold initial_records.
  rewrite !list_lookup_fmap, list_lookup_imap.
  destruct (segments !! i) as [seg|] eqn:E; simpl.
  - destruct (floor_lookup i seg E) as (m & Hm & Hf). rewrite Hm. f_equal.
    unfold mW, initial_data. simpl. rewrite Hf. reflexivity.
  - symmetry. apply lookup_ge_None. apply lookup_ge_None in E.
    pose proof (floors_length Math_log10 Math_pow (Fin w) config segments) as Hl.
    rewrite Hfloors, length_map in Hl. lia.
Qed.

Lemma initial_records_ok : Forall init_ok initial_records.
Proof.
  destruct sizes_finite as [Hfin _]. rewrite Forall_lookup in Hfin.
  apply Forall_lookup. intros i d Hd. unfold initial_records in Hd.
  rewrite list_lookup_imap in Hd.
  destruct (segments !! i) as [seg|] eqn:E; simpl in Hd; [|discriminate].
  injection Hd as <-.
  destruct (floor_lookup i seg E) as (m & Hm & Hf).
  assert (Hm0 : 0 <= m).
  { rewrite List.Forall_forall in Hms. apply Hms. apply list_elem_of_In.
    apply list_elem_of_lookup. eauto. }
  pose proof (size_of_nonneg seg) as Hs0.
  unfold init_ok, nP, nX, mW, initial_data. simpl.
  rewrite Hspan, (Hfin i seg E), Hf. simpl. rewrite t_nonzero. simpl.
  repeat split; try assumption.
  - apply Qmult_le_0_compat; [|lra]. apply Qle_shift_div_l; lra.
  - unfold percent_px. field. lra.
Qed.

Lemma expanded_records_good :
  let D := map (expand (Fin w)) initial_records in
  Forall good D /\ Qsum (map nP D) == 100 /\ Qsum (map mW D) <= w.
Proof.
  intros D. pose proof initial_records_ok as Hok. rewrite Forall_forall in Hok.
  split; [|split].
  - apply Forall_forall. intros d Hd. unfold D in Hd.
    apply list_elem_of_In, in_map_iff in Hd as (d0 & <- & Hd0).
    apply list_elem_of_In in Hd0. apply (expand_good d0 (Hok d0 Hd0)).
  - unfold D. rewrite map_map.
    rewrite (Qsum_ext _ nP) by (intros d Hd; rewrite (proj1 (proj2 (expand_good d (Hok d Hd)))); reflexivity).
    rewrite initial_natural_percent.
    rewrite (Qsum_ext _ (fun seg => (100 / t) * toQ (size_of seg) + 0 * 0))
      by (intros; field; lra).
    rewrite Qsum_linear, (proj2 sizes_finite). field. lra.
  - unfold D. rewrite map_map.
    rewrite (Qsum_ext _ mW) by (intros d Hd; rewrite (proj2 (proj2 (expand_good d (Hok d Hd)))); reflexivity).
    rewrite initial_floors.
    apply (floors_sum_le Math_log10 Math_pow segments (span_of segments) w config ms Hw).
    exact Hfloors.
Qed.

(** The sum in exact arithmetic, rounding set aside: for a container width
    [w > 0] and a list of segments whose span [maxEnd - minStart] is positive
    and whose sizes add up to that span, the widths [calculateSegmentWidths]
    returns add up to [w], however skewed the sizes are, provided the floors
    [calculateLogarithmicMinWidths] computes are finite and not negative. The
    condition on the sizes is sufficient, not necessary: as soon as one segment
    is expanded to its floor, the others are rescaled to what is left of the
    width. *)
Theorem widths_sum_to_container_width :
  feq (total_width (calculateSegmentWidths Math_log10 Math_pow segments (Fin w) config))
      (Fin w).
Proof.
  unfold total_width.
  rewrite calculateSegmentWidths_nonempty by exact (finite_span_nonempty _ _ Hspan).
  unfold calculateSegmentPositions. rewrite positions_sum, expandedData_initial.
  destruct expanded_records_good as (HD & HP & HM).
  destruct (redistribute_sum _ HD HP HM) as (q & Hq & Hqw).
  rewrite Hq. exact Hqw.
Qed.

End LayoutSum.

(** Scenario 3: sizes [1, 1, 1, 1, 1000] in 500 pixels. The four small
    segments get the floor of 5 pixels, the large one the remaining 480, and
    the widths add up to 500. *)
Lemma scenario3_sum :
  map (fun l => Qred (toQ (width l)))
      (calculateSegmentWidths Scenarios.log10_of_powers Scenarios.pow_of_units
                              Scenarios.scenario3 (Fin 500) LAYOUT) = [5; 5; 5; 5; 480]%Q /\
  feq (total_width (calculateSegmentWidths Scenarios.log10_of_powers Scenarios.pow_of_units
                                           Scenarios.scenario3 (Fin 500) LAYOUT))
      (Fin 500).
Proof.
  split; [reflexivity|].
  apply (widths_sum_to_container_width Scenarios.log10_of_powers Scenarios.pow_of_units
           LAYOUT 500 1004 eq_refl eq_refl Scenarios.scenario3 [5; 5; 5; 5; 25]%Q).
  - reflexivity.
  - reflexivity.
  - reflexivity.
  - repeat constructor; discriminate.
Defined.

(** C1. The widths do not always add up to the container width. In a file of
    one row group whose two column chunks of ten bytes lie twenty bytes apart,
    the level of the column chunks spans forty bytes; in 800 pixels, under the
    default layout and whatever [Math.log10] and [Math.pow] compute, each chunk
    is a quarter of the span and gets 200 pixels, above its floor of 5 pixels;
    no segment is expanded, nothing is rescaled, and the widths add up to 400
    pixels, not to 800. Every number the widths depend on is an integer or a
    quarter, which doubles hold and compute without rounding. *)
Theorem gap_leaves_width_unused (Math_log10 : jsnum -> jsnum)
    (Math_pow : jsnum -> jsnum -> jsnum) :
  returns (buildAll Scenarios.json_length Samples.gapped_file) = true /\
  buildColumnChunkSegments Samples.gapped_file 0 = Ok Samples.gapped_chunks /\
  map range Samples.gapped_chunks = [(Int 4, Int 14); (Int 34, Int 44)] /\
  span_of Samples.gapped_chunks = Fin 40 /\
  Forall2 (fun layout pixels =>
             feq (width layout) (Fin pixels) /\ feq (minWidth layout) (Fin 5) /\
             isExpanded layout = false)
          (calculateSegmentWidths Math_log10 Math_pow Samples.gapped_chunks (Fin 800) LAYOUT)
          [200; 200]%Q /\
  feq (total_width (calculateSegmentWidths Math_log10 Math_pow Samples.gapped_chunks
                                           (Fin 800) LAYOUT))
      (Fin 400) /\
  ~ feq (total_width (calculateSegmentWidths Math_log10 Math_pow Samples.gapped_chunks
                                             (Fin 800) LAYOUT))
        (Fin 800).
Proof.
  split; [reflexivity|]. split; [reflexivity|]. split; [reflexivity|].
  split; [reflexivity|].
  assert (Hwidths :
            calculateSegmentWidths Math_log10 Math_pow Samples.gapped_chunks (Fin 800) LAYOUT =
            calculateSegmentWidths Scenarios.log10_of_powers Scenarios.pow_of_units
                                   Samples.gapped_chunks (Fin 800) LAYOUT).
  { reflexivity. }
  rewrite Hwidths. split; [|split].
  - repeat constructor.
  - reflexivity.
  - vm_compute. discriminate.
Qed.

(** Two segments over the same ten bytes, in 900 pixels: each is the whole span
    and gets 900 pixels. *)
Example overlap_overflows_width :
  map (fun l => Qred (toQ (width l)))
      (calculateSegmentWidths Scenarios.log10_of_powers Scenarios.pow_of_units
                              Scenarios.overlapping (Fin 900) LAYOUT) = [900; 900]%Q.
Proof. reflexivity. Qed.

(** *** Contiguous segments

    Segments that follow one another over a range of one byte or more meet the
    two conditions of the sum: their span is the length of the range, and their
    sizes add up to it. *)

Section Contiguous.

Local Open Scope Q_scope.

Lemma Qle_bool_inject (a b : Z) : (a <= b)%Z -> Qle_bool (inject_Z a) (inject_Z b) = true.
Proof. intros H. apply Qle_bool_iff. rewrite <- Zle_Qle. exact H. Qed.

Lemma tiles_le (lo hi : Z) (segs : list Segment) : tiles lo hi segs -> (lo <= hi)%Z.
Proof.
  revert lo. induction segs as [|s segs IH]; intros lo; simpl.
  - intros ->. lia.
  - intros (_ & mid & _ & Hle & Hrest). specialize (IH mid Hrest). lia.
Qed.

Lemma tiles_min (lo hi a : Z) (segs : list Segment) :
  (a <= lo)%Z -> tiles lo hi segs ->
  foldl fmin2 (Fin (inject_Z a)) (map (fun s => ofInt (ParquetSegment.start s)) segs) =
  Fin (inject_Z a).
Proof.
  revert lo. induction segs as [|s segs IH]; intros lo Ha; simpl; [reflexivity|].
  intros (Hs & mid & _ & Hle & Hrest). rewrite Hs. simpl.
  rewrite (Qle_bool_inject a lo Ha). simpl. apply (IH mid); [lia | exact Hrest].
Qed.

Lemma tiles_max (lo hi : Z) (segs : list Segment) :
  tiles lo hi segs ->
  foldl fmax2 (Fin (inject_Z lo)) (map (fun s => ofInt (ParquetSegment.end_ s)) segs) =
  Fin (inject_Z hi).
Proof.
  revert lo. induction segs as [|s segs IH]; intros lo; simpl.
  - intros ->. reflexivity.
  - intros (_ & mid & He & Hle & Hrest). rewrite He. simpl.
    destruct (Qle_bool (inject_Z mid) (inject_Z lo)) eqn:E; simpl.
    + apply Qle_bool_iff in E. rewrite <- Zle_Qle in E.
      assert (mid = lo) by lia. subst mid. apply IH, Hrest.
    + apply IH, Hrest.
Qed.

(** Contiguous segments over [[lo, hi)] span [hi - lo]. *)
Lemma tiles_span (lo hi : Z) (segs : list Segment) :
  segs <> [] -> tiles lo hi segs ->
  span_of segs = Fin (inject_Z hi + - inject_Z lo).
Proof.
  intros Hne H. destruct segs as [|s segs]; [congruence|].
  unfold span_of, Num.Math_max, Num.Math_min. simpl.
  destruct H as (Hs & mid & He & Hle & Hrest). rewrite Hs, He. simpl.
  rewrite (tiles_max mid hi segs Hrest).
  rewrite (tiles_min mid hi lo segs Hle Hrest). reflexivity.
Qed.

Lemma tiles_sizes_from (lo hi : Z) (segs : list Segment) (a : Q) :
  tiles lo hi segs ->
  exists q, foldl (fun sum s => fadd sum (size_of s)) (Fin a) segs = Fin q /\
            q == a + (inject_Z hi + - inject_Z lo).
Proof.
  revert lo a. induction segs as [|s segs IH]; intros lo a; simpl.
  - intros ->. exists a. split; [reflexivity | ring].
  - intros (Hs & mid & He & Hle & Hrest).
    assert (Hsize : size_of s = Fin (inject_Z (Z.max 0 (mid - lo)))).
    { unfold size_of, ParquetSegment.size. rewrite Hs, He. reflexivity. }
    rewrite Hsize. simpl.
    destruct (IH mid (a + inject_Z (Z.max 0 (mid - lo))) Hrest) as (q & Hq & Heq).
    exists q. split; [exact Hq|]. rewrite Heq.
    rewrite Z.max_r by lia. unfold Z.sub. rewrite inject_Z_plus, inject_Z_opp. ring.
Qed.

(** The sizes of contiguous segments add up to their span. *)
Lemma tiles_sizes (lo hi : Z) (segs : list Segment) :
  tiles lo hi segs ->
  feq (reduce_sum size_of segs) (Fin (inject_Z hi + - inject_Z lo)).
Proof.
  intros H. destruct (tiles_sizes_from lo hi segs 0 H) as (q & Hq & Heq).
  unfold reduce_sum. rewrite Hq. simpl. rewrite Heq. ring.
Qed.

End Contiguous.

(** ** Navigation *)

Import SvgByteVisualizer.

Section Navigation.

Variable cache : HierarchyCache.
Variable updateSelectionDisplay : gmap nat string -> result unit.
Variable infoPanelManager : option InfoPanelManager.

(** The shape of a state behind the invariant: the ancestors with a displayed
    child level, and the last selected segment when it has no children. *)
Definition shape (st : State) (anc : list Segment) (last : option Segment) : Prop :=
  Forall (fun s => segmentHasChildren cache s = true) anc /\
  match last with
  | Some s => segmentHasChildren cache s = false
  | None => True
  end /\
  selectionPath st = anc ++ option_list last /\
  levels st = rootLevel cache :: map (levelFor cache) anc /\
  (forall i : nat, selectedSegments st !! i = ParquetSegment.id <$> selectionPath st !! i).

Lemma filter_all {A} (f : A -> bool) (l : list A) :
  Forall (fun x => f x = true) l -> List.filter f l = l.
Proof.
  induction 1 as [|x l Hx _ IH]; simpl; [reflexivity|]. rewrite Hx, IH. reflexivity.
Qed.

Lemma shape_ancestors (st : State) (anc : list Segment) (last : option Segment) :
  shape st anc last -> ancestors_with_children cache (selectionPath st) = anc.
Proof.
  intros (Hanc & Hlast & Hpath & _). unfold ancestors_with_children.
  rewrite Hpath, List.filter_app, (filter_all _ _ Hanc).
  destruct last as [s|]; simpl; [rewrite Hlast|]; apply app_nil_r.
Qed.

Lemma shape_consistent (st : State) (anc : list Segment) (last : option Segment) :
  shape st anc last -> consistent cache st.
Proof.
  intros H. pose proof (shape_ancestors st anc last H) as Ha.
  destruct H as (Hanc & Hlast & Hpath & Hlevels & Hsel).
  unfold consistent. rewrite Ha. split; [exact Hlevels|]. split; [exact Hsel|].
  intros i s Hi Hlt. rewrite Hpath in Hi, Hlt. rewrite length_app in Hlt.
  assert (Hi' : (i < length anc)%nat).
  { destruct last; simpl in Hlt; lia. }
  rewrite lookup_app_l in Hi by exact Hi'.
  rewrite Forall_forall in Hanc. apply Hanc. apply list_elem_of_lookup. eauto.
Qed.

Lemma shape_init : shape (initWithData cache) [] None.
Proof.
  unfold shape, initWithData, addLevel. simpl.
  split; [constructor|]. split; [exact I|]. split; [reflexivity|]. split; [reflexivity|].
  intros i. rewrite lookup_empty. reflexivity.
Qed.

(** *** The selection map *)

Lemma foldl_delete_lookup (l : list nat) (m : gmap nat string) (i : nat) :
  foldl (fun m i => delete i m) m l !! i = if decide (i ∈ l) then None else m !! i.
Proof.
  revert m. induction l as [|j l IH]; intros m; simpl.
  - destruct (decide (i ∈ [])) as [H|H]; [inversion H | reflexivity].
  - rewrite IH. destruct (decide (i ∈ l)) as [Hl|Hl].
    + rewrite decide_True by (apply list_elem_of_further, Hl). reflexivity.
    + destruct (decide (i = j)) as [->|Hne].
      * rewrite decide_True by apply list_elem_of_here. apply lookup_delete_eq.
      * rewrite decide_False.
        -- apply lookup_delete_ne. congruence.
        -- intros Hin. apply elem_of_cons in Hin as [?|?]; contradiction.
Qed.

Lemma cleared_lookup (levelIndex count : nat) (m : gmap nat string) (i : nat) :
  clearSelectionsFrom levelIndex count m !! i =
  if decide (levelIndex <= i < count)%nat then None else m !! i.
Proof.
  unfold clearSelectionsFrom. rewrite foldl_delete_lookup.
  destruct (decide (i ∈ seq levelIndex (count - levelIndex))) as [H|H];
    destruct (decide (levelIndex <= i < count)%nat) as [H'|H']; try reflexivity; exfalso.
  - apply list_elem_of_In, in_seq in H. lia.
  - apply H, list_elem_of_In, in_seq. lia.
Qed.

Lemma cleared_matches (levelIndex count : nat) (m : gmap nat string) (path : list Segment) :
  (forall i : nat, m !! i = ParquetSegment.id <$> path !! i) ->
  (length path <= count)%nat ->
  forall i : nat,
    clearSelectionsFrom levelIndex count m !! i =
    ParquetSegment.id <$> take levelIndex path !! i.
Proof.
  intros Hm Hlen i. rewrite cleared_lookup.
  destruct (decide (i < levelIndex)%nat) as [Hlt|Hge].
  - rewrite decide_False by lia. rewrite lookup_take_lt by exact Hlt. apply Hm.
  - rewrite lookup_take_ge by lia. destruct (decide _); [reflexivity|].
    rewrite Hm. rewrite (proj2 (lookup_ge_None path i)) by lia. reflexivity.
Qed.

Lemma selected_matches (levelIndex : nat) (seg : Segment) (m : gmap nat string)
    (path : list Segment) :
  (levelIndex <= length path)%nat ->
  (forall i : nat, m !! i = ParquetSegment.id <$> take levelIndex path !! i) ->
  forall i : nat,
    <[levelIndex := ParquetSegment.id seg]> m !! i =
    ParquetSegment.id <$> (take levelIndex path ++ [seg]) !! i.
Proof.
  intros Hlen Hm i.
  assert (Htake : length (take levelIndex path) = levelIndex) by (rewrite length_take; lia).
  destruct (decide (i = levelIndex)) as [->|Hne].
  - rewrite lookup_insert_eq. rewrite lookup_app_r by lia.
    rewrite Htake, Nat.sub_diag. reflexivity.
  - rewrite lookup_insert_ne by congruence. rewrite Hm.
    destruct (decide (i < levelIndex)%nat) as [Hlt|Hge].
    + rewrite lookup_app_l by lia. reflexivity.
    + rewrite lookup_take_ge by lia.
      rewrite (proj2 (lookup_ge_None (take levelIndex path ++ [seg]) i)); [reflexivity|].
      rewrite length_app, Htake. simpl. lia.
Qed.

(** *** The handlers, field by field *)

Lemma removeLevelsFrom_fields (this : State) (index : nat) :
  levels (removeLevelsFrom this index) = take index (levels this) /\
  selectedSegments (removeLevelsFrom this index) = selectedSegments this /\
  selectionPath (removeLevelsFrom this index) = selectionPath this.
Proof.
  unfold removeLevelsFrom.
  destruct (length (levels this) <=? index)%nat eqn:E.
  - apply Nat.leb_le in E. rewrite take_ge by exact E. auto.
  - destruct (drop index (levels this)) eqn:Ed; simpl; [|auto].
    apply Nat.leb_gt in E. apply (f_equal length) in Ed.
    rewrite length_drop in Ed. simpl in Ed. lia.
Qed.

(** What the first part of a click writes: the path up to the clicked level,
    with the clicked segment unless it was selected, and the selections below
    the clicked level, with the clicked segment's unless it was selected. *)
Lemma updateSelection_fields (this : State) (segment : Segment) (levelIndex : nat) :
  let selected := isSegmentSelected this (ParquetSegment.id segment) levelIndex in
  let cleared :=
    clearSelectionsFrom levelIndex (length (levels this)) (selectedSegments this) in
  let after := updateSelection this segment levelIndex in
  selectionPath after =
    take levelIndex (selectionPath this) ++ (if selected then [] else [segment]) /\
  selectedSegments after =
    (if selected then cleared else <[levelIndex := ParquetSegment.id segment]> cleared) /\
  levels after = levels this.
Proof.
  intros selected cleared after. unfold after, updateSelection. fold selected. fold cleared.
  destruct selected; simpl; rewrite ?app_nil_r; auto.
Qed.

Lemma hasChildren_level (seg : Segment) (children : list Segment) :
  segmentHasChildren cache seg = true ->
  childSegments cache seg = Array children ->
  exists childLevelName,
    ParquetSegment.childLevelName seg = Some childLevelName /\
    getSegmentsForLevel cache childLevelName (Some (ParquetSegment.id seg)) = Array children /\
    levelFor cache seg =
      {| name := childLevelName; parentSegmentId := Some (ParquetSegment.id seg);
         segments := children |}.
Proof.
  unfold segmentHasChildren, levelFor, childSegments.
  destruct (ParquetSegment.childLevelName seg) as [n|]; [|discriminate].
  intros H E. exists n. rewrite E. auto.
Qed.

(** The third part of a click leaves the selection alone. Of the levels it
    keeps those down to the clicked one; it adds the child level of the clicked
    segment when the segment is newly selected and has children, and these are
    an array. *)
Lemma updateLevels_fields (this : State) (selected : bool) (segment : Segment)
    (levelIndex : nat) :
  (levelIndex < length (levels this))%nat ->
  let after := updateLevels cache this selected segment levelIndex in
  selectionPath after = selectionPath this /\
  selectedSegments after = selectedSegments this /\
  (levels after = levels this \/ levels after = take (S levelIndex) (levels this) \/
   levels after = take (S levelIndex) (levels this) ++ [levelFor cache segment]) /\
  (selected || negb (segmentHasChildren cache segment) ||
   match childSegments cache segment with Array _ => true | Inherited _ => false end = true ->
   levels after =
     take (S levelIndex) (levels this) ++
     (if negb selected && segmentHasChildren cache segment
      then [levelFor cache segment] else [])).
Proof.
  intros Hlt after. unfold after, updateLevels.
  assert (Hkeep :
            levels (if (levelIndex + 1 <? length (levels this))%nat
                    then removeLevelsFrom this (levelIndex + 1) else this) =
              take (S levelIndex) (levels this) /\
            selectedSegments (if (levelIndex + 1 <? length (levels this))%nat
                              then removeLevelsFrom this (levelIndex + 1) else this) =
              selectedSegments this /\
            selectionPath (if (levelIndex + 1 <? length (levels this))%nat
                           then removeLevelsFrom this (levelIndex + 1) else this) =
              selectionPath this).
  { rewrite Nat.add_1_r.
    destruct (S levelIndex <? length (levels this))%nat eqn:E.
    - apply removeLevelsFrom_fields.
    - apply Nat.ltb_ge in E. rewrite take_ge by exact E. auto. }
  destruct Hkeep as (K1 & K2 & K3).
  destruct (negb selected && segmentHasChildren cache segment) eqn:Ewill.
  - apply andb_true_iff in Ewill as [Hsel Hch]. apply negb_true_iff in Hsel. subst selected.
    simpl orb. rewrite Hch. simpl negb. simpl orb.
    pose proof Hch as Hch'. unfold segmentHasChildren in Hch'.
    unfold childSegments.
    destruct (ParquetSegment.childLevelName segment) as [n|] eqn:Hn; [|discriminate].
    rewrite Hch'.
    destruct (getSegmentsForLevel cache n (Some (ParquetSegment.id segment)))
      as [children|prop] eqn:Hvalue.
    + assert (Hlevel : levelFor cache segment =
                {| name := n; parentSegmentId := Some (ParquetSegment.id segment);
                   segments := children |}).
      { unfold levelFor, childSegments. rewrite Hn, Hvalue. reflexivity. }
      rewrite Hlevel.
      destruct (levelIndex + 1 <? length (levels this))%nat eqn:E.
      * rewrite Nat.add_1_r. destruct (_ =? 1)%nat; simpl; auto 6.
      * apply Nat.ltb_ge in E. simpl. rewrite (take_ge (levels this)) by lia. auto 6.
    + destruct (levelIndex + 1 <? length (levels this))%nat eqn:E.
      * rewrite Nat.add_1_r. simpl. repeat split; auto. intros H. discriminate.
      * repeat split; auto. intros H. discriminate.
  - rewrite K1, K2, K3, app_nil_r. repeat split; auto.
Qed.

(** What a click leaves when its handler returns: the path up to the clicked
    level, with the clicked segment unless it was selected; the selections
    below the clicked level, with the clicked segment's unless it was selected;
    the levels down to the clicked one, with the child level of the clicked
    segment when it is newly selected and has children. *)
Lemma click_fields (this : State) (segment : Segment) (levelIndex : nat) :
  (levelIndex < length (levels this))%nat ->
  clickReturns cache updateSelectionDisplay infoPanelManager this segment levelIndex = true ->
  let selected := isSegmentSelected this (ParquetSegment.id segment) levelIndex in
  let cleared :=
    clearSelectionsFrom levelIndex (length (levels this)) (selectedSegments this) in
  let after := handleSegmentClick cache updateSelectionDisplay infoPanelManager this segment levelIndex in
  selectionPath after =
    take levelIndex (selectionPath this) ++ (if selected then [] else [segment]) /\
  selectedSegments after =
    (if selected then cleared else <[levelIndex := ParquetSegment.id segment]> cleared) /\
  levels after =
    take (S levelIndex) (levels this) ++
    (if negb selected && segmentHasChildren cache segment
     then [levelFor cache segment] else []).
Proof.
  intros Hlt Hret selected cleared after. unfold after, handleSegmentClick.
  unfold clickReturns in Hret. apply andb_true_iff in Hret as [Hpanel Harray].
  destruct (showSelection updateSelectionDisplay infoPanelManager (updateSelection this segment levelIndex))
    as [[]|e]; [|discriminate].
  destruct (updateSelection_fields this segment levelIndex) as (S1 & S2 & S3).
  fold selected in S1, S2, Harray |- *. fold cleared in S2.
  assert (Hlt' : (levelIndex < length (levels (updateSelection this segment levelIndex)))%nat)
    by (rewrite S3; exact Hlt).
  destruct (updateLevels_fields (updateSelection this segment levelIndex) selected segment
              levelIndex Hlt') as (L1 & L2 & _ & L3).
  rewrite L1, L2, (L3 Harray), S1, S2, S3. auto.
Qed.

(** What a click leaves when the selection display or the info panel throws:
    the selection is written, the levels are as they were. *)
Lemma interrupted_click_fields (this : State) (segment : Segment) (levelIndex : nat) :
  returns (showSelection updateSelectionDisplay infoPanelManager (updateSelection this segment levelIndex)) = false ->
  handleSegmentClick cache updateSelectionDisplay infoPanelManager this segment levelIndex =
    updateSelection this segment levelIndex /\
  levels (handleSegmentClick cache updateSelectionDisplay infoPanelManager this segment levelIndex) = levels this.
Proof.
  intros H. unfold handleSegmentClick.
  destruct (showSelection updateSelectionDisplay infoPanelManager (updateSelection this segment levelIndex));
    [discriminate|].
  split; [reflexivity|]. apply (updateSelection_fields this segment levelIndex).
Qed.

(** Whatever happens in a click, the levels down to the clicked one stay. *)
Lemma click_keeps_upper_levels (this : State) (segment : Segment) (levelIndex : nat) :
  (levelIndex < length (levels this))%nat ->
  take (S levelIndex) (levels (handleSegmentClick cache updateSelectionDisplay infoPanelManager this segment levelIndex)) =
  take (S levelIndex) (levels this).
Proof.
  intros Hlt. unfold handleSegmentClick.
  destruct (updateSelection_fields this segment levelIndex) as (_ & _ & S3).
  destruct (showSelection updateSelectionDisplay infoPanelManager (updateSelection this segment levelIndex));
    [|rewrite S3; reflexivity].
  assert (Hlt' : (levelIndex < length (levels (updateSelection this segment levelIndex)))%nat)
    by (rewrite S3; exact Hlt).
  destruct (updateLevels_fields (updateSelection this segment levelIndex)
              (isSegmentSelected this (ParquetSegment.id segment) levelIndex) segment
              levelIndex Hlt') as (_ & _ & [L|[L|L]] & _); rewrite L, S3.
  - reflexivity.
  - rewrite take_take, Nat.min_id. reflexivity.
  - rewrite take_app_le by (rewrite length_take; lia).
    rewrite take_take, Nat.min_id. reflexivity.
Qed.

Lemma levels_take (anc : list Segment) (n : nat) :
  take (S n) (rootLevel cache :: map (levelFor cache) anc) =
  rootLevel cache :: map (levelFor cache) (take n anc).
Proof. simpl. rewrite firstn_map. reflexivity. Qed.

(** *** The invariant is kept *)

Lemma shape_click (st : State) (anc : list Segment) (last : option Segment)
    (segment : Segment) (levelIndex : nat) :
  shape st anc last ->
  (levelIndex < length (levels st))%nat ->
  clickReturns cache updateSelectionDisplay infoPanelManager st segment levelIndex = true ->
  exists anc' last',
    shape (handleSegmentClick cache updateSelectionDisplay infoPanelManager st segment levelIndex) anc' last'.
Proof.
  intros (Hanc & Hlast & Hpath & Hlevels & Hsel) Hlt Hret.
  destruct (click_fields st segment levelIndex Hlt Hret) as (Fpath & Fsel & Flevels).
  assert (Hlen : length (levels st) = S (length anc)).
  { rewrite Hlevels. simpl. rewrite length_map. reflexivity. }
  assert (Hplen : (length (selectionPath st) <= length (levels st))%nat).
  { rewrite Hpath, length_app, Hlen. destruct last; simpl; lia. }
  assert (Htake : take levelIndex (selectionPath st) = take levelIndex anc).
  { rewrite Hpath. apply take_app_le. lia. }
  assert (Hprefix : Forall (fun s => segmentHasChildren cache s = true) (take levelIndex anc)).
  { apply Forall_take, Hanc. }
  pose proof (cleared_matches levelIndex (length (levels st)) _ _ Hsel Hplen) as Hcleared.
  rewrite Hlevels, levels_take in Flevels. rewrite Htake in Fpath.
  destruct (isSegmentSelected st (ParquetSegment.id segment) levelIndex); simpl in *.
  - exists (take levelIndex anc), None. unfold shape.
    rewrite Fpath, Fsel, Flevels. simpl. rewrite !app_nil_r.
    repeat split; try assumption. intros i. rewrite Hcleared, Htake. reflexivity.
  - assert (Hselected : forall i : nat,
              <[levelIndex := ParquetSegment.id segment]>
                (clearSelectionsFrom levelIndex (length (levels st)) (selectedSegments st)) !! i =
              ParquetSegment.id <$> (take levelIndex anc ++ [segment]) !! i).
    { rewrite <- Htake. apply selected_matches; [|exact Hcleared].
      rewrite Hpath, length_app. lia. }
    destruct (segmentHasChildren cache segment) eqn:Ech.
    + exists (take levelIndex anc ++ [segment]), None. unfold shape.
      rewrite Fpath, Fsel, Flevels. simpl. rewrite app_nil_r, map_app.
      repeat split; try assumption.
      apply Forall_app. split; [exact Hprefix | repeat constructor; exact Ech].
    + exists (take levelIndex anc), (Some segment). unfold shape.
      rewrite Fpath, Fsel, Flevels. simpl. rewrite app_nil_r.
      repeat split; assumption.
Qed.

Lemma shape_key (st : State) (anc : list Segment) (last : option Segment) (key : string) :
  shape st anc last ->
  key <> "Backspace" ->
  exists anc' last', shape (handleKeyDown st key) anc' last'.
Proof.
  intros H Hkey. unfold handleKeyDown.
  destruct (String.eqb key "Escape").
  - exists [], None. destruct H as (_ & _ & _ & Hlevels & _).
    destruct (removeLevelsFrom_fields
                {| levels := levels st; selectedSegments := ∅; selectionPath := [] |} 1)
      as (H1 & H2 & H3).
    unfold shape. rewrite H1, H2, H3. simpl. rewrite Hlevels.
    split; [constructor|]. split; [exact I|]. split; [reflexivity|]. split; [reflexivity|].
    intros i. rewrite lookup_empty. reflexivity.
  - destruct (String.eqb_spec key "Backspace") as [->|_]; [congruence|].
    exists anc, last. exact H.
Qed.

Lemma shape_runs (st : State) (es : list Event) (st' : State) :
  runs cache updateSelectionDisplay infoPanelManager st es st' ->
  no_backspace es ->
  uninterrupted cache updateSelectionDisplay infoPanelManager st es = true ->
  forall anc last, shape st anc last -> exists anc' last', shape st' anc' last'.
Proof.
  induction 1 as [s|s e es s' Hon _ IH]; intros Hnb Hun anc last Hshape.
  - eauto.
  - inversion Hnb as [|e' es' He Hes]; subst.
    simpl in Hun. apply andb_true_iff in Hun as [Hret Hun].
    assert (Hstep : exists anc' last', shape (handle cache updateSelectionDisplay infoPanelManager s e) anc' last').
    { destruct e as [segment levelIndex|key]; simpl.
      - destruct Hon as (level & Hlevel & _).
        apply (shape_click s anc last); [exact Hshape | | exact Hret].
        apply lookup_lt_Some in Hlevel. exact Hlevel.
      - apply (shape_key s anc last); [exact Hshape|]. congruence. }
    destruct Hstep as (anc' & last' & Hshape').
    exact (IH Hes Hun anc' last' Hshape').
Qed.

Lemma backspace_fields (st : State) :
  selectionPath (handleKeyDown st "Backspace") = selectionPath st /\
  selectedSegments (handleKeyDown st "Backspace") = selectedSegments st /\
  levels (handleKeyDown st "Backspace") =
    if (1 <? length (levels st))%nat
    then take (length (levels st) - 1) (levels st) else levels st.
Proof.
  unfold handleKeyDown. simpl.
  destruct (1 <? length (levels st))%nat; [|auto].
  destruct (removeLevelsFrom_fields st (length (levels st) - 1)) as (H1 & H2 & H3).
  auto.
Qed.

(** C2 (amended). After any sequence of segment clicks and key presses in which
    no key is Backspace and no click handler is left by an exception, starting
    from the initial display, the levels stack is the root level followed by
    the child level of each segment of the selection path that has children, in
    root-to-leaf order; only the last segment of the path can be without
    children, so the number of displayed levels is one plus the number of path
    segments with children; and the selection map holds exactly the ids of the
    path, none of them at or below a removed level. There are two exceptions.
    Backspace removes the deepest displayed level when there is more than one
    and leaves the selection path and the selection map as they were. And a
    click whose call of [updateSelectionDisplay()] or of the info panel throws
    stops after the selection map and the selection path are written: the
    levels stay as they were. *)
Theorem levels_follow_selection_without_backspace (es : list Event) (st : State) :
  runs cache updateSelectionDisplay infoPanelManager (initWithData cache) es st ->
  no_backspace es ->
  uninterrupted cache updateSelectionDisplay infoPanelManager (initWithData cache) es = true ->
  consistent cache st /\
  length (levels st) = S (length (ancestors_with_children cache (selectionPath st))) /\
  (forall i : nat, is_Some (selectedSegments st !! i) -> (i < length (levels st))%nat) /\
  (selectionPath (handleKeyDown st "Backspace") = selectionPath st /\
   selectedSegments (handleKeyDown st "Backspace") = selectedSegments st /\
   levels (handleKeyDown st "Backspace") =
     (if (1 <? length (levels st))%nat
      then take (length (levels st) - 1) (levels st) else levels st)) /\
  (forall segment levelIndex,
     returns (showSelection updateSelectionDisplay infoPanelManager (updateSelection st segment levelIndex)) = false ->
     handleSegmentClick cache updateSelectionDisplay infoPanelManager st segment levelIndex =
       updateSelection st segment levelIndex /\
     levels (handleSegmentClick cache updateSelectionDisplay infoPanelManager st segment levelIndex) = levels st).
Proof.
  intros Hruns Hnb Hun.
  destruct (shape_runs _ _ _ Hruns Hnb Hun [] None shape_init) as (anc & last & Hshape).
  pose proof (shape_consistent st anc last Hshape) as Hcons.
  pose proof (shape_ancestors st anc last Hshape) as Hanc.
  destruct Hshape as (_ & _ & Hpath & Hlevels & Hsel).
  assert (Hlen : length (levels st) = S (length anc)).
  { rewrite Hlevels. simpl. rewrite length_map. reflexivity. }
  split; [exact Hcons|]. split; [rewrite Hanc; exact Hlen|].
  split; [|split; [apply backspace_fields | apply interrupted_click_fields]].
  intros i [id Hi]. rewrite Hsel in Hi.
  destruct (selectionPath st !! i) as [s|] eqn:Es; [|discriminate].
  apply lookup_lt_Some in Es. rewrite Hpath, length_app in Es.
  destruct last; simpl in Es; lia.
Qed.

End Navigation.

(** Two clicks on the one-chunk file open the row groups and then the column
    chunks of row group 0: three levels for a path of two segments with
    children. The info panel is one that throws on column elements; the two
    clicks do not meet one. *)
Lemma drill_down_is_consistent :
  runs Scenarios.one_chunk_cache Scenarios.plain_display (Some Scenarios.column_panel)
       (initWithData Scenarios.one_chunk_cache) Scenarios.drill_down
       (run Scenarios.one_chunk_cache Scenarios.plain_display (Some Scenarios.column_panel)
            (initWithData Scenarios.one_chunk_cache) Scenarios.drill_down) /\
  no_backspace Scenarios.drill_down /\
  consistent Scenarios.one_chunk_cache
    (run Scenarios.one_chunk_cache Scenarios.plain_display (Some Scenarios.column_panel)
         (initWithData Scenarios.one_chunk_cache) Scenarios.drill_down) /\
  length (levels (run Scenarios.one_chunk_cache Scenarios.plain_display (Some Scenarios.column_panel)
                      (initWithData Scenarios.one_chunk_cache)
                      Scenarios.drill_down)) = 3%nat.
Proof.
  assert (Hruns : runs Scenarios.one_chunk_cache Scenarios.plain_display (Some Scenarios.column_panel)
                       (initWithData Scenarios.one_chunk_cache) Scenarios.drill_down
                       (run Scenarios.one_chunk_cache Scenarios.plain_display (Some Scenarios.column_panel)
                            (initWithData Scenarios.one_chunk_cache)
                            Scenarios.drill_down)).
  { apply runs_cons.
    - eexists. split; [vm_compute; reflexivity|].
      apply list_elem_of_lookup. exists 1%nat. vm_compute. reflexivity.
    - apply runs_cons.
      + eexists. split; [vm_compute; reflexivity|].
        apply list_elem_of_lookup. exists 0%nat. vm_compute. reflexivity.
      + apply runs_nil. }
  assert (Hnb : no_backspace Scenarios.drill_down).
  { repeat constructor; discriminate. }
  split; [exact Hruns|]. split; [exact Hnb|].
  split.
  - refine (proj1 (levels_follow_selection_without_backspace
                     Scenarios.one_chunk_cache _ _ _ _ Hruns Hnb _)).
    vm_compute. reflexivity.
  - vm_compute. reflexivity.
Defined.

(** Two Backspace presses after the drill-down leave the root level alone on
    display, while the selection path still holds the two segments with
    children and the selection map still marks [rowgroup_0] at level 1; no
    handler of the run is left by an exception. *)
Lemma backspace_breaks_the_stack_invariant :
  runs Scenarios.one_chunk_cache Scenarios.plain_display (Some Scenarios.column_panel)
       (initWithData Scenarios.one_chunk_cache) Scenarios.drill_down_and_back
       (run Scenarios.one_chunk_cache Scenarios.plain_display (Some Scenarios.column_panel)
            (initWithData Scenarios.one_chunk_cache) Scenarios.drill_down_and_back) /\
  uninterrupted Scenarios.one_chunk_cache Scenarios.plain_display (Some Scenarios.column_panel)
    (initWithData Scenarios.one_chunk_cache) Scenarios.drill_down_and_back = true /\
  length (levels (run Scenarios.one_chunk_cache Scenarios.plain_display (Some Scenarios.column_panel)
                      (initWithData Scenarios.one_chunk_cache)
                      Scenarios.drill_down_and_back)) = 1%nat /\
  length (ancestors_with_children Scenarios.one_chunk_cache
            (selectionPath (run Scenarios.one_chunk_cache Scenarios.plain_display (Some Scenarios.column_panel)
                                (initWithData Scenarios.one_chunk_cache)
                                Scenarios.drill_down_and_back))) = 2%nat /\
  selectedSegments (run Scenarios.one_chunk_cache Scenarios.plain_display (Some Scenarios.column_panel)
                        (initWithData Scenarios.one_chunk_cache)
                        Scenarios.drill_down_and_back) !! 1%nat = Some "rowgroup_0".
Proof.
  split.
  { apply runs_cons.
    - eexists. split; [vm_compute; reflexivity|].
      apply list_elem_of_lookup. exists 1%nat. vm_compute. reflexivity.
    - apply runs_cons.
      + eexists. split; [vm_compute; reflexivity|].
        apply list_elem_of_lookup. exists 0%nat. vm_compute. reflexivity.
      + apply runs_cons; [exact I|]. apply runs_cons; [exact I|]. apply runs_nil. }
  split; [vm_compute; reflexivity|].
  split; [vm_compute; reflexivity|]. split; vm_compute; reflexivity.
Qed.

(** A click that the info panel throws on. In the file with the nested schema,
    three clicks open the metadata, the schema and the group [g]: four levels.
    A click on the column [a] beside the group then selects [a] and is left by
    the panel's exception before the levels are touched: four levels stay on
    display, the last one the children of the deselected group, for a path
    with two segments that have children. *)
Example interrupted_click_breaks_the_stack_invariant :
  runs Samples.nested_cache Scenarios.plain_display (Some Scenarios.column_panel)
       (initWithData Samples.nested_cache) Samples.open_group_click_column
       (run Samples.nested_cache Scenarios.plain_display (Some Scenarios.column_panel)
            (initWithData Samples.nested_cache) Samples.open_group_click_column) /\
  no_backspace Samples.open_group_click_column /\
  uninterrupted Samples.nested_cache Scenarios.plain_display (Some Scenarios.column_panel)
    (initWithData Samples.nested_cache) Samples.open_group = true /\
  clickReturns Samples.nested_cache Scenarios.plain_display (Some Scenarios.column_panel)
    (run Samples.nested_cache Scenarios.plain_display (Some Scenarios.column_panel)
         (initWithData Samples.nested_cache) Samples.open_group)
    Samples.column_a_segment 2 = false /\
  map ParquetSegment.id
      (selectionPath (run Samples.nested_cache Scenarios.plain_display (Some Scenarios.column_panel)
                          (initWithData Samples.nested_cache)
                          Samples.open_group_click_column)) =
    ["metadata"; "schema_root"; "schema_root_a"] /\
  map ParquetSegment.id
      (ancestors_with_children Samples.nested_cache
         (selectionPath (run Samples.nested_cache Scenarios.plain_display (Some Scenarios.column_panel)
                             (initWithData Samples.nested_cache)
                             Samples.open_group_click_column))) =
    ["metadata"; "schema_root"] /\
  map parentSegmentId
      (levels (run Samples.nested_cache Scenarios.plain_display (Some Scenarios.column_panel)
                   (initWithData Samples.nested_cache)
                   Samples.open_group_click_column)) =
    [None; Some "metadata"; Some "schema_root"; Some "schema_root_g"].
Proof.
  split.
  { apply runs_cons.
    { eexists. split; [vm_compute; reflexivity|].
      apply list_elem_of_lookup. exists 2%nat. vm_compute. reflexivity. }
    apply runs_cons.
    { eexists. split; [vm_compute; reflexivity|].
      apply list_elem_of_lookup. exists 0%nat. vm_compute. reflexivity. }
    apply runs_cons.
    { eexists. split; [vm_compute; reflexivity|].
      apply list_elem_of_lookup. exists 0%nat. vm_compute. reflexivity. }
    apply runs_cons.
    { eexists. split; [vm_compute; reflexivity|].
      apply list_elem_of_lookup. exists 1%nat. vm_compute. reflexivity. }
    apply runs_nil. }
  split; [repeat constructor; discriminate|].
  repeat split; vm_compute; reflexivity.
Qed.

(** * Further properties

    Properties of the code besides those the specification states: the ids and
    keys of the drill-down, the pages, the geometry of the levels, the copies
    of a segment, the order and the contiguity of the metadata levels, and the
    navigation with Backspace. *)

(** ** The keys of the cache *)

Section Keys.

#[local] Arguments String.append !_ _ / : simpl nomatch.

Lemma obj_get_set_eq {V} (o : obj V) (k : string) (v : V) :
  obj_get (obj_set o k v) k = Some v.
Proof.
  induction o as [|[k' v'] o IH]; simpl.
  - rewrite String.eqb_refl. reflexivity.
  - destruct (String.eqb k' k) eqn:E; simpl; rewrite E; [reflexivity | exact IH].
Qed.

Lemma obj_get_set_ne {V} (o : obj V) (k k' : string) (v : V) :
  k <> k' -> obj_get (obj_set o k v) k' = obj_get o k'.
Proof.
  intros Hne. induction o as [|[k0 v0] o IH]; simpl.
  - destruct (String.eqb_spec k k'); [contradiction | reflexivity].
  - destruct (String.eqb_spec k0 k) as [->|Hk]; simpl.
    + destruct (String.eqb_spec k k'); [contradiction | reflexivity].
    + destruct (String.eqb k0 k'); [reflexivity | exact IH].
Qed.

Lemma obj_set_fresh {V} (o : obj V) (k : string) (v : V) :
  obj_get o k = None -> obj_set o k v = o ++ [(k, v)].
Proof.
  induction o as [|[k' v'] o IH]; simpl; [reflexivity|].
  destruct (String.eqb k' k); [discriminate|]. intros H. rewrite (IH H). reflexivity.
Qed.

Lemma obj_get_app {V} (o1 o2 : obj V) (k : string) :
  obj_get (o1 ++ o2) k =
  match obj_get o1 k with Some v => Some v | None => obj_get o2 k end.
Proof.
  induction o1 as [|[k' v'] o1 IH]; simpl; [reflexivity|].
  destruct (String.eqb k' k); [reflexivity | exact IH].
Qed.

(** The key of the pages of chunk [c] of row group [r]. *)
Definition pages_key (r c : nat) : string := pretty r +:+ "_" +:+ pretty c.

Lemma pages_key_inj (r c r' c' : nat) : pages_key r c = pages_key r' c' -> r = r' /\ c = c'.
Proof.
  unfold pages_key. intros E.
  apply numerals_apart in E as [Hr Hc]; try apply pretty_nat_digits.
  split; [exact (inj pretty _ _ Hr) | exact (inj pretty _ _ Hc)].
Qed.

(** The buckets of the row groups from [i0] on, under the numerals of their
    indices. *)
Definition numbered (i0 : nat) (buckets : list (list Segment)) : obj (list Segment) :=
  imap (fun k b => (pretty (i0 + k)%nat, b)) buckets.

Lemma numbered_cons (i0 : nat) (b : list Segment) (buckets : list (list Segment)) :
  numbered i0 (b :: buckets) = (pretty i0, b) :: numbered (S i0) buckets.
Proof.
  unfold numbered. simpl. rewrite Nat.add_0_r. f_equal.
  apply imap_ext. intros k x _. simpl. repeat f_equal. lia.
Qed.

Lemma obj_get_numbered (i0 : nat) (buckets : list (list Segment)) (i : nat) :
  obj_get (numbered i0 buckets) (pretty (i0 + i)%nat) = buckets !! i.
Proof.
  revert i0 i. induction buckets as [|b buckets IH]; intros i0 i; [reflexivity|].
  rewrite numbered_cons. simpl.
  destruct i as [|i].
  - rewrite Nat.add_0_r, String.eqb_refl. reflexivity.
  - destruct (String.eqb_spec (pretty i0) (pretty (i0 + S i)%nat)) as [E|_].
    + apply (inj pretty) in E. lia.
    + replace (i0 + S i)%nat with (S i0 + i)%nat by lia. apply IH.
Qed.

Lemma obj_get_numbered_below (i0 : nat) (buckets : list (list Segment)) (j : nat) :
  (j < i0)%nat -> obj_get (numbered i0 buckets) (pretty j) = None.
Proof.
  revert i0. induction buckets as [|b buckets IH]; intros i0 Hj; [reflexivity|].
  rewrite numbered_cons. simpl.
  destruct (String.eqb_spec (pretty i0) (pretty j)) as [E|_].
  - apply (inj pretty) in E. lia.
  - apply IH. lia.
Qed.

(** The loop of [buildAll] over the row groups leaves one bucket per row group,
    in order, under the numeral of its index. *)
Lemma columnChunksLoop_numbered (fd : FileData) (rgs : list RowGroup) (i0 : nat)
    (cache cc : obj (list Segment)) :
  (forall j, (i0 <= j)%nat -> obj_get cache (pretty j) = None) ->
  columnChunksLoop fd i0 rgs cache = Ok cc ->
  exists buckets,
    length buckets = length rgs /\
    cc = cache ++ numbered i0 buckets /\
    forall k b, buckets !! k = Some b -> buildColumnChunkSegments fd (i0 + k) = Ok b.
Proof.
  revert i0 cache. induction rgs as [|rg rgs IH]; intros i0 cache Hfresh H; simpl in H.
  - injection H as <-. exists []. rewrite app_nil_r. split; [reflexivity|].
    split; [reflexivity|]. intros k b Hk. discriminate.
  - destruct (buildColumnChunkSegments fd i0) as [b0|e] eqn:Hb0; [|discriminate].
    simpl in H. rewrite (obj_set_fresh _ _ _ (Hfresh i0 (Nat.le_refl _))) in H.
    destruct (IH (S i0) (cache ++ [(pretty i0, b0)])) as (buckets & Hlen & Hcc & Hb);
      [|exact H|].
    { intros j Hj. rewrite obj_get_app, (Hfresh j) by lia. simpl.
      destruct (String.eqb_spec (pretty i0) (pretty j)) as [E|_]; [|reflexivity].
      apply (inj pretty) in E. lia. }
    exists (b0 :: buckets). split; [simpl; lia|]. split.
    + rewrite Hcc, numbered_cons, <- app_assoc. reflexivity.
    + intros [|k] b Hk; simpl in Hk.
      * injection Hk as <-. rewrite Nat.add_0_r. exact Hb0.
      * replace (i0 + S k)%nat with (S i0 + k)%nat by lia. apply Hb, Hk.
Qed.

Lemma as_index_pretty (r : nat) : as_index (parseInt (Some (pretty r))) = Some r.
Proof.
  rewrite parseInt_pretty. unfold as_index.
  destruct (Z.leb_spec 0 (Z.of_nat r)); [|lia]. rewrite Nat2Z.id. reflexivity.
Qed.

(** The inner loop of [buildAll] stores the pages of chunk [c] of row group [r]
    under [<r>_<c>] and touches no other key. *)
Lemma pagesOfRowGroup_keys (fd : FileData) (r : nat) (chunks : list Segment) (c0 : nat)
    (cache cache' : obj (list Segment)) :
  pagesOfRowGroup fd (pretty r) c0 chunks cache = Ok cache' ->
  (forall c, (c0 <= c < c0 + length chunks)%nat ->
     exists ps, buildPageSegments fd r c = Ok ps /\
                obj_get cache' (pages_key r c) = Some ps) /\
  (forall k, (forall c, (c0 <= c < c0 + length chunks)%nat -> k <> pages_key r c) ->
     obj_get cache' k = obj_get cache k).
Proof.
  revert c0 cache. induction chunks as [|chunk chunks IH]; intros c0 cache H;
    cbn [pagesOfRowGroup] in H.
  - injection H as <-. split; [intros c Hc; simpl in Hc; lia | reflexivity].
  - rewrite as_index_pretty in H.
    destruct (buildPageSegments fd r c0) as [ps|e] eqn:Hps; [|discriminate].
    simpl in H. destruct (IH _ _ H) as [Hin Hout]. split.
    + intros c Hc. simpl in Hc.
      destruct (decide (c = c0)) as [->|Hne].
      * exists ps. split; [exact Hps|]. rewrite Hout.
        -- apply obj_get_set_eq.
        -- intros c Hc' E. apply pages_key_inj in E. lia.
      * apply Hin. lia.
    + intros k Hk. rewrite Hout.
      * apply obj_get_set_ne. intros E. apply (Hk c0); [simpl; lia | symmetry; exact E].
      * intros c Hc. apply Hk. simpl. lia.
Qed.

(** The outer loop does so for every bucket. *)
Lemma pagesLoop_keys (fd : FileData) (buckets : list (list Segment)) (i0 : nat)
    (cache pg : obj (list Segment)) :
  pagesLoop fd (numbered i0 buckets) cache = Ok pg ->
  (forall k b c, buckets !! k = Some b -> (c < length b)%nat ->
     exists ps, buildPageSegments fd (i0 + k) c = Ok ps /\
                obj_get pg (pages_key (i0 + k) c) = Some ps) /\
  (forall key, (forall r c, (i0 <= r)%nat -> key <> pages_key r c) ->
     obj_get pg key = obj_get cache key).
Proof.
  revert i0 cache. induction buckets as [|b buckets IH]; intros i0 cache H.
  - injection H as <-. split; [intros k b c Hk; discriminate | reflexivity].
  - rewrite numbered_cons in H. simpl in H.
    destruct (pagesOfRowGroup fd (pretty i0) 0 b cache) as [cache1|e] eqn:H1; [|discriminate].
    simpl in H. destruct (pagesOfRowGroup_keys _ _ _ _ _ _ H1) as [Hin1 Hout1].
    destruct (IH _ _ H) as [Hin Hout]. split.
    + intros [|k] b' c Hk Hc; simpl in Hk.
      * injection Hk as <-. rewrite Nat.add_0_r.
        destruct (Hin1 c ltac:(lia)) as (ps & Hps & Hget).
        exists ps. split; [exact Hps|]. rewrite Hout; [exact Hget|].
        intros r c' Hr E. apply pages_key_inj in E. lia.
      * replace (i0 + S k)%nat with (S i0 + k)%nat by lia. apply (Hin k b' c Hk Hc).
    + intros key Hkey. rewrite Hout, Hout1; [reflexivity | |].
      * intros c _. apply Hkey. lia.
      * intros r c Hr. apply Hkey. lia.
Qed.

End Keys.

(** ** Ids and the levels they open *)

Section DrillDown.

#[local] Arguments String.append !_ _ / : simpl nomatch.

Lemma forEachi_elem {A B} (f : nat -> A -> result (list B)) (xs : list A) (i0 : nat)
    (ys : list B) (y : B) :
  forEachi f i0 xs = Ok ys -> y ∈ ys ->
  exists k x zs, xs !! k = Some x /\ f (i0 + k)%nat x = Ok zs /\ y ∈ zs.
Proof.
  revert i0 ys. induction xs as [|x xs IH]; intros i0 ys H Hy; simpl in H.
  - injection H as <-. inversion Hy.
  - destruct (f i0 x) as [zs|e] eqn:Hf; [|discriminate]. simpl in H.
    destruct (forEachi f (S i0) xs) as [ys'|e] eqn:Hrest; [|discriminate].
    injection H as <-. apply elem_of_app in Hy as [Hy|Hy].
    + exists 0%nat, x, zs. rewrite Nat.add_0_r. auto.
    + destruct (IH _ _ Hrest Hy) as (k & x' & zs' & Hk & Hf' & Hin).
      exists (S k), x', zs'. replace (i0 + S k)%nat with (S i0 + k)%nat by lia. auto.
Qed.

(** A loop whose every round pushes one element: the element at each position
    is the one pushed for the input at that position. *)
Lemma forEachi_singletons {A B} (g : nat -> A -> result B) (xs : list A) (i0 : nat)
    (ys : list B) :
  forEachi (fun i x => y ← g i x; mret [y]) i0 xs = Ok ys ->
  length ys = length xs /\
  forall k x, xs !! k = Some x -> exists y, ys !! k = Some y /\ g (i0 + k)%nat x = Ok y.
Proof.
  revert i0 ys. induction xs as [|x xs IH]; intros i0 ys H; simpl in H.
  - injection H as <-. split; [reflexivity | intros k x Hk; discriminate].
  - destruct (g i0 x) as [y|e] eqn:Hg; [|discriminate]. simpl in H.
    destruct (forEachi _ (S i0) xs) as [ys'|e] eqn:Hrest; [|discriminate].
    injection H as <-. destruct (IH _ _ Hrest) as [Hlen Hat]. split; [simpl; lia|].
    intros [|k] x' Hk; simpl in Hk.
    + injection Hk as <-. exists y. rewrite Nat.add_0_r. auto.
    + destruct (Hat k x' Hk) as (y' & Hy' & Hg'). exists y'.
      replace (i0 + S k)%nat with (S i0 + k)%nat by lia. auto.
Qed.

Lemma prefix_empty (s : string) : String.prefix "" s = true.
Proof. destruct s; reflexivity. Qed.

Lemma includes_rowgroup_id (i : nat) : includes ("rowgroup_" +:+ pretty i) "meta" = false.
Proof.
  unfold includes. cbn -[pretty]. rewrite index_meta_digits by apply pretty_nat_digits.
  reflexivity.
Qed.

Lemma split_rowgroup_id (i : nat) :
  split "_" ("rowgroup_" +:+ pretty i) = ["rowgroup"; pretty i].
Proof.
  unfold split. cbn -[pretty]. rewrite split_aux_digits_end by apply pretty_nat_digits.
  reflexivity.
Qed.

Lemma split_chunk_id (r c : nat) :
  split "_" ("chunk_" +:+ pretty r +:+ "_" +:+ pretty c) = ["chunk"; pretty r; pretty c].
Proof.
  unfold split. cbn -[pretty].
  change (String "_" (pretty c)) with (String "_" (pretty c)).
  rewrite split_aux_digits_sep by apply pretty_nat_digits.
  rewrite split_aux_digits_end by apply pretty_nat_digits. reflexivity.
Qed.

(** [getSegmentsForLevel] decodes the id of row group [i] to the bucket stored
    under [i]. *)
Lemma columnchunks_of_rowgroup_id (cache : HierarchyCache) (i : nat) :
  getSegmentsForLevel cache "columnchunks" (Some ("rowgroup_" +:+ pretty i)) =
  Array (default [] (obj_get (columnchunks cache) (pretty i))).
Proof.
  pose proof (includes_rowgroup_id i) as Hmeta.
  pose proof (split_rowgroup_id i) as Hsplit.
  assert (Hstart : startsWith ("rowgroup_" +:+ pretty i) "rowgroup_" = true).
  { unfold startsWith. cbn -[pretty]. apply prefix_empty. }
  rewrite (columnchunks_bucket cache _ Hstart Hmeta), Hsplit.
  change (["rowgroup"; pretty i] !! 1%nat) with (Some (pretty i)).
  rewrite parseInt_pretty, toString_pretty. reflexivity.
Qed.

(** It decodes the id of chunk [c] of row group [r] to the bucket stored under
    [<r>_<c>]. *)
Lemma pages_of_chunk_id (cache : HierarchyCache) (r c : nat) :
  getSegmentsForLevel cache "pages" (Some ("chunk_" +:+ pretty r +:+ "_" +:+ pretty c)) =
  Array (default [] (obj_get (pages cache) (pages_key r c))).
Proof.
  pose proof (split_chunk_id r c) as Hsplit.
  assert (Hstart : includes ("chunk_" +:+ pretty r +:+ "_" +:+ pretty c) "chunk_" = true).
  { unfold includes. cbn -[pretty]. rewrite prefix_empty. reflexivity. }
  rewrite (pages_bucket cache _ Hstart), Hsplit.
  change (["chunk"; pretty r; pretty c] !! 1%nat) with (Some (pretty r)).
  change (["chunk"; pretty r; pretty c] !! 2%nat) with (Some (pretty c)).
  rewrite !parseInt_pretty, !toString_pretty. reflexivity.
Qed.

End DrillDown.

Section DrillDownTheorems.

Variable json : FileMetadata -> Z.

(** What [buildAll] stores in each property of the cache. *)
Lemma buildAll_parts (fd : FileData) (cache : HierarchyCache) :
  buildAll json fd = Ok cache ->
  buildOverviewSegments json fd = Ok (overview cache) /\
  buildRowGroupSegments fd = Ok (rowgroups cache) /\
  buildMetadataStructureSegments fd = Ok (metadatastructure cache) /\
  buildAllSchemaElementSegments fd = Ok (schemaelements cache) /\
  buildRowGroupMetadataSegments fd = Ok (rowgroupelements cache) /\
  buildColumnIndexSegments fd = Ok (indexelements cache) /\
  buildKeyValueMetadataSegments fd = Ok (keyvaluemetadata cache) /\
  buildColumnChunkMetadataSegments fd = Ok (columnchunkmetadata cache) /\
  match inner_row_groups fd with
  | Some rgs => columnChunksLoop fd 0 rgs []
  | None => Ok []
  end = Ok (columnchunks cache) /\
  pagesLoop fd (columnchunks cache) [] = Ok (pages cache).
Proof.
  unfold buildAll. intros H.
  destruct (buildOverviewSegments json fd) as [ov|]; [|discriminate].
  destruct (buildRowGroupSegments fd) as [rg|]; [|discriminate].
  destruct (buildMetadataStructureSegments fd) as [ms|]; [|discriminate].
  destruct (buildAllSchemaElementSegments fd) as [se|]; [|discriminate].
  destruct (buildRowGroupMetadataSegments fd) as [re|]; [|discriminate].
  destruct (buildColumnIndexSegments fd) as [ie|]; [|discriminate].
  destruct (buildKeyValueMetadataSegments fd) as [kv|]; [|discriminate].
  destruct (buildColumnChunkMetadataSegments fd) as [cm|]; [|discriminate].
  simpl in H.
  destruct (match inner_row_groups fd with Some rgs => _ | None => _ end) as [cc|];
    [|discriminate].
  simpl in H. destruct (pagesLoop fd cc []) as [pg|] eqn:Hpg; [|discriminate].
  injection H as <-. simpl. rewrite Hpg. repeat split; reflexivity.
Qed.

(** The buckets of the cache: one per row group, the one
    [buildColumnChunkSegments] returns for it, with its pages under their keys. *)
Lemma buildAll_buckets (fd : FileData) (cache : HierarchyCache) (rgs : list RowGroup) :
  buildAll json fd = Ok cache ->
  inner_row_groups fd = Some rgs ->
  forall i, (i < length rgs)%nat ->
    exists bucket,
      buildColumnChunkSegments fd i = Ok bucket /\
      obj_get (columnchunks cache) (pretty i) = Some bucket /\
      forall c, (c < length bucket)%nat ->
        exists ps, buildPageSegments fd i c = Ok ps /\
                   obj_get (pages cache) (pages_key i c) = Some ps.
Proof.
  intros H Hrgs i Hi.
  destruct (buildAll_parts fd cache H) as (_ & _ & _ & _ & _ & _ & _ & _ & Hcc & Hpg).
  rewrite Hrgs in Hcc.
  destruct (columnChunksLoop_numbered fd rgs 0 [] _ ltac:(reflexivity) Hcc)
    as (buckets & Hlen & Heq & Hb).
  simpl in Heq. rewrite Heq in Hpg |- *.
  destruct (lookup_lt_is_Some_2 buckets i ltac:(lia)) as [bucket Hbucket].
  exists bucket. split; [exact (Hb i bucket Hbucket)|]. split.
  - rewrite <- Hbucket. apply (obj_get_numbered 0).
  - intros c Hc. destruct (pagesLoop_keys fd buckets 0 [] _ Hpg) as [Hin _].
    exact (Hin i bucket c Hbucket Hc).
Qed.

Lemma childLevelName_rowgroup (seg : Segment) (i : nat) :
  ParquetSegment.id seg = "rowgroup_" +:+ pretty i ->
  ParquetSegment.rowGroupIndex seg = Some i ->
  ParquetSegment.chunkIndex seg = None ->
  ParquetSegment.childLevelName seg = Some "columnchunks".
Proof.
  intros Hid Hr Hc. unfold ParquetSegment.childLevelName. rewrite Hid, Hr, Hc.
  pose proof (includes_rowgroup_id i) as Hmeta.
  assert (E1 : String.eqb ("rowgroup_" +:+ pretty i) "metadata" = false) by reflexivity.
  assert (E2 : String.eqb ("rowgroup_" +:+ pretty i) "rowgroups" = false) by reflexivity.
  assert (E3 : String.eqb ("rowgroup_" +:+ pretty i) "schema_root" = false) by reflexivity.
  assert (E4 : String.eqb ("rowgroup_" +:+ pretty i) "row_groups_metadata" = false)
    by reflexivity.
  assert (E5 : String.eqb ("rowgroup_" +:+ pretty i) "column_indices" = false) by reflexivity.
  assert (E6 : String.eqb ("rowgroup_" +:+ pretty i) "key_value_metadata" = false)
    by reflexivity.
  rewrite E1, E2, E3, E4, E5, E6, Hmeta. reflexivity.
Qed.

Lemma childLevelName_chunk (seg : Segment) (rest : string) (c : nat) :
  ParquetSegment.id seg = "chunk_" +:+ rest ->
  ParquetSegment.chunkIndex seg = Some c ->
  ParquetSegment.pageIndex seg = None ->
  ParquetSegment.childLevelName seg = Some "pages".
Proof.
  intros Hid Hc Hp. unfold ParquetSegment.childLevelName. rewrite Hid, Hc, Hp.
  destruct (ParquetSegment.rowGroupIndex seg); reflexivity.
Qed.

Lemma childLevelName_page (seg : Segment) (rest : string) (c p : nat) (page : Page) :
  ParquetSegment.id seg = "page_" +:+ rest ->
  ParquetSegment.chunkIndex seg = Some c ->
  ParquetSegment.pageIndex seg = Some p ->
  ParquetSegment.metadata seg = Some (ParquetSegment.MetaPage page) ->
  ParquetSegment.childLevelName seg = None.
Proof.
  intros Hid Hc Hp Hm.
  unfold ParquetSegment.childLevelName, ParquetSegment.is_schema_group.
  rewrite Hid, Hc, Hp, Hm.
  destruct (ParquetSegment.rowGroupIndex seg); reflexivity.
Qed.

(** Every segment of a bucket is the one built for a chunk of the block, and
    carries the position of that chunk in the block. *)
Lemma buildColumnChunkSegments_elem (fd : FileData) (i : nat) (bucket : list Segment) :
  buildColumnChunkSegments fd i = Ok bucket ->
  length bucket = length (_getChunksForRowGroup fd i) /\
  forall seg, seg ∈ bucket ->
    exists c chunk,
      _getChunksForRowGroup fd i !! c = Some chunk /\
      ParquetSegment.new (columnChunkConfig fd i c chunk) = Ok seg.
Proof.
  unfold buildColumnChunkSegments. intros H.
  destruct (forEachi _ 0 (_getChunksForRowGroup fd i)) as [segs|] eqn:Hsegs; [|discriminate].
  injection H as <-.
  destruct (forEachi_singletons
              (fun chunkIndex chunk =>
                 ParquetSegment.new (columnChunkConfig fd i chunkIndex chunk))
              _ _ _ Hsegs) as [Hlen Hat].
  split.
  - rewrite <- Hlen. apply Permutation_length, sort_by_start_perm.
  - intros seg Hseg. rewrite sort_by_start_perm in Hseg.
    apply list_elem_of_lookup in Hseg as [c Hc].
    assert (Hlt : (c < length (_getChunksForRowGroup fd i))%nat).
    { rewrite <- Hlen. apply lookup_lt_Some in Hc. exact Hc. }
    destruct (lookup_lt_is_Some_2 _ _ Hlt) as [chunk Hchunk].
    destruct (Hat c chunk Hchunk) as (seg' & Hseg' & Hnew).
    exists c, chunk. split; [exact Hchunk|]. simpl in Hnew. congruence.
Qed.

(** X1. Row groups open their column chunks: every segment of the row-group level
    carries the index [i] of its row group in its id, and the level it opens is
    the array [buildColumnChunkSegments] returns for [i], which is not empty. *)
Theorem row_groups_open_their_column_chunks (fd : FileData) (cache : HierarchyCache)
    (seg : Segment) :
  buildAll json fd = Ok cache ->
  seg ∈ array_of (getSegmentsForLevel cache "rowgroups" None) ->
  exists i bucket,
    ParquetSegment.rowGroupIndex seg = Some i /\
    ParquetSegment.id seg = "rowgroup_" +:+ pretty i /\
    ParquetSegment.childLevelName seg = Some "columnchunks" /\
    buildColumnChunkSegments fd i = Ok bucket /\
    SvgByteVisualizer.childSegments cache seg = Array bucket /\
    SvgByteVisualizer.segmentHasChildren cache seg = true.
Proof.
  intros H Hseg. change (seg ∈ rowgroups cache) in Hseg.
  destruct (buildAll_parts fd cache H) as (_ & Hrg & _).
  unfold buildRowGroupSegments in Hrg.
  destruct (inner_row_groups fd) as [rgs|] eqn:Hrgs;
    [|injection Hrg as Hrg; rewrite <- Hrg in Hseg; inversion Hseg].
  destruct (forEachi_elem _ _ _ _ _ Hrg Hseg) as (i & rg & zs & Hi & Hf & Hin).
  simpl in Hf.
  destruct (_getChunksForRowGroup fd i) as [|c cs] eqn:Hblock;
    [injection Hf as <-; inversion Hin|].
  match type of Hf with
  | (ParquetSegment.new ?cfg ≫= _) = _ =>
      destruct (ParquetSegment.new cfg) as [seg'|] eqn:Hnew; [|discriminate]
  end.
  injection Hf as <-. apply list_elem_of_singleton in Hin as ->.
  apply new_Ok in Hnew. simpl in Hnew.
  destruct Hnew as (Hid & _ & _ & _ & _ & Hr & Hc & _).
  injection Hid as Hid. symmetry in Hid.
  pose proof (childLevelName_rowgroup seg' i Hid Hr Hc) as Hchild.
  apply lookup_lt_Some in Hi.
  destruct (buildAll_buckets fd cache rgs H Hrgs i Hi) as (bucket & Hb & Hget & _).
  assert (Hkids : SvgByteVisualizer.childSegments cache seg' = Array bucket).
  { unfold SvgByteVisualizer.childSegments. rewrite Hchild, Hid.
    rewrite columnchunks_of_rowgroup_id, Hget. reflexivity. }
  exists i, bucket. split; [exact Hr|]. split; [exact Hid|]. split; [exact Hchild|].
  split; [exact Hb|]. split; [exact Hkids|].
  unfold SvgByteVisualizer.segmentHasChildren. rewrite Hchild.
  unfold SvgByteVisualizer.childSegments in Hkids. rewrite Hchild in Hkids. rewrite Hkids.
  destruct (buildColumnChunkSegments_elem fd i bucket Hb) as [Hlen _].
  unfold SvgByteVisualizer.has_length. rewrite Hlen, Hblock. reflexivity.
Qed.

(** X2. Column chunks open their pages: every segment of the level a row group
    opens carries, in its id, the position [c] its chunk has in the payload's
    block (not the position the sort gave the segment), and the level it opens
    is the array of the pages [buildPageSegments] returns for that chunk. *)
Theorem column_chunks_open_their_pages (fd : FileData) (cache : HierarchyCache)
    (rgs : list RowGroup) (i : nat) (seg : Segment) :
  buildAll json fd = Ok cache ->
  inner_row_groups fd = Some rgs ->
  (i < length rgs)%nat ->
  seg ∈ array_of (getSegmentsForLevel cache "columnchunks"
                    (Some ("rowgroup_" +:+ pretty i))) ->
  exists c chunk ps,
    _getChunksForRowGroup fd i !! c = Some chunk /\
    ParquetSegment.physicalMetadata seg = Some chunk /\
    ParquetSegment.id seg = "chunk_" +:+ pretty i +:+ "_" +:+ pretty c /\
    ParquetSegment.childLevelName seg = Some "pages" /\
    buildPageSegments fd i c = Ok ps /\
    SvgByteVisualizer.childSegments cache seg = Array ps.
Proof.
  intros H Hrgs Hi Hseg.
  destruct (buildAll_buckets fd cache rgs H Hrgs i Hi) as (bucket & Hb & Hget & Hpages).
  rewrite columnchunks_of_rowgroup_id, Hget in Hseg. simpl in Hseg.
  destruct (buildColumnChunkSegments_elem fd i bucket Hb) as [Hlen Helem].
  destruct (Helem seg Hseg) as (c & chunk & Hchunk & Hnew).
  apply new_Ok in Hnew. simpl in Hnew.
  destruct Hnew as (Hid & _ & _ & _ & _ & _ & Hc & Hp & _ & Hphys & _).
  injection Hid as Hid. symmetry in Hid.
  pose proof (childLevelName_chunk seg _ c Hid Hc Hp) as Hchild.
  assert (Hlt : (c < length bucket)%nat).
  { rewrite Hlen. apply lookup_lt_Some in Hchunk. exact Hchunk. }
  destruct (Hpages c Hlt) as (ps & Hps & Hkey).
  exists c, chunk, ps. split; [exact Hchunk|]. split; [exact Hphys|]. split; [exact Hid|].
  split; [exact Hchild|]. split; [exact Hps|].
  unfold SvgByteVisualizer.childSegments. rewrite Hchild, Hid.
  rewrite pages_of_chunk_id, Hkey. reflexivity.
Qed.

End DrillDownTheorems.

(** In the one-chunk file the row group [rowgroup_0] opens the chunk
    [chunk_0_0]. *)
Lemma one_chunk_row_group_opens :
  exists i bucket,
    ParquetSegment.rowGroupIndex Scenarios.rowgroup_0_segment = Some i /\
    ParquetSegment.id Scenarios.rowgroup_0_segment = "rowgroup_" +:+ pretty i /\
    ParquetSegment.childLevelName Scenarios.rowgroup_0_segment = Some "columnchunks" /\
    buildColumnChunkSegments Scenarios.one_chunk_file i = Ok bucket /\
    SvgByteVisualizer.childSegments Scenarios.one_chunk_cache
      Scenarios.rowgroup_0_segment = Array bucket /\
    SvgByteVisualizer.segmentHasChildren Scenarios.one_chunk_cache
      Scenarios.rowgroup_0_segment = true.
Proof.
  apply (row_groups_open_their_column_chunks Scenarios.json_length Scenarios.one_chunk_file).
  - vm_compute. reflexivity.
  - apply list_elem_of_lookup. exists 0%nat. vm_compute. reflexivity.
Defined.

(** ** Pages *)

Section Pages.

(** The pages of a chunk in the order [buildPageSegments] visits them: the
    dictionary page, the data pages, the index pages. *)
Definition pages_of (chunk : ColumnChunk) : list Page :=
  option_list (dictionary_page chunk) ++ default [] (data_pages chunk) ++
  default [] (index_pages chunk).

(** [header_size || 0] plus [compressed_page_size || 0]. *)
Definition page_size (page : Page) : Z :=
  or_else (header_size page) 0 + or_else (compressed_page_size page) 0.

(** A page the segment constructor accepts: it has a [start_offset], which is
    not negative, and its size is not negative. *)
Definition valid_page (page : Page) : bool :=
  match page_start_offset page with
  | Some s => (0 <=? s) && (0 <=? page_size page)
  | None => false
  end.

(** The segment of a page. *)
Definition page_segment (page : Page) (seg : Segment) : Prop :=
  ParquetSegment.metadata seg = Some (ParquetSegment.MetaPage page) /\
  exists s, page_start_offset page = Some s /\ range seg = (Int s, Int (s + page_size page)).

Lemma new_page (i n : string) (r c p : nat) (page : Page) :
  (valid_page page = true ->
   exists seg, ParquetSegment.new (pageConfig i n r c p page) = Ok seg) /\
  (forall seg, ParquetSegment.new (pageConfig i n r c p page) = Ok seg ->
     valid_page page = true /\ page_segment page seg /\
     ParquetSegment.id seg = i /\ ParquetSegment.chunkIndex seg = Some c /\
     ParquetSegment.pageIndex seg = Some p).
Proof.
  unfold valid_page, page_segment, page_size. split.
  - destruct (page_start_offset page) as [s|] eqn:Hs; [|discriminate].
    intros H. apply andb_true_iff in H as [H0 H1]. apply Z.leb_le in H0, H1.
    destruct (new_succeeds (pageConfig i n r c p page) i n s
                (s + (or_else (header_size page) 0 + or_else (compressed_page_size page) 0)))
      as (seg & Hseg & _); try reflexivity; try lia.
    + simpl. rewrite Hs. reflexivity.
    + simpl. rewrite Hs. reflexivity.
    + exists seg. exact Hseg.
  - intros seg H. apply new_Ok in H. simpl in H.
    destruct H as (Hid & _ & Hstart & Hend & Hm & _ & Hc & Hp & _ & _ & _ & H0 & H1).
    destruct (page_start_offset page) as [s|] eqn:Hs; [|discriminate].
    simpl in Hstart, Hend. injection Hstart as Hstart. injection Hend as Hend.
    injection Hid as Hid.
    rewrite <- Hstart in H0, H1. rewrite <- Hend in H1. simpl in H0, H1.
    apply Z.ltb_ge in H0, H1.
    split; [apply andb_true_iff; split; apply Z.leb_le; lia|].
    split; [|auto].
    split; [exact Hm|]. exists s. split; [reflexivity|].
    unfold range. rewrite <- Hstart, <- Hend. reflexivity.
Qed.

(** What a segment of a page level carries. *)
Definition page_of_chunk (c : nat) (seg : Segment) : Prop :=
  (exists rest, ParquetSegment.id seg = "page_" +:+ rest) /\
  ParquetSegment.chunkIndex seg = Some c /\
  (exists p, ParquetSegment.pageIndex seg = Some p) /\
  (exists page, ParquetSegment.metadata seg = Some (ParquetSegment.MetaPage page)).

Lemma page_loop (mk_id mk_name : nat -> string) (r c : nat) (pgs : list Page) (i0 : nat) :
  (forall p, exists rest, mk_id p = "page_" +:+ rest) ->
  (forallb valid_page pgs = true ->
   exists segs,
     forEachi (fun pageIndex page =>
                 seg ← ParquetSegment.new
                         (pageConfig (mk_id pageIndex) (mk_name pageIndex) r c pageIndex page);
                 mret [seg]) i0 pgs = Ok segs) /\
  (forall segs,
     forEachi (fun pageIndex page =>
                 seg ← ParquetSegment.new
                         (pageConfig (mk_id pageIndex) (mk_name pageIndex) r c pageIndex page);
                 mret [seg]) i0 pgs = Ok segs ->
     forallb valid_page pgs = true /\ Forall2 page_segment pgs segs /\
     Forall (page_of_chunk c) segs).
Proof.
  intros Hid. split.
  - intros Hvalid.
    destruct (forEachi_each (fun _ _ => True)
                (fun pageIndex page =>
                   seg ← ParquetSegment.new
                           (pageConfig (mk_id pageIndex) (mk_name pageIndex) r c pageIndex page);
                   mret [seg]) pgs i0) as (segs & Hsegs & _); [|eauto].
    intros i page Hpage. apply list_elem_of_In in Hpage.
    pose proof (proj1 (forallb_forall _ _) Hvalid page Hpage) as Hok.
    destruct (proj1 (new_page (mk_id i) (mk_name i) r c i page) Hok) as (seg & Hseg).
    exists seg. rewrite Hseg. auto.
  - intros segs H.
    destruct (forEachi_singletons
                (fun pageIndex page =>
                   ParquetSegment.new
                     (pageConfig (mk_id pageIndex) (mk_name pageIndex) r c pageIndex page))
                _ _ _ H) as [Hlen Hat].
    assert (Hall : forall k page seg, pgs !! k = Some page -> segs !! k = Some seg ->
                   valid_page page = true /\ page_segment page seg /\ page_of_chunk c seg).
    { intros k page seg Hp Hs. destruct (Hat k page Hp) as (seg' & Hs' & Hnew).
      assert (seg' = seg) as -> by congruence.
      destruct (proj2 (new_page _ _ _ _ _ _) seg Hnew) as (Hv & Hps & Hi & Hc & Hpi).
      split; [exact Hv|]. split; [exact Hps|].
      destruct (Hid (i0 + k)%nat) as (rest & Hrest).
      split; [exists rest; congruence|]. split; [exact Hc|]. split; [eauto|].
      destruct Hps as [Hm _]. eauto. }
    split; [|split].
    + apply forallb_forall. intros page Hpage.
      apply list_elem_of_In, list_elem_of_lookup in Hpage as [k Hk].
      destruct (lookup_lt_is_Some_2 segs k) as [seg Hseg].
      { rewrite Hlen. apply lookup_lt_Some in Hk. exact Hk. }
      exact (proj1 (Hall k page seg Hk Hseg)).
    + apply Forall2_same_length_lookup. split; [symmetry; exact Hlen|].
      intros k page seg Hk Hseg. exact (proj1 (proj2 (Hall k page seg Hk Hseg))).
    + apply Forall_lookup. intros k seg Hseg.
      destruct (lookup_lt_is_Some_2 pgs k) as [page Hpage].
      { rewrite <- Hlen. apply lookup_lt_Some in Hseg. exact Hseg. }
      exact (proj2 (proj2 (Hall k page seg Hpage Hseg))).
Qed.

(** How [buildPageSegments] ends on the chunk it finds. *)
Lemma buildPageSegments_of_chunk (fd : FileData) (r c : nat) (chunk : ColumnChunk) :
  _getChunkData fd r c = Some chunk ->
  (forallb valid_page (pages_of chunk) = true ->
   exists ps, buildPageSegments fd r c = Ok ps) /\
  (forall ps, buildPageSegments fd r c = Ok ps ->
     forallb valid_page (pages_of chunk) = true /\
     Forall2 page_segment (pages_of chunk) ps /\
     Forall (page_of_chunk c) ps).
Proof.
  intros Hchunk. unfold buildPageSegments, pages_of. rewrite Hchunk.
  set (rc := pretty r +:+ "_" +:+ pretty c).
  pose proof (page_loop (fun _ => "page_dict_" +:+ rc) (fun _ => "DICT") r c
                (option_list (dictionary_page chunk)) 0
                ltac:(intros; eexists; reflexivity)) as [Hd1 Hd2].
  pose proof (page_loop (fun p => "page_data_" +:+ rc +:+ "_" +:+ pretty p)
                (fun p => "DATA" +:+ pretty p) r c (default [] (data_pages chunk)) 0
                ltac:(intros; eexists; reflexivity)) as [Ha1 Ha2].
  pose proof (page_loop (fun p => "page_index_" +:+ rc +:+ "_" +:+ pretty p)
                (fun p => "IDX" +:+ pretty p) r c (default [] (index_pages chunk)) 0
                ltac:(intros; eexists; reflexivity)) as [Hi1 Hi2].
  assert (Hdict : forall res,
            match dictionary_page chunk with
            | Some dictPage =>
                seg ← ParquetSegment.new (pageConfig ("page_dict_" +:+ rc) "DICT" r c 0 dictPage);
                mret [seg]
            | None => Ok []
            end = res ->
            forEachi (fun pageIndex page =>
                        seg ← ParquetSegment.new
                                (pageConfig ("page_dict_" +:+ rc) "DICT" r c pageIndex page);
                        mret [seg]) 0 (option_list (dictionary_page chunk)) = res).
  { intros res <-. destruct (dictionary_page chunk) as [dictPage|]; simpl; [|reflexivity].
    destruct (ParquetSegment.new _); reflexivity. }
  assert (Hdata : forall (mk_id mk_name : nat -> string) (pgs : option (list Page)) res,
            match pgs with
            | Some pgs =>
                forEachi (fun pageIndex page =>
                            seg ← ParquetSegment.new
                                    (pageConfig (mk_id pageIndex) (mk_name pageIndex)
                                                r c pageIndex page);
                            mret [seg]) 0 pgs
            | None => Ok []
            end = res ->
            forEachi (fun pageIndex page =>
                        seg ← ParquetSegment.new
                                (pageConfig (mk_id pageIndex) (mk_name pageIndex)
                                            r c pageIndex page);
                        mret [seg]) 0 (default [] pgs) = res).
  { intros mk_id mk_name [pgs|] res <-; reflexivity. }
  split.
  - intros Hvalid. rewrite !forallb_app in Hvalid.
    apply andb_true_iff in Hvalid as [Hv1 Hv]. apply andb_true_iff in Hv as [Hv2 Hv3].
    destruct (Hd1 Hv1) as (dict & Hdict'). destruct (Ha1 Hv2) as (data & Hdata').
    destruct (Hi1 Hv3) as (index & Hindex').
    rewrite (Hdict _ eq_refl) in Hdict'. rewrite Hdict'. simpl.
    rewrite (Hdata _ _ _ _ eq_refl) in Hdata'. rewrite Hdata'. simpl.
    rewrite (Hdata _ _ _ _ eq_refl) in Hindex'. rewrite Hindex'. simpl. eauto.
  - intros ps H.
    destruct (match dictionary_page chunk with Some _ => _ | None => _ end)
      as [dict|] eqn:Edict; [|discriminate].
    simpl in H.
    destruct (match data_pages chunk with Some _ => _ | None => _ end)
      as [data|] eqn:Edata; [|discriminate].
    simpl in H.
    destruct (match index_pages chunk with Some _ => _ | None => _ end)
      as [index|] eqn:Eindex; [|discriminate].
    injection H as <-.
    destruct (Hd2 dict (Hdict _ eq_refl)) as (V1 & F1 & P1).
    destruct (Ha2 data (Hdata _ _ _ _ Edata)) as (V2 & F2 & P2).
    destruct (Hi2 index (Hdata _ _ _ _ Eindex)) as (V3 & F3 & P3).
    split; [rewrite !forallb_app, V1, V2, V3; reflexivity|]. split.
    + repeat apply Forall2_app; assumption.
    + repeat (apply Forall_app; split); assumption.
Qed.

End Pages.

Section PageTheorems.

(** X3. [buildPageSegments] returns exactly when every page of the chunk has a
    [start_offset] that is not negative and a size that is not negative; a page
    without [start_offset] makes it throw. When it returns, it returns one
    segment per page, the dictionary page first, then the data pages, then the
    index pages, each from the page's [start_offset] over its header and
    compressed sizes. *)
Theorem buildPageSegments_returns_on_valid_pages (fd : FileData) (r c : nat)
    (chunk : ColumnChunk) :
  _getChunkData fd r c = Some chunk ->
  (returns (buildPageSegments fd r c) = true <->
   forallb valid_page (pages_of chunk) = true) /\
  (forall ps, buildPageSegments fd r c = Ok ps ->
     Forall2 page_segment (pages_of chunk) ps).
Proof.
  intros Hchunk.
  destruct (buildPageSegments_of_chunk fd r c chunk Hchunk) as [Hok Hinv].
  split; [split|].
  - intros H. destruct (buildPageSegments fd r c) as [ps|] eqn:E; [|discriminate].
    exact (proj1 (Hinv ps eq_refl)).
  - intros H. destruct (Hok H) as (ps & ->). reflexivity.
  - intros ps H. exact (proj1 (proj2 (Hinv ps H))).
Qed.

(** X4. Pages are leaves: a segment [buildPageSegments] returns names no child
    level, has no children in any cache, and a click on it adds no level: with
    any page and any info panel, the click leaves the levels down to its own
    when the selection display and the panel return, and all the levels when
    one of them throws; so a click on the deepest level leaves the levels as
    they are. *)
Theorem pages_are_leaves (fd : FileData) (r c : nat) (ps : list Segment) (seg : Segment) :
  buildPageSegments fd r c = Ok ps ->
  seg ∈ ps ->
  ParquetSegment.childLevelName seg = None /\
  forall cache,
    SvgByteVisualizer.segmentHasChildren cache seg = false /\
    forall updateSelectionDisplay infoPanelManager st levelIndex,
      (levelIndex < length (SvgByteVisualizer.levels st))%nat ->
      SvgByteVisualizer.levels
        (SvgByteVisualizer.handleSegmentClick cache updateSelectionDisplay infoPanelManager st seg levelIndex) =
      (if returns (SvgByteVisualizer.showSelection updateSelectionDisplay infoPanelManager
                     (SvgByteVisualizer.updateSelection st seg levelIndex))
       then take (S levelIndex) (SvgByteVisualizer.levels st)
       else SvgByteVisualizer.levels st) /\
      (S levelIndex = length (SvgByteVisualizer.levels st) ->
       SvgByteVisualizer.levels
         (SvgByteVisualizer.handleSegmentClick cache updateSelectionDisplay infoPanelManager st seg levelIndex) =
       SvgByteVisualizer.levels st).
Proof.
  intros H Hseg.
  assert (Hleaf : ParquetSegment.childLevelName seg = None).
  { destruct (_getChunkData fd r c) as [chunk|] eqn:Hchunk.
    - destruct (buildPageSegments_of_chunk fd r c chunk Hchunk) as [_ Hinv].
      destruct (Hinv ps H) as (_ & _ & Hall).
      rewrite Forall_forall in Hall.
      destruct (Hall seg Hseg) as ((rest & Hid) & Hc & (p & Hp) & (page & Hm)).
      exact (childLevelName_page seg rest c p page Hid Hc Hp Hm).
    - unfold buildPageSegments in H. rewrite Hchunk in H. injection H as <-.
      inversion Hseg. }
  split; [exact Hleaf|]. intros cache.
  assert (Hno : SvgByteVisualizer.segmentHasChildren cache seg = false).
  { unfold SvgByteVisualizer.segmentHasChildren. rewrite Hleaf. reflexivity. }
  split; [exact Hno|]. intros updateSelectionDisplay infoPanelManager st levelIndex Hlt.
  assert (Hlevels :
            SvgByteVisualizer.levels
              (SvgByteVisualizer.handleSegmentClick cache updateSelectionDisplay infoPanelManager st seg levelIndex) =
            (if returns (SvgByteVisualizer.showSelection updateSelectionDisplay infoPanelManager
                           (SvgByteVisualizer.updateSelection st seg levelIndex))
             then take (S levelIndex) (SvgByteVisualizer.levels st)
             else SvgByteVisualizer.levels st)).
  { destruct (returns (SvgByteVisualizer.showSelection updateSelectionDisplay infoPanelManager
                         (SvgByteVisualizer.updateSelection st seg levelIndex))) eqn:Hpanel.
    - assert (Hret : SvgByteVisualizer.clickReturns cache updateSelectionDisplay infoPanelManager st seg levelIndex
                     = true).
      { unfold SvgByteVisualizer.clickReturns. rewrite Hpanel, Hno. simpl.
        rewrite orb_true_r. reflexivity. }
      destruct (click_fields cache updateSelectionDisplay infoPanelManager st seg levelIndex Hlt Hret)
        as (_ & _ & Hlevels).
      rewrite Hlevels, Hno, andb_false_r, app_nil_r. reflexivity.
    - apply (interrupted_click_fields cache updateSelectionDisplay infoPanelManager st seg levelIndex Hpanel). }
  split; [exact Hlevels|]. intros Hdeepest. rewrite Hlevels, Hdeepest, firstn_all.
  destruct (returns _); reflexivity.
Qed.

End PageTheorems.

(** The only chunk of the one-chunk file has one valid data page, and its one
    page segment spans it. *)
Lemma one_chunk_pages :
  (returns (buildPageSegments Scenarios.one_chunk_file 0 0) = true <->
   forallb valid_page [ {| page_start_offset := Some 4; header_size := Some 10;
                           compressed_page_size := Some 90 |} ] = true) /\
  (forall ps, buildPageSegments Scenarios.one_chunk_file 0 0 = Ok ps ->
     Forall2 page_segment [ {| page_start_offset := Some 4; header_size := Some 10;
                               compressed_page_size := Some 90 |} ] ps).
Proof.
  exact (buildPageSegments_returns_on_valid_pages Scenarios.one_chunk_file 0 0 _ eq_refl).
Defined.

(** ** The geometry of a level *)

Import LevelGeometry.

(** *** Positions *)

Section Positions.

Variable Math_log10 : jsnum -> jsnum.
Variable Math_pow : jsnum -> jsnum -> jsnum.

Lemma positionsFrom_chain (config : Layout) (ds : list SegmentData) (currentLeft : jsnum) :
  let layouts := positionsFrom currentLeft ds config in
  (forall l, head layouts = Some l -> x l = currentLeft) /\
  (forall i l l', layouts !! i = Some l -> layouts !! S i = Some l' ->
     x l' = fadd (x l) (width l)) /\
  (forall l, l ∈ layouts ->
     y l = SEGMENT_MARGIN config /\
     height l = fsub (LEVEL_HEIGHT config) (fmul (Fin 2) (SEGMENT_MARGIN config))).
Proof.
  revert currentLeft. induction ds as [|d ds IH]; intros currentLeft; simpl.
  - split; [intros l H; discriminate|]. split; [intros i l l' H; discriminate|].
    intros l H. inversion H.
  - destruct (IH (fadd currentLeft (finalWidthPixels d))) as (Hhead & Hchain & Hrows).
    split; [intros l [= <-]; reflexivity|]. split.
    + intros [|i] l l' Hl Hl'; simpl in Hl, Hl'.
      * injection Hl as <-. simpl. apply Hhead.
        destruct (positionsFrom _ ds config); [discriminate | exact Hl'].
      * exact (Hchain i l l' Hl Hl').
    + intros l Hl. apply elem_of_cons in Hl as [->|Hl]; [split; reflexivity|].
      exact (Hrows l Hl).
Qed.

(** X5. The segments of a level are drawn from the left edge on, each where the one
    before it ends, in one row: the layouts [calculateSegmentWidths] returns
    start at [x = 0], every next [x] is the previous [x] plus the previous
    [width], and all have the [y] and the [height] of the configuration. *)
Theorem segments_are_laid_edge_to_edge (segments : list Segment) (containerWidth : jsnum)
    (config : Layout) :
  let layouts := calculateSegmentWidths Math_log10 Math_pow segments containerWidth config in
  (forall l, head layouts = Some l -> x l = Fin 0) /\
  (forall i l l', layouts !! i = Some l -> layouts !! S i = Some l' ->
     x l' = fadd (x l) (width l)) /\
  (forall l, l ∈ layouts ->
     y l = SEGMENT_MARGIN config /\
     height l = fsub (LEVEL_HEIGHT config) (fmul (Fin 2) (SEGMENT_MARGIN config))).
Proof.
  unfold calculateSegmentWidths, calculateSegmentPositions.
  destruct segments as [|s rest].
  - simpl. split; [intros l H; discriminate|]. split; [intros i l l' H; discriminate|].
    intros l H. inversion H.
  - apply positionsFrom_chain.
Qed.

End Positions.

(** *** Levels *)

Section Levels.

Local Open Scope Q_scope.

Variable Math_log10 : jsnum -> jsnum.
Variable Math_pow : jsnum -> jsnum -> jsnum.

Lemma fle_Fin (a b : Q) : fle (Fin a) (Fin b) = Qle_bool a b.
Proof. unfold fle, flt. apply negb_involutive. Qed.

Lemma Qle_bool_false (a b : Q) : Qle_bool a b = false <-> b < a.
Proof.
  rewrite <- not_true_iff_false, Qle_bool_iff. split; [apply Qnot_le_lt | apply Qlt_not_le].
Qed.

Lemma level_y_Fin (n : string) (p : option string) (segs : list Segment) (i : nat)
    (w : jsnum) (config : Layout) (h s : Q) :
  LEVEL_HEIGHT config = Fin h -> LEVEL_SPACING config = Fin s ->
  level_y (computeLevelLayout Math_log10 Math_pow n p segs i w config) =
    Fin (inject_Z (Z.of_nat i) * (h + s)) /\
  level_height (computeLevelLayout Math_log10 Math_pow n p segs i w config) = Fin h.
Proof.
  intros Hh Hs. unfold computeLevelLayout. rewrite Hh, Hs. destruct segs; auto.
Qed.

(** The integers a double holds exactly lie within [MAX_SAFE_INTEGER]; sums,
    differences and products of such integers that stay within it are computed
    without rounding, so that on them the arithmetic of the program is the
    arithmetic of the integers. *)
Definition MAX_SAFE_INTEGER : Z := 2 ^ 53 - 1.

(** X6. Between one level and the next lies exactly the level spacing, for a
    level height and a level spacing that are integers (as the 40 and 32 of the
    default layout), not negative, with the bottom of the lower level's row
    within the safe integers: for levels laid out by [computeLevelLayout] at
    consecutive indices [i] and [i + 1], the upper level is at [i * (h + s)],
    the lower one at [(i + 1) * (h + s)], and the funnel from a segment of the
    upper level spans from the segment's edges at the bottom of the upper level
    to the full container width at the top of the lower one; its height is
    [LEVEL_SPACING]; there is no funnel when the spacing is zero. *)
Theorem consecutive_levels_are_a_spacing_apart (config : Layout) (h s : Z)
    (n1 n2 : string) (p1 p2 : option string) (segs1 segs2 : list Segment) (i : nat)
    (containerWidth : jsnum) (parent : SegmentLayout) :
  LEVEL_HEIGHT config = Fin (inject_Z h) ->
  LEVEL_SPACING config = Fin (inject_Z s) ->
  (0 <= h)%Z -> (0 <= s)%Z ->
  (Z.of_nat (S i) * (h + s) <= MAX_SAFE_INTEGER)%Z ->
  let upper := computeLevelLayout Math_log10 Math_pow n1 p1 segs1 i containerWidth config in
  let lower := computeLevelLayout Math_log10 Math_pow n2 p2 segs2 (S i) containerWidth config in
  let funnel := calculateConnectionGeometry parent upper lower containerWidth in
  feq (level_y upper) (Fin (inject_Z (Z.of_nat i * (h + s)))) /\
  feq (level_y lower) (Fin (inject_Z (Z.of_nat (S i) * (h + s)))) /\
  (s = 0%Z -> funnel = None) /\
  (0 < s ->
   exists g, funnel = Some g /\
     feq (connection_height g) (Fin (inject_Z s)) /\
     parentLeft g = x parent /\
     parentRight g = fadd (x parent) (width parent) /\
     parentY g = fadd (level_y upper) (level_height upper) /\
     childLeft g = Fin 0 /\
     childRight g = containerWidth /\
     childY g = level_y lower)%Z.
Proof.
  intros Hh Hs Hh0 Hs0 Hsafe upper lower funnel.
  destruct (level_y_Fin n1 p1 segs1 i containerWidth config _ _ Hh Hs) as [Hy1 Hh1].
  destruct (level_y_Fin n2 p2 segs2 (S i) containerWidth config _ _ Hh Hs) as [Hy2 _].
  fold upper in Hy1, Hh1. fold lower in Hy2.
  unfold funnel, calculateConnectionGeometry. rewrite Hy1, Hh1, Hy2. simpl fsub.
  rewrite fle_Fin.
  assert (Hgap : inject_Z (Z.of_nat (S i)) * (inject_Z h + inject_Z s) +
                 - (inject_Z (Z.of_nat i) * (inject_Z h + inject_Z s) + inject_Z h) ==
                 inject_Z s).
  { rewrite Nat2Z.inj_succ. unfold Z.succ. rewrite inject_Z_plus. ring. }
  split; [|split; [|split]].
  - simpl. rewrite inject_Z_mult, inject_Z_plus. reflexivity.
  - simpl. rewrite inject_Z_mult, inject_Z_plus. reflexivity.
  - intros ->. rewrite (proj2 (Qle_bool_iff _ _)); [reflexivity|]. rewrite Hgap.
    apply Qle_refl.
  - intros Hlt.
    rewrite (proj2 (Qle_bool_false _ _))
      by (rewrite Hgap; change 0 with (inject_Z 0); rewrite <- Zlt_Qlt; exact Hlt).
    eexists. split; [reflexivity|]. simpl. repeat split. exact Hgap.
Qed.

(** X7. For a level height, a level spacing and a top margin that are integers,
    not negative, with the canvas height within the safe integers: the canvas
    height for [count + 1] levels is [(count + 1) * (h + s) + 2 * t], which is
    the bottom edge of the last level, plus one level spacing, plus twice the
    top margin; with no level it is one level height plus twice the top
    margin. *)
Theorem canvas_height_reaches_below_the_last_level (config : Layout) (h s t : Z)
    (n : string) (p : option string) (segs : list Segment) (count : nat)
    (containerWidth : jsnum) :
  LEVEL_HEIGHT config = Fin (inject_Z h) ->
  LEVEL_SPACING config = Fin (inject_Z s) ->
  TOP_MARGIN config = Fin (inject_Z t) ->
  (0 <= h)%Z -> (0 <= s)%Z -> (0 <= t)%Z ->
  (Z.of_nat (S count) * (h + s) + 2 * t <= MAX_SAFE_INTEGER)%Z ->
  let last := computeLevelLayout Math_log10 Math_pow n p segs count containerWidth config in
  feq (calculateCanvasHeight (S count) config)
      (Fin (inject_Z (Z.of_nat (S count) * (h + s) + 2 * t))) /\
  feq (calculateCanvasHeight (S count) config)
      (fadd (fadd (fadd (level_y last) (level_height last)) (Fin (inject_Z s)))
            (Fin (inject_Z (2 * t)))) /\
  feq (calculateCanvasHeight 0 config) (Fin (inject_Z (h + 2 * t))).
Proof.
  intros Hh Hs Ht Hh0 Hs0 Ht0 Hsafe last.
  destruct (level_y_Fin n p segs count containerWidth config _ _ Hh Hs) as [Hy1 Hh1].
  fold last in Hy1, Hh1. rewrite Hy1, Hh1.
  unfold calculateCanvasHeight. rewrite Hh, Hs, Ht. simpl.
  rewrite !inject_Z_plus, !inject_Z_mult, !inject_Z_plus.
  rewrite Nat2Z.inj_succ. unfold Z.succ. rewrite inject_Z_plus.
  split; [|split]; ring.
Qed.

End Levels.

(** *** Hit testing *)

Section HitTest.

Lemma find_first {A} (f : A -> bool) (l : list A) :
  match List.find f l with
  | Some a =>
      exists k, l !! k = Some a /\ f a = true /\
                forall j b, (j < k)%nat -> l !! j = Some b -> f b = false
  | None => forall b, b ∈ l -> f b = false
  end.
Proof.
  induction l as [|a l IH]; simpl.
  - intros b Hb. inversion Hb.
  - destruct (f a) eqn:Ha.
    + exists 0%nat. split; [reflexivity|]. split; [exact Ha|]. intros j b Hj. lia.
    + destruct (List.find f l) as [a'|].
      * destruct IH as (k & Hk & Hfa & Hbefore). exists (S k).
        split; [exact Hk|]. split; [exact Hfa|].
        intros [|j] b Hj Hb; simpl in Hb; [congruence|]. apply (Hbefore j b); [lia | exact Hb].
      * intros b Hb. apply elem_of_cons in Hb as [->|Hb]; [exact Ha | exact (IH b Hb)].
Qed.

(** A hit of the loop from [i0] on: the level and the segment it names, the
    test they pass, and the segments tested before them, which all fail. *)
Definition first_hit (px py tolerance : jsnum) (i0 : nat) (levelLayouts : list LevelLayout)
    (hit : Hit) : Prop :=
  (i0 <= hit_levelIndex hit)%nat /\
  levelLayouts !! (hit_levelIndex hit - i0)%nat = Some (hit_level hit) /\
  (exists segments k,
     level_segments (hit_level hit) = Some segments /\
     segments !! k = Some (hit_segmentLayout hit) /\
     forall j sl, (j < k)%nat -> segments !! j = Some sl ->
                  hits px py tolerance (hit_level hit) sl = false) /\
  hits px py tolerance (hit_level hit) (hit_segmentLayout hit) = true /\
  (forall i level segments sl,
     (i < hit_levelIndex hit - i0)%nat -> levelLayouts !! i = Some level ->
     level_segments level = Some segments -> sl ∈ segments ->
     hits px py tolerance level sl = false) /\
  hit_segment hit = segment (hit_segmentLayout hit) /\
  localX hit = fsub px (x (hit_segmentLayout hit)) /\
  localY hit = fsub py (fadd (level_y (hit_level hit)) (y (hit_segmentLayout hit))).

Definition no_hit (px py tolerance : jsnum) (levelLayouts : list LevelLayout) : Prop :=
  forall level segments sl,
    level ∈ levelLayouts -> level_segments level = Some segments -> sl ∈ segments ->
    hits px py tolerance level sl = false.

Lemma hitTest_from_first (px py tolerance : jsnum) (levelLayouts : list LevelLayout)
    (i0 : nat) :
  match hitTest_from px py tolerance i0 levelLayouts with
  | Some hit => first_hit px py tolerance i0 levelLayouts hit
  | None => no_hit px py tolerance levelLayouts
  end.
Proof.
  revert i0. induction levelLayouts as [|level rest IH]; intros i0; simpl.
  - intros level segments sl H. inversion H.
  - assert (Hskip :
      (forall segments sl, level_segments level = Some segments -> sl ∈ segments ->
                           hits px py tolerance level sl = false) ->
      match hitTest_from px py tolerance (S i0) rest with
      | Some hit => first_hit px py tolerance i0 (level :: rest) hit
      | None => no_hit px py tolerance (level :: rest)
      end).
    { intros Hnone. specialize (IH (S i0)).
      destruct (hitTest_from px py tolerance (S i0) rest) as [hit|].
      - destruct IH as (Hle & Hlevel & Hseg & Hhit & Hbefore & Hrest).
        assert (Hidx : (hit_levelIndex hit - i0 = S (hit_levelIndex hit - S i0))%nat) by lia.
        split; [lia|]. rewrite Hidx. split; [exact Hlevel|]. split; [exact Hseg|].
        split; [exact Hhit|]. split; [|exact Hrest].
        intros [|i] level' segments sl Hi Hl Hs Hin; simpl in Hl.
        + injection Hl as <-. exact (Hnone segments sl Hs Hin).
        + apply (Hbefore i level' segments sl); [lia | assumption..].
      - intros level' segments sl Hl Hs Hin.
        apply elem_of_cons in Hl as [->|Hl]; [exact (Hnone segments sl Hs Hin)|].
        exact (IH level' segments sl Hl Hs Hin). }
    destruct (level_segments level) as [segments|] eqn:Hsegs.
    + pose proof (find_first (hits px py tolerance level) segments) as Hfind.
      destruct (List.find (hits px py tolerance level) segments) as [sl|].
      * destruct Hfind as (k & Hk & Hhit & Hbefore). unfold first_hit. simpl.
        rewrite Nat.sub_diag. simpl.
        split; [lia|]. split; [reflexivity|]. split; [exists segments, k; auto|].
        split; [exact Hhit|]. split; [intros i; lia|]. auto.
      * apply Hskip. intros segments' sl [= <-] Hin. exact (Hfind sl Hin).
    + apply Hskip. intros segments sl H. discriminate.
Qed.

(** X8. [hitTest] returns the first segment, in the order of the levels and of the
    segments of each level, whose rectangle widened by the tolerance holds the
    point; it returns [null] exactly when no segment of any level does. The
    hit carries the index of the level and the point's offset from the
    segment's corner. *)
Theorem hitTest_returns_the_first_segment_hit (px py : jsnum)
    (levelLayouts : list LevelLayout) (HIT_TEST_TOLERANCE : jsnum) :
  let tolerance := f_or HIT_TEST_TOLERANCE (Fin 0) in
  match hitTest px py levelLayouts HIT_TEST_TOLERANCE with
  | Some hit => first_hit px py tolerance 0 levelLayouts hit
  | None => no_hit px py tolerance levelLayouts
  end.
Proof. intros tolerance. apply hitTest_from_first. Qed.

End HitTest.

(** *** The validated configuration *)

Section ValidateConfig.

Local Open Scope Q_scope.

(** What [validateConfig] establishes. *)
Definition validated (c : Layout) : Prop :=
  fle (LEVEL_HEIGHT c) (Fin 0) = false /\
  fle (LEVEL_SPACING c) (Fin 0) = false /\
  fle (TOP_MARGIN c) (Fin 0) = false /\
  fle (SEGMENT_MARGIN c) (Fin 0) = false /\
  fle (MIN_SEGMENT_WIDTH c) (Fin 0) = false /\
  fle (MAX_MIN_SEGMENT_WIDTH c) (Fin 0) = false /\
  fle (STARTING_BASELINE c) (Fin 0) = false /\
  fgt (MIN_SEGMENT_WIDTH c) (MAX_MIN_SEGMENT_WIDTH c) = false /\
  fle (LOG_SCALE_FACTOR c) (Fin 0) = false /\
  fgt (LOG_SCALE_FACTOR c) (Fin 10) = false.

Lemma positive_or_positive (v d : jsnum) :
  fle d (Fin 0) = false -> fle (positive_or v d) (Fin 0) = false.
Proof. intros Hd. unfold positive_or. destruct (fle v (Fin 0)) eqn:E; assumption. Qed.

Lemma doubled_positive (m mx : jsnum) :
  fle m (Fin 0) = false -> fgt m mx = true ->
  fle (fmul m (Fin 2)) (Fin 0) = false /\ fgt m (fmul m (Fin 2)) = false.
Proof.
  unfold fgt. destruct m as [q| | |]; intros H0 Hgt.
  - rewrite fle_Fin in H0. apply Qle_bool_false in H0. simpl fmul. rewrite fle_Fin. split.
    + apply Qle_bool_false. lra.
    + simpl. apply negb_false_iff, Qle_bool_iff. lra.
  - split; reflexivity.
  - discriminate.
  - destruct mx; discriminate.
Qed.

Lemma validateConfig_validated (config : Layout) : validated (validateConfig config).
Proof.
  unfold validated, validateConfig. cbn [LEVEL_HEIGHT LEVEL_SPACING TOP_MARGIN SEGMENT_MARGIN
    MIN_SEGMENT_WIDTH MAX_MIN_SEGMENT_WIDTH LOG_SCALE_FACTOR STARTING_BASELINE LAYOUT].
  pose proof (positive_or_positive (MIN_SEGMENT_WIDTH config) (Fin 3) eq_refl) as Hmin.
  pose proof (positive_or_positive (MAX_MIN_SEGMENT_WIDTH config) (Fin 25) eq_refl) as Hmax.
  repeat split; try (apply positive_or_positive; reflexivity).
  - destruct (fgt (positive_or (MIN_SEGMENT_WIDTH config) (Fin 3))
                  (positive_or (MAX_MIN_SEGMENT_WIDTH config) (Fin 25))) eqn:E.
    + exact (proj1 (doubled_positive _ _ Hmin E)).
    + exact Hmax.
  - destruct (fgt (positive_or (MIN_SEGMENT_WIDTH config) (Fin 3))
                  (positive_or (MAX_MIN_SEGMENT_WIDTH config) (Fin 25))) eqn:E.
    + exact (proj2 (doubled_positive _ _ Hmin E)).
    + exact E.
  - destruct (fle (LOG_SCALE_FACTOR config) (Fin 0)) eqn:E1; [reflexivity|].
    destruct (fgt (LOG_SCALE_FACTOR config) (Fin 10)) eqn:E2; [reflexivity | exact E1].
  - destruct (fle (LOG_SCALE_FACTOR config) (Fin 0)) eqn:E1; [reflexivity|].
    destruct (fgt (LOG_SCALE_FACTOR config) (Fin 10)) eqn:E2; [reflexivity | exact E2].
Qed.

Lemma validateConfig_fixes (c : Layout) : validated c -> validateConfig c = c.
Proof.
  intros (H1 & H2 & H3 & H4 & H5 & H6 & H7 & H8 & H9 & H10).
  unfold validateConfig, positive_or. cbn [LEVEL_HEIGHT LEVEL_SPACING TOP_MARGIN
    SEGMENT_MARGIN MIN_SEGMENT_WIDTH MAX_MIN_SEGMENT_WIDTH LOG_SCALE_FACTOR STARTING_BASELINE].
  rewrite H1, H2, H3, H4, H5, H6, H7, H8, H9, H10. destruct c; reflexivity.
Qed.

(** X9. [validateConfig] returns a configuration in which no dimension is at or
    below zero, the minimum segment width does not exceed the greatest floor,
    and the scale factor is neither at or below 0 nor above 10 (an absent
    property, which compares as NaN, passes each of these tests); a
    configuration that meets these conditions is returned as it is, so that
    validating twice is validating once. *)
Theorem validateConfig_is_a_projection (config : Layout) :
  validated (validateConfig config) /\
  validateConfig (validateConfig config) = validateConfig config /\
  (validated config -> validateConfig config = config).
Proof.
  split; [apply validateConfig_validated|].
  split; [apply validateConfig_fixes, validateConfig_validated | apply validateConfig_fixes].
Qed.

End ValidateConfig.

(** ** Copies of a segment *)

Import ParquetSegmentCopy.

Section Copies.

(** X10. A segment the constructor returned keeps its offsets in order: with integer
    offsets, [0 <= start <= end], so that [size] is [end - start] and is never
    the clamped zero of a reversed range. *)
Theorem constructed_segments_are_in_order (config : ParquetSegment.Config) (seg : Segment)
    (a b : Z) :
  ParquetSegment.new config = Ok seg ->
  ParquetSegment.start seg = Int a ->
  ParquetSegment.end_ seg = Int b ->
  0 <= a <= b /\ ParquetSegment.size seg = Int (b - a).
Proof.
  intros H Ha Hb. apply new_Ok in H.
  destruct H as (_ & _ & _ & _ & _ & _ & _ & _ & _ & _ & _ & H0 & H1).
  rewrite Ha in H0, H1. rewrite Hb in H1. simpl in H0, H1. apply Z.ltb_ge in H0, H1.
  split; [lia|]. unfold ParquetSegment.size. rewrite Ha, Hb. simpl. f_equal. lia.
Qed.

(** X11. A constructed segment survives its copies: [fromJSON] on the object its
    [toJSON()] returns, and [clone()] without updates, both return the segment
    itself; neither can throw. *)
Theorem constructed_segments_survive_the_round_trip (config : ParquetSegment.Config)
    (seg : Segment) :
  ParquetSegment.new config = Ok seg ->
  fromJSON (toJSON seg) = Ok seg /\ clone seg no_updates = Ok seg.
Proof.
  intros H. apply new_Ok in H.
  destruct H as (_ & _ & _ & _ & _ & _ & _ & _ & _ & _ & _ & H0 & H1).
  assert (Hjson : ParquetSegment.new (toJSON seg) = Ok seg).
  { apply new_Ok. simpl. repeat split; assumption. }
  split; exact Hjson.
Qed.

End Copies.

Lemma footer_segment_in_order :
  0 <= 992 <= 996 /\
  ParquetSegment.size
    {| ParquetSegment.id := "footer"; ParquetSegment.name := "FOOTER";
       ParquetSegment.start := Int 992; ParquetSegment.end_ := Int 996;
       ParquetSegment.metadata := None; ParquetSegment.rowGroupIndex := None;
       ParquetSegment.chunkIndex := None; ParquetSegment.pageIndex := None;
       ParquetSegment.columnPath := None; ParquetSegment.physicalMetadata := None;
       ParquetSegment.logicalMetadata := None |} = Int (996 - 992).
Proof.
  exact (constructed_segments_are_in_order
           (ParquetSegment.plain "footer" "FOOTER" (Int 992) (Int 996)) _ 992 996
           eq_refl eq_refl eq_refl).
Defined.

(** ** findSegment *)

Section FindSegment.

(** X12. [findSegment] returns the first segment with the id, in the order overview,
    metadata structure, schema elements, row-group elements, index elements,
    key-value elements, row groups, column chunks, pages (the buckets of a
    level in the order of their keys), and [null] exactly when none of these
    levels holds the id. *)
Theorem findSegment_returns_the_first_match (cache : HierarchyCache) (segmentId : string) :
  match findSegment cache segmentId with
  | Some found =>
      ParquetSegment.id found = segmentId /\
      exists k, scanned cache !! k = Some found /\
                forall j seg, (j < k)%nat -> scanned cache !! j = Some seg ->
                              ParquetSegment.id seg <> segmentId
  | None => forall seg, seg ∈ scanned cache -> ParquetSegment.id seg <> segmentId
  end.
Proof.
  rewrite findSegment_scans. unfold find_id.
  pose proof (find_first (fun seg => String.eqb (ParquetSegment.id seg) segmentId)
                         (scanned cache)) as H.
  destruct (List.find _ (scanned cache)) as [found|].
  - destruct H as (k & Hk & Hid & Hbefore). apply String.eqb_eq in Hid.
    split; [exact Hid|]. exists k. split; [exact Hk|].
    intros j seg Hj Hseg. apply String.eqb_neq. exact (Hbefore j seg Hj Hseg).
  - intros seg Hseg. apply String.eqb_neq. exact (H seg Hseg).
Qed.

End FindSegment.

(** ** Levels in file order *)

Section FileOrder.

(** The segments have integer starts that do not decrease. *)
Definition starts_before (a b : Segment) : Prop :=
  exists x y, ParquetSegment.start a = Int x /\ ParquetSegment.start b = Int y /\ x <= y.

Definition in_file_order (segs : list Segment) : Prop := StronglySorted starts_before segs.

Definition integer_start (seg : Segment) : Prop := exists x, ParquetSegment.start seg = Int x.

Lemma insert_by_start_sorted (a : Segment) (l : list Segment) :
  integer_start a -> Forall integer_start l -> in_file_order l ->
  in_file_order (insert_by_start a l).
Proof.
  intros [x Hx] Hall Hsorted. induction Hsorted as [|b l Hl IH Hb]; simpl.
  - repeat constructor.
  - apply Forall_cons in Hall as [[y Hy] Hall].
    rewrite Hx, Hy. simpl. destruct (Z.ltb_spec y x) as [Hlt|Hge].
    + constructor; [exact (IH Hall)|].
      apply (Forall_impl (fun c => c = a \/ c ∈ l)).
      * apply Forall_forall. intros c Hc.
        rewrite (insert_by_start_perm a l) in Hc.
        apply elem_of_cons in Hc. exact Hc.
      * intros c [->|Hc].
        -- exists y, x. split; [exact Hy|]. split; [exact Hx | lia].
        -- rewrite Forall_forall in Hb. exact (Hb c Hc).
    + constructor; [constructor; assumption|].
      constructor.
      * exists x, y. auto.
      * apply (Forall_impl _ _ _ Hb). intros c (y' & z & Hy' & Hz & Hle).
        exists x, z. split; [exact Hx|]. split; [exact Hz|]. rewrite Hy in Hy'.
        injection Hy' as <-. lia.
Qed.

Lemma sort_by_start_sorted (l : list Segment) :
  Forall integer_start l -> in_file_order (sort_by_start l).
Proof.
  induction l as [|a l IH]; intros Hall; simpl; [constructor|].
  apply Forall_cons in Hall as [Ha Hall].
  apply insert_by_start_sorted; [exact Ha | | exact (IH Hall)].
  apply Forall_forall. intros c Hc. rewrite sort_by_start_perm in Hc.
  rewrite Forall_forall in Hall. exact (Hall c Hc).
Qed.

(** What a loop pushes, round by round. *)
Lemma forEachi_Forall {A B} (P : B -> Prop) (f : nat -> A -> result (list B)) (xs : list A)
    (i0 : nat) (ys : list B) :
  (forall i x zs, f i x = Ok zs -> Forall P zs) ->
  forEachi f i0 xs = Ok ys -> Forall P ys.
Proof.
  intros Hf H. apply Forall_forall. intros y Hy.
  destruct (forEachi_elem f xs i0 ys y H Hy) as (k & x & zs & _ & Hfx & Hin).
  pose proof (Hf _ _ _ Hfx) as Hzs. rewrite Forall_forall in Hzs. exact (Hzs y Hin).
Qed.

Lemma new_integer_start (config : ParquetSegment.Config) (seg : Segment) (s : Z) :
  ParquetSegment.c_start config = Some (Int s) ->
  ParquetSegment.new config = Ok seg -> integer_start seg.
Proof.
  intros Hs H. apply new_Ok in H. destruct H as (_ & _ & Hstart & _).
  exists s. congruence.
Qed.

Lemma pushed_integer_start (config : ParquetSegment.Config) (s : Z) (zs : list Segment) :
  ParquetSegment.c_start config = Some (Int s) ->
  (seg ← ParquetSegment.new config; mret [seg]) = Ok zs -> Forall integer_start zs.
Proof.
  intros Hs H. destruct (ParquetSegment.new config) as [seg|] eqn:E; [|discriminate].
  injection H as <-. repeat constructor. exact (new_integer_start config seg s Hs E).
Qed.

(** *** Contiguous runs of segments *)

Lemma tiles_app (a b c : Z) (l1 l2 : list Segment) :
  tiles a b l1 -> tiles b c l2 -> tiles a c (l1 ++ l2).
Proof.
  revert a. induction l1 as [|s l1 IH]; intros a; simpl.
  - intros ->. auto.
  - intros (Hs & mid & He & Hle & Hrest) H2. split; [exact Hs|].
    exists mid. split; [exact He|]. split; [exact Hle|]. exact (IH mid Hrest H2).
Qed.

Lemma tiles_starts (lo hi : Z) (l : list Segment) :
  tiles lo hi l ->
  Forall (fun s => exists x, ParquetSegment.start s = Int x /\ lo <= x) l.
Proof.
  revert lo. induction l as [|s l IH]; intros lo; simpl; [constructor|].
  intros (Hs & mid & _ & Hle & Hrest). constructor.
  - exists lo. split; [exact Hs | lia].
  - apply (Forall_impl _ _ _ (IH mid Hrest)). intros c (x & Hx & Hmid). exists x. split; [exact Hx | lia].
Qed.

Lemma tiles_integer_starts (lo hi : Z) (l : list Segment) :
  tiles lo hi l -> Forall integer_start l.
Proof.
  intros H. apply (Forall_impl _ _ _ (tiles_starts lo hi l H)).
  intros c (x & Hx & _). exists x. exact Hx.
Qed.

(** Sorting by start leaves a contiguous run as it is. *)
Lemma tiles_sort_by_start (lo hi : Z) (l : list Segment) :
  tiles lo hi l -> sort_by_start l = l.
Proof.
  revert lo. induction l as [|s l IH]; intros lo; simpl; [reflexivity|].
  intros (Hs & mid & _ & Hle & Hrest). rewrite (IH mid Hrest).
  destruct l as [|s' l]; [reflexivity|]. simpl.
  destruct Hrest as (Hs' & _). rewrite Hs, Hs'. simpl.
  destruct (Z.ltb_spec mid lo); [lia | reflexivity].
Qed.

Lemma foldl_add_shift (a : Z) (l : list Z) : foldl Z.add a l = a + foldl Z.add 0 l.
Proof.
  revert a. induction l as [|y l IH]; intros a; simpl; [lia|].
  rewrite (IH (a + y)), (IH (0 + y)). lia.
Qed.

Lemma sumZ_cons (x : Z) (l : list Z) : sumZ (x :: l) = x + sumZ l.
Proof. unfold sumZ. simpl. apply foldl_add_shift. Qed.

(** One segment over [[s, e)], when the constructor returns it. *)
Lemma new_tile (config : ParquetSegment.Config) (s e : Z) (seg : Segment) :
  ParquetSegment.c_start config = Some (Int s) ->
  ParquetSegment.c_end config = Some (Int e) ->
  ParquetSegment.new config = Ok seg ->
  0 <= s /\ tiles s e [seg].
Proof.
  intros Hs He H. apply new_Ok in H.
  destruct H as (_ & _ & Hstart & Hend & _ & _ & _ & _ & _ & _ & _ & H0 & H1).
  rewrite Hs in Hstart. rewrite He in Hend. injection Hstart as Hstart. injection Hend as Hend.
  rewrite <- Hstart in H0, H1. rewrite <- Hend in H1. simpl in H0, H1.
  apply Z.ltb_ge in H0, H1. split; [exact H0|]. simpl. split; [auto|].
  exists e. auto.
Qed.

End FileOrder.

(** ** The metadata structure *)

Section MetadataStructure.

(** The sizes [buildMetadataStructureSegments] gives its four blocks. *)
Definition row_groups_size (rgs : list RowGroup) : Z :=
  sumZ (map (fun rg => or_else (rg_byte_length rg) 200) rgs).

Definition key_values_size (kvs : list KeyValue) : Z :=
  sumZ (map (fun entry => or_else (kv_byte_length entry) 0) kvs).

(** A block of the metadata structure: no segment, or the one segment [i] over
    [[lo, hi)]. *)
Definition block (i : string) (lo hi : Z) (segs : list Segment) : Prop :=
  tiles lo hi segs /\ Forall (fun s => ParquetSegment.id s = i) segs /\
  (length segs <= 1)%nat.

Lemma block_nil (i : string) (lo : Z) : block i lo lo [].
Proof. split; [reflexivity|]. split; [constructor | simpl; lia]. Qed.

Lemma block_one (i n : string) (s e : Z) (m : ParquetSegment.SegmentMetadata) (seg : Segment) :
  ParquetSegment.new (withMetadata i n s e m) = Ok seg -> 0 <= s /\ block i s e [seg].
Proof.
  intros H. destruct (new_tile (withMetadata i n s e m) s e seg eq_refl eq_refl H) as [H0 Ht].
  split; [exact H0|]. split; [exact Ht|]. split; [|simpl; lia].
  apply new_Ok in H. destruct H as (Hid & _). injection Hid as Hid.
  repeat constructor. symmetry. exact Hid.
Qed.

(** The four blocks of the metadata structure, each starting where the one
    before it ends. *)
Lemma metadata_structure_blocks (fd : FileData) (m : FileMetadata) (ms : list Segment) :
  inner_metadata fd = Some m ->
  buildMetadataStructureSegments fd = Ok ms ->
  let base := or_else (md ← metadata fd; md_start_offset md) 0 in
  let s0 := match schema_root m with
            | Some root => or_else (se_start_offset root) base
            | None => base
            end in
  let o1 := match schema_root m with
            | Some root => s0 + _calculateSchemaLength root
            | None => s0
            end in
  let o2 := match row_groups m with
            | Some (rg :: rgs) => o1 + row_groups_size (rg :: rgs)
            | _ => o1
            end in
  let o3 := match _extractColumnIndicesInfo fd with
            | _ :: _ => o2 + sumZ (map size (_extractColumnIndicesInfo fd))
            | [] => o2
            end in
  let o4 := match key_value_metadata m with
            | Some (kv :: kvs) => o3 + key_values_size (kv :: kvs)
            | _ => o3
            end in
  exists schema rgm idx kvs,
    ms = sort_by_start (schema ++ rgm ++ idx ++ kvs) /\
    block "schema_root" s0 o1 schema /\
    block "row_groups_metadata" o1 o2 rgm /\
    block "column_indices" o2 o3 idx /\
    block "key_value_metadata" o3 o4 kvs.
Proof.
  intros Hm H base s0 o1 o2 o3 o4.
  unfold buildMetadataStructureSegments in H. rewrite Hm in H. fold base in H.
  assert (H1 : exists schema,
            block "schema_root" s0 o1 schema /\
            match schema_root m with
            | Some root =>
                seg ← ParquetSegment.new
                        (withMetadata "schema_root" "SCHEMA" (or_else (se_start_offset root) base)
                           (or_else (se_start_offset root) base + _calculateSchemaLength root)
                           (ParquetSegment.MetaSchemaElement root));
                mret ([seg], or_else (se_start_offset root) base + _calculateSchemaLength root)
            | None => mret ([], base)
            end = Ok (schema, o1)).
  { unfold o1, s0. destruct (schema_root m) as [root|].
    - destruct (ParquetSegment.new _) as [seg|] eqn:E; [|discriminate].
      exists [seg]. split; [exact (proj2 (block_one _ _ _ _ _ _ E)) | reflexivity].
    - exists []. split; [apply block_nil | reflexivity]. }
  destruct H1 as (schema & Hschema & E1). rewrite E1 in H. clear E1.
  cbn [mbind result_bind] in H.
  assert (H2 : exists rgm,
            block "row_groups_metadata" o1 o2 rgm /\
            match row_groups m with
            | Some (rg :: rgs) =>
                seg ← ParquetSegment.new
                        (withMetadata "row_groups_metadata" "ROW GROUP METADATA" o1
                           (o1 + sumZ (map (fun rg => or_else (rg_byte_length rg) 200) (rg :: rgs)))
                           (ParquetSegment.MetaRowGroupsBlock (rg :: rgs)));
                mret ([seg],
                      o1 + sumZ (map (fun rg => or_else (rg_byte_length rg) 200) (rg :: rgs)))
            | _ => mret ([], o1)
            end = Ok (rgm, o2)).
  { unfold o2. destruct (row_groups m) as [[|rg rgs]|].
    - exists []. split; [apply block_nil | reflexivity].
    - destruct (ParquetSegment.new _) as [seg|] eqn:E; [|discriminate].
      exists [seg]. split; [exact (proj2 (block_one _ _ _ _ _ _ E)) | reflexivity].
    - exists []. split; [apply block_nil | reflexivity]. }
  destruct H2 as (rgm & Hrgm & E2). rewrite E2 in H. clear E2.
  cbn [mbind result_bind] in H.
  assert (H3 : exists idx,
            block "column_indices" o2 o3 idx /\
            match _extractColumnIndicesInfo fd with
            | _ :: _ =>
                seg ← ParquetSegment.new
                        (withMetadata "column_indices" "INDICES" o2
                           (o2 + sumZ (map size (_extractColumnIndicesInfo fd)))
                           (ParquetSegment.MetaIndicesBlock
                              (length (_extractColumnIndicesInfo fd))
                              (sumZ (map size (_extractColumnIndicesInfo fd)))));
                mret ([seg], o2 + sumZ (map size (_extractColumnIndicesInfo fd)))
            | [] => mret ([], o2)
            end = Ok (idx, o3)).
  { unfold o3. destruct (_extractColumnIndicesInfo fd) as [|info infos].
    - exists []. split; [apply block_nil | reflexivity].
    - destruct (ParquetSegment.new _) as [seg|] eqn:E; [|discriminate].
      exists [seg]. split; [exact (proj2 (block_one _ _ _ _ _ _ E)) | reflexivity]. }
  destruct H3 as (idx & Hidx & E3). rewrite E3 in H. clear E3.
  cbn [mbind result_bind] in H.
  assert (H4 : exists kvs,
            block "key_value_metadata" o3 o4 kvs /\
            match key_value_metadata m with
            | Some (kv :: kvs) =>
                seg ← ParquetSegment.new
                        (withMetadata "key_value_metadata" "KEY-VALUE METADATA" o3
                           (o3 + sumZ (map (fun entry => or_else (kv_byte_length entry) 0)
                                           (kv :: kvs)))
                           (ParquetSegment.MetaKeyValueBlock (kv :: kvs)));
                mret [seg]
            | _ => mret []
            end = Ok kvs).
  { unfold o4. destruct (key_value_metadata m) as [[|kv kvs]|].
    - exists []. split; [apply block_nil | reflexivity].
    - destruct (ParquetSegment.new _) as [seg|] eqn:E; [|discriminate].
      exists [seg]. split; [exact (proj2 (block_one _ _ _ _ _ _ E)) | reflexivity].
    - exists []. split; [apply block_nil | reflexivity]. }
  destruct H4 as (kvs & Hkvs & E4). rewrite E4 in H. clear E4.
  cbn [mbind result_bind mret result_ret] in H. injection H as <-.
  exists schema, rgm, idx, kvs. auto.
Qed.

(** Where the metadata structure starts: at the schema's own [start_offset] when
    it has one, at the metadata's otherwise. *)
Definition metadata_structure_start (fd : FileData) (m : FileMetadata) : Z :=
  let base := or_else (md ← metadata fd; md_start_offset md) 0 in
  match schema_root m with
  | Some root => or_else (se_start_offset root) base
  | None => base
  end.

Lemma block_ids (i : string) (lo hi : Z) (segs : list Segment) :
  block i lo hi segs -> map ParquetSegment.id segs = [] \/ map ParquetSegment.id segs = [i].
Proof.
  intros (_ & Hid & Hlen). destruct segs as [|s [|s' segs]]; simpl in *; [auto | | lia].
  apply Forall_cons in Hid as [-> _]. auto.
Qed.

(** X13. The metadata structure has no gap and no overlap: its segments, in the
    order schema, row-group metadata, column indices, key-value metadata (those
    that are present), each start where the one before ends, from the schema's
    start offset (the metadata's, when the schema has none or is absent). *)
Theorem metadata_structure_is_contiguous (fd : FileData) (m : FileMetadata)
    (ms : list Segment) :
  inner_metadata fd = Some m ->
  buildMetadataStructureSegments fd = Ok ms ->
  exists hi,
    tiles (metadata_structure_start fd m) hi ms /\
    map ParquetSegment.id ms `sublist_of`
      ["schema_root"; "row_groups_metadata"; "column_indices"; "key_value_metadata"].
Proof.
  intros Hm H.
  destruct (metadata_structure_blocks fd m ms Hm H)
    as (schema & rgm & idx & kvs & -> & B1 & B2 & B3 & B4).
  pose proof (tiles_app _ _ _ _ _ (proj1 B1)
                (tiles_app _ _ _ _ _ (proj1 B2)
                   (tiles_app _ _ _ _ _ (proj1 B3) (proj1 B4)))) as Ht.
  rewrite (tiles_sort_by_start _ _ _ Ht). eexists. split; [exact Ht|].
  rewrite !map_app.
  destruct (block_ids _ _ _ _ B1) as [-> | ->], (block_ids _ _ _ _ B2) as [-> | ->],
    (block_ids _ _ _ _ B3) as [-> | ->], (block_ids _ _ _ _ B4) as [-> | ->];
    simpl; repeat first [apply sublist_nil | apply sublist_skip | apply sublist_cons].
Qed.

(** X14. The levels that are sorted come out in file order: the column chunks of a
    row group, the schema elements of a group, the index and key-value
    elements, and the metadata structure are returned by non-decreasing start
    offset. *)
Theorem sorted_levels_are_in_file_order :
  (forall fd i bucket, buildColumnChunkSegments fd i = Ok bucket -> in_file_order bucket) /\
  (forall group parentId segs,
     buildSchemaElementSegments group parentId = Ok segs -> in_file_order segs) /\
  (forall fd cache parentId segs,
     buildColumnIndexSegments fd = Ok cache -> obj_get cache parentId = Some segs ->
     in_file_order segs) /\
  (forall fd cache parentId segs,
     buildKeyValueMetadataSegments fd = Ok cache -> obj_get cache parentId = Some segs ->
     in_file_order segs) /\
  (forall fd segs, buildMetadataStructureSegments fd = Ok segs -> in_file_order segs).
Proof.
  split; [|split; [|split; [|split]]].
  - intros fd i bucket H. unfold buildColumnChunkSegments in H.
    destruct (forEachi _ 0 _) as [segs|] eqn:Hsegs; [|discriminate].
    injection H as <-. apply sort_by_start_sorted.
    apply (forEachi_Forall _ _ _ _ _) with (2 := Hsegs).
    intros c chunk zs Hzs. eapply pushed_integer_start; cycle 1; [exact Hzs | reflexivity].
  - intros group parentId segs H. unfold buildSchemaElementSegments in H.
    destruct (children group) as [cs|]; [|injection H as <-; constructor].
    destruct (forEachi _ 0 cs) as [segs'|] eqn:Hsegs; [|discriminate].
    injection H as <-. apply sort_by_start_sorted.
    apply (forEachi_Forall _ _ _ _ _) with (2 := Hsegs).
    intros c [name child] zs Hzs. eapply pushed_integer_start; cycle 1; [exact Hzs | reflexivity].
  - intros fd cache parentId segs H Hget. unfold buildColumnIndexSegments in H.
    destruct (_extractColumnIndicesInfo fd) as [|info infos];
      [injection H as <-; discriminate Hget|].
    destruct (forEachi _ 0 (info :: infos)) as [segs'|] eqn:Hsegs; [|discriminate].
    injection H as <-. cbn [obj_set obj_get] in Hget.
    destruct (String.eqb "column_indices" parentId); [|discriminate].
    injection Hget as <-. apply sort_by_start_sorted.
    apply (forEachi_Forall _ _ _ _ _) with (2 := Hsegs).
    intros c inf zs Hzs. eapply pushed_integer_start; cycle 1; [exact Hzs | reflexivity].
  - intros fd cache parentId segs H Hget. unfold buildKeyValueMetadataSegments in H.
    destruct (inner_metadata fd ≫= key_value_metadata) as [kvs|];
      [|injection H as <-; discriminate Hget].
    destruct (forEachi _ 0 kvs) as [segs'|] eqn:Hsegs; [|discriminate].
    injection H as <-. cbn [obj_set obj_get] in Hget.
    destruct (String.eqb "key_value_metadata" parentId); [|discriminate].
    injection Hget as <-. apply sort_by_start_sorted.
    apply (forEachi_Forall _ _ _ _ _) with (2 := Hsegs).
    intros c entry zs Hzs. destruct (key entry); [|discriminate].
    eapply pushed_integer_start; cycle 1; [exact Hzs | reflexivity].
  - intros fd segs H. destruct (inner_metadata fd) as [m|] eqn:Hm.
    + destruct (metadata_structure_blocks fd m segs Hm H)
        as (schema & rgm & idx & kvs & -> & B1 & B2 & B3 & B4).
      apply sort_by_start_sorted. repeat (apply Forall_app; split);
        [apply (tiles_integer_starts _ _ _ (proj1 B1)) | apply (tiles_integer_starts _ _ _ (proj1 B2))
        |apply (tiles_integer_starts _ _ _ (proj1 B3)) | apply (tiles_integer_starts _ _ _ (proj1 B4))].
    + unfold buildMetadataStructureSegments in H. rewrite Hm in H. injection H as <-.
      constructor.
Qed.

End MetadataStructure.

(** ** The elements of the row-group metadata *)

Section RowGroupMetadata.

Lemma rowGroupMetadataLoop_tiles (rgs : list RowGroup) (index : nat) (currentOffset : Z)
    (segs : list Segment) :
  rowGroupMetadataLoop index currentOffset rgs = Ok segs ->
  tiles currentOffset (currentOffset + row_groups_size rgs) segs /\
  Forall2 (fun rg seg => ParquetSegment.metadata seg = Some (ParquetSegment.MetaRowGroup rg))
          rgs segs /\
  forall k seg, segs !! k = Some seg ->
    ParquetSegment.id seg = "rowgroup_meta_" +:+ pretty (index + k)%nat /\
    ParquetSegment.rowGroupIndex seg = Some (index + k)%nat /\
    ParquetSegment.chunkIndex seg = None.
Proof.
  revert index currentOffset segs.
  induction rgs as [|rg rgs IH]; intros index currentOffset segs H; simpl in H.
  - injection H as <-. unfold row_groups_size, sumZ. simpl.
    split; [lia|]. split; [constructor | intros k seg Hk; discriminate].
  - destruct (ParquetSegment.new _) as [seg|] eqn:Hnew; [|discriminate]. simpl in H.
    destruct (rowGroupMetadataLoop (S index) _ rgs) as [rest|] eqn:Hrest; [|discriminate].
    injection H as <-. destruct (IH _ _ _ Hrest) as (Ht & Hm & Hid).
    pose proof Hnew as Hone. eapply new_tile in Hone; [|reflexivity..]. destruct Hone as [_ Hone].
    apply new_Ok in Hnew. simpl in Hnew.
    destruct Hnew as (Hi & _ & _ & _ & Hmeta & Hr & Hc & _).
    unfold row_groups_size in *. simpl map. rewrite sumZ_cons. split; [|split].
    + replace (currentOffset + (or_else (rg_byte_length rg) 200 + sumZ _))
        with (currentOffset + or_else (rg_byte_length rg) 200 + 
              sumZ (map (fun rg => or_else (rg_byte_length rg) 200) rgs)) by lia.
      exact (tiles_app _ _ _ [seg] rest Hone Ht).
    + constructor; [exact Hmeta | exact Hm].
    + intros [|k] seg' Hk; simpl in Hk.
      * injection Hk as <-. rewrite Nat.add_0_r. injection Hi as Hi. auto.
      * replace (index + S k)%nat with (S index + k)%nat by lia. exact (Hid k seg' Hk).
Qed.

(** X15. The elements of the row-group metadata, one per row group, follow one
    another from 600 bytes after the metadata start, and together they are as
    long as the [row_groups_metadata] segment of the metadata structure, which
    starts where the schema ends. *)
Theorem row_group_elements_fill_their_parent_size (fd : FileData) (m : FileMetadata)
    (rgs : list RowGroup) (cache : obj (list Segment)) :
  inner_metadata fd = Some m ->
  row_groups m = Some rgs ->
  buildRowGroupMetadataSegments fd = Ok cache ->
  let base := or_else (md ← metadata fd; md_start_offset md) 0 in
  exists segs,
    cache = [("row_groups_metadata", segs)] /\
    Forall2 (fun rg seg => ParquetSegment.metadata seg = Some (ParquetSegment.MetaRowGroup rg))
            rgs segs /\
    tiles (base + 600) (base + 600 + row_groups_size rgs) segs /\
    forall ms parent,
      buildMetadataStructureSegments fd = Ok ms ->
      parent ∈ ms ->
      ParquetSegment.id parent = "row_groups_metadata" ->
      ParquetSegment.size parent = Int (row_groups_size rgs).
Proof.
  intros Hm Hrgs H base. unfold buildRowGroupMetadataSegments, inner_row_groups in H.
  rewrite Hm in H. simpl in H. rewrite Hrgs in H. fold base in H.
  destruct (rowGroupMetadataLoop 0 (base + 600) rgs) as [segs|] eqn:Hloop; [|discriminate].
  injection H as <-. destruct (rowGroupMetadataLoop_tiles _ _ _ _ Hloop) as (Ht & Hmeta & _).
  exists segs. split; [reflexivity|]. split; [exact Hmeta|]. split; [exact Ht|].
  intros ms parent Hms Hin Hid.
  destruct (metadata_structure_blocks fd m ms Hm Hms)
    as (schema & rgm & idx & kvs & -> & B1 & B2 & B3 & B4).
  rewrite sort_by_start_perm in Hin.
  assert (Hrgm : parent ∈ rgm).
  { destruct B1 as (_ & I1 & _), B3 as (_ & I3 & _), B4 as (_ & I4 & _).
    rewrite Forall_forall in I1, I3, I4.
    rewrite !elem_of_app in Hin. destruct Hin as [Hin|[Hin|[Hin|Hin]]]; [|exact Hin| |].
    - rewrite (I1 _ Hin) in Hid. discriminate.
    - rewrite (I3 _ Hin) in Hid. discriminate.
    - rewrite (I4 _ Hin) in Hid. discriminate. }
  destruct B2 as (Ht2 & _ & Hlen).
  destruct rgm as [|p [|p' rgm]]; [inversion Hrgm | | simpl in Hlen; lia].
  apply list_elem_of_singleton in Hrgm as ->.
  rewrite Hrgs in Ht2. simpl in Ht2. destruct Ht2 as (Hs & mid & He & Hle & Hmid).
  unfold ParquetSegment.size. rewrite Hs, He. simpl. f_equal.
  destruct rgs as [|rg rgs']; [unfold row_groups_size, sumZ; simpl; lia | lia].
Qed.

End RowGroupMetadata.

(** ** The column chunks of the row-group metadata *)

Section ColumnChunkMetadata.

(** [total_compressed_size || total_uncompressed_size || 100] *)
Definition column_meta_size (columnMeta : ColumnMeta) : Z :=
  or_else (total_compressed_size columnMeta)
          (or_else (total_uncompressed_size columnMeta) 100).

Definition column_metas_size (entries : obj ColumnMeta) : Z :=
  sumZ (map (fun e => column_meta_size (snd e)) entries).

(** The segment of an entry of a row group's [column_chunks]: it carries the
    entry and is as long as the entry's size. *)
Definition column_meta_segment (entry : string * ColumnMeta) (seg : Segment) : Prop :=
  ParquetSegment.name seg = fst entry /\
  ParquetSegment.columnPath seg = Some (fst entry) /\
  ParquetSegment.metadata seg = Some (ParquetSegment.MetaColumnMeta (snd entry)) /\
  ParquetSegment.size seg = Int (column_meta_size (snd entry)) /\
  exists lo,
    ParquetSegment.start seg = Int lo /\
    ParquetSegment.end_ seg = Int (lo + column_meta_size (snd entry)).

Lemma columnChunkMetadataLoop_tiles (entries : obj ColumnMeta) (rgIndex chunkIndex : nat)
    (currentOffset : Z) (segs : list Segment) :
  columnChunkMetadataLoop rgIndex chunkIndex currentOffset entries = Ok segs ->
  tiles currentOffset (currentOffset + column_metas_size entries) segs /\
  Forall2 column_meta_segment entries segs.
Proof.
  revert chunkIndex currentOffset segs.
  induction entries as [|[columnPath columnMeta] entries IH];
    intros chunkIndex currentOffset segs H; simpl in H.
  - injection H as <-. unfold column_metas_size, sumZ. simpl. split; [lia | constructor].
  - destruct (ParquetSegment.new _) as [seg|] eqn:Hnew; [|discriminate]. simpl in H.
    destruct (columnChunkMetadataLoop rgIndex (S chunkIndex) _ entries) as [rest|] eqn:Hrest;
      [|discriminate].
    injection H as <-. destruct (IH _ _ _ Hrest) as (Ht & Hm).
    pose proof Hnew as Hone. eapply new_tile in Hone; [|reflexivity..].
    destruct Hone as [_ Hone].
    apply new_Ok in Hnew. simpl in Hnew.
    destruct Hnew as (_ & Hn & _ & _ & Hmeta & _ & _ & _ & Hp & _).
    unfold column_metas_size in *. simpl map. rewrite sumZ_cons. split.
    + fold (column_meta_size columnMeta) in Hone, Ht.
      replace (currentOffset + (column_meta_size columnMeta + sumZ _))
        with (currentOffset + column_meta_size columnMeta +
              sumZ (map (fun e => column_meta_size (snd e)) entries)) by lia.
      exact (tiles_app _ _ _ [seg] rest Hone Ht).
    + constructor; [|exact Hm]. injection Hn as Hn.
      fold (column_meta_size columnMeta) in Hone.
      destruct Hone as (Hstart & mid & Hend & Hle & Hmid). simpl in Hmid. subst mid.
      split; [auto|]. split; [assumption|]. split; [assumption|]. simpl. split.
      * unfold ParquetSegment.size. rewrite Hstart, Hend. simpl. f_equal. lia.
      * exists currentOffset. auto.
Qed.

(** The key of the bucket of row group [i]. *)
Definition rowgroup_meta_key (i : nat) : string := "rowgroup_meta_" +:+ pretty i.

Lemma rowgroup_meta_key_inj (i j : nat) : rowgroup_meta_key i = rowgroup_meta_key j -> i = j.
Proof.
  unfold rowgroup_meta_key. intros E. apply (inj (String.append _)) in E.
  exact (inj pretty _ _ E).
Qed.

Lemma columnChunkMetadataRowGroups_keys (rgs : list RowGroup) (i0 : nat)
    (cache cm : obj (list Segment)) :
  columnChunkMetadataRowGroups i0 rgs cache = Ok cm ->
  (forall k rg, rgs !! k = Some rg ->
     exists segs,
       obj_get cm (rowgroup_meta_key (i0 + k)) = Some segs /\
       match rg_column_chunks rg with
       | Some ccs => columnChunkMetadataLoop (i0 + k) 0 0 ccs
       | None => Ok []
       end = Ok segs) /\
  (forall key, (forall i, (i0 <= i)%nat -> key <> rowgroup_meta_key i) ->
     obj_get cm key = obj_get cache key).
Proof.
  revert i0 cache. induction rgs as [|rg rgs IH]; intros i0 cache H; simpl in H.
  - injection H as <-. split; [intros k rg Hk; discriminate | reflexivity].
  - destruct (match rg_column_chunks rg with Some _ => _ | None => _ end)
      as [segs|] eqn:Hsegs; [|discriminate].
    simpl in H. destruct (IH _ _ H) as [Hin Hout]. split.
    + intros [|k] rg' Hk; simpl in Hk.
      * injection Hk as <-. rewrite Nat.add_0_r. exists segs. split; [|exact Hsegs].
        rewrite Hout; [apply obj_get_set_eq|].
        intros i Hi E. apply rowgroup_meta_key_inj in E. lia.
      * replace (i0 + S k)%nat with (S i0 + k)%nat by lia. exact (Hin k rg' Hk).
    + intros key Hkey. rewrite Hout by (intros i Hi; apply Hkey; lia).
      apply obj_get_set_ne. intros E. apply (Hkey i0); [lia | symmetry; exact E].
Qed.

Lemma columnchunkmetadata_of_key (cache : HierarchyCache) (i : nat) :
  getSegmentsForLevel cache "columnchunkmetadata" (Some (rowgroup_meta_key i)) =
  Array (default [] (obj_get (columnchunkmetadata cache) (rowgroup_meta_key i))).
Proof.
  apply columnchunkmetadata_bucket.
  unfold startsWith, rowgroup_meta_key. cbn -[pretty]. apply prefix_empty.
Qed.

(** X16. The column chunks of a row group's metadata follow one another from offset
    0, one per entry of the row group's [column_chunks] and in their order,
    each as long as the entry's compressed size (its uncompressed size, or 100,
    when that is absent or zero): the segment of an entry ends that many bytes
    after its start, and starts where the segment before it ends. They are the
    array the level [columnchunkmetadata] returns for the element
    [rowgroup_meta_<i>]. *)
Theorem column_chunk_metadata_fills_from_zero (fd : FileData) (rgs : list RowGroup)
    (i : nat) (rg : RowGroup) (cm : obj (list Segment)) :
  inner_row_groups fd = Some rgs ->
  rgs !! i = Some rg ->
  buildColumnChunkMetadataSegments fd = Ok cm ->
  let entries := default [] (rg_column_chunks rg) in
  exists segs,
    (forall cache, columnchunkmetadata cache = cm ->
       getSegmentsForLevel cache "columnchunkmetadata" (Some ("rowgroup_meta_" +:+ pretty i)) =
       Array segs) /\
    tiles 0 (column_metas_size entries) segs /\
    Forall2 column_meta_segment entries segs.
Proof.
  intros Hrgs Hi H entries. unfold buildColumnChunkMetadataSegments in H. rewrite Hrgs in H.
  destruct (columnChunkMetadataRowGroups_keys rgs 0 [] cm H) as [Hin _].
  destruct (Hin i rg Hi) as (segs & Hget & Hloop). simpl in Hget.
  exists segs. split.
  - intros cache <-. fold (rowgroup_meta_key i). rewrite columnchunkmetadata_of_key, Hget.
    reflexivity.
  - unfold entries. destruct (rg_column_chunks rg) as [ccs|]; simpl.
    + exact (columnChunkMetadataLoop_tiles ccs i 0 0 segs Hloop).
    + injection Hloop as <-. split; [reflexivity | constructor].
Qed.

End ColumnChunkMetadata.

(** ** Row groups of incomplete chunks *)

Section IncompleteChunks.

Lemma foldl_max2_NaN (xs : list jsint) : foldl max2 NaNi xs = NaNi.
Proof. induction xs as [|x xs IH]; simpl; [reflexivity | exact IH]. Qed.

Lemma foldl_min2_NaN (xs : list jsint) : foldl min2 NaNi xs = NaNi.
Proof. induction xs as [|x xs IH]; simpl; [reflexivity | exact IH]. Qed.

Lemma Math_max_NaN (x : jsint) (xs : list jsint) : NaNi ∈ x :: xs -> JS.Math_max x xs = NaNi.
Proof.
  unfold JS.Math_max. revert x. induction xs as [|y xs IH]; intros x H.
  - apply list_elem_of_singleton in H as <-. reflexivity.
  - simpl. apply elem_of_cons in H as [<-|H]; [apply foldl_max2_NaN|].
    apply elem_of_cons in H as [<-|H].
    + destruct x; apply foldl_max2_NaN.
    + apply IH. apply list_elem_of_further. exact H.
Qed.

Lemma Math_min_NaN (x : jsint) (xs : list jsint) : NaNi ∈ x :: xs -> JS.Math_min x xs = NaNi.
Proof.
  unfold JS.Math_min. revert x. induction xs as [|y xs IH]; intros x H.
  - apply list_elem_of_singleton in H as <-. reflexivity.
  - simpl. apply elem_of_cons in H as [<-|H]; [apply foldl_min2_NaN|].
    apply elem_of_cons in H as [<-|H].
    + destruct x; apply foldl_min2_NaN.
    + apply IH. apply list_elem_of_further. exact H.
Qed.

(** A chunk whose numbers, where present, are not negative. *)
Definition no_negative_number (chunk : ColumnChunk) : bool :=
  match start_offset chunk with Some o => 0 <=? o | None => true end &&
  match total_byte_size chunk with Some z => 0 <=? z | None => true end.

(** A chunk with both numbers. *)
Definition complete (chunk : ColumnChunk) : bool :=
  match start_offset chunk, total_byte_size chunk with
  | Some _, Some _ => true
  | _, _ => false
  end.

Lemma foldl_min2_not_negative (xs : list jsint) (x : jsint) :
  lt x (Int 0) = false ->
  Forall (fun j => lt j (Int 0) = false) xs ->
  lt (foldl min2 x xs) (Int 0) = false.
Proof.
  revert x. induction xs as [|y xs IH]; intros x Hx H; simpl; [exact Hx|].
  inversion H as [|y' xs' Hy Hxs]; subst. apply IH; [|exact Hxs].
  destruct x as [a|], y as [b|]; simpl in *; try reflexivity.
  apply Z.ltb_ge. apply Z.ltb_ge in Hx, Hy. lia.
Qed.

Lemma slice_subset {A} (l : list A) (startIndex endIndex : nat) (x : A) :
  x ∈ slice l startIndex endIndex -> x ∈ l.
Proof.
  unfold slice. intros H. apply elem_of_take in H as (i & H & _).
  rewrite lookup_drop in H. apply list_elem_of_lookup. eauto.
Qed.

Lemma block_of_chunks (fd : FileData) (i : nat) (chunk : ColumnChunk) :
  chunk ∈ _getChunksForRowGroup fd i -> chunk ∈ default [] (column_chunks fd).
Proof. unfold _getChunksForRowGroup. apply slice_subset. Qed.

(** A loop whose every round returns, returns, with what the rounds pushed. *)
Lemma forEachi_returns {A B} (f : nat -> A -> result (list B)) (xs : list A) (i0 : nat) :
  (forall k x, xs !! k = Some x -> returns (f (i0 + k)%nat x) = true) ->
  exists ys,
    forEachi f i0 xs = Ok ys /\
    forall k x zs y, xs !! k = Some x -> f (i0 + k)%nat x = Ok zs -> y ∈ zs -> y ∈ ys.
Proof.
  revert i0. induction xs as [|x xs IH]; intros i0 H; simpl.
  - exists []. split; [reflexivity | intros k x zs y Hk; discriminate].
  - pose proof (H 0%nat x eq_refl) as H0. rewrite Nat.add_0_r in H0.
    destruct (f i0 x) as [zs0|] eqn:Hf; [|discriminate].
    destruct (IH (S i0)) as (ys & Hys & Hin).
    { intros k x' Hk. replace (S i0 + k)%nat with (i0 + S k)%nat by lia.
      apply (H (S k) x' Hk). }
    exists (zs0 ++ ys). rewrite Hys. split; [reflexivity|].
    intros [|k] x' zs y Hk Hzs Hy; simpl in Hk.
    + injection Hk as <-. rewrite Nat.add_0_r, Hf in Hzs. injection Hzs as <-.
      apply elem_of_app. left. exact Hy.
    + apply elem_of_app. right. apply (Hin k x' zs y Hk); [|exact Hy].
      replace (S i0 + k)%nat with (i0 + S k)%nat by lia. exact Hzs.
Qed.

(** The constructor returns as soon as no comparison of [_validate] holds. *)
Lemma new_returns (config : ParquetSegment.Config) (i n : string) (s e : jsint) :
  ParquetSegment.c_id config = Some i ->
  ParquetSegment.c_name config = Some n ->
  ParquetSegment.c_start config = Some s ->
  ParquetSegment.c_end config = Some e ->
  lt s (Int 0) = false ->
  lt e s = false ->
  returns (ParquetSegment.new config) = true.
Proof.
  intros Hi Hn Hs He H0 H1.
  assert (H : ParquetSegment.new config =
              Ok {| ParquetSegment.id := i; ParquetSegment.name := n;
                    ParquetSegment.start := s; ParquetSegment.end_ := e;
                    ParquetSegment.metadata := ParquetSegment.c_metadata config;
                    ParquetSegment.rowGroupIndex := ParquetSegment.c_rowGroupIndex config;
                    ParquetSegment.chunkIndex := ParquetSegment.c_chunkIndex config;
                    ParquetSegment.pageIndex := ParquetSegment.c_pageIndex config;
                    ParquetSegment.columnPath := ParquetSegment.c_columnPath config;
                    ParquetSegment.physicalMetadata :=
                      ParquetSegment.c_physicalMetadata config;
                    ParquetSegment.logicalMetadata :=
                      ParquetSegment.c_logicalMetadata config |}).
  { apply new_Ok. simpl. repeat split; assumption. }
  rewrite H. reflexivity.
Qed.

(** The offsets and ends of a block whose numbers are not negative pass the
    checks of the constructor: the least offset is NaN or not negative, and
    the greatest end is NaN or not before it. *)
Lemma block_range_passes (block : list ColumnChunk) :
  block <> [] ->
  forallb no_negative_number block = true ->
  let chunkOffsets := map (fun chunk => toNumber (start_offset chunk)) block in
  let chunkEnds := map (fun chunk => add (toNumber (start_offset chunk))
                                         (toNumber (total_byte_size chunk))) block in
  lt (JS.Math_min (hd NaNi chunkOffsets) (tl chunkOffsets)) (Int 0) = false /\
  lt (JS.Math_max (hd NaNi chunkEnds) (tl chunkEnds))
     (JS.Math_min (hd NaNi chunkOffsets) (tl chunkOffsets)) = false.
Proof.
  intros Hne Hnn chunkOffsets chunkEnds. split.
  - assert (Hall : Forall (fun j => lt j (Int 0) = false) chunkOffsets).
    { unfold chunkOffsets. apply Forall_forall. intros j Hj.
      apply list_elem_of_fmap in Hj as (chunk & -> & Hchunk).
      apply list_elem_of_In in Hchunk.
      pose proof (proj1 (forallb_forall _ _) Hnn chunk Hchunk) as Hc.
      unfold no_negative_number in Hc. apply andb_true_iff in Hc as [Hc _].
      destruct (start_offset chunk) as [o|]; simpl; [|reflexivity].
      apply Z.ltb_ge. apply Z.leb_le in Hc. exact Hc. }
    destruct chunkOffsets as [|x xs]; [reflexivity|]. simpl.
    inversion Hall; subst. apply foldl_min2_not_negative; assumption.
  - destruct (forallb complete block) eqn:Hcomplete.
    + assert (Hoffs : offsets_and_sizes block (offsets_of block) /\
                      Forall (fun '(o, z) => 0 <= o /\ 0 <= z) (offsets_of block)).
      { clear Hne chunkOffsets chunkEnds. unfold offsets_and_sizes, offsets_of.
        induction block as [|c block IH]; simpl; [split; [reflexivity | constructor]|].
        simpl in Hnn, Hcomplete.
        apply andb_true_iff in Hnn as [Hc Hnn].
        apply andb_true_iff in Hcomplete as [Hcc Hcomplete].
        destruct (IH Hnn Hcomplete) as [IH1 IH2].
        unfold no_negative_number in Hc. unfold complete in Hcc.
        destruct (start_offset c) as [o|], (total_byte_size c) as [z|]; try discriminate.
        apply andb_true_iff in Hc as [Ho Hz]. apply Z.leb_le in Ho, Hz. simpl.
        split; [rewrite IH1; reflexivity|]. constructor; [split; assumption | assumption]. }
      destruct Hoffs as [Hoffs Hpos].
      destruct (chunk_range block _ Hne Hoffs) as (lo & hi & Hlo & Hhi & Hmin & Hmax).
      fold chunkOffsets in Hlo. fold chunkEnds in Hhi. rewrite Hlo, Hhi.
      destruct (offsets_bounds _ lo hi Hpos Hmin Hmax) as [_ Hle].
      simpl. apply Z.ltb_ge. exact Hle.
    + assert (Hnan : NaNi ∈ chunkEnds).
      { unfold chunkEnds. clear Hne Hnn chunkOffsets chunkEnds.
        induction block as [|c block IH]; [discriminate|]. simpl in Hcomplete |- *.
        apply andb_false_iff in Hcomplete as [Hc|Hrest].
        - unfold complete in Hc.
          destruct (start_offset c), (total_byte_size c); try discriminate;
            apply list_elem_of_here.
        - apply list_elem_of_further, IH, Hrest. }
      destruct chunkEnds as [|x xs]; [inversion Hnan|]. simpl hd. simpl tl.
      rewrite (Math_max_NaN x xs Hnan). reflexivity.
Qed.

(** [buildRowGroupSegments] returns on every payload whose chunks carry no
    negative number. *)
Lemma buildRowGroupSegments_returns (fd : FileData) :
  forallb no_negative_number (default [] (column_chunks fd)) = true ->
  forall rgs, inner_row_groups fd = Some rgs ->
    exists segs,
      buildRowGroupSegments fd = Ok segs /\
      forall i, (i < length rgs)%nat -> _getChunksForRowGroup fd i <> [] ->
        exists seg, seg ∈ segs /\
                    ParquetSegment.id seg = "rowgroup_" +:+ pretty i /\
                    ParquetSegment.rowGroupIndex seg = Some i.
Proof.
  intros Hnn rgs Hrgs. unfold buildRowGroupSegments. rewrite Hrgs.
  assert (Hblock : forall i, forallb no_negative_number (_getChunksForRowGroup fd i) = true).
  { intros i. apply forallb_forall. intros c Hc. apply list_elem_of_In in Hc.
    apply block_of_chunks in Hc. apply list_elem_of_In in Hc.
    exact (proj1 (forallb_forall _ _) Hnn c Hc). }
  match goal with
  | |- exists segs, forEachi ?f 0 rgs = Ok segs /\ _ =>
      destruct (forEachi_returns f rgs 0) as (segs & Hsegs & Hin)
  end.
  { intros k rg Hk. simpl.
    destruct (_getChunksForRowGroup fd k) as [|c cs] eqn:Hb; [reflexivity|].
    destruct (block_range_passes (c :: cs) ltac:(discriminate)) as [H0 H1].
    { rewrite <- Hb. apply Hblock. }
    match goal with
    | |- returns (ParquetSegment.new ?cfg ≫= _) = true =>
        pose proof (new_returns cfg _ _ _ _ eq_refl eq_refl eq_refl eq_refl H0 H1) as Hnew;
        destruct (ParquetSegment.new cfg); [reflexivity | discriminate]
    end. }
  exists segs. split; [exact Hsegs|]. intros i Hi Hne.
  destruct (lookup_lt_is_Some_2 rgs i Hi) as [rg Hrg].
  destruct (_getChunksForRowGroup fd i) as [|c cs] eqn:Hb; [congruence|].
  destruct (block_range_passes (c :: cs) ltac:(discriminate)) as [H0 H1].
  { rewrite <- Hb. apply Hblock. }
  pose proof (fun zs y => Hin i rg zs y Hrg) as Hin'.
  simpl in Hin'. rewrite Hb in Hin'.
  match type of Hin' with
  | forall zs y, (ParquetSegment.new ?cfg ≫= _) = _ -> _ =>
      pose proof (new_returns cfg _ _ _ _ eq_refl eq_refl eq_refl eq_refl H0 H1) as Hnew;
      destruct (ParquetSegment.new cfg) as [seg|] eqn:Hseg; [|discriminate]
  end.
  exists seg. split; [exact (Hin' [seg] seg eq_refl (list_elem_of_here _ _))|].
  apply new_Ok in Hseg. simpl in Hseg.
  destruct Hseg as (Hid & _ & _ & _ & _ & Hr & _).
  split; [congruence | exact Hr].
Qed.

(** The row-group segment of a block with an incomplete chunk. *)
Lemma incomplete_chunk_range (fd : FileData) (segs : list Segment)
    (seg : Segment) (i : nat) (chunk : ColumnChunk) :
  buildRowGroupSegments fd = Ok segs ->
  seg ∈ segs ->
  ParquetSegment.rowGroupIndex seg = Some i ->
  chunk ∈ _getChunksForRowGroup fd i ->
  start_offset chunk = None \/ total_byte_size chunk = None ->
  ParquetSegment.end_ seg = NaNi /\
  ParquetSegment.size seg = NaNi /\
  (start_offset chunk = None -> ParquetSegment.start seg = NaNi).
Proof.
  intros H Hseg Hidx Hchunk Hmissing. unfold buildRowGroupSegments in H.
  destruct (inner_row_groups fd) as [rgs|]; [|injection H as <-; inversion Hseg].
  destruct (forEachi_elem _ _ _ _ _ H Hseg) as (k & rg & zs & _ & Hf & Hin).
  simpl in Hf.
  destruct (_getChunksForRowGroup fd k) as [|c cs] eqn:Hblock;
    [injection Hf as <-; inversion Hin|].
  match type of Hf with
  | (ParquetSegment.new ?cfg ≫= _) = _ =>
      destruct (ParquetSegment.new cfg) as [seg'|] eqn:Hnew; [|discriminate]
  end.
  injection Hf as <-. apply list_elem_of_singleton in Hin as ->.
  apply new_Ok in Hnew. cbn [ParquetSegment.c_start ParquetSegment.c_end
    ParquetSegment.c_rowGroupIndex] in Hnew.
  destruct Hnew as (_ & _ & Hs & He & _ & Hr & _).
  assert (k = i) as -> by congruence. rewrite Hblock in Hchunk.
  injection Hs as Hs. injection He as He.
  assert (Hend : ParquetSegment.end_ seg' = NaNi).
  { rewrite <- He. apply Math_max_NaN.
    change (NaNi ∈ map (fun chunk => add (toNumber (start_offset chunk))
                                         (toNumber (total_byte_size chunk))) (c :: cs)).
    apply list_elem_of_fmap. exists chunk. split; [|exact Hchunk].
    destruct Hmissing as [-> | ->]; [reflexivity|].
    destruct (toNumber (start_offset chunk)); reflexivity. }
  split; [exact Hend|]. split.
  - unfold ParquetSegment.size. rewrite Hend. reflexivity.
  - intros Hstart. rewrite <- Hs. apply Math_min_NaN.
    change (NaNi ∈ map (fun chunk => toNumber (start_offset chunk)) (c :: cs)).
    apply list_elem_of_fmap. exists chunk. split; [|exact Hchunk].
    rewrite Hstart. reflexivity.
Qed.

(** X17. A chunk without [start_offset] or [total_byte_size] is no error for its row
    group. On a payload whose chunks carry no negative number,
    [buildRowGroupSegments] returns; the row group of a block with such a
    chunk has its segment [rowgroup_<i>] in the result, and every segment of
    the result with its index has NaN for its end and its size (and for its
    start, when a [start_offset] is missing). *)
Theorem row_group_of_incomplete_chunks_has_no_range (fd : FileData) (rgs : list RowGroup)
    (i : nat) (chunk : ColumnChunk) :
  inner_row_groups fd = Some rgs ->
  (i < length rgs)%nat ->
  forallb no_negative_number (default [] (column_chunks fd)) = true ->
  chunk ∈ _getChunksForRowGroup fd i ->
  start_offset chunk = None \/ total_byte_size chunk = None ->
  exists segs,
    buildRowGroupSegments fd = Ok segs /\
    (exists seg, seg ∈ segs /\
                 ParquetSegment.id seg = "rowgroup_" +:+ pretty i /\
                 ParquetSegment.rowGroupIndex seg = Some i) /\
    forall seg, seg ∈ segs -> ParquetSegment.rowGroupIndex seg = Some i ->
      ParquetSegment.end_ seg = NaNi /\
      ParquetSegment.size seg = NaNi /\
      (start_offset chunk = None -> ParquetSegment.start seg = NaNi).
Proof.
  intros Hrgs Hi Hnn Hchunk Hmissing.
  destruct (buildRowGroupSegments_returns fd Hnn rgs Hrgs) as (segs & Hsegs & Hin).
  exists segs. split; [exact Hsegs|]. split.
  - apply (Hin i Hi). intros E. rewrite E in Hchunk. inversion Hchunk.
  - intros seg Hseg Hidx.
    exact (incomplete_chunk_range fd segs seg i chunk Hsegs Hseg Hidx Hchunk Hmissing).
Qed.

End IncompleteChunks.

(** ** Column indices *)

Section ColumnIndices.








End ColumnIndices.

(** ** Navigation with Backspace *)

Section Display.

Variable cache : HierarchyCache.
Variable updateSelectionDisplay : gmap nat string -> result unit.
Variable infoPanelManager : option InfoPanelManager.

(** The shape of a state that a sequence of events reaches when no handler is
    left by an exception: the path is as
    under the invariant, the display shows the root level and the child levels
    of the first [n] ancestors, and the selection map marks every segment of
    the path. *)
Definition displayed (st : State) (anc : list Segment) (last : option Segment) (n : nat)
  : Prop :=
  Forall (fun s => segmentHasChildren cache s = true) anc /\
  match last with
  | Some s => segmentHasChildren cache s = false
  | None => True
  end /\
  selectionPath st = anc ++ option_list last /\
  (n <= length anc)%nat /\
  levels st = rootLevel cache :: map (levelFor cache) (take n anc) /\
  (forall (i : nat) (s : Segment),
     selectionPath st !! i = Some s -> selectedSegments st !! i = Some (ParquetSegment.id s)).

Lemma displayed_init : displayed (initWithData cache) [] None 0.
Proof.
  unfold displayed, initWithData, addLevel. simpl.
  repeat split; [constructor | lia | intros i s H; rewrite lookup_nil in H; discriminate].
Qed.

Lemma displayed_length (st : State) anc last n :
  displayed st anc last n -> length (levels st) = S n.
Proof.
  intros (_ & _ & _ & Hn & Hlevels & _). rewrite Hlevels. simpl.
  rewrite length_map, length_take. lia.
Qed.

(** A click brings the whole stack of the new path on display. *)
Lemma displayed_click (st : State) anc last n (segment : Segment) (levelIndex : nat) :
  displayed st anc last n ->
  (levelIndex < length (levels st))%nat ->
  clickReturns cache updateSelectionDisplay infoPanelManager st segment levelIndex = true ->
  exists anc' last',
    displayed (handleSegmentClick cache updateSelectionDisplay infoPanelManager st segment levelIndex)
      anc' last' (length anc').
Proof.
  intros H Hlt Hret. pose proof (displayed_length _ _ _ _ H) as Hlen.
  destruct H as (Hanc & Hlast & Hpath & Hn & Hlevels & Hsel).
  destruct (click_fields cache updateSelectionDisplay infoPanelManager st segment levelIndex Hlt Hret)
    as (Fpath & Fsel & Flevels).
  assert (HL : (levelIndex <= n)%nat) by lia.
  assert (Htake : take levelIndex (selectionPath st) = take levelIndex anc).
  { rewrite Hpath. apply take_app_le. lia. }
  assert (Hprefix : Forall (fun s => segmentHasChildren cache s = true) (take levelIndex anc)).
  { apply Forall_take, Hanc. }
  assert (Hlv : take (S levelIndex) (levels st) =
                rootLevel cache :: map (levelFor cache) (take levelIndex anc)).
  { rewrite Hlevels. simpl. rewrite <- fmap_take, take_take.
    replace (levelIndex `min` n)%nat with levelIndex by lia. reflexivity. }
  assert (Htl : length (take levelIndex anc) = levelIndex) by (rewrite length_take; lia).
  assert (Hcleared : forall (i : nat) (s : Segment),
            take levelIndex anc !! i = Some s ->
            clearSelectionsFrom levelIndex (length (levels st)) (selectedSegments st) !! i =
            Some (ParquetSegment.id s)).
  { intros i s Hi. pose proof (lookup_lt_Some _ _ _ Hi) as Hi'. rewrite Htl in Hi'.
    rewrite cleared_lookup, decide_False by lia. apply Hsel.
    rewrite lookup_take_lt in Hi by exact Hi'.
    rewrite Hpath, lookup_app_l; [exact Hi|]. lia. }
  rewrite Hlv in Flevels. rewrite Htake in Fpath.
  destruct (isSegmentSelected st (ParquetSegment.id segment) levelIndex); simpl in *.
  - exists (take levelIndex anc), None. unfold displayed.
    rewrite Fpath, Fsel, Flevels. simpl. rewrite !app_nil_r, firstn_all.
    repeat split; try assumption. lia.
  - assert (Hselected : forall (i : nat) (s : Segment),
              (take levelIndex anc ++ [segment]) !! i = Some s ->
              <[levelIndex := ParquetSegment.id segment]>
                (clearSelectionsFrom levelIndex (length (levels st)) (selectedSegments st)) !! i =
              Some (ParquetSegment.id s)).
    { intros i s Hi. destruct (decide (i < levelIndex)%nat) as [Hi'|Hi'].
      - rewrite lookup_insert_ne by lia. apply Hcleared.
        rewrite lookup_app_l in Hi by lia. exact Hi.
      - rewrite lookup_app_r in Hi by lia. rewrite Htl in Hi.
        destruct (i - levelIndex)%nat as [|k] eqn:Ek; [|destruct k; discriminate].
        injection Hi as <-. assert (i = levelIndex) as -> by lia.
        apply lookup_insert_eq. }
    destruct (segmentHasChildren cache segment) eqn:Ech.
    + exists (take levelIndex anc ++ [segment]), None. unfold displayed.
      rewrite Fpath, Fsel, Flevels. simpl. rewrite app_nil_r, firstn_all, map_app.
      repeat split; try assumption; [|lia].
      apply Forall_app. split; [exact Hprefix | repeat constructor; exact Ech].
    + exists (take levelIndex anc), (Some segment). unfold displayed.
      rewrite Fpath, Fsel, Flevels. simpl. rewrite app_nil_r, firstn_all.
      repeat split; try assumption. lia.
Qed.

Lemma escape_fields (st : State) :
  handleKeyDown st "Escape" =
  {| levels := take 1 (levels st); selectedSegments := ∅; selectionPath := [] |}.
Proof.
  unfold handleKeyDown. simpl.
  destruct (removeLevelsFrom_fields
              {| levels := levels st; selectedSegments := ∅; selectionPath := [] |} 1)
    as (H1 & H2 & H3).
  destruct (removeLevelsFrom _ 1) as [l s p]. simpl in *. subst. reflexivity.
Qed.

Lemma displayed_key (st : State) anc last n (key : string) :
  displayed st anc last n ->
  exists anc' last' n', displayed (handleKeyDown st key) anc' last' n'.
Proof.
  intros H. destruct (String.eqb_spec key "Escape") as [->|Hesc].
  - exists [], None, 0%nat. rewrite escape_fields.
    destruct H as (_ & _ & _ & _ & Hlevels & _). unfold displayed. simpl.
    rewrite Hlevels. simpl. rewrite take_0.
    repeat split; [constructor | lia | intros i s Hi; rewrite lookup_nil in Hi; discriminate].
  - destruct (String.eqb_spec key "Backspace") as [->|Hback].
    + pose proof (displayed_length _ _ _ _ H) as Hlen.
      destruct (backspace_fields st) as (Fpath & Fsel & Flevels).
      destruct H as (Hanc & Hlast & Hpath & Hn & Hlevels & Hsel).
      exists anc, last, (n - 1)%nat. unfold displayed.
      rewrite Fpath, Fsel, Flevels. repeat split; try assumption; [lia|].
      rewrite Hlen. destruct (1 <? S n)%nat eqn:E.
      * apply Nat.ltb_lt in E. rewrite Hlevels.
        replace (S n - 1)%nat with (S (n - 1)) by lia. simpl.
        rewrite <- fmap_take, take_take.
        replace ((n - 1) `min` n)%nat with (n - 1)%nat by lia. reflexivity.
      * apply Nat.ltb_ge in E. replace (n - 1)%nat with n by lia. exact Hlevels.
    + exists anc, last, n. unfold handleKeyDown.
      destruct (String.eqb_spec key "Escape"); [contradiction|].
      destruct (String.eqb_spec key "Backspace"); [contradiction|]. exact H.
Qed.

Lemma displayed_runs (st : State) (es : list Event) (st' : State) :
  runs cache updateSelectionDisplay infoPanelManager st es st' ->
  uninterrupted cache updateSelectionDisplay infoPanelManager st es = true ->
  forall anc last n, displayed st anc last n ->
  exists anc' last' n', displayed st' anc' last' n'.
Proof.
  induction 1 as [s|s e es s' Hon _ IH]; intros Hun anc last n Hd.
  - eauto.
  - simpl in Hun. apply andb_true_iff in Hun as [Hret Hun].
    assert (Hstep : exists anc' last' n',
               displayed (handle cache updateSelectionDisplay infoPanelManager s e) anc' last' n').
    { destruct e as [segment levelIndex|key]; simpl.
      - destruct Hon as (level & Hlevel & _). apply lookup_lt_Some in Hlevel.
        destruct (displayed_click s anc last n segment levelIndex Hd Hlevel Hret)
          as (anc' & last' & H'). eauto.
      - apply (displayed_key s anc last n). exact Hd. }
    destruct Hstep as (anc' & last' & n' & Hd'). exact (IH Hun anc' last' n' Hd').
Qed.

(** The root level stays at the head of the display, whatever the handlers
    do. *)
Lemma root_level_stays (st : State) (es : list Event) (st' : State) :
  runs cache updateSelectionDisplay infoPanelManager st es st' ->
  take 1 (levels st) = [rootLevel cache] ->
  take 1 (levels st') = [rootLevel cache].
Proof.
  induction 1 as [s|s e es s' Hon _ IH]; intros Hroot; [exact Hroot|].
  apply IH. destruct e as [segment levelIndex|key]; simpl.
  - destruct Hon as (level & Hlevel & _). apply lookup_lt_Some in Hlevel.
    pose proof (click_keeps_upper_levels cache updateSelectionDisplay infoPanelManager s segment levelIndex Hlevel)
      as Hkeep.
    apply (f_equal (take 1)) in Hkeep. rewrite !take_take in Hkeep.
    replace (1 `min` S levelIndex)%nat with 1%nat in Hkeep by lia.
    rewrite Hkeep. exact Hroot.
  - destruct (String.eqb_spec key "Escape") as [->|Hesc].
    + rewrite escape_fields. simpl. rewrite take_take. exact Hroot.
    + destruct (String.eqb_spec key "Backspace") as [->|Hback].
      * destruct (backspace_fields s) as (_ & _ & Flevels). rewrite Flevels.
        destruct (1 <? length (levels s))%nat eqn:E; [|exact Hroot].
        apply Nat.ltb_lt in E. rewrite take_take.
        replace (1 `min` (length (levels s) - 1))%nat with 1%nat by lia. exact Hroot.
      * unfold handleKeyDown.
        destruct (String.eqb_spec key "Escape"); [contradiction|].
        destruct (String.eqb_spec key "Backspace"); [contradiction|]. exact Hroot.
Qed.

Lemma uninterrupted_app (st : State) (es es' : list Event) (st' : State) :
  runs cache updateSelectionDisplay infoPanelManager st es st' ->
  uninterrupted cache updateSelectionDisplay infoPanelManager st (es ++ es') = true ->
  uninterrupted cache updateSelectionDisplay infoPanelManager st es = true /\
  uninterrupted cache updateSelectionDisplay infoPanelManager st' es' = true.
Proof.
  induction 1 as [s|s e es s' Hon _ IH]; simpl; intros H; [auto|].
  apply andb_true_iff in H as [He H]. destruct (IH H) as [H1 H2].
  rewrite He, H1. auto.
Qed.

Lemma displayed_ancestors (st : State) anc last n :
  displayed st anc last n -> ancestors_with_children cache (selectionPath st) = anc.
Proof.
  intros (Hanc & Hlast & Hpath & _). unfold ancestors_with_children.
  rewrite Hpath, List.filter_app, (filter_all _ _ Hanc).
  destruct last as [s|]; simpl; [rewrite Hlast|]; apply app_nil_r.
Qed.

(** X19. In every state the user reaches by clicks and key presses, Backspace
    included, whose click handlers all returned (none was left by an exception
    of the selection display, of the info panel or of the layout of a child
    level that is no array), the display
    shows the root level followed by the child levels of the first segments of
    the selection path that have children; every segment of the path is marked
    in the selection map at its level; and only the last segment of the path
    can be without children. *)
Theorem displayed_levels_start_the_path_levels (es : list Event) (st : State) :
  runs cache updateSelectionDisplay infoPanelManager (initWithData cache) es st ->
  uninterrupted cache updateSelectionDisplay infoPanelManager (initWithData cache) es = true ->
  (exists n : nat,
     levels st =
       take (S n) (rootLevel cache ::
                   map (levelFor cache) (ancestors_with_children cache (selectionPath st)))) /\
  (forall (i : nat) (s : Segment),
     selectionPath st !! i = Some s ->
     selectedSegments st !! i = Some (ParquetSegment.id s)) /\
  (forall (i : nat) (s : Segment),
     selectionPath st !! i = Some s ->
     (S i < length (selectionPath st))%nat ->
     segmentHasChildren cache s = true) /\
  (length (levels st) <= S (length (selectionPath st)))%nat.
Proof.
  intros Hruns Hun.
  destruct (displayed_runs _ _ _ Hruns Hun [] None 0%nat displayed_init)
    as (anc & last & n & Hd).
  pose proof (displayed_ancestors _ _ _ _ Hd) as Ha.
  pose proof (displayed_length _ _ _ _ Hd) as Hlen.
  destruct Hd as (Hanc & Hlast & Hpath & Hn & Hlevels & Hsel).
  split; [|split; [exact Hsel|split]].
  - exists n. rewrite Ha, Hlevels. simpl. rewrite fmap_take. reflexivity.
  - intros i s Hi Hlt. rewrite Hpath in Hi, Hlt. rewrite length_app in Hlt.
    assert (Hi' : (i < length anc)%nat) by (destruct last; simpl in Hlt; lia).
    rewrite lookup_app_l in Hi by exact Hi'.
    rewrite Forall_forall in Hanc. apply Hanc. apply list_elem_of_lookup. eauto.
  - rewrite Hlen, Hpath, length_app. lia.
Qed.

(** X20. Escape brings every reachable state back to the initial display: the
    overview alone, nothing selected. This holds with any page and any info
    panel, and also after clicks whose handler was left by an exception. *)
Theorem escape_returns_to_the_overview (es : list Event) (st : State) :
  runs cache updateSelectionDisplay infoPanelManager (initWithData cache) es st ->
  handleKeyDown st "Escape" = initWithData cache.
Proof.
  intros Hruns.
  rewrite escape_fields, (root_level_stays _ _ _ Hruns); reflexivity.
Qed.

(** X21. A click on a segment of a displayed level, in any state reached by
    click handlers that all returned, puts the display back in step with the
    selection path when its own handler returns: the levels are the root level
    and the child level of each path segment with children, whatever Backspace
    had removed. The path is cut at the clicked level and the clicked segment
    is added unless it was the selected one. *)
Theorem click_redisplays_the_path (es : list Event) (st : State) (segment : Segment)
    (levelIndex : nat) :
  runs cache updateSelectionDisplay infoPanelManager (initWithData cache) es st ->
  uninterrupted cache updateSelectionDisplay infoPanelManager (initWithData cache) es = true ->
  on_screen st (Click segment levelIndex) ->
  clickReturns cache updateSelectionDisplay infoPanelManager st segment levelIndex = true ->
  let after := handleSegmentClick cache updateSelectionDisplay infoPanelManager st segment levelIndex in
  levels after =
    rootLevel cache ::
    map (levelFor cache) (ancestors_with_children cache (selectionPath after)) /\
  selectionPath after =
    take levelIndex (selectionPath st) ++
    (if isSegmentSelected st (ParquetSegment.id segment) levelIndex then [] else [segment]) /\
  (levelIndex <= length (selectionPath st))%nat.
Proof.
  intros Hruns Hun (level & Hlevel & _) Hret after. apply lookup_lt_Some in Hlevel.
  destruct (displayed_runs _ _ _ Hruns Hun [] None 0%nat displayed_init)
    as (anc & last & n & Hd).
  destruct (displayed_click st anc last n segment levelIndex Hd Hlevel Hret)
    as (anc' & last' & Hd').
  pose proof (displayed_ancestors _ _ _ _ Hd') as Ha. fold after in Ha, Hd'.
  destruct Hd' as (_ & _ & _ & _ & Hlevels' & _).
  rewrite take_ge in Hlevels' by lia.
  split; [rewrite Ha; exact Hlevels'|].
  split; [apply (click_fields cache updateSelectionDisplay infoPanelManager st segment levelIndex Hlevel Hret)|].
  pose proof (displayed_length _ _ _ _ Hd) as Hlen.
  destruct Hd as (_ & _ & Hpath & Hn & _). rewrite Hpath, length_app. lia.
Qed.

(** X22. A second click on the segment just selected takes the selection back,
    when the click handlers of the run and of the two clicks return: the path
    is cut at the clicked level, the levels below the clicked one are closed
    and the level holds no selection. *)
Theorem second_click_deselects (es : list Event) (st : State) (segment : Segment)
    (levelIndex : nat) :
  runs cache updateSelectionDisplay infoPanelManager (initWithData cache) es st ->
  uninterrupted cache updateSelectionDisplay infoPanelManager (initWithData cache)
    (es ++ [Click segment levelIndex; Click segment levelIndex]) = true ->
  on_screen st (Click segment levelIndex) ->
  isSegmentSelected st (ParquetSegment.id segment) levelIndex = false ->
  let once := handleSegmentClick cache updateSelectionDisplay infoPanelManager st segment levelIndex in
  let twice := handleSegmentClick cache updateSelectionDisplay infoPanelManager once segment levelIndex in
  selectionPath twice = take levelIndex (selectionPath st) /\
  levels twice = take (S levelIndex) (levels st) /\
  selectedSegments twice !! levelIndex = None.
Proof.
  intros Hruns Hall (level & Hlevel & _) Hnot once twice. apply lookup_lt_Some in Hlevel.
  destruct (uninterrupted_app _ _ _ _ Hruns Hall) as [Hun Hclicks].
  simpl in Hclicks. fold once in Hclicks. rewrite andb_true_r in Hclicks.
  apply andb_true_iff in Hclicks as [Hret1 Hret2].
  destruct (displayed_runs _ _ _ Hruns Hun [] None 0%nat displayed_init)
    as (anc & last & n & Hd).
  pose proof (displayed_length _ _ _ _ Hd) as Hlen.
  destruct Hd as (_ & _ & Hpath & Hn & _).
  destruct (click_fields cache updateSelectionDisplay infoPanelManager st segment levelIndex Hlevel Hret1)
    as (Fpath & Fsel & Flevels).
  fold once in Fpath, Fsel, Flevels. rewrite Hnot in Fpath, Fsel, Flevels.
  assert (Hlevel1 : (levelIndex < length (levels once))%nat).
  { rewrite Flevels, length_app, length_take. lia. }
  assert (Hsel1 : isSegmentSelected once (ParquetSegment.id segment) levelIndex = true).
  { unfold isSegmentSelected. rewrite Fsel, lookup_insert_eq. apply bool_decide_eq_true. reflexivity. }
  destruct (click_fields cache updateSelectionDisplay infoPanelManager once segment levelIndex Hlevel1 Hret2)
    as (Gpath & Gsel & Glevels).
  fold twice in Gpath, Gsel, Glevels. rewrite Hsel1 in Gpath, Gsel, Glevels.
  simpl in Glevels. rewrite app_nil_r in Gpath, Glevels.
  split; [|split].
  - rewrite Gpath, Fpath. rewrite take_app_le by (rewrite length_take; rewrite Hpath, length_app; lia).
    rewrite take_take, Nat.min_id. reflexivity.
  - rewrite Glevels, Flevels.
    rewrite take_app_le by (rewrite length_take; lia).
    rewrite take_take, Nat.min_id. reflexivity.
  - rewrite Gsel, cleared_lookup, decide_True by lia. reflexivity.
Qed.

End Display.


(** ** On the sample payloads *)

Lemma chunk_0_0_opens_its_page :
  exists c chunk ps,
    _getChunksForRowGroup Scenarios.one_chunk_file 0 !! c = Some chunk /\
    ParquetSegment.physicalMetadata Samples.chunk_0_0_segment = Some chunk /\
    ParquetSegment.id Samples.chunk_0_0_segment =
      "chunk_" +:+ pretty 0%nat +:+ "_" +:+ pretty c /\
    ParquetSegment.childLevelName Samples.chunk_0_0_segment = Some "pages" /\
    buildPageSegments Scenarios.one_chunk_file 0 c = Ok ps /\
    childSegments Scenarios.one_chunk_cache Samples.chunk_0_0_segment = Array ps.
Proof.
  apply (column_chunks_open_their_pages Scenarios.json_length Scenarios.one_chunk_file
           Scenarios.one_chunk_cache
           (default [] (inner_row_groups Scenarios.one_chunk_file)) 0).
  - vm_compute. reflexivity.
  - reflexivity.
  - simpl. lia.
  - apply list_elem_of_lookup. exists 0%nat. vm_compute. reflexivity.
Defined.

(** The page of that chunk is a leaf. *)
Lemma page_of_chunk_0_0_is_a_leaf :
  ParquetSegment.childLevelName Samples.page_segment_0 = None /\
  forall cache,
    segmentHasChildren cache Samples.page_segment_0 = false /\
    forall updateSelectionDisplay infoPanelManager st levelIndex,
      (levelIndex < length (levels st))%nat ->
      levels (handleSegmentClick cache updateSelectionDisplay infoPanelManager st Samples.page_segment_0
                levelIndex) =
      (if returns (showSelection updateSelectionDisplay infoPanelManager
                     (updateSelection st Samples.page_segment_0 levelIndex))
       then take (S levelIndex) (levels st)
       else levels st) /\
      (S levelIndex = length (levels st) ->
       levels (handleSegmentClick cache updateSelectionDisplay infoPanelManager st Samples.page_segment_0
                 levelIndex) = levels st).
Proof.
  apply (pages_are_leaves Scenarios.one_chunk_file 0 0 Samples.pages_of_chunk_0_0).
  - vm_compute. reflexivity.
  - apply list_elem_of_lookup. exists 0%nat. vm_compute. reflexivity.
Defined.

(** With the default layout the funnel from a segment of level 0 to level 1 is
    32 pixels high. *)
Lemma default_levels_are_32_pixels_apart :
  exists g,
    calculateConnectionGeometry Samples.left_layout
      (computeLevelLayout Scenarios.log10_of_powers Scenarios.pow_of_units
         "overview" None Scenarios.scenario3 0 (Fin 500) LAYOUT)
      (computeLevelLayout Scenarios.log10_of_powers Scenarios.pow_of_units
         "rowgroups" (Some "rowgroups") Scenarios.gapped 1 (Fin 500) LAYOUT)
      (Fin 500) = Some g /\
    feq (connection_height g) (Fin 32).
Proof.
  destruct (consecutive_levels_are_a_spacing_apart
              Scenarios.log10_of_powers Scenarios.pow_of_units LAYOUT 40 32
              "overview" "rowgroups" None (Some "rowgroups")
              Scenarios.scenario3 Scenarios.gapped 0 (Fin 500) Samples.left_layout
              eq_refl eq_refl ltac:(lia) ltac:(lia) ltac:(vm_compute; discriminate))
    as (_ & _ & _ & Hfunnel).
  destruct (Hfunnel ltac:(lia)) as (g & Hg & Hh & _).
  exists g. split; [exact Hg | exact Hh].
Defined.

(** With the default layout the canvas of three levels is 256 pixels high, 32 +
    40 pixels below the last level, and the empty canvas is 80 pixels high. *)
Lemma default_canvas_height :
  feq (calculateCanvasHeight 3 LAYOUT) (Fin 256) /\
  feq (calculateCanvasHeight 3 LAYOUT)
      (fadd (fadd (fadd (level_y (computeLevelLayout Scenarios.log10_of_powers
                                    Scenarios.pow_of_units "pages" None [] 2 (Fin 500) LAYOUT))
                        (level_height (computeLevelLayout Scenarios.log10_of_powers
                                         Scenarios.pow_of_units "pages" None [] 2 (Fin 500)
                                         LAYOUT)))
                  (Fin 32)) (Fin 40)) /\
  feq (calculateCanvasHeight 0 LAYOUT) (Fin 80).
Proof.
  exact (canvas_height_reaches_below_the_last_level
           Scenarios.log10_of_powers Scenarios.pow_of_units LAYOUT 40 32 20
           "pages" None [] 2 (Fin 500) eq_refl eq_refl eq_refl
           ltac:(lia) ltac:(lia) ltac:(lia) ltac:(vm_compute; discriminate)).
Defined.

(** The footer segment of a 1000-byte file comes back from both copies. *)
Lemma footer_segment_round_trip :
  fromJSON (toJSON Samples.footer_segment) = Ok Samples.footer_segment /\
  clone Samples.footer_segment no_updates = Ok Samples.footer_segment.
Proof.
  exact (constructed_segments_survive_the_round_trip
           (ParquetSegment.plain "footer" "FOOTER" (Int 992) (Int 996))
           Samples.footer_segment eq_refl).
Defined.

(** The metadata structure of the indexed file runs from offset 3000 on. *)
Lemma indexed_file_structure_is_contiguous :
  exists hi,
    tiles 3000 hi (Samples.returned [] (buildMetadataStructureSegments Samples.indexed_file)) /\
    map ParquetSegment.id
        (Samples.returned [] (buildMetadataStructureSegments Samples.indexed_file))
      `sublist_of`
      ["schema_root"; "row_groups_metadata"; "column_indices"; "key_value_metadata"].
Proof.
  apply (metadata_structure_is_contiguous Samples.indexed_file Samples.indexed_metadata).
  - reflexivity.
  - vm_compute. reflexivity.
Defined.

(** The one row-group element of the indexed file covers [[3600, 3660)]. *)
Lemma indexed_file_row_group_elements :
  exists segs,
    Samples.returned [] (buildRowGroupMetadataSegments Samples.indexed_file) =
      [("row_groups_metadata", segs)] /\
    tiles 3600 3660 segs.
Proof.
  destruct (row_group_elements_fill_their_parent_size
              Samples.indexed_file Samples.indexed_metadata Samples.indexed_row_groups
              (Samples.returned [] (buildRowGroupMetadataSegments Samples.indexed_file))
              eq_refl eq_refl ltac:(vm_compute; reflexivity))
    as (segs & Hcache & _ & Htiles & _).
  exists segs. split; [exact Hcache | exact Htiles].
Defined.

(** The column chunks [a] and [b] of its row group cover [[0, 170)]: 100 bytes
    compressed, and 70 bytes uncompressed. *)
Lemma indexed_file_column_chunk_metadata :
  exists segs,
    (forall cache,
       columnchunkmetadata cache =
         Samples.returned [] (buildColumnChunkMetadataSegments Samples.indexed_file) ->
       getSegmentsForLevel cache "columnchunkmetadata" (Some ("rowgroup_meta_" +:+ pretty 0%nat)) =
       Array segs) /\
    tiles 0 170 segs /\
    Forall2 column_meta_segment (default [] (rg_column_chunks Samples.indexed_row_group)) segs.
Proof.
  destruct (column_chunk_metadata_fills_from_zero
              Samples.indexed_file Samples.indexed_row_groups 0 Samples.indexed_row_group
              (Samples.returned [] (buildColumnChunkMetadataSegments Samples.indexed_file))
              eq_refl eq_refl ltac:(vm_compute; reflexivity))
    as (segs & Hlevel & Htiles & Hsegs).
  exists segs. split; [exact Hlevel|]. split; [exact Htiles | exact Hsegs].
Defined.

(** The row group of the indexed file has the incomplete chunk [b]; the file
    has no negative number: its row-group segment is built, and its end and
    its size are NaN. *)
Lemma indexed_file_row_group_has_no_end :
  exists segs,
    buildRowGroupSegments Samples.indexed_file = Ok segs /\
    (exists seg, seg ∈ segs /\
                 ParquetSegment.id seg = "rowgroup_" +:+ pretty 0%nat /\
                 ParquetSegment.rowGroupIndex seg = Some 0%nat) /\
    forall seg, seg ∈ segs -> ParquetSegment.rowGroupIndex seg = Some 0%nat ->
      ParquetSegment.end_ seg = NaNi /\
      ParquetSegment.size seg = NaNi /\
      (start_offset Samples.incomplete_chunk = None -> ParquetSegment.start seg = NaNi).
Proof.
  apply (row_group_of_incomplete_chunks_has_no_range
           Samples.indexed_file Samples.indexed_row_groups 0 Samples.incomplete_chunk).
  - reflexivity.
  - simpl. lia.
  - vm_compute. reflexivity.
  - apply list_elem_of_lookup. exists 1%nat. vm_compute. reflexivity.
  - right. reflexivity.
Defined.

(** The drill-down and the two presses of Backspace are a run of the one-chunk
    file, under an info panel that throws on column elements. *)
Lemma drill_down_and_back_runs :
  runs Scenarios.one_chunk_cache Scenarios.plain_display (Some Scenarios.column_panel)
       (initWithData Scenarios.one_chunk_cache)
       Scenarios.drill_down_and_back Samples.back_at_overview.
Proof.
  apply runs_cons.
  { eexists. split; [vm_compute; reflexivity|].
    apply list_elem_of_lookup. exists 1%nat. vm_compute. reflexivity. }
  apply runs_cons.
  { eexists. split; [vm_compute; reflexivity|].
    apply list_elem_of_lookup. exists 0%nat. vm_compute. reflexivity. }
  apply runs_cons; [exact I|]. apply runs_cons; [exact I|]. apply runs_nil.
Qed.

(** After the two presses of Backspace the display is the root level alone, an
    initial part of the three levels of the path. *)
Lemma back_at_overview_shows_a_prefix :
  (exists n : nat,
     levels Samples.back_at_overview =
       take (S n) (rootLevel Scenarios.one_chunk_cache ::
                   map (levelFor Scenarios.one_chunk_cache)
                       (ancestors_with_children Scenarios.one_chunk_cache
                          (selectionPath Samples.back_at_overview)))) /\
  (forall (i : nat) (s : Segment),
     selectionPath Samples.back_at_overview !! i = Some s ->
     selectedSegments Samples.back_at_overview !! i = Some (ParquetSegment.id s)) /\
  (forall (i : nat) (s : Segment),
     selectionPath Samples.back_at_overview !! i = Some s ->
     (S i < length (selectionPath Samples.back_at_overview))%nat ->
     segmentHasChildren Scenarios.one_chunk_cache s = true) /\
  (length (levels Samples.back_at_overview) <=
   S (length (selectionPath Samples.back_at_overview)))%nat.
Proof.
  apply (displayed_levels_start_the_path_levels Scenarios.one_chunk_cache
           Scenarios.plain_display (Some Scenarios.column_panel) Scenarios.drill_down_and_back
           Samples.back_at_overview drill_down_and_back_runs).
  vm_compute. reflexivity.
Defined.

(** Escape after the two presses of Backspace gives the initial display. *)
Lemma escape_after_backspace :
  handleKeyDown Samples.back_at_overview "Escape" = initWithData Scenarios.one_chunk_cache.
Proof.
  exact (escape_returns_to_the_overview Scenarios.one_chunk_cache
           Scenarios.plain_display (Some Scenarios.column_panel) Scenarios.drill_down_and_back
           Samples.back_at_overview drill_down_and_back_runs).
Defined.

(** A click on the [metadata] segment after the two presses of Backspace shows
    two levels for a path of that one segment. *)
Lemma click_after_backspace :
  length (levels (handleSegmentClick Scenarios.one_chunk_cache
                    Scenarios.plain_display (Some Scenarios.column_panel) Samples.back_at_overview
                    Samples.metadata_segment 0)) = 2%nat /\
  selectionPath (handleSegmentClick Scenarios.one_chunk_cache
                   Scenarios.plain_display (Some Scenarios.column_panel) Samples.back_at_overview
                   Samples.metadata_segment 0) = [Samples.metadata_segment].
Proof.
  destruct (click_redisplays_the_path Scenarios.one_chunk_cache
              Scenarios.plain_display (Some Scenarios.column_panel)
              Scenarios.drill_down_and_back Samples.back_at_overview
              Samples.metadata_segment 0 drill_down_and_back_runs) as (Hlevels & Hpath & _).
  - vm_compute. reflexivity.
  - eexists. split; [vm_compute; reflexivity|].
    apply list_elem_of_lookup. exists 2%nat. vm_compute. reflexivity.
  - vm_compute. reflexivity.
  - split; [rewrite Hlevels, Hpath; vm_compute; reflexivity | rewrite Hpath; vm_compute; reflexivity].
Defined.

(** Two clicks on [rowgroups] from the initial display leave the overview alone
    with an empty path. *)
Lemma second_click_on_rowgroups :
  selectionPath
    (handleSegmentClick Scenarios.one_chunk_cache Scenarios.plain_display (Some Scenarios.column_panel)
       (handleSegmentClick Scenarios.one_chunk_cache Scenarios.plain_display (Some Scenarios.column_panel)
          (initWithData Scenarios.one_chunk_cache) Scenarios.rowgroups_segment 0)
       Scenarios.rowgroups_segment 0) = [] /\
  levels
    (handleSegmentClick Scenarios.one_chunk_cache Scenarios.plain_display (Some Scenarios.column_panel)
       (handleSegmentClick Scenarios.one_chunk_cache Scenarios.plain_display (Some Scenarios.column_panel)
          (initWithData Scenarios.one_chunk_cache) Scenarios.rowgroups_segment 0)
       Scenarios.rowgroups_segment 0) = levels (initWithData Scenarios.one_chunk_cache).
Proof.
  destruct (second_click_deselects Scenarios.one_chunk_cache Scenarios.plain_display (Some Scenarios.column_panel)
              [] (initWithData Scenarios.one_chunk_cache) Scenarios.rowgroups_segment 0
              (runs_nil _ _ _ _)) as (Hpath & Hlevels & _).
  - vm_compute. reflexivity.
  - eexists. split; [vm_compute; reflexivity|].
    apply list_elem_of_lookup. exists 1%nat. vm_compute. reflexivity.
  - reflexivity.
  - split; [exact Hpath | exact Hlevels].
Defined.
